(** * NovaSVG: the fixed-point trigonometric kernel (plutovg-ft-math)

    A shallow embedding of the FreeType-derived CORDIC kernel shipped with
    NovaSVG (fttrigon.h / fttrigon.c as vendored in plutovg), and the
    properties the specification states about it.

    Integers are modelled as [Z] with the wrap-around of the machine types
    written out; the vector struct is a record; the out-parameters of
    [PVG_FT_Vector_Polarize] are passed in and returned explicitly.  The
    accuracy of the polar round trip is measured against the exact
    rotations, computed on the reals. *)

From Stdlib Require Import ZArith List Lia Bool Znumtheory.
From Stdlib Require Import Reals Lra.
From Stdlib Require Sint63.
Import ListNotations.
Local Open Scope Z_scope.

(** ** Machine integers *)

(** Modelled from the spec: the typedefs of plutovg-ft-types.h
    (PVG_FT_Long, PVG_FT_Fixed, PVG_FT_Pos, PVG_FT_Int, PVG_FT_Int32,
    PVG_FT_ULong, PVG_FT_UInt32, PVG_FT_Int64, PVG_FT_UInt64) are not part
    of the sources at hand.  The specification fixes the scalar type as a
    signed 32-bit integer with 64-bit intermediates; conversions to a
    narrower type keep the low bits (two's complement). *)
Definition wrap32 (z : Z) : Z := (z + 2 ^ 31) mod 2 ^ 32 - 2 ^ 31.
Definition wrap64 (z : Z) : Z := (z + 2 ^ 63) mod 2 ^ 64 - 2 ^ 63.
Definition to_u32 (z : Z) : Z := z mod 2 ^ 32.
Definition to_u64 (z : Z) : Z := z mod 2 ^ 64.

Definition int32 (z : Z) : Prop := - 2 ^ 31 <= z < 2 ^ 31.

Definition INT32_MIN : Z := - 2 ^ 31.
Definition MAX_LONG : Z := 0x7FFFFFFF.

Record PVG_FT_Vector : Type := mkVec { vx : Z; vy : Z }.

(** ** Macros of the header *)

Definition PVG_FT_ABS (a : Z) : Z := if a <? 0 then wrap32 (- a) else a.

Definition PVG_FT_ANGLE_PI : Z := Z.shiftl 180 16.
Definition PVG_FT_ANGLE_2PI : Z := PVG_FT_ANGLE_PI * 2.
Definition PVG_FT_ANGLE_PI2 : Z := PVG_FT_ANGLE_PI / 2.
Definition PVG_FT_ANGLE_PI4 : Z := PVG_FT_ANGLE_PI / 4.

(** The portable [clz] of the source (third preprocessor branch); the two
    others (compiler intrinsics) agree with it on non-zero arguments. *)
Definition clz (x0 : Z) : Z :=
  let x := to_u32 x0 in
  if x =? 0 then 32 else
  let '(n, x) := if x <=? 0x0000FFFF then (16, to_u32 (Z.shiftl x 16)) else (0, x) in
  let '(n, x) := if x <=? 0x00FFFFFF then (n + 8, to_u32 (Z.shiftl x 8)) else (n, x) in
  let '(n, x) := if x <=? 0x0FFFFFFF then (n + 4, to_u32 (Z.shiftl x 4)) else (n, x) in
  let '(n, x) := if x <=? 0x3FFFFFFF then (n + 2, to_u32 (Z.shiftl x 2)) else (n, x) in
  if x <=? 0x7FFFFFFF then n + 1 else n.

Definition PVG_FT_MSB (x : Z) : Z := 31 - clz x.

Definition PVG_FT_PAD_FLOOR (x n : Z) : Z := Z.land x (Z.lnot (n - 1)).
Definition PVG_FT_PAD_ROUND (x n : Z) : Z := PVG_FT_PAD_FLOOR (wrap32 (x + n / 2)) n.

(** [PVG_FT_MOVE_SIGN(x, s)]: returns the new values of [x] and [s]. *)
Definition PVG_FT_MOVE_SIGN (x s : Z) : Z * Z :=
  if x <? 0 then (wrap32 (- x), - s) else (x, s).

(** ** Fixed-point arithmetic primitives *)

Definition PVG_FT_MulFix (a b : Z) : Z :=
  let s := 1 in
  let '(a, s) := PVG_FT_MOVE_SIGN a s in
  let '(b, s) := PVG_FT_MOVE_SIGN b s in
  let c := wrap32 (Z.shiftr (wrap64 (wrap64 (a * b) + 0x8000)) 16) in
  if s >? 0 then c else wrap32 (- c).

Definition PVG_FT_MulDiv (a b c : Z) : Z :=
  let s := 1 in
  let '(a, s) := PVG_FT_MOVE_SIGN a s in
  let '(b, s) := PVG_FT_MOVE_SIGN b s in
  let '(c, s) := PVG_FT_MOVE_SIGN c s in
  let d := wrap32 (if c >? 0
                   then Z.quot (wrap64 (wrap64 (a * b) + Z.shiftr c 1)) c
                   else 0x7FFFFFFF) in
  if s >? 0 then d else wrap32 (- d).

Definition PVG_FT_DivFix (a b : Z) : Z :=
  let s := 1 in
  let '(a, s) := PVG_FT_MOVE_SIGN a s in
  let '(b, s) := PVG_FT_MOVE_SIGN b s in
  let q := wrap32 (if b >? 0
                   then to_u64 (to_u64 (Z.shiftl (to_u64 a) 16) + Z.shiftr b 1) / b
                   else 0x7FFFFFFF) in
  if s <? 0 then wrap32 (- q) else q.

(** ** The CORDIC engine *)

Definition PVG_FT_TRIG_SCALE : Z := 0xDBD95B16.
Definition PVG_FT_TRIG_SAFE_MSB : Z := 29.
Definition PVG_FT_TRIG_MAX_ITERS : Z := 23.

Definition ft_trig_arctan_table : list Z :=
  [ 1740967; 919879; 466945; 234379; 117304; 58666; 29335; 14668;
    7334;    3667;   1833;   917;    458;    229;   115;   57;
    29;      14;     7;      4;      2;      1 ].

Definition ft_trig_downscale (val : Z) : Z :=
  let s := val in
  let val := PVG_FT_ABS val in
  let v := wrap64 (val * PVG_FT_TRIG_SCALE + 0x100000000) in
  let val := wrap32 (Z.shiftr v 32) in
  if s >=? 0 then val else wrap32 (- val).

(** Returns the rescaled vector and the shift applied. *)
Definition ft_trig_prenorm (vec : PVG_FT_Vector) : PVG_FT_Vector * Z :=
  let x := vx vec in
  let y := vy vec in
  let shift := PVG_FT_MSB (Z.lor (PVG_FT_ABS x) (PVG_FT_ABS y)) in
  if shift <=? PVG_FT_TRIG_SAFE_MSB then
    let shift := PVG_FT_TRIG_SAFE_MSB - shift in
    (mkVec (wrap32 (Z.shiftl (to_u32 x) shift))
           (wrap32 (Z.shiftl (to_u32 y) shift)), shift)
  else
    let shift := shift - PVG_FT_TRIG_SAFE_MSB in
    (mkVec (Z.shiftr x shift) (Z.shiftr y shift), - shift).

(** State of the pseudo-rotation loops: the loop counter [i], the rounding
    bit [b], the vector, the angle and the table pointer [arctanptr] (the
    part of the table not yet read). *)
Record cordic : Type := mkCordic {
  c_i : Z; c_b : Z; c_x : Z; c_y : Z; c_theta : Z; c_ptr : list Z
}.

(** [b <<= 1, i++] *)
Definition cordic_next (st : cordic) : cordic :=
  mkCordic (c_i st + 1) (wrap32 (Z.shiftl (c_b st) 1))
           (c_x st) (c_y st) (c_theta st) (c_ptr st).

(** One micro-rotation; [neg] is the branch taken ([theta < 0] in the
    rotation engine, [y > 0] in the polarization engine). *)
Definition cordic_body (neg : bool) (st : cordic) : cordic :=
  let i := c_i st in
  let b := c_b st in
  let x := c_x st in
  let y := c_y st in
  let v1 := Z.shiftr (wrap32 (y + b)) i in
  let v2 := Z.shiftr (wrap32 (x + b)) i in
  let a := hd 0 (c_ptr st) in
  if neg then
    mkCordic i b (wrap32 (x + v1)) (wrap32 (y - v2))
             (wrap32 (c_theta st + a)) (tl (c_ptr st))
  else
    mkCordic i b (wrap32 (x - v1)) (wrap32 (y + v2))
             (wrap32 (c_theta st - a)) (tl (c_ptr st)).

Definition rotate_body (st : cordic) : cordic :=
  cordic_body (c_theta st <? 0) st.

Definition polarize_body (st : cordic) : cordic :=
  cordic_body (c_y st >? 0) st.

(** [for (...; i < PVG_FT_TRIG_MAX_ITERS; b <<= 1, i++) body] *)
Fixpoint cordic_for (body : cordic -> cordic) (fuel : nat) (st : cordic) : cordic :=
  match fuel with
  | O => st
  | S fuel' =>
      if c_i st <? PVG_FT_TRIG_MAX_ITERS
      then cordic_for body fuel' (cordic_next (body st))
      else st
  end.

Definition for_fuel : nat := 22.

(** The two [while] loops of [ft_trig_pseudo_rotate]; [None] when the
    fuel runs out before the loop condition fails. *)
Fixpoint rotate_while_lt (fuel : nat) (x y theta : Z) : option (Z * Z * Z) :=
  match fuel with
  | O => None
  | S fuel' =>
      if theta <? - PVG_FT_ANGLE_PI4
      then rotate_while_lt fuel' y (wrap32 (- x)) (wrap32 (theta + PVG_FT_ANGLE_PI2))
      else Some (x, y, theta)
  end.

Fixpoint rotate_while_gt (fuel : nat) (x y theta : Z) : option (Z * Z * Z) :=
  match fuel with
  | O => None
  | S fuel' =>
      if theta >? PVG_FT_ANGLE_PI4
      then rotate_while_gt fuel' (wrap32 (- y)) x (wrap32 (theta - PVG_FT_ANGLE_PI2))
      else Some (x, y, theta)
  end.

Definition while_fuel : nat := 512.

Definition ft_trig_pseudo_rotate (vec : PVG_FT_Vector) (theta : Z)
  : option PVG_FT_Vector :=
  match rotate_while_lt while_fuel (vx vec) (vy vec) theta with
  | None => None
  | Some (x, y, theta) =>
      match rotate_while_gt while_fuel x y theta with
      | None => None
      | Some (x, y, theta) =>
          let st := cordic_for rotate_body for_fuel
                      (mkCordic 1 1 x y theta ft_trig_arctan_table) in
          Some (mkVec (c_x st) (c_y st))
      end
  end.

(** The octant reduction of [ft_trig_pseudo_polarize]: the turned vector
    and the initial angle. *)
Definition polarize_octant (x y : Z) : Z * Z * Z :=
  if y >? x then
    if y >? wrap32 (- x) then (y, wrap32 (- x), PVG_FT_ANGLE_PI2)
    else (wrap32 (- x), wrap32 (- y),
          if y >? 0 then PVG_FT_ANGLE_PI else - PVG_FT_ANGLE_PI)
  else
    if y <? wrap32 (- x) then (wrap32 (- y), x, - PVG_FT_ANGLE_PI2)
    else (x, y, 0).

Definition polarize_round (theta : Z) : Z :=
  if theta >=? 0 then PVG_FT_PAD_ROUND theta 32
  else wrap32 (- PVG_FT_PAD_ROUND (wrap32 (- theta)) 32).

(** On return [vx] holds the length component and [vy] the angle. *)
Definition ft_trig_pseudo_polarize (vec : PVG_FT_Vector) : PVG_FT_Vector :=
  let '(x, y, theta) := polarize_octant (vx vec) (vy vec) in
  let st := cordic_for polarize_body for_fuel
              (mkCordic 1 1 x y theta ft_trig_arctan_table) in
  mkVec (c_x st) (polarize_round (c_theta st)).

(** ** The public functions *)

Definition PVG_FT_Cos (angle : Z) : option Z :=
  match ft_trig_pseudo_rotate (mkVec (Z.shiftr PVG_FT_TRIG_SCALE 8) 0) angle with
  | None => None
  | Some v => Some (Z.shiftr (wrap32 (vx v + 0x80)) 8)
  end.

Definition PVG_FT_Sin (angle : Z) : option Z :=
  PVG_FT_Cos (wrap32 (PVG_FT_ANGLE_PI2 - angle)).

Definition PVG_FT_Tan (angle : Z) : option Z :=
  match ft_trig_pseudo_rotate (mkVec (Z.shiftr PVG_FT_TRIG_SCALE 8) 0) angle with
  | None => None
  | Some v => Some (PVG_FT_DivFix (vy v) (vx v))
  end.

Definition PVG_FT_Atan2 (dx dy : Z) : Z :=
  if (dx =? 0) && (dy =? 0) then 0
  else
    let '(v, _) := ft_trig_prenorm (mkVec dx dy) in
    vy (ft_trig_pseudo_polarize v).

Definition PVG_FT_Vector_Unit (angle : Z) : option PVG_FT_Vector :=
  match ft_trig_pseudo_rotate (mkVec (Z.shiftr PVG_FT_TRIG_SCALE 8) 0) angle with
  | None => None
  | Some v => Some (mkVec (Z.shiftr (wrap32 (vx v + 0x80)) 8)
                          (Z.shiftr (wrap32 (vy v + 0x80)) 8))
  end.

Definition PVG_FT_Vector_Rotate (vec : PVG_FT_Vector) (angle : Z)
  : option PVG_FT_Vector :=
  if (vx vec =? 0) && (vy vec =? 0) then Some vec
  else
    let '(v, shift) := ft_trig_prenorm vec in
    match ft_trig_pseudo_rotate v angle with
    | None => None
    | Some v =>
        let x := ft_trig_downscale (vx v) in
        let y := ft_trig_downscale (vy v) in
        if shift >? 0 then
          let half := wrap32 (Z.shiftl 1 (shift - 1)) in
          Some (mkVec
                  (Z.shiftr (wrap32 (wrap32 (x + half) - (if x <? 0 then 1 else 0))) shift)
                  (Z.shiftr (wrap32 (wrap32 (y + half) - (if y <? 0 then 1 else 0))) shift))
        else
          let shift := - shift in
          Some (mkVec (wrap32 (Z.shiftl (to_u32 x) shift))
                      (wrap32 (Z.shiftl (to_u32 y) shift)))
    end.

Definition PVG_FT_Vector_Length (vec : PVG_FT_Vector) : Z :=
  if vx vec =? 0 then PVG_FT_ABS (vy vec)
  else if vy vec =? 0 then PVG_FT_ABS (vx vec)
  else
    let '(v, shift) := ft_trig_prenorm vec in
    let v := ft_trig_pseudo_polarize v in
    let x := ft_trig_downscale (vx v) in
    if shift >? 0 then Z.shiftr (wrap32 (x + wrap32 (Z.shiftl 1 (shift - 1)))) shift
    else wrap32 (to_u32 (Z.shiftl (to_u32 x) (- shift))).

(** [length] and [angle] are the contents of the two out-parameters before
    the call; the result is their contents after it. *)
Definition PVG_FT_Vector_Polarize (vec : PVG_FT_Vector) (length angle : Z)
  : Z * Z :=
  if (vx vec =? 0) && (vy vec =? 0) then (length, angle)
  else
    let '(v, shift) := ft_trig_prenorm vec in
    let v := ft_trig_pseudo_polarize v in
    let x := ft_trig_downscale (vx v) in
    (if shift >=? 0 then Z.shiftr x shift
     else wrap32 (to_u32 (Z.shiftl (to_u32 x) (- shift))),
     vy v).

Definition PVG_FT_Vector_From_Polar (length angle : Z) : option PVG_FT_Vector :=
  PVG_FT_Vector_Rotate (mkVec length 0) angle.

(** The two [while] loops of [PVG_FT_Angle_Diff]. *)
Fixpoint diff_while_le (fuel : nat) (delta : Z) : option Z :=
  match fuel with
  | O => None
  | S fuel' =>
      if delta <=? - PVG_FT_ANGLE_PI
      then diff_while_le fuel' (wrap32 (delta + PVG_FT_ANGLE_2PI))
      else Some delta
  end.

Fixpoint diff_while_gt (fuel : nat) (delta : Z) : option Z :=
  match fuel with
  | O => None
  | S fuel' =>
      if delta >? PVG_FT_ANGLE_PI
      then diff_while_gt fuel' (wrap32 (delta - PVG_FT_ANGLE_2PI))
      else Some delta
  end.

Definition PVG_FT_Angle_Diff (angle1 angle2 : Z) : option Z :=
  let delta := wrap32 (angle2 - angle1) in
  match diff_while_le while_fuel delta with
  | None => None
  | Some delta => diff_while_gt while_fuel delta
  end.



(** * Properties *)

(** ** Facts about the machine-integer conversions *)

Ltac pow_consts :=
  change (2 ^ 31) with 2147483648 in *;
  change (2 ^ 32) with 4294967296 in *;
  change (2 ^ 63) with 9223372036854775808 in *;
  change (2 ^ 64) with 18446744073709551616 in *.

Ltac unfold_ints :=
  unfold int32, wrap32, wrap64, to_u32, to_u64, INT32_MIN, MAX_LONG in *;
  pow_consts.

Lemma wrap32_range (z : Z) : int32 (wrap32 z).
Proof.
  unfold_ints.
  pose proof (Z.mod_pos_bound (z + 2147483648) 4294967296 ltac:(lia)). lia.
Qed.

Lemma wrap32_id (z : Z) : int32 z -> wrap32 z = z.
Proof.
  unfold_ints. intros H.
  rewrite Z.mod_small by lia. lia.
Qed.

Lemma wrap32_shift (z : Z) : exists k, wrap32 z = z + k * 2 ^ 32.
Proof.
  unfold_ints. exists (- ((z + 2147483648) / 4294967296)).
  pose proof (Z.div_mod (z + 2147483648) 4294967296 ltac:(lia)). lia.
Qed.

Lemma wrap32_neg_pos (z : Z) : - 2 ^ 31 < z < 0 -> wrap32 (- z) = - z.
Proof. intros H. apply wrap32_id. unfold_ints. lia. Qed.

Lemma wrap32_neg_min : wrap32 (- INT32_MIN) = INT32_MIN.
Proof. reflexivity. Qed.

Lemma wrap64_id (z : Z) : - 2 ^ 63 <= z < 2 ^ 63 -> wrap64 z = z.
Proof.
  unfold_ints. intros H.
  rewrite Z.mod_small by lia. lia.
Qed.

Lemma to_u64_id (z : Z) : 0 <= z < 2 ^ 64 -> to_u64 z = z.
Proof. unfold_ints. intros H. apply Z.mod_small; lia. Qed.

Lemma Zdivide_wrap32 (m z : Z) : (m | 2 ^ 32) -> (m | z) -> (m | wrap32 z).
Proof.
  intros Hm Hz. destruct (wrap32_shift z) as [k ->].
  apply Z.divide_add_r; [exact Hz|]. apply Z.divide_mul_r. exact Hm.
Qed.

(** Sign of an operand as [PVG_FT_MOVE_SIGN] sees it. *)
Definition sgn (z : Z) : Z := if z <? 0 then -1 else 1.

Lemma MOVE_SIGN_snd (x s : Z) : snd (PVG_FT_MOVE_SIGN x s) = sgn x * s.
Proof. unfold PVG_FT_MOVE_SIGN, sgn. destruct (x <? 0); cbn [snd]; lia. Qed.

Lemma MOVE_SIGN_fst (x s : Z) :
  fst (PVG_FT_MOVE_SIGN x s) = PVG_FT_ABS x.
Proof. unfold PVG_FT_MOVE_SIGN, PVG_FT_ABS. destruct (x <? 0); reflexivity. Qed.

Lemma MOVE_SIGN_eq (x s : Z) :
  PVG_FT_MOVE_SIGN x s = (PVG_FT_ABS x, sgn x * s).
Proof.
  rewrite <- MOVE_SIGN_fst with (s := s), <- MOVE_SIGN_snd.
  destruct (PVG_FT_MOVE_SIGN x s); reflexivity.
Qed.

Lemma ABS_small (x : Z) : INT32_MIN < x < 2 ^ 31 -> PVG_FT_ABS x = Z.abs x.
Proof.
  unfold PVG_FT_ABS, INT32_MIN. intros H.
  destruct (Z.ltb_spec x 0).
  - rewrite wrap32_neg_pos by lia. lia.
  - lia.
Qed.

Lemma ABS_degenerate (c : Z) :
  int32 c -> (PVG_FT_ABS c <= 0 <-> c = 0 \/ c = INT32_MIN).
Proof.
  unfold int32, INT32_MIN. intros H. split.
  - intros Hle. destruct (Z.eq_dec c (- 2 ^ 31)) as [|Hne]; [now right|left].
    rewrite ABS_small in Hle by (unfold INT32_MIN; lia). lia.
  - intros [-> | ->]; vm_compute; discriminate.
Qed.

(** ** C5: the degenerate divisor of [PVG_FT_MulDiv] *)

(** The claim as stated fails: with operands of opposite signs the sentinel
    comes back negated. *)
Lemma MulDiv_degenerate_counterexample :
  fst (PVG_FT_MOVE_SIGN 0 1) <= 0 /\ PVG_FT_MulDiv (-1) 1 0 <> 0x7FFFFFFF.
Proof. split; vm_compute; discriminate. Qed.

(** C5 (amended): a divisor above the most negative 32-bit value that is
    degenerate (not positive after the sign extraction) is the divisor
    zero, and for all operands [a] and [b] [PVG_FT_MulDiv] then returns
    the sentinel 0x7FFFFFFF carrying the product of the signs of [a] and
    [b]: 0x7FFFFFFF when that sign is positive, -0x7FFFFFFF when it is
    negative.  The most negative divisor is left out: its negation
    overflows, which C leaves undefined. *)
Theorem MulDiv_degenerate (a b c : Z) :
  INT32_MIN < c < 2 ^ 31 ->
  fst (PVG_FT_MOVE_SIGN c 1) <= 0 ->
  c = 0 /\ PVG_FT_MulDiv a b c = sgn a * sgn b * 0x7FFFFFFF.
Proof.
  intros Hr Hc. rewrite MOVE_SIGN_fst in Hc.
  assert (c = 0) as ->.
  { rewrite ABS_small in Hc by exact Hr. lia. }
  split; [reflexivity|].
  unfold PVG_FT_MulDiv. rewrite !MOVE_SIGN_eq.
  change (PVG_FT_ABS 0 >? 0) with false.
  unfold sgn. destruct (a <? 0), (b <? 0); reflexivity.
Qed.

Lemma MulDiv_degenerate_witness :
  0 = 0 /\ PVG_FT_MulDiv (-3) 5 0 = sgn (-3) * sgn 5 * 0x7FFFFFFF.
Proof.
  apply (MulDiv_degenerate (-3) 5 0).
  - vm_compute. split; reflexivity.
  - vm_compute. discriminate.
Defined.

(** ** C6: [PVG_FT_DivFix] *)

(** The rounding of the specification: the quotient [n / d] rounded to the
    nearest integer, halves away from zero. *)
Definition round_half_away (n d : Z) : Z :=
  Z.sgn n * Z.sgn d * ((2 * Z.abs n + Z.abs d) / (2 * Z.abs d)).

Lemma div_half_up (n d : Z) :
  0 <= n -> 0 < d -> (n + d / 2) / d = (2 * n + d) / (2 * d).
Proof.
  intros Hn Hd.
  pose proof (Z.div_mod d 2 ltac:(lia)) as Hh.
  pose proof (Z.mod_pos_bound d 2 ltac:(lia)) as Hr.
  pose proof (Z.div_mod (2 * n + d) (2 * d) ltac:(lia)) as Hq.
  pose proof (Z.mod_pos_bound (2 * n + d) (2 * d) ltac:(lia)) as Hqr.
  set (q := (2 * n + d) / (2 * d)) in *.
  symmetry. apply Z.div_unique with (r := n + d / 2 - d * q).
  - left. nia.
  - lia.
Qed.

Lemma shiftl_16 (z : Z) : Z.shiftl z 16 = z * 65536.
Proof. rewrite Z.shiftl_mul_pow2 by lia. reflexivity. Qed.

Lemma shiftr_1 (z : Z) : Z.shiftr z 1 = z / 2.
Proof. rewrite Z.shiftr_div_pow2 by lia. reflexivity. Qed.

Lemma DivFix_zero_divisor (a : Z) : PVG_FT_DivFix a 0 = sgn a * 0x7FFFFFFF.
Proof.
  unfold PVG_FT_DivFix. rewrite !MOVE_SIGN_eq.
  unfold sgn. destruct (a <? 0); reflexivity.
Qed.

Lemma DivFix_magnitude (a b : Z) :
  INT32_MIN < a < 2 ^ 31 -> INT32_MIN < b < 2 ^ 31 -> b <> 0 ->
  (Z.abs a * 65536 + Z.abs b / 2) / Z.abs b < 2 ^ 31 ->
  PVG_FT_DivFix a b =
  sgn a * sgn b * ((Z.abs a * 65536 + Z.abs b / 2) / Z.abs b).
Proof.
  intros Ha Hb Hb0 Hq.
  unfold PVG_FT_DivFix. rewrite !MOVE_SIGN_eq.
  rewrite !ABS_small by assumption.
  unfold INT32_MIN in *. pow_consts.
  replace (Z.abs b >? 0) with true by (symmetry; apply Z.gtb_lt; lia).
  rewrite (to_u64_id (Z.abs a)) by (pow_consts; lia).
  rewrite shiftl_16, shiftr_1.
  assert (0 <= Z.abs b / 2 <= Z.abs b) as Hh.
  { pose proof (Z.div_mod (Z.abs b) 2 ltac:(lia)).
    pose proof (Z.mod_pos_bound (Z.abs b) 2 ltac:(lia)). lia. }
  rewrite (to_u64_id (Z.abs a * 65536)) by (pow_consts; lia).
  rewrite to_u64_id by (pow_consts; lia).
  set (q := (Z.abs a * 65536 + Z.abs b / 2) / Z.abs b) in *.
  assert (0 <= q) as Hq0 by (apply Z.div_pos; lia).
  rewrite (wrap32_id q) by (unfold_ints; lia).
  unfold sgn.
  destruct (Z.ltb_spec a 0), (Z.ltb_spec b 0).
  all: match goal with
       | |- context [?s <? 0] =>
           let v := eval vm_compute in (s <? 0) in change (s <? 0) with v
       end; cbv iota.
  all: try rewrite wrap32_id by (unfold_ints; lia); lia.
Qed.

Lemma DivFix_rounds (a b : Z) :
  INT32_MIN < a < 2 ^ 31 -> INT32_MIN < b < 2 ^ 31 -> b <> 0 ->
  Z.abs (round_half_away (a * 65536) b) < 2 ^ 31 ->
  PVG_FT_DivFix a b = round_half_away (a * 65536) b.
Proof.
  intros Ha Hb Hb0 Hfit.
  assert (round_half_away (a * 65536) b =
          Z.sgn a * Z.sgn b * ((Z.abs a * 65536 + Z.abs b / 2) / Z.abs b)) as Hr.
  { unfold round_half_away.
    rewrite div_half_up by lia.
    replace (Z.abs (a * 65536)) with (Z.abs a * 65536) by lia.
    replace (Z.sgn (a * 65536)) with (Z.sgn a) by lia.
    reflexivity. }
  set (q := (Z.abs a * 65536 + Z.abs b / 2) / Z.abs b) in *.
  assert (0 <= q) as Hq0.
  { apply Z.div_pos; [|lia].
    pose proof (Z.div_pos (Z.abs b) 2 ltac:(lia) ltac:(lia)). lia. }
  destruct (Z.eq_dec a 0) as [-> | Ha0].
  - rewrite Hr. unfold PVG_FT_DivFix. rewrite !MOVE_SIGN_eq.
    rewrite ABS_small by assumption.
    unfold INT32_MIN in *. pow_consts.
    replace (Z.abs b >? 0) with true by (symmetry; apply Z.gtb_lt; lia).
    change (PVG_FT_ABS 0) with 0. change (to_u64 0) with 0.
    change (Z.shiftl 0 16) with 0. change (to_u64 0) with 0.
    rewrite shiftr_1, Z.add_0_l.
    assert (0 <= Z.abs b / 2 < Z.abs b) as Hh.
    { pose proof (Z.div_mod (Z.abs b) 2 ltac:(lia)).
      pose proof (Z.mod_pos_bound (Z.abs b) 2 ltac:(lia)). lia. }
    rewrite to_u64_id by (pow_consts; lia).
    rewrite Z.div_small by lia.
    unfold sgn. destruct (b <? 0); reflexivity.
  - rewrite DivFix_magnitude; try assumption.
    + rewrite Hr. fold q. unfold sgn.
      destruct (Z.ltb_spec a 0), (Z.ltb_spec b 0); lia.
    + fold q. rewrite Hr in Hfit.
      assert (Z.abs (Z.sgn a * Z.sgn b) = 1) as Hs by lia.
      rewrite Z.abs_mul, Hs in Hfit. lia.
Qed.

(** C6: [PVG_FT_DivFix a 0] is, for every [a], the saturated magnitude
    0x7FFFFFFF with the sign of [a]; for every divisor [b] other than zero
    and above the most negative 32-bit value (whose negation is undefined
    in C), [PVG_FT_DivFix 0 b] is zero and, for [a] above the most negative
    value and a rounded quotient that fits the 32-bit result (the
    arithmetic primitives are specified for results that do not overflow),
    [PVG_FT_DivFix a b] is [a * 65536 / b] rounded to nearest, halves away
    from zero. *)
Theorem DivFix_spec (a b : Z) :
  (b = 0 -> PVG_FT_DivFix a b = sgn a * 0x7FFFFFFF) /\
  (INT32_MIN < b < 2 ^ 31 -> b <> 0 ->
   (a = 0 -> PVG_FT_DivFix a b = 0) /\
   (INT32_MIN < a < 2 ^ 31 ->
    Z.abs (round_half_away (a * 65536) b) < 2 ^ 31 ->
    PVG_FT_DivFix a b = round_half_away (a * 65536) b)).
Proof.
  split.
  - intros ->. apply DivFix_zero_divisor.
  - intros Hb Hb0. split.
    + intros ->. rewrite DivFix_rounds; try assumption.
      * unfold round_half_away. reflexivity.
      * vm_compute. split; reflexivity.
      * unfold round_half_away. cbn [Z.sgn Z.mul Z.abs]. pow_consts. lia.
    + intros Ha Hfit. apply DivFix_rounds; assumption.
Qed.

Lemma DivFix_spec_witness :
  PVG_FT_DivFix (-7) 0 = sgn (-7) * 0x7FFFFFFF /\
  PVG_FT_DivFix 0 (-5) = 0 /\
  PVG_FT_DivFix 196608 (-131072) = round_half_away (196608 * 65536) (-131072).
Proof.
  split; [|split].
  - refine (proj1 (DivFix_spec (-7) 0) _). reflexivity.
  - refine (proj1 (proj2 (DivFix_spec 0 (-5)) _ _) _);
      [vm_compute; split; reflexivity | discriminate | reflexivity].
  - refine (proj2 (proj2 (DivFix_spec 196608 (-131072)) _ _) _ _);
      [vm_compute; split; reflexivity | discriminate
      | vm_compute; split; reflexivity | vm_compute; reflexivity].
Defined.

(** ** C7: [PVG_FT_Angle_Diff] *)

Lemma angle_consts :
  PVG_FT_ANGLE_PI = 11796480 /\ PVG_FT_ANGLE_2PI = 23592960 /\
  PVG_FT_ANGLE_PI2 = 5898240 /\ PVG_FT_ANGLE_PI4 = 2949120.
Proof. repeat split. Qed.

Ltac angle_consts :=
  change PVG_FT_ANGLE_PI with 11796480 in *;
  change PVG_FT_ANGLE_2PI with 23592960 in *;
  change PVG_FT_ANGLE_PI2 with 5898240 in *;
  change PVG_FT_ANGLE_PI4 with 2949120 in *;
  change (Z.opp 11796480) with (-11796480) in *;
  change (Z.opp 5898240) with (-5898240) in *;
  change (Z.opp 2949120) with (-2949120) in *.

(** The first loop adds full turns until the difference exceeds -PI. *)
Lemma diff_while_le_spec (fuel : nat) (delta : Z) :
  int32 delta -> (0 < fuel)%nat ->
  - PVG_FT_ANGLE_PI - delta < (Z.of_nat fuel - 1) * PVG_FT_ANGLE_2PI ->
  exists r k, diff_while_le fuel delta = Some r /\ 0 <= k /\
              r = delta + k * PVG_FT_ANGLE_2PI /\
              - PVG_FT_ANGLE_PI < r /\ (k = 0 \/ r <= PVG_FT_ANGLE_PI).
Proof.
  revert delta. induction fuel as [|fuel IH]; intros delta Hd Hpos Hf.
  - lia.
  - cbn [diff_while_le]. destruct (Z.leb_spec delta (- PVG_FT_ANGLE_PI)) as [Hle|Hgt].
    + assert (wrap32 (delta + PVG_FT_ANGLE_2PI) = delta + PVG_FT_ANGLE_2PI) as Hw.
      { apply wrap32_id. angle_consts. unfold_ints. lia. }
      rewrite Hw.
      destruct (IH (delta + PVG_FT_ANGLE_2PI)) as (r & k & Hr & Hk & Heq & Hlo & Hhi).
      { angle_consts. unfold_ints. lia. }
      { angle_consts. lia. }
      { angle_consts. lia. }
      exists r, (k + 1). repeat split; try assumption; try lia.
      right. destruct Hhi as [-> | Hhi]; [|exact Hhi].
      angle_consts. lia.
    + exists delta, 0. repeat split; try lia.
Qed.

(** The second loop subtracts full turns until the difference is at most PI. *)
Lemma diff_while_gt_spec (fuel : nat) (delta : Z) :
  int32 delta -> (0 < fuel)%nat ->
  delta - PVG_FT_ANGLE_PI <= (Z.of_nat fuel - 1) * PVG_FT_ANGLE_2PI ->
  exists r k, diff_while_gt fuel delta = Some r /\ 0 <= k /\
              r = delta - k * PVG_FT_ANGLE_2PI /\
              r <= PVG_FT_ANGLE_PI /\ (k = 0 \/ - PVG_FT_ANGLE_PI < r).
Proof.
  revert delta. induction fuel as [|fuel IH]; intros delta Hd Hpos Hf.
  - lia.
  - cbn [diff_while_gt]. rewrite Z.gtb_ltb.
    destruct (Z.ltb_spec PVG_FT_ANGLE_PI delta) as [Hgt|Hle].
    + assert (wrap32 (delta - PVG_FT_ANGLE_2PI) = delta - PVG_FT_ANGLE_2PI) as Hw.
      { apply wrap32_id. angle_consts. unfold_ints. lia. }
      rewrite Hw.
      destruct (IH (delta - PVG_FT_ANGLE_2PI)) as (r & k & Hr & Hk & Heq & Hhi & Hlo).
      { angle_consts. unfold_ints. lia. }
      { angle_consts. lia. }
      { angle_consts. lia. }
      exists r, (k + 1). repeat split; try assumption; try lia.
      right. destruct Hlo as [-> | Hlo]; [|exact Hlo].
      angle_consts. lia.
    + exists delta, 0. repeat split; try lia.
Qed.

(** [PVG_FT_Angle_Diff] on the machine difference [delta]. *)
Lemma Angle_Diff_delta (angle1 angle2 : Z) :
  exists r k, PVG_FT_Angle_Diff angle1 angle2 = Some r /\
              r = wrap32 (angle2 - angle1) + k * PVG_FT_ANGLE_2PI /\
              - PVG_FT_ANGLE_PI < r <= PVG_FT_ANGLE_PI.
Proof.
  unfold PVG_FT_Angle_Diff.
  pose proof (wrap32_range (angle2 - angle1)) as Hd.
  set (delta := wrap32 (angle2 - angle1)) in *.
  destruct (diff_while_le_spec while_fuel delta Hd) as (r1 & k1 & Hr1 & Hk1 & He1 & Hlo1 & Hhi1).
  { unfold while_fuel. apply Nat.lt_0_succ. }
  { change (Z.of_nat while_fuel) with 512. angle_consts. unfold_ints. lia. }
  rewrite Hr1.
  assert (int32 r1) as Hr1i.
  { destruct Hhi1 as [-> | Hhi1].
    - rewrite He1. replace (delta + 0 * PVG_FT_ANGLE_2PI) with delta by lia. exact Hd.
    - angle_consts. unfold_ints. lia. }
  destruct (diff_while_gt_spec while_fuel r1 Hr1i) as (r2 & k2 & Hr2 & Hk2 & He2 & Hhi2 & Hlo2).
  { unfold while_fuel. apply Nat.lt_0_succ. }
  { change (Z.of_nat while_fuel) with 512. angle_consts. unfold_ints. lia. }
  exists r2, (k1 - k2). split; [exact Hr2|]. split; [lia|].
  split; [|exact Hhi2].
  destruct Hlo2 as [-> | Hlo2]; [lia | exact Hlo2].
Qed.

(** The reduction of the specification: the representative of [theta]
    modulo a full turn in the half-open interval (-PI, PI]. *)
Definition angle_reduce (theta : Z) : Z :=
  theta - PVG_FT_ANGLE_2PI * ((theta + PVG_FT_ANGLE_PI - 1) / PVG_FT_ANGLE_2PI).

Lemma angle_reduce_unique (theta r k : Z) :
  r = theta + k * PVG_FT_ANGLE_2PI ->
  - PVG_FT_ANGLE_PI < r <= PVG_FT_ANGLE_PI ->
  r = angle_reduce theta.
Proof.
  intros Hr Hrange. unfold angle_reduce.
  assert ((theta + PVG_FT_ANGLE_PI - 1) / PVG_FT_ANGLE_2PI = - k) as ->.
  { symmetry.
    apply Z.div_unique with (r := theta + PVG_FT_ANGLE_PI - 1 + k * PVG_FT_ANGLE_2PI).
    - left. angle_consts. lia.
    - lia. }
  lia.
Qed.

Lemma wrap32_sub_add (a theta : Z) :
  int32 theta -> wrap32 (wrap32 (a + theta) - a) = theta.
Proof.
  intros Ht. destruct (wrap32_shift (a + theta)) as [k Hk]. rewrite Hk.
  replace (a + theta + k * 2 ^ 32 - a) with (theta + k * 2 ^ 32) by lia.
  unfold wrap32. pow_consts.
  replace (theta + k * 4294967296 + 2147483648)
    with (theta + 2147483648 + k * 4294967296) by lia.
  rewrite Z.mod_add by lia.
  unfold_ints. rewrite Z.mod_small by lia. lia.
Qed.

(** C7: when the difference [angle2 - angle1] fits 32 bits,
    [PVG_FT_Angle_Diff] returns it shifted by a whole number of full turns
    into (-PI, PI]; and the difference between [a] and [a + theta] (machine
    addition) is [theta] reduced into that interval -- exactly, hence within
    one resolution unit. *)
Theorem Angle_Diff_spec (angle1 angle2 : Z) :
  int32 angle1 -> int32 angle2 ->
  (int32 (angle2 - angle1) ->
   exists r k, PVG_FT_Angle_Diff angle1 angle2 = Some r /\
               r = angle2 - angle1 + k * PVG_FT_ANGLE_2PI /\
               - PVG_FT_ANGLE_PI < r <= PVG_FT_ANGLE_PI) /\
  (forall theta, int32 theta -> angle2 = wrap32 (angle1 + theta) ->
   exists r, PVG_FT_Angle_Diff angle1 angle2 = Some r /\
             - PVG_FT_ANGLE_PI < r <= PVG_FT_ANGLE_PI /\
             Z.abs (r - angle_reduce theta) <= 1).
Proof.
  intros H1 H2.
  destruct (Angle_Diff_delta angle1 angle2) as (r & k & Hr & Heq & Hrange).
  split.
  - intros Hfit. exists r, k. rewrite wrap32_id in Heq by exact Hfit. auto.
  - intros theta Ht ->. exists r. split; [exact Hr|]. split; [exact Hrange|].
    rewrite wrap32_sub_add in Heq by exact Ht.
    rewrite (angle_reduce_unique theta r k Heq Hrange). lia.
Qed.

Lemma Angle_Diff_spec_witness :
  (exists r k, PVG_FT_Angle_Diff 65536 (-20000000) = Some r /\
               r = -20000000 - 65536 + k * PVG_FT_ANGLE_2PI /\
               - PVG_FT_ANGLE_PI < r <= PVG_FT_ANGLE_PI) /\
  (exists r, PVG_FT_Angle_Diff 65536 (-20000000) = Some r /\
             - PVG_FT_ANGLE_PI < r <= PVG_FT_ANGLE_PI /\
             Z.abs (r - angle_reduce (-20065536)) <= 1).
Proof.
  assert (int32 65536) as H1 by (vm_compute; split; [discriminate | reflexivity]).
  assert (int32 (-20000000)) as H2 by (vm_compute; split; [discriminate | reflexivity]).
  destruct (Angle_Diff_spec 65536 (-20000000) H1 H2) as [Ha Hb].
  split.
  - apply Ha. vm_compute; split; [discriminate | reflexivity].
  - apply Hb; [vm_compute; split; [discriminate | reflexivity] | reflexivity].
Defined.

(** ** C9: the zero vector *)

(** C9: [PVG_FT_Atan2] returns 0 on the zero vector without running the
    engine; [PVG_FT_Vector_Polarize] returns early too, but stores nothing:
    the two out-parameters keep whatever they held. *)
Theorem zero_vector_early_return (length angle : Z) :
  PVG_FT_Atan2 0 0 = 0 /\
  PVG_FT_Vector_Polarize (mkVec 0 0) length angle = (length, angle).
Proof. split; reflexivity. Qed.

Lemma Vector_Polarize_zero_angle_not_reset :
  snd (PVG_FT_Vector_Polarize (mkVec 0 0) 7 12345) <> 0.
Proof. vm_compute. discriminate. Qed.

(** ** C4: the axis cases of [PVG_FT_Atan2] *)

(** The claim as stated fails on the negative x axis. *)
Lemma Atan2_axes_counterexample :
  PVG_FT_Atan2 (-65536) 0 <> 180 * 2 ^ 16.
Proof. vm_compute. discriminate. Qed.

(** C4 (amended): [PVG_FT_Atan2] is 0 on the zero vector and on the
    positive x axis, exactly 90 degrees on the positive y axis, and
    minus 180 degrees on the negative x axis. *)
Theorem Atan2_axes :
  PVG_FT_Atan2 0 0 = 0 /\
  PVG_FT_Atan2 65536 0 = 0 /\
  PVG_FT_Atan2 0 65536 = 90 * 2 ^ 16 /\
  PVG_FT_Atan2 (-65536) 0 = - (180 * 2 ^ 16).
Proof. repeat split; vm_compute; reflexivity. Qed.

(** ** C10: the angle is rounded to a multiple of 32 *)

Lemma PAD_FLOOR_32 (x : Z) : PVG_FT_PAD_FLOOR x 32 = 32 * (x / 32).
Proof.
  unfold PVG_FT_PAD_FLOOR. change (32 - 1) with (Z.ones 5).
  change (Z.land x (Z.lnot (Z.ones 5))) with (Z.ldiff x (Z.ones 5)).
  rewrite Z.ldiff_ones_r by lia.
  rewrite Z.shiftr_div_pow2, Z.shiftl_mul_pow2 by lia.
  change (2 ^ 5) with 32. lia.
Qed.

Lemma polarize_round_divide (theta : Z) : (32 | polarize_round theta).
Proof.
  unfold polarize_round, PVG_FT_PAD_ROUND.
  destruct (theta >=? 0).
  - rewrite PAD_FLOOR_32. apply Z.divide_factor_l.
  - apply Zdivide_wrap32; [exists (2 ^ 27); reflexivity|].
    rewrite PAD_FLOOR_32. apply Z.divide_opp_r, Z.divide_factor_l.
Qed.

Lemma pseudo_polarize_angle_divide (v : PVG_FT_Vector) :
  (32 | vy (ft_trig_pseudo_polarize v)).
Proof.
  unfold ft_trig_pseudo_polarize.
  destruct (polarize_octant (vx v) (vy v)) as [[x y] theta].
  cbn [vy]. apply polarize_round_divide.
Qed.


(** ** The loops as iterated micro-rotations *)

(** One micro-rotation, numbered [i], on the triple (x, y, theta); [dec]
    selects the branch from the current triple. *)
Definition micro_rotation (dec : Z * Z * Z -> bool) (i : Z) (st : Z * Z * Z)
  : Z * Z * Z :=
  let '(x, y, theta) := st in
  let a := nth (Z.to_nat (i - 1)) ft_trig_arctan_table 0 in
  let b := 2 ^ (i - 1) in
  let v1 := Z.shiftr (wrap32 (y + b)) i in
  let v2 := Z.shiftr (wrap32 (x + b)) i in
  if dec st
  then (wrap32 (x + v1), wrap32 (y - v2), wrap32 (theta + a))
  else (wrap32 (x - v1), wrap32 (y + v2), wrap32 (theta - a)).

(** Micro-rotations number [i], [i + 1], ..., [i + n - 1]. *)
Definition micro_rotations (dec : Z * Z * Z -> bool) (i n : nat) (st : Z * Z * Z)
  : Z * Z * Z :=
  fold_left (fun st j => micro_rotation dec (Z.of_nat j) st) (seq i n) st.

Definition by_angle (st : Z * Z * Z) : bool := snd st <? 0.
Definition by_ordinate (st : Z * Z * Z) : bool := snd (fst st) >? 0.

Definition cordic_triple (st : cordic) : Z * Z * Z := (c_x st, c_y st, c_theta st).

Definition cordic_dec (dec : Z * Z * Z -> bool) (st : cordic) : cordic :=
  cordic_body (dec (cordic_triple st)) st.

Lemma rotate_body_dec (st : cordic) : rotate_body st = cordic_dec by_angle st.
Proof. reflexivity. Qed.

Lemma polarize_body_dec (st : cordic) : polarize_body st = cordic_dec by_ordinate st.
Proof. reflexivity. Qed.

Lemma skipn_hd_nth {A} (l : list A) (k : nat) (d : A) :
  hd d (skipn k l) = nth k l d.
Proof.
  revert l. induction k as [|k IH]; intros [|a l]; cbn; try reflexivity.
  apply IH.
Qed.

Lemma skipn_tl {A} (l : list A) (k : nat) : tl (skipn k l) = skipn (S k) l.
Proof.
  revert l. induction k as [|k IH]; intros l.
  - destruct l; reflexivity.
  - destruct l as [|a l]; [reflexivity|].
    change (skipn (S k) (a :: l)) with (skipn k l).
    change (skipn (S (S k)) (a :: l)) with (skipn (S k) l).
    apply IH.
Qed.

Lemma pow2_double_32 (i : Z) :
  1 <= i <= 30 -> wrap32 (Z.shiftl (2 ^ (i - 1)) 1) = 2 ^ i.
Proof.
  intros Hi. rewrite Z.shiftl_mul_pow2 by lia.
  replace (2 ^ (i - 1) * 2 ^ 1) with (2 ^ i).
  - apply wrap32_id. unfold int32. split.
    + pose proof (Z.pow_pos_nonneg 2 i ltac:(lia) ltac:(lia)). lia.
    + apply Z.pow_lt_mono_r; lia.
  - replace i with (i - 1 + 1) at 1 by lia.
    rewrite Z.pow_add_r by lia. reflexivity.
Qed.

(** State of the [for] loop on entering iteration [i]. *)
Definition cordic_at (i : nat) (st : Z * Z * Z) : cordic :=
  let '(x, y, theta) := st in
  mkCordic (Z.of_nat i) (2 ^ (Z.of_nat i - 1)) x y theta
           (skipn (i - 1) ft_trig_arctan_table).

Lemma cordic_step_at (dec : Z * Z * Z -> bool) (i : nat) (st : Z * Z * Z) :
  (1 <= i <= 30)%nat ->
  cordic_next (cordic_dec dec (cordic_at i st)) =
  cordic_at (S i) (micro_rotation dec (Z.of_nat i) st).
Proof.
  intros Hi. destruct st as [[x y] theta].
  unfold cordic_dec, cordic_body, cordic_next, micro_rotation, cordic_at, cordic_triple.
  cbn [c_i c_b c_x c_y c_theta c_ptr].
  destruct (dec (x, y, theta)); cbn [c_i c_b c_x c_y c_theta c_ptr].
  all: rewrite skipn_hd_nth, skipn_tl.
  all: replace (Z.to_nat (Z.of_nat i - 1)) with (i - 1)%nat by lia.
  all: replace (S (i - 1)) with (S i - 1)%nat by lia.
  all: replace (Z.of_nat (S i) - 1) with (Z.of_nat i) by lia.
  all: replace (Z.of_nat i + 1) with (Z.of_nat (S i)) by lia.
  all: rewrite pow2_double_32 by lia.
  all: reflexivity.
Qed.

Lemma cordic_for_micro (dec : Z * Z * Z -> bool) (n i : nat) (st : Z * Z * Z) :
  (1 <= i)%nat -> (i + n <= 23)%nat ->
  cordic_for (cordic_dec dec) n (cordic_at i st) =
  cordic_at (i + n) (micro_rotations dec i n st).
Proof.
  revert i st. induction n as [|n IH]; intros i st Hi Hn.
  - rewrite Nat.add_0_r. reflexivity.
  - cbn [cordic_for].
    assert ((c_i (cordic_at i st) <? PVG_FT_TRIG_MAX_ITERS) = true) as ->.
    { destruct st as [[x y] theta]. cbn [cordic_at c_i].
      apply Z.ltb_lt. unfold PVG_FT_TRIG_MAX_ITERS. lia. }
    rewrite cordic_step_at by lia.
    rewrite IH by lia.
    replace (S i + n)%nat with (i + S n)%nat by lia.
    reflexivity.
Qed.

Lemma cordic_for_all (dec : Z * Z * Z -> bool) (x y theta : Z) :
  cordic_triple
    (cordic_for (cordic_dec dec) for_fuel
                (mkCordic 1 1 x y theta ft_trig_arctan_table)) =
  micro_rotations dec 1 22 (x, y, theta).
Proof.
  change (mkCordic 1 1 x y theta ft_trig_arctan_table)
    with (cordic_at 1 (x, y, theta)).
  unfold for_fuel. rewrite cordic_for_micro by lia.
  destruct (micro_rotations dec 1 22 (x, y, theta)) as [[x' y'] theta'].
  reflexivity.
Qed.

(** The loop leaves through its exit test: the fuel is exactly enough. *)
Lemma cordic_for_exit (dec : Z * Z * Z -> bool) (x y theta : Z) :
  c_i (cordic_for (cordic_dec dec) for_fuel
                  (mkCordic 1 1 x y theta ft_trig_arctan_table))
  = PVG_FT_TRIG_MAX_ITERS.
Proof.
  change (mkCordic 1 1 x y theta ft_trig_arctan_table)
    with (cordic_at 1 (x, y, theta)).
  unfold for_fuel. rewrite cordic_for_micro by lia.
  destruct (micro_rotations dec 1 22 (x, y, theta)) as [[x' y'] theta'].
  reflexivity.
Qed.

(** ** The quarter turns of [ft_trig_pseudo_rotate] *)

(** Quarter turn clockwise (taken while [theta < -PI/4]) and counter-
    clockwise (taken while [theta > PI/4]). *)
Definition quarter_cw (v : Z * Z) : Z * Z := (snd v, wrap32 (- fst v)).
Definition quarter_ccw (v : Z * Z) : Z * Z := (wrap32 (- snd v), fst v).

(** Number of quarter turns that bring [theta] back above [-PI/4], resp.
    down to [PI/4]. *)
Definition turns_up (theta : Z) : Z :=
  (- PVG_FT_ANGLE_PI4 - theta + PVG_FT_ANGLE_PI2 - 1) / PVG_FT_ANGLE_PI2.
Definition turns_down (theta : Z) : Z :=
  (theta - PVG_FT_ANGLE_PI4 + PVG_FT_ANGLE_PI2 - 1) / PVG_FT_ANGLE_PI2.

(** The reduction step: the turned vector and the remaining angle. *)
Definition reduce_angle (x y theta : Z) : Z * Z * Z :=
  if theta <? - PVG_FT_ANGLE_PI4 then
    let k := turns_up theta in
    (Nat.iter (Z.to_nat k) quarter_cw (x, y), theta + k * PVG_FT_ANGLE_PI2)
  else if theta >? PVG_FT_ANGLE_PI4 then
    let k := turns_down theta in
    (Nat.iter (Z.to_nat k) quarter_ccw (x, y), theta - k * PVG_FT_ANGLE_PI2)
  else (x, y, theta).

Lemma iter_succ_comm {A} (f : A -> A) (k : nat) (a : A) :
  Nat.iter k f (f a) = Nat.iter (S k) f a.
Proof.
  induction k as [|k IH]; [reflexivity|].
  change (f (Nat.iter k f (f a)) = f (Nat.iter (S k) f a)).
  now rewrite IH.
Qed.

Lemma rotate_while_lt_spec (fuel : nat) (x y theta : Z) :
  int32 theta -> 0 <= turns_up theta < Z.of_nat fuel ->
  rotate_while_lt fuel x y theta =
  Some (Nat.iter (Z.to_nat (turns_up theta)) quarter_cw (x, y),
        theta + turns_up theta * PVG_FT_ANGLE_PI2).
Proof.
  revert x y theta. induction fuel as [|fuel IH]; intros x y theta Ht Hk; [lia|].
  cbn [rotate_while_lt]. unfold turns_up in *. angle_consts.
  destruct (Z.ltb_spec theta (- 2949120)) as [Hlt|Hge].
  - assert (wrap32 (theta + 5898240) = theta + 5898240) as ->.
    { apply wrap32_id. unfold_ints. lia. }
    assert ((- 2949120 - theta + 5898240 - 1) / 5898240 =
            (- 2949120 - (theta + 5898240) + 5898240 - 1) / 5898240 + 1) as Hdiv.
    { replace (- 2949120 - theta + 5898240 - 1)
        with (- 2949120 - (theta + 5898240) + 5898240 - 1 + 1 * 5898240) by lia.
      rewrite Z.div_add by lia. reflexivity. }
    assert (0 <= (- 2949120 - (theta + 5898240) + 5898240 - 1) / 5898240) as Hnn.
    { apply Z.div_pos; lia. }
    rewrite IH.
    + rewrite Hdiv.
      set (k := (- 2949120 - (theta + 5898240) + 5898240 - 1) / 5898240) in *.
      replace (Z.to_nat (k + 1)) with (S (Z.to_nat k)) by lia.
      change (y, wrap32 (- x)) with (quarter_cw (x, y)).
      rewrite iter_succ_comm. f_equal. f_equal. lia.
    + unfold_ints. lia.
    + lia.
  - assert ((- 2949120 - theta + 5898240 - 1) / 5898240 = 0) as ->.
    { pose proof (Z.div_mod (- 2949120 - theta + 5898240 - 1) 5898240 ltac:(lia)).
      pose proof (Z.mod_pos_bound (- 2949120 - theta + 5898240 - 1) 5898240 ltac:(lia)).
      lia. }
    change (Z.to_nat 0) with 0%nat. unfold Nat.iter, nat_rect.
    f_equal. f_equal. lia.
Qed.

Lemma rotate_while_gt_spec (fuel : nat) (x y theta : Z) :
  int32 theta -> 0 <= turns_down theta < Z.of_nat fuel ->
  rotate_while_gt fuel x y theta =
  Some (Nat.iter (Z.to_nat (turns_down theta)) quarter_ccw (x, y),
        theta - turns_down theta * PVG_FT_ANGLE_PI2).
Proof.
  revert x y theta. induction fuel as [|fuel IH]; intros x y theta Ht Hk; [lia|].
  cbn [rotate_while_gt]. unfold turns_down in *. angle_consts.
  rewrite Z.gtb_ltb.
  destruct (Z.ltb_spec 2949120 theta) as [Hgt|Hle].
  - assert (wrap32 (theta - 5898240) = theta - 5898240) as ->.
    { apply wrap32_id. unfold_ints. lia. }
    assert ((theta - 2949120 + 5898240 - 1) / 5898240 =
            (theta - 5898240 - 2949120 + 5898240 - 1) / 5898240 + 1) as Hdiv.
    { replace (theta - 2949120 + 5898240 - 1)
        with (theta - 5898240 - 2949120 + 5898240 - 1 + 1 * 5898240) by lia.
      rewrite Z.div_add by lia. reflexivity. }
    assert (0 <= (theta - 5898240 - 2949120 + 5898240 - 1) / 5898240) as Hnn.
    { apply Z.div_pos; lia. }
    rewrite IH.
    + rewrite Hdiv.
      set (k := (theta - 5898240 - 2949120 + 5898240 - 1) / 5898240) in *.
      replace (Z.to_nat (k + 1)) with (S (Z.to_nat k)) by lia.
      change (wrap32 (- y), x) with (quarter_ccw (x, y)).
      rewrite iter_succ_comm. f_equal. f_equal. lia.
    + unfold_ints. lia.
    + lia.
  - assert ((theta - 2949120 + 5898240 - 1) / 5898240 = 0) as ->.
    { pose proof (Z.div_mod (theta - 2949120 + 5898240 - 1) 5898240 ltac:(lia)).
      pose proof (Z.mod_pos_bound (theta - 2949120 + 5898240 - 1) 5898240 ltac:(lia)).
      lia. }
    change (Z.to_nat 0) with 0%nat. unfold Nat.iter, nat_rect.
    f_equal. f_equal. lia.
Qed.

Lemma turns_up_bound (theta : Z) :
  int32 theta -> theta < - PVG_FT_ANGLE_PI4 ->
  0 < turns_up theta < 365 /\
  - PVG_FT_ANGLE_PI4 <= theta + turns_up theta * PVG_FT_ANGLE_PI2 < PVG_FT_ANGLE_PI4.
Proof.
  intros Ht Hlt. unfold turns_up. angle_consts. unfold_ints.
  pose proof (Z.div_mod (- 2949120 - theta + 5898240 - 1) 5898240 ltac:(lia)) as Hd.
  pose proof (Z.mod_pos_bound (- 2949120 - theta + 5898240 - 1) 5898240 ltac:(lia)) as Hm.
  set (k := (- 2949120 - theta + 5898240 - 1) / 5898240) in *.
  lia.
Qed.

Lemma turns_down_bound (theta : Z) :
  int32 theta -> PVG_FT_ANGLE_PI4 < theta ->
  0 < turns_down theta < 365 /\
  - PVG_FT_ANGLE_PI4 < theta - turns_down theta * PVG_FT_ANGLE_PI2 <= PVG_FT_ANGLE_PI4.
Proof.
  intros Ht Hlt. unfold turns_down. angle_consts. unfold_ints.
  pose proof (Z.div_mod (theta - 2949120 + 5898240 - 1) 5898240 ltac:(lia)) as Hd.
  pose proof (Z.mod_pos_bound (theta - 2949120 + 5898240 - 1) 5898240 ltac:(lia)) as Hm.
  set (k := (theta - 2949120 + 5898240 - 1) / 5898240) in *.
  lia.
Qed.

Lemma rotate_while_lt_stop (fuel : nat) (x y theta : Z) :
  (0 < fuel)%nat -> - PVG_FT_ANGLE_PI4 <= theta ->
  rotate_while_lt fuel x y theta = Some (x, y, theta).
Proof.
  intros Hf Hge. destruct fuel as [|fuel]; [lia|].
  cbn [rotate_while_lt].
  replace (theta <? - PVG_FT_ANGLE_PI4) with false
    by (symmetry; apply Z.ltb_ge; lia).
  reflexivity.
Qed.

Lemma rotate_while_gt_stop (fuel : nat) (x y theta : Z) :
  (0 < fuel)%nat -> theta <= PVG_FT_ANGLE_PI4 ->
  rotate_while_gt fuel x y theta = Some (x, y, theta).
Proof.
  intros Hf Hle. destruct fuel as [|fuel]; [lia|].
  cbn [rotate_while_gt].
  replace (theta >? PVG_FT_ANGLE_PI4) with false
    by (symmetry; rewrite Z.gtb_ltb; apply Z.ltb_ge; lia).
  reflexivity.
Qed.

Lemma while_fuel_Z : Z.of_nat while_fuel = 512.
Proof. reflexivity. Qed.

Lemma while_fuel_pos : (0 < while_fuel)%nat.
Proof. unfold while_fuel. apply Nat.lt_0_succ. Qed.

(** The two loops together are the reduction step; they never run out of
    fuel on a 32-bit angle. *)
Lemma rotate_whiles_reduce (x y theta : Z) :
  int32 theta ->
  match rotate_while_lt while_fuel x y theta with
  | None => None
  | Some (x1, y1, theta1) => rotate_while_gt while_fuel x1 y1 theta1
  end = Some (reduce_angle x y theta).
Proof.
  intros Ht. unfold reduce_angle.
  destruct (Z.ltb_spec theta (- PVG_FT_ANGLE_PI4)) as [Hlt|Hge].
  - destruct (turns_up_bound theta Ht Hlt) as [Hk Hr].
    rewrite rotate_while_lt_spec by (try assumption; rewrite while_fuel_Z; lia).
    destruct (Nat.iter (Z.to_nat (turns_up theta)) quarter_cw (x, y)) as [x1 y1].
    apply rotate_while_gt_stop; [apply while_fuel_pos | lia].
  - rewrite rotate_while_lt_stop by (try apply while_fuel_pos; lia).
    rewrite Z.gtb_ltb.
    destruct (Z.ltb_spec PVG_FT_ANGLE_PI4 theta) as [Hgt|Hle].
    + destruct (turns_down_bound theta Ht Hgt) as [Hk Hr].
      apply rotate_while_gt_spec; [assumption | rewrite while_fuel_Z; lia].
    + apply rotate_while_gt_stop; [apply while_fuel_pos | lia].
Qed.

Lemma reduce_angle_range (x y theta : Z) :
  int32 theta ->
  - PVG_FT_ANGLE_PI4 <= snd (reduce_angle x y theta) <= PVG_FT_ANGLE_PI4.
Proof.
  intros Ht. unfold reduce_angle.
  destruct (Z.ltb_spec theta (- PVG_FT_ANGLE_PI4)) as [Hlt|Hge].
  - cbn [snd]. pose proof (turns_up_bound theta Ht Hlt). lia.
  - rewrite Z.gtb_ltb.
    destruct (Z.ltb_spec PVG_FT_ANGLE_PI4 theta) as [Hgt|Hle].
    + cbn [snd]. pose proof (turns_down_bound theta Ht Hgt). lia.
    + cbn [snd]. lia.
Qed.

(** The engine as the specification describes it, with [n] micro-rotations. *)
Definition spec_pseudo_rotate (n : nat) (vec : PVG_FT_Vector) (theta : Z)
  : PVG_FT_Vector :=
  let '(x, y, theta) := reduce_angle (vx vec) (vy vec) theta in
  let '(x, y, _) := micro_rotations by_angle 1 n (x, y, theta) in
  mkVec x y.

Lemma pseudo_rotate_micro (vec : PVG_FT_Vector) (theta : Z) :
  int32 theta ->
  ft_trig_pseudo_rotate vec theta = Some (spec_pseudo_rotate 22 vec theta).
Proof.
  intros Ht. unfold ft_trig_pseudo_rotate, spec_pseudo_rotate.
  pose proof (rotate_whiles_reduce (vx vec) (vy vec) theta Ht) as Hred.
  destruct (rotate_while_lt while_fuel (vx vec) (vy vec) theta)
    as [[[x1 y1] theta1]|]; [|discriminate Hred].
  rewrite Hred.
  destruct (reduce_angle (vx vec) (vy vec) theta) as [[x2 y2] theta2].
  pose proof (cordic_for_all by_angle x2 y2 theta2) as Hfor.
  change (cordic_dec by_angle) with rotate_body in Hfor.
  destruct (micro_rotations by_angle 1 22 (x2, y2, theta2)) as [[x3 y3] theta3].
  revert Hfor.
  generalize (cordic_for rotate_body for_fuel
                (mkCordic 1 1 x2 y2 theta2 ft_trig_arctan_table)).
  intros st Hfor. unfold cordic_triple in Hfor.
  injection Hfor as -> -> _. reflexivity.
Qed.

(** The claim as stated fails: the engine runs 22 micro-rotations, not 21,
    and the angle -45 degrees is left as it is, outside (-45, 45]. *)
Lemma pseudo_rotate_steps_counterexample :
  ft_trig_pseudo_rotate (mkVec (Z.shiftr PVG_FT_TRIG_SCALE 8) 0) 0
    <> Some (spec_pseudo_rotate 21 (mkVec (Z.shiftr PVG_FT_TRIG_SCALE 8) 0) 0)
  /\ ~ (- PVG_FT_ANGLE_PI4 < snd (reduce_angle 65536 0 (- PVG_FT_ANGLE_PI4))).
Proof. split; vm_compute; [discriminate | intros H; discriminate H]. Qed.

(** C8 (amended): on every vector and 32-bit target angle the engine
    first brings the angle into the closed range [-45, 45] degrees by exact
    quarter turns of the vector (as many as the angle is away, 90 degrees
    each), and then performs the micro-rotations i = 1 to 22, each choosing
    its direction by the sign of the remaining angle and using the i-th
    arctangent table entry. *)
Theorem pseudo_rotate_steps (vec : PVG_FT_Vector) (theta : Z) :
  int32 theta ->
  ft_trig_pseudo_rotate vec theta = Some (spec_pseudo_rotate 22 vec theta) /\
  - PVG_FT_ANGLE_PI4 <= snd (reduce_angle (vx vec) (vy vec) theta) <= PVG_FT_ANGLE_PI4 /\
  (exists k, snd (reduce_angle (vx vec) (vy vec) theta) = theta + k * PVG_FT_ANGLE_PI2).
Proof.
  intros Ht. split; [apply pseudo_rotate_micro; exact Ht|].
  split; [apply reduce_angle_range; exact Ht|].
  unfold reduce_angle.
  destruct (theta <? - PVG_FT_ANGLE_PI4).
  - exists (turns_up theta). reflexivity.
  - destruct (theta >? PVG_FT_ANGLE_PI4).
    + exists (- turns_down theta). cbn [snd]. lia.
    + exists 0. cbn [snd]. lia.
Qed.

Lemma pseudo_rotate_steps_witness :
  ft_trig_pseudo_rotate (mkVec 65536 0) 20000000
    = Some (spec_pseudo_rotate 22 (mkVec 65536 0) 20000000) /\
  - PVG_FT_ANGLE_PI4 <= snd (reduce_angle 65536 0 20000000) <= PVG_FT_ANGLE_PI4 /\
  (exists k, snd (reduce_angle 65536 0 20000000) = 20000000 + k * PVG_FT_ANGLE_PI2).
Proof.
  apply (pseudo_rotate_steps (mkVec 65536 0) 20000000).
  vm_compute. split; [discriminate | reflexivity].
Defined.

(** ** Enclosures for the rotation engine *)

(** The vector part of one micro-rotation. *)
Definition xy_step (neg : bool) (i x y : Z) : Z * Z :=
  let b := 2 ^ (i - 1) in
  let v1 := Z.shiftr (wrap32 (y + b)) i in
  let v2 := Z.shiftr (wrap32 (x + b)) i in
  if neg then (wrap32 (x + v1), wrap32 (y - v2))
  else (wrap32 (x - v1), wrap32 (y + v2)).

Definition arctan_entry (i : Z) : Z :=
  nth (Z.to_nat (i - 1)) ft_trig_arctan_table 0.

Lemma micro_rotation_by_angle (i x y theta : Z) :
  micro_rotation by_angle i (x, y, theta) =
  (xy_step (theta <? 0) i x y,
   wrap32 (if theta <? 0 then theta + arctan_entry i else theta - arctan_entry i)).
Proof.
  unfold micro_rotation, by_angle, xy_step, arctan_entry. cbn [snd].
  destruct (theta <? 0); reflexivity.
Qed.

Lemma micro_rotation_by_ordinate (i x y theta : Z) :
  micro_rotation by_ordinate i (x, y, theta) =
  (xy_step (y >? 0) i x y,
   wrap32 (if y >? 0 then theta + arctan_entry i else theta - arctan_entry i)).
Proof.
  unfold micro_rotation, by_ordinate, xy_step, arctan_entry. cbn [snd fst].
  destruct (y >? 0); reflexivity.
Qed.

Lemma micro_rotations_S (dec : Z * Z * Z -> bool) (i n : nat) (st : Z * Z * Z) :
  micro_rotations dec i (S n) st =
  micro_rotations dec (S i) n (micro_rotation dec (Z.of_nat i) st).
Proof. reflexivity. Qed.

Lemma arctan_entry_bound (i : Z) : 0 <= arctan_entry i <= 1740967.
Proof.
  unfold arctan_entry.
  assert (Forall (fun a => 0 <= a <= 1740967) ft_trig_arctan_table) as Hall.
  { unfold ft_trig_arctan_table. repeat constructor; lia. }
  destruct (Nat.lt_ge_cases (Z.to_nat (i - 1)) (length ft_trig_arctan_table)) as [Hlt|Hge].
  - rewrite Forall_forall in Hall. apply Hall. apply nth_In. exact Hlt.
  - rewrite nth_overflow by exact Hge. lia.
Qed.

(** A box of vectors. *)
Record box : Type := mkBox { xl : Z; xh : Z; yl : Z; yh : Z }.

Definition in_box (b : box) (x y : Z) : Prop :=
  xl b <= x <= xh b /\ yl b <= y <= yh b.

Definition safe (z : Z) : bool := (- 2 ^ 29 <=? z) && (z <=? 2 ^ 29).

Definition box_safe (b : box) : bool :=
  safe (xl b) && safe (xh b) && safe (yl b) && safe (yh b).

(** The hull of both branches of a micro-rotation over a box. *)
Definition box_step (i : Z) (b : box) : box :=
  let r := 2 ^ (i - 1) in
  let v1l := Z.shiftr (yl b + r) i in
  let v1h := Z.shiftr (yh b + r) i in
  let v2l := Z.shiftr (xl b + r) i in
  let v2h := Z.shiftr (xh b + r) i in
  mkBox (Z.min (xl b + v1l) (xl b - v1h)) (Z.max (xh b + v1h) (xh b - v1l))
        (Z.min (yl b - v2h) (yl b + v2l)) (Z.max (yh b - v2l) (yh b + v2h)).

(** Micro-rotations [i], ..., [i + n - 1] over a box, whatever their
    directions: the interval of the final abscissa. *)
Fixpoint box_run (n : nat) (i : nat) (b : box) : option (Z * Z) :=
  match n with
  | O => if safe (xl b) && safe (xh b) then Some (xl b, xh b) else None
  | S n' =>
      if box_safe b then box_run n' (S i) (box_step (Z.of_nat i) b) else None
  end.

Lemma safe_spec (z : Z) : safe z = true -> - 536870912 <= z <= 536870912.
Proof.
  unfold safe. change (2 ^ 29) with 536870912.
  intros H. apply andb_prop in H as [H1 H2].
  apply Z.leb_le in H1, H2. lia.
Qed.

Lemma pow2_step_range (i : Z) : 1 <= i <= 29 -> 1 <= 2 ^ (i - 1) <= 268435456.
Proof.
  intros Hi. split.
  - pose proof (Z.pow_pos_nonneg 2 (i - 1) ltac:(lia) ltac:(lia)). lia.
  - change 268435456 with (2 ^ 28). apply Z.pow_le_mono_r; lia.
Qed.

Lemma pow2_ge_2 (i : Z) : 1 <= i -> 2 <= 2 ^ i.
Proof.
  intros Hi. change 2 with (2 ^ 1) at 1. apply Z.pow_le_mono_r; lia.
Qed.

Lemma div_abs_bound (a d m : Z) : 1 <= d -> - m <= a <= m -> - m <= a / d <= m.
Proof.
  intros Hd Ha.
  pose proof (Z.div_mod a d ltac:(lia)) as Hq.
  pose proof (Z.mod_pos_bound a d ltac:(lia)) as Hr.
  split; nia.
Qed.

(** The shifted operand of a micro-rotation, without wrap-around. *)
Lemma shifted_operand (i y lo hi : Z) :
  1 <= i <= 29 -> lo <= y <= hi ->
  - 536870912 <= lo -> hi <= 536870912 ->
  Z.shiftr (wrap32 (y + 2 ^ (i - 1))) i = (y + 2 ^ (i - 1)) / 2 ^ i /\
  Z.shiftr (lo + 2 ^ (i - 1)) i <= (y + 2 ^ (i - 1)) / 2 ^ i
    <= Z.shiftr (hi + 2 ^ (i - 1)) i /\
  - 1073741824 <= (y + 2 ^ (i - 1)) / 2 ^ i <= 1073741824.
Proof.
  intros Hi Hy Hlo Hhi.
  pose proof (pow2_step_range i Hi) as Hr.
  pose proof (pow2_ge_2 i ltac:(lia)) as Hd.
  rewrite wrap32_id by (unfold_ints; lia).
  rewrite !Z.shiftr_div_pow2 by lia.
  split; [reflexivity|]. split.
  - split; apply Z.div_le_mono; lia.
  - apply (div_abs_bound _ _ 1073741824); lia.
Qed.

Lemma box_step_sound (i : Z) (b : box) (neg : bool) (x y : Z) :
  1 <= i <= 29 -> box_safe b = true -> in_box b x y ->
  in_box (box_step i b) (fst (xy_step neg i x y)) (snd (xy_step neg i x y)).
Proof.
  intros Hi Hsafe [Hx Hy].
  unfold box_safe in Hsafe.
  apply andb_prop in Hsafe as [Hsafe Hs4].
  apply andb_prop in Hsafe as [Hsafe Hs3].
  apply andb_prop in Hsafe as [Hs1 Hs2].
  apply safe_spec in Hs1, Hs2, Hs3, Hs4.
  destruct (shifted_operand i y (yl b) (yh b) Hi Hy) as (E1 & M1 & B1); try lia.
  destruct (shifted_operand i x (xl b) (xh b) Hi Hx) as (E2 & M2 & B2); try lia.
  unfold xy_step, box_step, in_box. rewrite E1, E2.
  set (v1 := (y + 2 ^ (i - 1)) / 2 ^ i) in *.
  set (v2 := (x + 2 ^ (i - 1)) / 2 ^ i) in *.
  destruct neg; cbn [fst snd xl xh yl yh];
    rewrite !wrap32_id by (unfold_ints; lia); lia.
Qed.

Definition abscissa (st : Z * Z * Z) : Z := fst (fst st).

Lemma box_run_sound (dec : Z * Z * Z -> bool) (n i : nat) (b : box)
      (rl rh x y theta : Z) :
  (1 <= i)%nat -> (i + n <= 30)%nat ->
  box_run n i b = Some (rl, rh) -> in_box b x y ->
  rl <= abscissa (micro_rotations dec i n (x, y, theta)) <= rh /\
  - 536870912 <= rl /\ rh <= 536870912.
Proof.
  revert i b x y theta.
  induction n as [|n IH]; intros i b x y theta Hi Hn Hrun [Hx Hy].
  - cbn [box_run] in Hrun.
    destruct (safe (xl b)) eqn:S1; [|discriminate Hrun].
    destruct (safe (xh b)) eqn:S2; [|discriminate Hrun].
    cbn [andb] in Hrun. injection Hrun as <- <-.
    apply safe_spec in S1, S2.
    unfold micro_rotations, abscissa. cbn [seq fold_left fst]. lia.
  - cbn [box_run] in Hrun.
    destruct (box_safe b) eqn:Hsafe; [|discriminate Hrun].
    rewrite micro_rotations_S.
    assert (exists neg a,
              micro_rotation dec (Z.of_nat i) (x, y, theta) =
              (xy_step neg (Z.of_nat i) x y, a)) as (neg & a & Hstep).
    { unfold micro_rotation, xy_step.
      destruct (dec (x, y, theta)); [exists true | exists false];
        eexists; reflexivity. }
    rewrite Hstep.
    pose proof (box_step_sound (Z.of_nat i) b neg x y ltac:(lia) Hsafe
                  (conj Hx Hy)) as Hin.
    destruct (xy_step neg (Z.of_nat i) x y) as [x' y'].
    apply (IH (S i) (box_step (Z.of_nat i) b) x' y' a); try lia; assumption.
Qed.

Lemma box_run_safe (n i : nat) (b : box) (rl rh : Z) :
  box_run n i b = Some (rl, rh) -> safe rl = true /\ safe rh = true.
Proof.
  revert i b. induction n as [|n IH]; intros i b Hrun.
  - cbn [box_run] in Hrun.
    destruct (safe (xl b)) eqn:S1; [|discriminate Hrun].
    destruct (safe (xh b)) eqn:S2; [|discriminate Hrun].
    cbn [andb] in Hrun. injection Hrun as <- <-. split; assumption.
  - cbn [box_run] in Hrun.
    destruct (box_safe b); [|discriminate Hrun].
    apply (IH _ _ Hrun).
Qed.

(** ** The joint enclosure of cosine and sine *)

(** The final rounding of [PVG_FT_Cos]. *)
Definition cos_round (x : Z) : Z := Z.shiftr (wrap32 (x + 0x80)) 8.

(** [cos^2 + sin^2] is within 2^-10 of 1.0, on 16.16 values. *)
Definition unit_norm (c s : Z) : Prop :=
  Z.abs (c * c + s * s - 2 ^ 32) <= 2 ^ 22.

Definition sq_min (l h : Z) : Z :=
  if (l <=? 0) && (0 <=? h) then 0 else Z.min (l * l) (h * h).
Definition sq_max (l h : Z) : Z := Z.max (l * l) (h * h).

Definition final_ok (r1 r2 : Z * Z) : bool :=
  let cl := cos_round (fst r1) in
  let ch := cos_round (snd r1) in
  let sl := cos_round (fst r2) in
  let sh := cos_round (snd r2) in
  (2 ^ 32 - 2 ^ 22 <=? sq_min cl ch + sq_min sl sh) &&
  (sq_max cl ch + sq_max sl sh <=? 2 ^ 32 + 2 ^ 22).

Lemma sq_range (l h c : Z) : l <= c <= h -> sq_min l h <= c * c <= sq_max l h.
Proof.
  intros Hc. unfold sq_min, sq_max. split.
  - destruct (Z.leb_spec l 0), (Z.leb_spec 0 h); cbn [andb].
    + nia.
    + pose proof (Z.le_min_r (l * l) (h * h)). nia.
    + pose proof (Z.le_min_l (l * l) (h * h)). nia.
    + lia.
  - pose proof (Z.le_max_l (l * l) (h * h)).
    pose proof (Z.le_max_r (l * l) (h * h)).
    destruct (Z_le_gt_dec 0 c); nia.
Qed.

Lemma cos_round_mono (l h x : Z) :
  - 536870912 <= l -> h <= 536870912 -> l <= x <= h ->
  cos_round l <= cos_round x <= cos_round h.
Proof.
  intros Hl Hh Hx. unfold cos_round.
  rewrite !wrap32_id by (unfold_ints; lia).
  rewrite !Z.shiftr_div_pow2 by lia.
  split; apply Z.div_le_mono; lia.
Qed.

Lemma final_ok_sound (rl1 rh1 rl2 rh2 x1 x2 : Z) :
  final_ok (rl1, rh1) (rl2, rh2) = true ->
  - 536870912 <= rl1 -> rh1 <= 536870912 -> rl1 <= x1 <= rh1 ->
  - 536870912 <= rl2 -> rh2 <= 536870912 -> rl2 <= x2 <= rh2 ->
  unit_norm (cos_round x1) (cos_round x2).
Proof.
  unfold final_ok. cbn [fst snd]. intros Hok L1 H1 X1 L2 H2 X2.
  apply andb_prop in Hok as [Hlo Hhi].
  apply Z.leb_le in Hlo, Hhi.
  pose proof (sq_range _ _ _ (cos_round_mono rl1 rh1 x1 L1 H1 X1)) as S1.
  pose proof (sq_range _ _ _ (cos_round_mono rl2 rh2 x2 L2 H2 X2)) as S2.
  unfold unit_norm.
  change (2 ^ 32) with 4294967296 in *. change (2 ^ 22) with 4194304 in *.
  lia.
Qed.

(** Both evaluations from micro-rotation [i] on, by boxes. *)
Definition leaf_ok (n i : nat) (x1 y1 x2 y2 : Z) : bool :=
  match box_run n i (mkBox x1 x1 y1 y1), box_run n i (mkBox x2 x2 y2 y2) with
  | Some r1, Some r2 => final_ok r1 r2
  | _, _ => false
  end.

(** From which micro-rotation on a leaf is tried. *)
Definition leaf_from : nat := 11.

(** The joint search: the first evaluation carries the remaining angle
    [t + a1], the second [- t + a2], for every [t] between [lo] and [hi];
    each micro-rotation splits the range of [t] by the signs of the two
    remaining angles. *)
Fixpoint dfs (n i : nat) (x1 y1 a1 x2 y2 a2 lo hi : Z) : bool :=
  if hi <? lo then true
  else if (leaf_from <=? i)%nat && leaf_ok n i x1 y1 x2 y2 then true
  else
    match n with
    | O => false
    | S n' =>
        safe x1 && safe y1 && safe x2 && safe y2 &&
        safe a1 && safe a2 && safe lo && safe hi &&
        (let t := arctan_entry (Z.of_nat i) in
         let '(xn1, yn1) := xy_step true (Z.of_nat i) x1 y1 in
         let '(xp1, yp1) := xy_step false (Z.of_nat i) x1 y1 in
         let '(xn2, yn2) := xy_step true (Z.of_nat i) x2 y2 in
         let '(xp2, yp2) := xy_step false (Z.of_nat i) x2 y2 in
         dfs n' (S i) xn1 yn1 (a1 + t) xn2 yn2 (a2 + t)
             (Z.max lo (a2 + 1)) (Z.min hi (- a1 - 1)) &&
         dfs n' (S i) xn1 yn1 (a1 + t) xp2 yp2 (a2 - t)
             lo (Z.min hi (Z.min (- a1 - 1) a2)) &&
         dfs n' (S i) xp1 yp1 (a1 - t) xn2 yn2 (a2 + t)
             (Z.max lo (Z.max (- a1) (a2 + 1))) hi &&
         dfs n' (S i) xp1 yp1 (a1 - t) xp2 yp2 (a2 - t)
             (Z.max lo (- a1)) (Z.min hi a2))
    end.

Lemma leaf_ok_sound (n i : nat) (x1 y1 x2 y2 th1 th2 : Z) :
  (1 <= i)%nat -> (i + n <= 30)%nat ->
  leaf_ok n i x1 y1 x2 y2 = true ->
  unit_norm
    (cos_round (abscissa (micro_rotations by_angle i n (x1, y1, th1))))
    (cos_round (abscissa (micro_rotations by_angle i n (x2, y2, th2)))).
Proof.
  intros Hi Hn Hleaf. unfold leaf_ok in Hleaf.
  destruct (box_run n i (mkBox x1 x1 y1 y1)) as [[rl1 rh1]|] eqn:R1;
    [|discriminate Hleaf].
  destruct (box_run n i (mkBox x2 x2 y2 y2)) as [[rl2 rh2]|] eqn:R2;
    [|discriminate Hleaf].
  destruct (box_run_sound by_angle n i _ rl1 rh1 x1 y1 th1 Hi Hn R1) as (A1 & B1 & C1).
  { unfold in_box; cbn; lia. }
  destruct (box_run_sound by_angle n i _ rl2 rh2 x2 y2 th2 Hi Hn R2) as (A2 & B2 & C2).
  { unfold in_box; cbn; lia. }
  eapply final_ok_sound; eassumption.
Qed.

Lemma dfs_sound (n : nat) :
  forall (i : nat) (x1 y1 a1 x2 y2 a2 lo hi t : Z),
    (1 <= i)%nat -> (i + n <= 30)%nat ->
    dfs n i x1 y1 a1 x2 y2 a2 lo hi = true ->
    lo <= t <= hi ->
    unit_norm
      (cos_round (abscissa (micro_rotations by_angle i n (x1, y1, t + a1))))
      (cos_round (abscissa (micro_rotations by_angle i n (x2, y2, - t + a2)))).
Proof.
  induction n as [|n IH]; intros i x1 y1 a1 x2 y2 a2 lo hi t Hi Hn Hdfs Ht.
  - cbn [dfs] in Hdfs.
    destruct (Z.ltb_spec hi lo); [lia|].
    destruct ((leaf_from <=? i)%nat && leaf_ok 0 i x1 y1 x2 y2) eqn:Hleaf;
      [|discriminate Hdfs].
    apply andb_prop in Hleaf as [_ Hleaf].
    apply leaf_ok_sound; assumption.
  - cbn [dfs] in Hdfs.
    destruct (Z.ltb_spec hi lo); [lia|].
    destruct ((leaf_from <=? i)%nat && leaf_ok (S n) i x1 y1 x2 y2) eqn:Hleaf.
    { apply andb_prop in Hleaf as [_ Hleaf]. apply leaf_ok_sound; assumption. }
    clear Hleaf.
    pose proof (arctan_entry_bound (Z.of_nat i)) as Htab.
    set (tab := arctan_entry (Z.of_nat i)) in *.
    rewrite !micro_rotations_S, !micro_rotation_by_angle. fold tab.
    apply andb_prop in Hdfs as [Hsafe Hdfs].
    do 7 (apply andb_prop in Hsafe as [Hsafe ?]).
    repeat match goal with
           | H : safe _ = true |- _ => apply safe_spec in H
           end.
    destruct (xy_step true (Z.of_nat i) x1 y1) as [xn1 yn1] eqn:En1.
    destruct (xy_step false (Z.of_nat i) x1 y1) as [xp1 yp1] eqn:Ep1.
    destruct (xy_step true (Z.of_nat i) x2 y2) as [xn2 yn2] eqn:En2.
    destruct (xy_step false (Z.of_nat i) x2 y2) as [xp2 yp2] eqn:Ep2.
    do 3 (apply andb_prop in Hdfs as [Hdfs ?]).
    destruct (Z.ltb_spec (t + a1) 0) as [N1|P1];
      destruct (Z.ltb_spec (- t + a2) 0) as [N2|P2];
      rewrite !wrap32_id by (unfold_ints; lia);
      rewrite ?En1, ?Ep1, ?En2, ?Ep2.
    + replace (t + a1 + tab) with (t + (a1 + tab)) by lia.
      replace (- t + a2 + tab) with (- t + (a2 + tab)) by lia.
      eapply IH; try eassumption; lia.
    + replace (t + a1 + tab) with (t + (a1 + tab)) by lia.
      replace (- t + a2 - tab) with (- t + (a2 - tab)) by lia.
      eapply IH; try eassumption; lia.
    + replace (t + a1 - tab) with (t + (a1 - tab)) by lia.
      replace (- t + a2 + tab) with (- t + (a2 + tab)) by lia.
      eapply IH; try eassumption; lia.
    + replace (t + a1 - tab) with (t + (a1 - tab)) by lia.
      replace (- t + a2 - tab) with (- t + (a2 - tab)) by lia.
      eapply IH; try eassumption; lia.
Qed.

(** ** The same search on 63-bit machine integers

    The search of the previous section is run on the kernel's 63-bit
    integers; every operation is shown to agree with its counterpart on
    [Z] under the bounds the search itself checks. *)

Module Fast.

Import Sint63.

Definition toZ : int -> Z := Sint63.to_Z.

Definition small (z : Z) : Prop := - 2 ^ 60 <= z <= 2 ^ 60.

Lemma toZ_min_int : Sint63.to_Z Sint63.min_int = - 4611686018427387904.
Proof. vm_compute. reflexivity. Qed.

Lemma toZ_max_int : Sint63.to_Z Sint63.max_int = 4611686018427387903.
Proof. vm_compute. reflexivity. Qed.

Lemma toZ_add (x y : int) :
  small (toZ x) -> small (toZ y) -> toZ (add x y) = toZ x + toZ y.
Proof.
  unfold small, toZ. intros Hx Hy. apply Sint63.to_Z_add.
  rewrite toZ_min_int, toZ_max_int.
  change (2 ^ 60) with 1152921504606846976 in *. lia.
Qed.

Lemma toZ_sub (x y : int) :
  small (toZ x) -> small (toZ y) -> toZ (sub x y) = toZ x - toZ y.
Proof.
  unfold small, toZ. intros Hx Hy. apply Sint63.to_Z_sub.
  rewrite toZ_min_int, toZ_max_int.
  change (2 ^ 60) with 1152921504606846976 in *. lia.
Qed.

Lemma toZ_mul (x y : int) :
  - 2 ^ 30 <= toZ x <= 2 ^ 30 -> - 2 ^ 30 <= toZ y <= 2 ^ 30 ->
  toZ (mul x y) = toZ x * toZ y.
Proof.
  unfold toZ. intros Hx Hy. apply Sint63.to_Z_mul.
  rewrite toZ_min_int, toZ_max_int.
  change (2 ^ 30) with 1073741824 in *. nia.
Qed.

Lemma toZ_asr (x p : int) :
  0 <= toZ p -> toZ (asr x p) = Z.shiftr (toZ x) (toZ p).
Proof.
  unfold toZ. intros Hp. rewrite Sint63.asr_spec.
  rewrite Z.shiftr_div_pow2 by exact Hp. reflexivity.
Qed.

Lemma lesb_Z (x y : int) : lesb x y = (toZ x <=? toZ y).
Proof.
  unfold toZ. destruct (Sint63.lebP x y) as [H|H].
  - symmetry. apply Z.leb_le. exact H.
  - symmetry. apply Z.leb_gt. lia.
Qed.

Lemma ltsb_Z (x y : int) : ltsb x y = (toZ x <? toZ y).
Proof.
  unfold toZ. destruct (Sint63.ltbP x y) as [H|H].
  - symmetry. apply Z.ltb_lt. exact H.
  - symmetry. apply Z.ltb_ge. lia.
Qed.

Definition min63 (a b : int) : int := if lesb a b then a else b.
Definition max63 (a b : int) : int := if lesb a b then b else a.

Lemma toZ_min (a b : int) : toZ (min63 a b) = Z.min (toZ a) (toZ b).
Proof.
  unfold min63. rewrite lesb_Z.
  destruct (Z.leb_spec (toZ a) (toZ b)); lia.
Qed.

Lemma toZ_max (a b : int) : toZ (max63 a b) = Z.max (toZ a) (toZ b).
Proof.
  unfold max63. rewrite lesb_Z.
  destruct (Z.leb_spec (toZ a) (toZ b)); lia.
Qed.

Definition safe63 (z : int) : bool :=
  lesb (-536870912)%sint63 z && lesb z 536870912%sint63.

Lemma safe63_ok (z : int) : safe63 z = safe (toZ z).
Proof. unfold safe63, safe. rewrite !lesb_Z. reflexivity. Qed.

Record box63 : Type := mkBox63 { xl63 : int; xh63 : int; yl63 : int; yh63 : int }.

Definition box_of (b : box63) : box :=
  mkBox (toZ (xl63 b)) (toZ (xh63 b)) (toZ (yl63 b)) (toZ (yh63 b)).

Definition box_safe63 (b : box63) : bool :=
  safe63 (xl63 b) && safe63 (xh63 b) && safe63 (yl63 b) && safe63 (yh63 b).

Lemma box_safe63_ok (b : box63) : box_safe63 b = box_safe (box_of b).
Proof. unfold box_safe63, box_safe, box_of. rewrite !safe63_ok. reflexivity. Qed.

(** [r] is the rounding bit [2 ^ (i - 1)]. *)
Definition box_step63 (i r : int) (b : box63) : box63 :=
  let v1l := asr (add (yl63 b) r) i in
  let v1h := asr (add (yh63 b) r) i in
  let v2l := asr (add (xl63 b) r) i in
  let v2h := asr (add (xh63 b) r) i in
  mkBox63 (min63 (add (xl63 b) v1l) (sub (xl63 b) v1h))
          (max63 (add (xh63 b) v1h) (sub (xh63 b) v1l))
          (min63 (sub (yl63 b) v2h) (add (yl63 b) v2l))
          (max63 (sub (yh63 b) v2l) (add (yh63 b) v2h)).

Lemma small_of (z m : Z) : - m <= z <= m -> m <= 2 ^ 60 -> small z.
Proof. unfold small. lia. Qed.

(** A shifted operand, on values within the safety bound. *)
Lemma shifted63 (i r y : int) (k : Z) :
  toZ i = k -> 1 <= k <= 29 -> toZ r = 2 ^ (k - 1) ->
  - 536870912 <= toZ y <= 536870912 ->
  toZ (asr (add y r) i) = Z.shiftr (toZ y + 2 ^ (k - 1)) k /\
  - 1073741824 <= toZ (asr (add y r) i) <= 1073741824.
Proof.
  intros Hi Hk Hr Hy.
  pose proof (pow2_step_range k Hk) as Hp.
  rewrite toZ_asr by lia.
  rewrite toZ_add by (unfold small; change (2 ^ 60) with 1152921504606846976; lia).
  rewrite Hi, Hr. split; [reflexivity|].
  rewrite Z.shiftr_div_pow2 by lia.
  pose proof (pow2_ge_2 k ltac:(lia)).
  apply (div_abs_bound _ _ 1073741824); lia.
Qed.

Ltac small_by_lia :=
  unfold small; change (2 ^ 60) with 1152921504606846976; lia.

Lemma box_step63_ok (i r : int) (b : box63) (k : Z) :
  toZ i = k -> 1 <= k <= 29 -> toZ r = 2 ^ (k - 1) ->
  box_safe (box_of b) = true ->
  box_of (box_step63 i r b) = box_step k (box_of b).
Proof.
  intros Hi Hk Hr Hsafe.
  unfold box_safe, box_of in Hsafe. cbn [xl xh yl yh] in Hsafe.
  apply andb_prop in Hsafe as [Hsafe Hs4].
  apply andb_prop in Hsafe as [Hsafe Hs3].
  apply andb_prop in Hsafe as [Hs1 Hs2].
  apply safe_spec in Hs1, Hs2, Hs3, Hs4.
  destruct (shifted63 i r (yl63 b) k Hi Hk Hr Hs3) as [E1 B1].
  destruct (shifted63 i r (yh63 b) k Hi Hk Hr Hs4) as [E2 B2].
  destruct (shifted63 i r (xl63 b) k Hi Hk Hr Hs1) as [E3 B3].
  destruct (shifted63 i r (xh63 b) k Hi Hk Hr Hs2) as [E4 B4].
  unfold box_step63, box_step, box_of. cbn [xl63 xh63 yl63 yh63 xl xh yl yh].
  rewrite !toZ_min, !toZ_max.
  rewrite !toZ_add, !toZ_sub by small_by_lia.
  rewrite E1, E2, E3, E4. reflexivity.
Qed.

Definition pairZ (p : int * int) : Z * Z := (toZ (fst p), toZ (snd p)).

Fixpoint box_run63 (n : nat) (i r : int) (b : box63) : option (int * int) :=
  match n with
  | O => if safe63 (xl63 b) && safe63 (xh63 b) then Some (xl63 b, xh63 b) else None
  | S n' =>
      if box_safe63 b
      then box_run63 n' (add i 1%sint63) (add r r) (box_step63 i r b)
      else None
  end.

Lemma toZ_succ (i : int) (k : nat) :
  toZ i = Z.of_nat k -> (k <= 40)%nat -> toZ (add i 1%sint63) = Z.of_nat (S k).
Proof.
  intros Hi Hk. rewrite toZ_add.
  - rewrite Hi. change (toZ 1%sint63) with 1. lia.
  - rewrite Hi. small_by_lia.
  - change (toZ 1%sint63) with 1. small_by_lia.
Qed.

Lemma toZ_double (r : int) (k : nat) :
  toZ r = 2 ^ (Z.of_nat k - 1) -> (1 <= k <= 29)%nat ->
  toZ (add r r) = 2 ^ (Z.of_nat (S k) - 1).
Proof.
  intros Hr Hk.
  pose proof (pow2_step_range (Z.of_nat k) ltac:(lia)) as Hp.
  rewrite toZ_add by (rewrite Hr; small_by_lia).
  rewrite Hr.
  replace (Z.of_nat (S k) - 1) with (Z.of_nat k - 1 + 1) by lia.
  rewrite Z.pow_add_r by lia. lia.
Qed.

Lemma box_run63_ok (n : nat) :
  forall (k : nat) (i r : int) (b : box63),
    toZ i = Z.of_nat k -> (1 <= k)%nat -> (k + n <= 30)%nat ->
    toZ r = 2 ^ (Z.of_nat k - 1) ->
    option_map pairZ (box_run63 n i r b) = box_run n k (box_of b).
Proof.
  induction n as [|n IH]; intros k i r b Hi Hk Hn Hr.
  - cbn [box_run63 box_run]. unfold box_of. cbn [xl xh].
    rewrite !safe63_ok.
    destruct (safe (toZ (xl63 b)) && safe (toZ (xh63 b))); reflexivity.
  - cbn [box_run63 box_run]. rewrite box_safe63_ok.
    destruct (box_safe (box_of b)) eqn:Hsafe; [|reflexivity].
    rewrite (IH (S k)).
    + rewrite (box_step63_ok i r b (Z.of_nat k)) by (try assumption; lia).
      reflexivity.
    + apply toZ_succ; [assumption | lia].
    + lia.
    + lia.
    + apply toZ_double; [assumption | lia].
Qed.

Definition cos_round63 (x : int) : int := asr (add x 128) 8.

Lemma cos_round63_ok (x : int) :
  (- 536870912 <= toZ x <= 536870912)%Z ->
  toZ (cos_round63 x) = cos_round (toZ x) /\
  (- 4194304 <= toZ (cos_round63 x) <= 4194304)%Z.
Proof.
  intros Hx. unfold cos_round63, cos_round.
  rewrite toZ_asr by (change (toZ 8) with 8; lia).
  rewrite toZ_add by (try change (toZ 128) with 128; small_by_lia).
  change (toZ 128) with 128. change (toZ 8) with 8. change 0x80 with 128.
  rewrite wrap32_id by (unfold_ints; lia).
  split; [reflexivity|].
  rewrite Z.shiftr_div_pow2 by lia. change (2 ^ 8) with 256.
  pose proof (Z.div_mod (toZ x + 128) 256 ltac:(lia)).
  pose proof (Z.mod_pos_bound (toZ x + 128) 256 ltac:(lia)). lia.
Qed.

Definition sq_min63 (l h : int) : int :=
  if lesb l 0 && lesb 0 h then 0%sint63 else min63 (mul l l) (mul h h).
Definition sq_max63 (l h : int) : int := max63 (mul l l) (mul h h).

Lemma toZ_square (c : int) :
  (- 4194304 <= toZ c <= 4194304)%Z ->
  toZ (mul c c) = toZ c * toZ c /\ (0 <= toZ (mul c c) <= 17592186044416)%Z.
Proof.
  intros Hc.
  rewrite toZ_mul by (change (2 ^ 30) with 1073741824; lia).
  split; [reflexivity | nia].
Qed.

Lemma sq_min63_ok (l h : int) :
  (- 4194304 <= toZ l <= 4194304)%Z -> (- 4194304 <= toZ h <= 4194304)%Z ->
  toZ (sq_min63 l h) = sq_min (toZ l) (toZ h) /\
  (0 <= toZ (sq_min63 l h) <= 17592186044416)%Z.
Proof.
  intros Hl Hh. unfold sq_min63, sq_min. rewrite !lesb_Z.
  change (toZ 0) with 0.
  destruct (toZ_square l Hl) as [El Bl]. destruct (toZ_square h Hh) as [Eh Bh].
  destruct ((toZ l <=? 0) && (0 <=? toZ h)).
  - change (toZ 0) with 0. split; [reflexivity | lia].
  - rewrite toZ_min, El, Eh. split; [reflexivity | lia].
Qed.

Lemma sq_max63_ok (l h : int) :
  (- 4194304 <= toZ l <= 4194304)%Z -> (- 4194304 <= toZ h <= 4194304)%Z ->
  toZ (sq_max63 l h) = sq_max (toZ l) (toZ h) /\
  (0 <= toZ (sq_max63 l h) <= 17592186044416)%Z.
Proof.
  intros Hl Hh. unfold sq_max63, sq_max.
  destruct (toZ_square l Hl) as [El Bl]. destruct (toZ_square h Hh) as [Eh Bh].
  rewrite toZ_max, El, Eh. split; [reflexivity | lia].
Qed.

Definition final_ok63 (r1 r2 : int * int) : bool :=
  let cl := cos_round63 (fst r1) in
  let ch := cos_round63 (snd r1) in
  let sl := cos_round63 (fst r2) in
  let sh := cos_round63 (snd r2) in
  lesb 4290772992 (add (sq_min63 cl ch) (sq_min63 sl sh)) &&
  lesb (add (sq_max63 cl ch) (sq_max63 sl sh)) 4299161600.

Lemma final_ok63_ok (r1 r2 : int * int) :
  safe (toZ (fst r1)) = true -> safe (toZ (snd r1)) = true ->
  safe (toZ (fst r2)) = true -> safe (toZ (snd r2)) = true ->
  final_ok63 r1 r2 = final_ok (pairZ r1) (pairZ r2).
Proof.
  intros S1 S2 S3 S4. apply safe_spec in S1, S2, S3, S4.
  destruct (cos_round63_ok _ S1) as [E1 B1].
  destruct (cos_round63_ok _ S2) as [E2 B2].
  destruct (cos_round63_ok _ S3) as [E3 B3].
  destruct (cos_round63_ok _ S4) as [E4 B4].
  destruct (sq_min63_ok _ _ B1 B2) as [Em1 Bm1].
  destruct (sq_min63_ok _ _ B3 B4) as [Em2 Bm2].
  destruct (sq_max63_ok _ _ B1 B2) as [Ex1 Bx1].
  destruct (sq_max63_ok _ _ B3 B4) as [Ex2 Bx2].
  unfold final_ok63, final_ok, pairZ. cbn [fst snd].
  rewrite !lesb_Z. rewrite !toZ_add by small_by_lia.
  rewrite Em1, Em2, Ex1, Ex2, E1, E2, E3, E4. reflexivity.
Qed.

Definition leaf_ok63 (n : nat) (i r x1 y1 x2 y2 : int) : bool :=
  match box_run63 n i r (mkBox63 x1 x1 y1 y1),
        box_run63 n i r (mkBox63 x2 x2 y2 y2) with
  | Some r1, Some r2 => final_ok63 r1 r2
  | _, _ => false
  end.

Lemma leaf_ok63_ok (n k : nat) (i r x1 y1 x2 y2 : int) :
  toZ i = Z.of_nat k -> (1 <= k)%nat -> (k + n <= 30)%nat ->
  toZ r = (2 ^ (Z.of_nat k - 1))%Z ->
  leaf_ok63 n i r x1 y1 x2 y2 = leaf_ok n k (toZ x1) (toZ y1) (toZ x2) (toZ y2).
Proof.
  intros Hi Hk Hn Hr. unfold leaf_ok63, leaf_ok.
  pose proof (box_run63_ok n k i r (mkBox63 x1 x1 y1 y1) Hi Hk Hn Hr) as R1.
  pose proof (box_run63_ok n k i r (mkBox63 x2 x2 y2 y2) Hi Hk Hn Hr) as R2.
  unfold box_of in R1, R2. cbn [xl63 xh63 yl63 yh63] in R1, R2.
  rewrite <- R1, <- R2.
  destruct (box_run63 n i r (mkBox63 x1 x1 y1 y1)) as [r1|] eqn:B1;
    cbn [option_map]; [|reflexivity].
  destruct (box_run63 n i r (mkBox63 x2 x2 y2 y2)) as [r2|] eqn:B2;
    cbn [option_map]; [|reflexivity].
  cbn [option_map] in R1, R2. symmetry in R1, R2.
  unfold pairZ in R1, R2.
  apply box_run_safe in R1, R2. destruct R1, R2.
  apply final_ok63_ok; assumption.
Qed.

Definition xy_step63 (neg : bool) (i r x y : int) : int * int :=
  let v1 := asr (add y r) i in
  let v2 := asr (add x r) i in
  if neg then (add x v1, sub y v2) else (sub x v1, add y v2).

Lemma xy_step63_ok (neg : bool) (i r x y : int) (k : Z) :
  toZ i = k -> (1 <= k <= 29)%Z -> toZ r = (2 ^ (k - 1))%Z ->
  safe (toZ x) = true -> safe (toZ y) = true ->
  pairZ (xy_step63 neg i r x y) = xy_step neg k (toZ x) (toZ y).
Proof.
  intros Hi Hk Hr Sx Sy. apply safe_spec in Sx, Sy.
  destruct (shifted63 i r y k Hi Hk Hr Sy) as [E1 B1].
  destruct (shifted63 i r x k Hi Hk Hr Sx) as [E2 B2].
  destruct (shifted_operand k (toZ y) (toZ y) (toZ y) Hk) as (F1 & _ & _); try lia.
  destruct (shifted_operand k (toZ x) (toZ x) (toZ x) Hk) as (F2 & _ & _); try lia.
  unfold xy_step63, xy_step, pairZ. rewrite F1, F2.
  rewrite <- !Z.shiftr_div_pow2 by lia. rewrite <- E1, <- E2.
  destruct neg; cbn [fst snd];
    rewrite ?toZ_add, ?toZ_sub by small_by_lia;
    rewrite !wrap32_id by (unfold_ints; lia); reflexivity.
Qed.

Definition arctan_table63 : list int :=
  [ 1740967; 919879; 466945; 234379; 117304; 58666; 29335; 14668;
    7334;    3667;   1833;   917;    458;    229;   115;   57;
    29;      14;     7;      4;      2;      1 ]%sint63.

Lemma arctan_table63_ok : map toZ arctan_table63 = ft_trig_arctan_table.
Proof. reflexivity. Qed.

(** [k], [i] and [r] are the number of the micro-rotation and its rounding
    bit; [tab] is the part of the table not yet read. *)
Fixpoint dfs63 (n k : nat) (i r : int) (tab : list int)
         (x1 y1 a1 x2 y2 a2 lo hi : int) : bool :=
  if ltsb hi lo then true
  else if (leaf_from <=? k)%nat && leaf_ok63 n i r x1 y1 x2 y2 then true
  else
    match n with
    | O => false
    | S n' =>
        safe63 x1 && safe63 y1 && safe63 x2 && safe63 y2 &&
        safe63 a1 && safe63 a2 && safe63 lo && safe63 hi &&
        (let t := hd 0%sint63 tab in
         let '(xn1, yn1) := xy_step63 true i r x1 y1 in
         let '(xp1, yp1) := xy_step63 false i r x1 y1 in
         let '(xn2, yn2) := xy_step63 true i r x2 y2 in
         let '(xp2, yp2) := xy_step63 false i r x2 y2 in
         let i' := add i 1 in
         let r' := add r r in
         let tab' := tl tab in
         let m1 := sub 0 a1 in
         dfs63 n' (S k) i' r' tab' xn1 yn1 (add a1 t) xn2 yn2 (add a2 t)
               (max63 lo (add a2 1)) (min63 hi (sub m1 1)) &&
         dfs63 n' (S k) i' r' tab' xn1 yn1 (add a1 t) xp2 yp2 (sub a2 t)
               lo (min63 hi (min63 (sub m1 1) a2)) &&
         dfs63 n' (S k) i' r' tab' xp1 yp1 (sub a1 t) xn2 yn2 (add a2 t)
               (max63 lo (max63 m1 (add a2 1))) hi &&
         dfs63 n' (S k) i' r' tab' xp1 yp1 (sub a1 t) xp2 yp2 (sub a2 t)
               (max63 lo m1) (min63 hi a2))
    end.

Lemma hd_map_toZ (tab : list int) : toZ (hd 0%sint63 tab) = hd 0%Z (map toZ tab).
Proof. destruct tab; reflexivity. Qed.

Lemma dfs63_ok (n : nat) :
  forall (k : nat) (i r : int) (tab : list int) (x1 y1 a1 x2 y2 a2 lo hi : int),
    toZ i = Z.of_nat k -> (1 <= k)%nat -> (k + n <= 30)%nat ->
    toZ r = (2 ^ (Z.of_nat k - 1))%Z ->
    map toZ tab = skipn (k - 1) ft_trig_arctan_table ->
    dfs63 n k i r tab x1 y1 a1 x2 y2 a2 lo hi =
    dfs n k (toZ x1) (toZ y1) (toZ a1) (toZ x2) (toZ y2) (toZ a2) (toZ lo) (toZ hi).
Proof.
  induction n as [|n IH];
    intros k i r tab x1 y1 a1 x2 y2 a2 lo hi Hi Hk Hn Hr Htab.
  - cbn [dfs63 dfs]. rewrite ltsb_Z, (leaf_ok63_ok _ k) by assumption. reflexivity.
  - cbn [dfs63 dfs]. rewrite ltsb_Z, (leaf_ok63_ok _ k) by assumption.
    destruct (toZ hi <? toZ lo)%Z; [reflexivity|].
    destruct ((leaf_from <=? k)%nat &&
              leaf_ok (S n) k (toZ x1) (toZ y1) (toZ x2) (toZ y2));
      [reflexivity|].
    rewrite !safe63_ok.
    destruct (safe (toZ x1)) eqn:Sx1; [|reflexivity].
    destruct (safe (toZ y1)) eqn:Sy1; [|reflexivity].
    destruct (safe (toZ x2)) eqn:Sx2; [|reflexivity].
    destruct (safe (toZ y2)) eqn:Sy2; [|reflexivity].
    destruct (safe (toZ a1)) eqn:Sa1; [|reflexivity].
    destruct (safe (toZ a2)) eqn:Sa2; [|reflexivity].
    destruct (safe (toZ lo)) eqn:Slo; [|reflexivity].
    destruct (safe (toZ hi)) eqn:Shi; [|reflexivity].
    cbn [andb].
    assert (toZ (hd 0%sint63 tab) = arctan_entry (Z.of_nat k)) as Ht.
    { rewrite hd_map_toZ, Htab, skipn_hd_nth. unfold arctan_entry.
      f_equal. lia. }
    pose proof (arctan_entry_bound (Z.of_nat k)) as Htb.
    set (t := hd 0%sint63 tab) in *.
    rewrite <- Ht.
    assert (1 <= Z.of_nat k <= 29)%Z as Hkz by lia.
    rewrite <- (xy_step63_ok true i r x1 y1 _ Hi Hkz Hr Sx1 Sy1).
    rewrite <- (xy_step63_ok false i r x1 y1 _ Hi Hkz Hr Sx1 Sy1).
    rewrite <- (xy_step63_ok true i r x2 y2 _ Hi Hkz Hr Sx2 Sy2).
    rewrite <- (xy_step63_ok false i r x2 y2 _ Hi Hkz Hr Sx2 Sy2).
    destruct (xy_step63 true i r x1 y1) as [xn1 yn1].
    destruct (xy_step63 false i r x1 y1) as [xp1 yp1].
    destruct (xy_step63 true i r x2 y2) as [xn2 yn2].
    destruct (xy_step63 false i r x2 y2) as [xp2 yp2].
    unfold pairZ. cbn [fst snd].
    apply safe_spec in Sa1, Sa2, Slo, Shi.
    assert (toZ (sub 0 a1) = - toZ a1)%Z as Hm1.
    { rewrite toZ_sub by (try change (toZ 0) with 0%Z; small_by_lia).
      change (toZ 0) with 0%Z. lia. }
    assert (toZ (sub (sub 0 a1) 1) = - toZ a1 - 1)%Z as Hm2.
    { rewrite toZ_sub by (rewrite ?Hm1; try change (toZ 1) with 1%Z; small_by_lia).
      rewrite Hm1. reflexivity. }
    assert (toZ (add a2 1) = toZ a2 + 1)%Z as Hp2.
    { rewrite toZ_add by (try change (toZ 1) with 1%Z; small_by_lia).
      reflexivity. }
    assert (toZ i + 0 = Z.of_nat k)%Z as Hi0 by lia.
    pose proof (toZ_succ i k Hi ltac:(lia)) as Hi'.
    pose proof (toZ_double r k Hr ltac:(lia)) as Hr'.
    assert (map toZ (tl tab) = skipn (S k - 1) ft_trig_arctan_table) as Htab'.
    { replace (S k - 1)%nat with (S (k - 1)) by lia.
      rewrite <- skipn_tl, <- Htab. destruct tab; reflexivity. }
    rewrite !(IH (S k)) by (try assumption; lia).
    rewrite !toZ_min, !toZ_max, Hm1, Hm2, Hp2.
    rewrite !toZ_add, !toZ_sub by (rewrite ?Ht; small_by_lia).
    reflexivity.
Qed.

(** The search from each of the four start vectors, on machine integers. *)
Definition trig_unit63 : int := 14408027%sint63.
Definition neg_unit63 : int := (-14408027)%sint63.
Definition zero63 : int := 0%sint63.
Definition angle_pi4_63 : int := 2949120%sint63.

Definition dfs63_from (x1 y1 x2 y2 : int) : bool :=
  dfs63 22 1 1 1 arctan_table63 x1 y1 0 x2 y2 0
        (sub 0 angle_pi4_63) angle_pi4_63.

Lemma dfs63_from_ok (x1 y1 x2 y2 : int) :
  dfs63_from x1 y1 x2 y2 = true ->
  dfs 22 1 (toZ x1) (toZ y1) 0 (toZ x2) (toZ y2) 0
      (- PVG_FT_ANGLE_PI4) PVG_FT_ANGLE_PI4 = true.
Proof.
  unfold dfs63_from. intros H.
  rewrite dfs63_ok in H by (try reflexivity; lia).
  exact H.
Qed.

End Fast.

(** ** C1: cosine and sine lie on the unit circle *)

(** The start vector of [PVG_FT_Cos]. *)
Definition trig_unit : Z := Z.shiftr PVG_FT_TRIG_SCALE 8.

(** The start vector after [q] quarter turns (counter-clockwise). *)
Definition turned (q : Z) : Z * Z :=
  match q mod 4 with
  | 0 => (trig_unit, 0)
  | 1 => (0, trig_unit)
  | 2 => (- trig_unit, 0)
  | _ => (0, - trig_unit)
  end.

(** The search succeeds from each of the four start vectors, the sine
    starting a quarter turn further on the other side. *)
Lemma dfs_from_63 (x1 y1 x2 y2 : PrimInt63.int) :
  Fast.dfs63_from x1 y1 x2 y2 = true ->
  dfs 22 1 (Fast.toZ x1) (Fast.toZ y1) 0 (Fast.toZ x2) (Fast.toZ y2) 0
      (- PVG_FT_ANGLE_PI4) PVG_FT_ANGLE_PI4 = true.
Proof. exact (Fast.dfs63_from_ok x1 y1 x2 y2). Qed.

Lemma dfs_from_0 :
  dfs 22 1 (fst (turned 0)) (snd (turned 0)) 0
      (fst (turned (1 - 0))) (snd (turned (1 - 0))) 0
      (- PVG_FT_ANGLE_PI4) PVG_FT_ANGLE_PI4 = true.
Proof.
  apply (dfs_from_63 Fast.trig_unit63 Fast.zero63 Fast.zero63 Fast.trig_unit63).
  vm_compute. reflexivity.
Qed.

Lemma dfs_from_1 :
  dfs 22 1 (fst (turned 1)) (snd (turned 1)) 0
      (fst (turned (1 - 1))) (snd (turned (1 - 1))) 0
      (- PVG_FT_ANGLE_PI4) PVG_FT_ANGLE_PI4 = true.
Proof.
  apply (dfs_from_63 Fast.zero63 Fast.trig_unit63 Fast.trig_unit63 Fast.zero63).
  vm_compute. reflexivity.
Qed.

Lemma dfs_from_2 :
  dfs 22 1 (fst (turned 2)) (snd (turned 2)) 0
      (fst (turned (1 - 2))) (snd (turned (1 - 2))) 0
      (- PVG_FT_ANGLE_PI4) PVG_FT_ANGLE_PI4 = true.
Proof.
  apply (dfs_from_63 Fast.neg_unit63 Fast.zero63 Fast.zero63 Fast.neg_unit63).
  vm_compute. reflexivity.
Qed.

Lemma dfs_from_3 :
  dfs 22 1 (fst (turned 3)) (snd (turned 3)) 0
      (fst (turned (1 - 3))) (snd (turned (1 - 3))) 0
      (- PVG_FT_ANGLE_PI4) PVG_FT_ANGLE_PI4 = true.
Proof.
  apply (dfs_from_63 Fast.zero63 Fast.neg_unit63 Fast.neg_unit63 Fast.zero63).
  vm_compute. reflexivity.
Qed.

Lemma dfs_from_all (q : Z) :
  dfs 22 1 (fst (turned (q mod 4))) (snd (turned (q mod 4))) 0
      (fst (turned (1 - q mod 4))) (snd (turned (1 - q mod 4))) 0
      (- PVG_FT_ANGLE_PI4) PVG_FT_ANGLE_PI4 = true.
Proof.
  pose proof (Z.mod_pos_bound q 4 ltac:(lia)) as Hq.
  destruct (Z.eq_dec (q mod 4) 0) as [->|]; [exact dfs_from_0|].
  destruct (Z.eq_dec (q mod 4) 1) as [->|]; [exact dfs_from_1|].
  destruct (Z.eq_dec (q mod 4) 2) as [->|]; [exact dfs_from_2|].
  destruct (Z.eq_dec (q mod 4) 3) as [->|]; [exact dfs_from_3|].
  lia.
Qed.

Lemma turned_mod (q : Z) : turned (q mod 4) = turned q.
Proof. unfold turned. rewrite Z.mod_mod by lia. reflexivity. Qed.

Lemma turned_compl_mod (q : Z) : turned (1 - q mod 4) = turned (1 - q).
Proof. unfold turned. rewrite Zminus_mod_idemp_r. reflexivity. Qed.

Lemma dfs_turned (k : Z) :
  dfs 22 1 (fst (turned k)) (snd (turned k)) 0
      (fst (turned (1 - k))) (snd (turned (1 - k))) 0
      (- PVG_FT_ANGLE_PI4) PVG_FT_ANGLE_PI4 = true.
Proof.
  rewrite <- (turned_mod k), <- (turned_compl_mod k).
  exact (dfs_from_all k).
Qed.

Lemma search_sound (k t : Z) :
  - PVG_FT_ANGLE_PI4 <= t <= PVG_FT_ANGLE_PI4 ->
  unit_norm
    (cos_round (abscissa (micro_rotations by_angle 1 22 (turned k, t))))
    (cos_round (abscissa (micro_rotations by_angle 1 22 (turned (1 - k), - t)))).
Proof.
  intros Ht.
  pose proof (dfs_sound 22 1 _ _ _ _ _ _ _ _ t
                ltac:(lia) ltac:(lia) (dfs_turned k) Ht) as H.
  rewrite !Z.add_0_r in H.
  rewrite <- !surjective_pairing in H. exact H.
Qed.

Lemma turns_up_eq (theta m : Z) :
  - PVG_FT_ANGLE_PI4 <= theta + m * PVG_FT_ANGLE_PI2 < PVG_FT_ANGLE_PI4 ->
  turns_up theta = m.
Proof.
  intros H. unfold turns_up. angle_consts. symmetry.
  apply Z.div_unique with (r := - 2949120 - theta + 5898240 - 1 - 5898240 * m); lia.
Qed.

Lemma turns_down_eq (theta m : Z) :
  - PVG_FT_ANGLE_PI4 < theta - m * PVG_FT_ANGLE_PI2 <= PVG_FT_ANGLE_PI4 ->
  turns_down theta = m.
Proof.
  intros H. unfold turns_down. angle_consts. symmetry.
  apply Z.div_unique with (r := theta - 2949120 + 5898240 - 1 - 5898240 * m); lia.
Qed.

(** Case analysis on an integer of a known small range. *)
Ltac case_range k lo n tac :=
  lazymatch n with
  | O => exfalso; lia
  | S ?n' =>
      destruct (Z.eq_dec k lo) as [->|];
      [tac | let lo' := eval compute in (lo + 1) in case_range k lo' n' tac]
  end.

(** The reduction of an angle that is [k] quarter turns away from the
    remainder [theta_r]. *)
Lemma reduce_angle_turned (theta theta_r k : Z) :
  - 9 <= k <= 9 ->
  theta = theta_r + k * PVG_FT_ANGLE_PI2 ->
  - PVG_FT_ANGLE_PI4 <= theta_r <= PVG_FT_ANGLE_PI4 ->
  (theta_r = - PVG_FT_ANGLE_PI4 -> k <= 0) ->
  (theta_r = PVG_FT_ANGLE_PI4 -> 0 <= k) ->
  reduce_angle trig_unit 0 theta = (turned k, theta_r).
Proof.
  intros Hk -> Hr Hlo Hhi. unfold reduce_angle.
  destruct (Z_lt_le_dec k 0) as [Hneg|Hnn].
  - replace (theta_r + k * PVG_FT_ANGLE_PI2 <? - PVG_FT_ANGLE_PI4) with true
      by (symmetry; apply Z.ltb_lt; angle_consts; lia).
    rewrite (turns_up_eq _ (- k)) by (angle_consts; lia).
    f_equal; [|lia].
    case_range k (-9) 9%nat ltac:(vm_compute; reflexivity).
  - replace (theta_r + k * PVG_FT_ANGLE_PI2 <? - PVG_FT_ANGLE_PI4) with false
      by (symmetry; apply Z.ltb_ge; angle_consts; lia).
    rewrite Z.gtb_ltb.
    destruct (Z.eq_dec k 0) as [->|Hk0].
    + replace (PVG_FT_ANGLE_PI4 <? theta_r + 0 * PVG_FT_ANGLE_PI2) with false
        by (symmetry; apply Z.ltb_ge; lia).
      f_equal. lia.
    + replace (PVG_FT_ANGLE_PI4 <? theta_r + k * PVG_FT_ANGLE_PI2) with true
        by (symmetry; apply Z.ltb_lt; angle_consts; lia).
      rewrite (turns_down_eq _ k) by (angle_consts; lia).
      f_equal; [|lia].
      case_range k 1 9%nat ltac:(vm_compute; reflexivity).
Qed.

Lemma angle_decompose (theta : Z) :
  - (720 * 2 ^ 16) <= theta <= 720 * 2 ^ 16 ->
  exists k theta_r,
    - 8 <= k <= 8 /\ theta = theta_r + k * PVG_FT_ANGLE_PI2 /\
    - PVG_FT_ANGLE_PI4 <= theta_r <= PVG_FT_ANGLE_PI4 /\
    (theta_r = - PVG_FT_ANGLE_PI4 -> k <= 0) /\
    (theta_r = PVG_FT_ANGLE_PI4 -> 0 <= k).
Proof.
  change (720 * 2 ^ 16) with 47185920. intros Ht.
  assert (int32 theta) as Hi by (unfold_ints; lia).
  destruct (Z_lt_le_dec theta (- PVG_FT_ANGLE_PI4)) as [Hlt|Hge].
  - destruct (turns_up_bound theta Hi Hlt) as [Hk Hr].
    exists (- turns_up theta), (theta + turns_up theta * PVG_FT_ANGLE_PI2).
    angle_consts. repeat split; lia.
  - destruct (Z_lt_le_dec PVG_FT_ANGLE_PI4 theta) as [Hgt|Hle].
    + destruct (turns_down_bound theta Hi Hgt) as [Hk Hr].
      exists (turns_down theta), (theta - turns_down theta * PVG_FT_ANGLE_PI2).
      angle_consts. repeat split; lia.
    + exists 0, theta. angle_consts. repeat split; lia.
Qed.

Lemma Cos_micro (theta : Z) :
  int32 theta ->
  PVG_FT_Cos theta =
  Some (cos_round (abscissa (micro_rotations by_angle 1 22
                               (reduce_angle trig_unit 0 theta)))).
Proof.
  intros Ht. unfold PVG_FT_Cos.
  rewrite pseudo_rotate_micro by exact Ht.
  unfold spec_pseudo_rotate. cbn [vx vy]. fold trig_unit.
  destruct (reduce_angle trig_unit 0 theta) as [[x y] th].
  destruct (micro_rotations by_angle 1 22 (x, y, th)) as [[x' y'] th'].
  reflexivity.
Qed.

(** C1: for every angle between -720 and 720 degrees, the values of
    [PVG_FT_Cos] and [PVG_FT_Sin], read as 16.16 fixed-point numbers,
    satisfy cos^2 + sin^2 = 1 up to 2^-10; on the integers:
    |c^2 + s^2 - 2^32| <= 2^22. *)
Theorem Cos_Sin_unit_norm (theta : Z) :
  - (720 * 2 ^ 16) <= theta <= 720 * 2 ^ 16 ->
  exists c s, PVG_FT_Cos theta = Some c /\ PVG_FT_Sin theta = Some s /\
              Z.abs (c * c + s * s - 2 ^ 32) <= 2 ^ 22.
Proof.
  intros Ht.
  assert (- 47185920 <= theta <= 47185920) as Ht' by exact Ht.
  assert (int32 theta) as Hi by (unfold_ints; lia).
  assert (int32 (PVG_FT_ANGLE_PI2 - theta)) as Hi2
    by (angle_consts; unfold_ints; lia).
  unfold PVG_FT_Sin. rewrite (wrap32_id _ Hi2).
  rewrite (Cos_micro _ Hi), (Cos_micro _ Hi2).
  do 2 eexists. split; [reflexivity|]. split; [reflexivity|].
  destruct (Z.eq_dec theta PVG_FT_ANGLE_PI4) as [->|Hne].
  - vm_compute. discriminate.
  - destruct (angle_decompose theta Ht) as (k & theta_r & Hk & Heq & Hr & Hlo & Hhi).
    rewrite (reduce_angle_turned theta theta_r k) by (try assumption; lia).
    rewrite (reduce_angle_turned (PVG_FT_ANGLE_PI2 - theta) (- theta_r) (1 - k)).
    + exact (search_sound k theta_r Hr).
    + lia.
    + lia.
    + lia.
    + intros H0. assert (0 <= k) by (apply Hhi; lia).
      destruct (Z.eq_dec k 0) as [->|]; [|lia].
      exfalso. apply Hne. lia.
    + intros H0. assert (k <= 0) by (apply Hlo; lia). lia.
Qed.

Lemma Cos_Sin_unit_norm_witness :
  exists c s, PVG_FT_Cos 1966080 = Some c /\ PVG_FT_Sin 1966080 = Some s /\
              Z.abs (c * c + s * s - 2 ^ 32) <= 2 ^ 22.
Proof.
  apply (Cos_Sin_unit_norm 1966080).
  vm_compute. split; discriminate.
Defined.

(** ** Slope enclosures for the polarization engine *)

(** The slope [y / x] of the vector is kept between two fractions
    [L / slope_den] and [H / slope_den]; one micro-rotation maps such an
    enclosure to another, the rounding of the two shifted operands
    included. *)

Section SlopeStep.

Variables D Xm : Z.
Hypothesis D_pos : 0 < D.
Hypothesis Xm_pos : 0 < Xm.

(** [Hn] bounds the slope from above after a clockwise micro-rotation by
    [1 / P], when [H] bounded it before; [r] bounds the rounding error of
    the shifted operands, scaled by [P]. *)
Definition cond_hi (H Hn P r : Z) : bool :=
  let C := D * Hn * P + D * D + H * Hn - H * D * P in
  (Hn <=? D * P) && (0 <=? C) && (D * r * (D + Z.abs Hn) <=? Xm * C).

Definition cond_lo (L Ln P r : Z) : bool :=
  let C := L * (D * P - Ln) - D * (D + Ln * P) in
  (Ln <=? D * P) && (0 <=? C) && (D * r * (D + Z.abs Ln) <=? Xm * C).

Lemma slope_step_hi (x y v1 v2 H Hn P r : Z) :
  0 < P -> 0 <= r -> Xm <= x ->
  D * y <= H * x ->
  Z.abs (P * v1 - y) <= r -> Z.abs (P * v2 - x) <= r ->
  cond_hi H Hn P r = true ->
  D * (y - v2) <= Hn * (x + v1).
Proof.
  intros HP Hr Hx Hy Hv1 Hv2 Hc. unfold cond_hi in Hc.
  apply andb_prop in Hc as [Hc H3]. apply andb_prop in Hc as [H1 H2].
  apply Z.leb_le in H1, H2, H3.
  set (C := D * Hn * P + D * D + H * Hn - H * D * P) in *.
  assert (Hn * (P * v1) >= Hn * y - Z.abs Hn * r) as A1.
  { destruct (Z_le_gt_dec 0 Hn).
    - rewrite (Z.abs_eq Hn) by lia. nia.
    - rewrite (Z.abs_neq Hn) by lia. nia. }
  assert ((D * y) * (Hn - D * P) >= (H * x) * (Hn - D * P)) as A2 by nia.
  assert (x * C >= Xm * C) as A3 by nia.
  assert (D * P * (Hn * (x + v1) - D * (y - v2)) >= 0) as A4.
  { assert (D * (D * (P * v2)) >= D * (D * (x - r))) as A5 by nia.
    assert (D * (Hn * (P * v1)) >= D * (Hn * y - Z.abs Hn * r)) as A6 by nia.
    unfold C in A3. nia. }
  assert (0 < D * P) by nia. nia.
Qed.

Lemma slope_step_lo (x y v1 v2 L Ln P r : Z) :
  0 < P -> 0 <= r -> Xm <= x ->
  L * x <= D * y ->
  Z.abs (P * v1 - y) <= r -> Z.abs (P * v2 - x) <= r ->
  cond_lo L Ln P r = true ->
  Ln * (x + v1) <= D * (y - v2).
Proof.
  intros HP Hr Hx Hy Hv1 Hv2 Hc. unfold cond_lo in Hc.
  apply andb_prop in Hc as [Hc H3]. apply andb_prop in Hc as [H1 H2].
  apply Z.leb_le in H1, H2, H3.
  set (C := L * (D * P - Ln) - D * (D + Ln * P)) in *.
  assert (Ln * (P * v1) <= Ln * y + Z.abs Ln * r) as A1.
  { destruct (Z_le_gt_dec 0 Ln).
    - rewrite (Z.abs_eq Ln) by lia. nia.
    - rewrite (Z.abs_neq Ln) by lia. nia. }
  assert ((D * y) * (D * P - Ln) >= (L * x) * (D * P - Ln)) as A2 by nia.
  assert (x * C >= Xm * C) as A3 by nia.
  assert (D * P * (D * (y - v2) - Ln * (x + v1)) >= 0) as A4.
  { assert (D * (D * (P * v2)) <= D * (D * (x + r))) as A5 by nia.
    assert (D * (Ln * (P * v1)) <= D * (Ln * y + Z.abs Ln * r)) as A6 by nia.
    unfold C in A3. nia. }
  assert (0 < D * P) by nia. nia.
Qed.

End SlopeStep.

(** ** The angle accumulated by the micro-rotations *)

Definition angle_of (st : Z * Z * Z) : Z := snd st.

(** The sum of the table entries from number [j] on. *)
Definition rest (j : nat) : Z :=
  fold_right Z.add 0 (skipn (j - 1) ft_trig_arctan_table).

Lemma rest_step (j : nat) :
  (1 <= j)%nat -> rest j = arctan_entry (Z.of_nat j) + rest (S j).
Proof.
  intros Hj. unfold rest, arctan_entry.
  replace (Z.to_nat (Z.of_nat j - 1)) with (j - 1)%nat by lia.
  replace (S j - 1)%nat with (S (j - 1)) by lia.
  rewrite <- skipn_hd_nth, <- skipn_tl.
  destruct (skipn (j - 1) ft_trig_arctan_table); reflexivity.
Qed.

Lemma rest_nonneg (j : nat) : 0 <= rest j.
Proof.
  unfold rest. generalize (j - 1)%nat. intros k.
  assert (Forall (fun a => 0 <= a) (skipn k ft_trig_arctan_table)) as Hall.
  { assert (Forall (fun a => 0 <= a) ft_trig_arctan_table) as Ht
      by (unfold ft_trig_arctan_table; repeat constructor; lia).
    revert Ht. generalize ft_trig_arctan_table. induction k as [|k IH]; intros l Hl.
    - exact Hl.
    - destruct l as [|a l]; [constructor|]. cbn [skipn]. apply IH.
      inversion Hl; assumption. }
  induction Hall as [|a l Ha _ IH]; cbn [fold_right]; lia.
Qed.

Lemma rest_1 : rest 1 = 3596810.
Proof. reflexivity. Qed.

Lemma rest_le_1 (j : nat) : (1 <= j)%nat -> rest j <= rest 1.
Proof.
  intros Hj. induction j as [|j IH]; [lia|].
  destruct (Nat.eq_dec j 0) as [->|Hne]; [lia|].
  pose proof (rest_step j ltac:(lia)) as Hs.
  pose proof (arctan_entry_bound (Z.of_nat j)).
  specialize (IH ltac:(lia)). lia.
Qed.

Lemma micro_rotation_angle (dec : Z * Z * Z -> bool) (i x y theta : Z) :
  Z.abs theta + arctan_entry i <= 2 ^ 30 ->
  Z.abs (angle_of (micro_rotation dec i (x, y, theta)) - theta) = arctan_entry i.
Proof.
  intros Hb. pose proof (arctan_entry_bound i) as Ht.
  change (2 ^ 30) with 1073741824 in Hb.
  unfold micro_rotation, angle_of. fold (arctan_entry i).
  destruct (dec (x, y, theta)); cbn [snd];
    rewrite wrap32_id by (unfold_ints; lia); lia.
Qed.

(** Whatever the directions taken, the angle moves by at most the sum of
    the table entries still to come. *)
Lemma angle_drift (dec : Z * Z * Z -> bool) (n : nat) :
  forall (j : nat) (x y theta : Z),
    (1 <= j)%nat -> Z.abs theta + rest j <= 2 ^ 30 ->
    Z.abs (angle_of (micro_rotations dec j n (x, y, theta)) - theta) <= rest j.
Proof.
  induction n as [|n IH]; intros j x y theta Hj Hb.
  - unfold micro_rotations, angle_of. cbn [seq fold_left snd].
    pose proof (rest_nonneg j). lia.
  - rewrite micro_rotations_S.
    pose proof (rest_step j Hj) as Hs.
    pose proof (rest_nonneg (S j)) as Hr.
    pose proof (arctan_entry_bound (Z.of_nat j)) as Ht.
    pose proof (micro_rotation_angle dec (Z.of_nat j) x y theta ltac:(lia)) as Hm.
    destruct (micro_rotation dec (Z.of_nat j) (x, y, theta)) as [[x' y'] theta'].
    unfold angle_of in Hm. cbn [snd] in Hm.
    specialize (IH (S j) x' y' theta' ltac:(lia) ltac:(lia)). lia.
Qed.

(** ** The search over the decisions of the polarization engine *)

Definition slope_den : Z := 2 ^ 40.
Definition x_min : Z := 2 ^ 29.
Definition slope_slack : Z := 2 ^ 13.
Definition val_lim : Z := 2 ^ 31 - 2 ^ 22 - 2.

Definition next_hi (H P : Z) : Z :=
  slope_den * (H * P - slope_den) / (slope_den * P + H) + slope_slack.
Definition next_lo (L P : Z) : Z :=
  slope_den * (L * P - slope_den) / (slope_den * P + L) - slope_slack.

(** [pol_dfs n j sg L H Xmax B]: from micro-rotation [j] on, on every
    vector with [x_min <= x <= Xmax] and slope between [L] and [H], the
    angle moves by at most [B] in the direction [sg]. *)
Fixpoint pol_dfs (n j : nat) (sg L H Xmax B : Z) : bool :=
  if H <? L then true
  else if rest j <=? B then true
  else
    match n with
    | O => false
    | S n' =>
        let P := 2 ^ Z.of_nat j in
        let r := 2 ^ (Z.of_nat j - 1) in
        let t := arctan_entry (Z.of_nat j) in
        let M := Z.max (Z.abs L) (Z.abs H) in
        let Ymax := Xmax * M / slope_den + 1 in
        let Xn := Xmax + (Ymax + r) / P + 1 in
        (Xn <=? val_lim) && (Ymax + (Xmax + r) / P + 1 <=? val_lim) &&
        (if 0 <? H then
           let Lp := Z.max L 0 in
           let Hn := next_hi H P in
           let Ln := next_lo Lp P in
           cond_hi slope_den x_min H Hn P r &&
           cond_lo slope_den x_min Lp Ln P r &&
           pol_dfs n' (S j) sg Ln Hn Xn (B - sg * t)
         else true) &&
        (if L <=? 0 then
           let Hm := Z.min H 0 in
           let Hn := next_hi (- L) P in
           let Ln := next_lo (- Hm) P in
           cond_hi slope_den x_min (- L) Hn P r &&
           cond_lo slope_den x_min (- Hm) Ln P r &&
           pol_dfs n' (S j) sg (- Hn) (- Ln) Xn (B + sg * t)
         else true)
    end.

Lemma round_shift (a j : Z) :
  1 <= j ->
  Z.abs (2 ^ j * ((a + 2 ^ (j - 1)) / 2 ^ j) - a) <= 2 ^ (j - 1).
Proof.
  intros Hj.
  assert (2 ^ j = 2 * 2 ^ (j - 1)) as Hp.
  { replace j with (j - 1 + 1) at 1 by lia. rewrite Z.pow_add_r by lia. lia. }
  pose proof (Z.pow_pos_nonneg 2 (j - 1) ltac:(lia) ltac:(lia)) as Hr.
  pose proof (Z.div_mod (a + 2 ^ (j - 1)) (2 ^ j) ltac:(lia)) as Hd.
  pose proof (Z.mod_pos_bound (a + 2 ^ (j - 1)) (2 ^ j) ltac:(lia)) as Hm.
  lia.
Qed.

(** One micro-rotation of the polarization engine on values that cannot
    wrap: the new vector, with the rounding of the shifted operands
    bounded and the abscissa not decreasing. *)
Lemma polar_step (j x y Xmax Ymax : Z) :
  1 <= j <= 22 -> 0 < x <= Xmax -> Z.abs y <= Ymax ->
  Xmax + (Ymax + 2 ^ (j - 1)) / 2 ^ j + 1 <= val_lim ->
  Ymax + (Xmax + 2 ^ (j - 1)) / 2 ^ j + 1 <= val_lim ->
  exists v1 v2,
    xy_step (y >? 0) j x y =
      (if y >? 0 then (x + v1, y - v2) else (x - v1, y + v2)) /\
    Z.abs (2 ^ j * v1 - y) <= 2 ^ (j - 1) /\
    Z.abs (2 ^ j * v2 - x) <= 2 ^ (j - 1) /\
    (if y >? 0 then 0 <= v1 else v1 <= 0) /\
    Z.abs v1 <= (Ymax + 2 ^ (j - 1)) / 2 ^ j + 1.
Proof.
  intros Hj Hx Hy Hc1 Hc2.
  assert (1 <= 2 ^ (j - 1) <= 2 ^ 21) as Hr.
  { split.
    - pose proof (Z.pow_pos_nonneg 2 (j - 1) ltac:(lia) ltac:(lia)). lia.
    - apply Z.pow_le_mono_r; lia. }
  assert (2 ^ j = 2 * 2 ^ (j - 1)) as Hp.
  { replace j with (j - 1 + 1) at 1 by lia. rewrite Z.pow_add_r by lia. lia. }
  set (r := 2 ^ (j - 1)) in *. set (P := 2 ^ j) in *.
  unfold val_lim in Hc1, Hc2.
  change (2 ^ 31) with 2147483648 in *. change (2 ^ 22) with 4194304 in *.
  change (2 ^ 21) with 2097152 in *.
  assert (0 <= (Ymax + r) / P) as Hq1 by (apply Z.div_pos; lia).
  assert (0 <= (Xmax + r) / P) as Hq2 by (apply Z.div_pos; lia).
  pose proof (round_shift y j ltac:(lia)) as R1. fold r P in R1.
  pose proof (round_shift x j ltac:(lia)) as R2. fold r P in R2.
  set (v1 := (y + r) / P) in *. set (v2 := (x + r) / P) in *.
  assert (Z.abs v1 <= (Ymax + r) / P + 1) as B1.
  { assert (- ((Ymax + r) / P) - 1 <= v1 <= (Ymax + r) / P); [|lia].
    split.
    - assert (- ((Ymax + r) / P) - 1 <= (- Ymax + r) / P) as A.
      { pose proof (Z.div_mod (Ymax + r) P ltac:(lia)).
        pose proof (Z.mod_pos_bound (Ymax + r) P ltac:(lia)).
        apply Z.div_le_lower_bound; [lia|]. nia. }
      assert ((- Ymax + r) / P <= v1) by (apply Z.div_le_mono; lia). lia.
    - apply Z.div_le_mono; lia. }
  assert (0 <= v2 <= (Xmax + r) / P) as B2.
  { split; [apply Z.div_pos; lia | apply Z.div_le_mono; lia]. }
  exists v1, v2. unfold xy_step. fold r P.
  rewrite !(wrap32_id (_ + r)) by (unfold_ints; lia).
  rewrite !Z.shiftr_div_pow2 by lia. fold P v1 v2.
  destruct (Z.gtb_spec y 0) as [Hpos|Hneg].
  - assert (0 <= v1) by (apply Z.div_pos; lia).
    rewrite !wrap32_id by (unfold_ints; lia).
    repeat split; try assumption.
  - assert (v1 <= 0).
    { assert (v1 <= r / P) by (apply Z.div_le_mono; lia).
      rewrite (Z.div_small r P) in * by lia. lia. }
    rewrite !wrap32_id by (unfold_ints; lia).
    repeat split; try assumption.
Qed.

Lemma abs_le_div (y x m d : Z) :
  0 < d -> 0 <= x -> 0 <= m -> d * Z.abs y <= m * x -> Z.abs y <= m * x / d.
Proof.
  intros Hd Hx Hm H. apply Z.div_le_lower_bound; [lia|]. exact H.
Qed.

Lemma slope_den_pos : 0 < slope_den.
Proof. reflexivity. Qed.

Lemma x_min_pos : 0 < x_min.
Proof. reflexivity. Qed.

Lemma pol_dfs_sound (n : nat) :
  forall (j : nat) (sg L H Xmax B x y theta : Z),
    sg = 1 \/ sg = -1 -> (1 <= j)%nat -> (j + n = 23)%nat ->
    pol_dfs n j sg L H Xmax B = true ->
    x_min <= x <= Xmax -> L * x <= slope_den * y <= H * x ->
    Z.abs theta + rest j <= 2 ^ 30 ->
    sg * (angle_of (micro_rotations by_ordinate j n (x, y, theta)) - theta) <= B.
Proof.
  induction n as [|n IH];
    intros j sg L H Xmax B x y theta Hsg Hj Hn Hdfs Hx Hy Hth.
  - cbn [pol_dfs] in Hdfs. pose proof x_min_pos.
    destruct (Z.ltb_spec H L); [nia|].
    destruct (Z.leb_spec (rest j) B); [|discriminate Hdfs].
    unfold micro_rotations, angle_of. cbn [seq fold_left snd].
    pose proof (rest_nonneg j). lia.
  - cbn [pol_dfs] in Hdfs. pose proof x_min_pos as Hxm.
    destruct (Z.ltb_spec H L); [nia|].
    destruct (Z.leb_spec (rest j) B) as [Hrest|Hrest].
    { pose proof (angle_drift by_ordinate (S n) j x y theta Hj Hth). lia. }
    apply andb_prop in Hdfs as [Hdfs Hminus].
    apply andb_prop in Hdfs as [Hdfs Hplus].
    apply andb_prop in Hdfs as [Hc1 Hc2].
    apply Z.leb_le in Hc1, Hc2.
    pose proof slope_den_pos as HD.
    set (P := 2 ^ Z.of_nat j) in *. set (r := 2 ^ (Z.of_nat j - 1)) in *.
    set (M := Z.max (Z.abs L) (Z.abs H)) in *.
    set (Ymax := Xmax * M / slope_den + 1) in *.
    set (Xn := Xmax + (Ymax + r) / P + 1) in *.
    assert (Z.abs y <= Ymax) as Hyb.
    { assert (slope_den * Z.abs y <= M * Xmax) as A.
      { assert (slope_den * Z.abs y <= M * x) by (unfold M; nia).
        assert (0 <= M) by (unfold M; lia). nia. }
      pose proof (abs_le_div y Xmax M slope_den HD ltac:(lia)
                    ltac:(unfold M; lia) A) as A'.
      unfold Ymax. rewrite (Z.mul_comm Xmax M). lia. }
    destruct (polar_step (Z.of_nat j) x y Xmax Ymax ltac:(lia) ltac:(lia) Hyb
                Hc1 Hc2) as (v1 & v2 & Estep & R1 & R2 & Sv1 & Bv1).
    fold P r in Estep, R1, R2, Bv1.
    pose proof (rest_step j Hj) as Hrs.
    pose proof (rest_nonneg (S j)) as Hrn.
    pose proof (arctan_entry_bound (Z.of_nat j)) as Ht.
    set (t := arctan_entry (Z.of_nat j)) in *.
    assert (0 < P) as HP by (apply Z.pow_pos_nonneg; lia).
    assert (0 <= r) as Hr by (apply Z.pow_nonneg; lia).
    change (2 ^ 30) with 1073741824 in Hth.
    rewrite micro_rotations_S, micro_rotation_by_ordinate, Estep. fold t.
    destruct (Z.gtb_spec y 0) as [Hpos|Hneg].
    + destruct (Z.ltb_spec 0 H) as [HH|HH]; [|nia].
      apply andb_prop in Hplus as [Hplus Hrec].
      apply andb_prop in Hplus as [Chi Clo].
      rewrite wrap32_id by (unfold_ints; lia).
      assert (Z.max L 0 * x <= slope_den * y) as HyL by nia.
      pose proof (slope_step_hi slope_den x_min HD Hxm x y v1 v2 H _ P r HP Hr
                    ltac:(lia) ltac:(lia) R1 R2 Chi) as Shi.
      pose proof (slope_step_lo slope_den x_min HD Hxm x y v1 v2 _ _ P r HP Hr
                    ltac:(lia) HyL R1 R2 Clo) as Slo.
      pose proof (IH (S j) sg _ _ Xn (B - sg * t) (x + v1) (y - v2) (theta + t)
                    Hsg ltac:(lia) ltac:(lia) Hrec ltac:(unfold Xn; lia)
                    (conj Slo Shi) ltac:(lia)) as Hfin.
      destruct Hsg as [-> | ->]; lia.
    + destruct (Z.leb_spec L 0) as [HL|HL]; [|nia].
      apply andb_prop in Hminus as [Hminus Hrec].
      apply andb_prop in Hminus as [Chi Clo].
      rewrite wrap32_id by (unfold_ints; lia).
      assert (- Z.min H 0 * x <= slope_den * - y) as HyH by nia.
      assert (slope_den * - y <= - L * x) as HyL by nia.
      assert (Z.abs (P * - v1 - - y) <= r) as R1' by lia.
      pose proof (slope_step_hi slope_den x_min HD Hxm x (- y) (- v1) v2 _ _ P r HP Hr
                    ltac:(lia) HyL R1' R2 Chi) as Shi.
      pose proof (slope_step_lo slope_den x_min HD Hxm x (- y) (- v1) v2 _ _ P r HP Hr
                    ltac:(lia) HyH R1' R2 Clo) as Slo.
      assert (- next_hi (- L) P * (x - v1) <= slope_den * (y + v2)
              <= - next_lo (- Z.min H 0) P * (x - v1)) as Hs.
      { replace (x + - v1) with (x - v1) in * by lia. lia. }
      pose proof (IH (S j) sg _ _ Xn (B + sg * t) (x - v1) (y + v2) (theta - t)
                    Hsg ltac:(lia) ltac:(lia) Hrec ltac:(unfold Xn; lia)
                    Hs ltac:(lia)) as Hfin.
      destruct Hsg as [-> | ->]; lia.
Qed.

(** The two searches: a vector below the axis turns the angle up by at
    most 15 units, a vector on or above it turns it down by at most 15. *)
Lemma pol_dfs_below : pol_dfs 22 1 1 (- slope_den) 0 (2 ^ 30) 15 = true.
Proof. vm_compute. reflexivity. Qed.

Lemma pol_dfs_above : pol_dfs 22 1 (-1) 0 slope_den (2 ^ 30) 15 = true.
Proof. vm_compute. reflexivity. Qed.

(** ** The pre-normalization *)

Lemma to_u32_small (z : Z) : 0 <= z < 2 ^ 32 -> to_u32 z = z.
Proof. unfold to_u32. intros H. apply Z.mod_small. exact H. Qed.

(** [clz] counts the leading zero bits of a non-zero 32-bit value. *)
Lemma clz_spec (v : Z) :
  0 < v < 2 ^ 32 ->
  0 <= clz v <= 31 /\ 2 ^ (31 - clz v) <= v < 2 ^ (32 - clz v).
Proof.
  intros Hv. unfold clz. rewrite to_u32_small by lia.
  change (2 ^ 32) with 4294967296 in Hv.
  replace (v =? 0) with false by (symmetry; apply Z.eqb_neq; lia).
  destruct (Z.leb_spec v 65535) as [C1|C1];
    [rewrite Z.shiftl_mul_pow2, to_u32_small
       by (try change (2 ^ 32) with 4294967296; change (2 ^ 16) with 65536; lia);
     change (2 ^ 16) with 65536|];
    cbv beta iota zeta;
    match goal with
    | |- context [if ?x <=? 16777215 then _ else _] =>
        destruct (Z.leb_spec x 16777215) as [C2|C2];
        [rewrite Z.shiftl_mul_pow2, to_u32_small
           by (try change (2 ^ 32) with 4294967296; change (2 ^ 8) with 256; lia);
         change (2 ^ 8) with 256|]
    end;
    cbv beta iota zeta;
    match goal with
    | |- context [if ?x <=? 268435455 then _ else _] =>
        destruct (Z.leb_spec x 268435455) as [C3|C3];
        [rewrite Z.shiftl_mul_pow2, to_u32_small
           by (try change (2 ^ 32) with 4294967296; change (2 ^ 4) with 16; lia);
         change (2 ^ 4) with 16|]
    end;
    cbv beta iota zeta;
    match goal with
    | |- context [if ?x <=? 1073741823 then _ else _] =>
        destruct (Z.leb_spec x 1073741823) as [C4|C4];
        [rewrite Z.shiftl_mul_pow2, to_u32_small
           by (try change (2 ^ 32) with 4294967296; change (2 ^ 2) with 4; lia);
         change (2 ^ 2) with 4|]
    end;
    cbv beta iota zeta;
    match goal with
    | |- context [if ?x <=? 2147483647 then _ else _] =>
        destruct (Z.leb_spec x 2147483647) as [C5|C5]
    end;
    match goal with
    | |- context [2 ^ (31 - ?n)] =>
        let a := eval compute in (2 ^ (31 - n)) in
        let b := eval compute in (2 ^ (32 - n)) in
        let m := eval compute in n in
        change (2 ^ (31 - n)) with a; change (2 ^ (32 - n)) with b;
        change n with m
    end;
    lia.
Qed.

Lemma MSB_spec (v : Z) :
  0 < v < 2 ^ 32 -> PVG_FT_MSB v = Z.log2 v.
Proof.
  intros Hv. destruct (clz_spec v Hv) as [Hc Hb]. unfold PVG_FT_MSB.
  symmetry. apply Z.log2_unique; [lia|].
  replace (Z.succ (31 - clz v)) with (32 - clz v) by lia. exact Hb.
Qed.

Lemma to_u32_ABS (x : Z) : int32 x -> to_u32 (PVG_FT_ABS x) = Z.abs x.
Proof.
  intros Hx. unfold PVG_FT_ABS.
  destruct (Z.ltb_spec x 0) as [Hn|Hp].
  - destruct (Z.eq_dec x INT32_MIN) as [->|Hne]; [reflexivity|].
    rewrite wrap32_neg_pos by (unfold_ints; lia).
    rewrite to_u32_small by (unfold_ints; lia). lia.
  - rewrite to_u32_small by (unfold_ints; lia). lia.
Qed.

Lemma to_u32_lor (a b : Z) : to_u32 (Z.lor a b) = Z.lor (to_u32 a) (to_u32 b).
Proof.
  unfold to_u32. rewrite <- !Z.land_ones by lia.
  apply Z.land_lor_distr_l.
Qed.

Lemma clz_to_u32 (v : Z) : clz (to_u32 v) = clz v.
Proof.
  assert (to_u32 (to_u32 v) = to_u32 v) as E
    by (unfold to_u32; apply Z.mod_mod; lia).
  unfold clz. rewrite E. reflexivity.
Qed.

(** The position of the highest bit of the larger magnitude. *)
Lemma MSB_abs (x y : Z) :
  int32 x -> int32 y -> ~ (x = 0 /\ y = 0) ->
  let s := PVG_FT_MSB (Z.lor (PVG_FT_ABS x) (PVG_FT_ABS y)) in
  0 <= s <= 31 /\ 2 ^ s <= Z.max (Z.abs x) (Z.abs y) < 2 ^ (s + 1).
Proof.
  intros Hx Hy Hnz. cbv zeta.
  unfold PVG_FT_MSB. rewrite <- clz_to_u32.
  rewrite to_u32_lor, !to_u32_ABS by assumption.
  fold (PVG_FT_MSB (Z.lor (Z.abs x) (Z.abs y))).
  set (m := Z.lor (Z.abs x) (Z.abs y)).
  assert (Z.log2 m = Z.max (Z.log2 (Z.abs x)) (Z.log2 (Z.abs y))) as Hl
    by (apply Z.log2_lor; lia).
  assert (0 < Z.max (Z.abs x) (Z.abs y)) as Hpos by lia.
  assert (Z.max (Z.log2 (Z.abs x)) (Z.log2 (Z.abs y))
          = Z.log2 (Z.max (Z.abs x) (Z.abs y))) as Hmax.
  { destruct (Z.max_spec (Z.abs x) (Z.abs y)) as [[Hlt ->]|[Hlt ->]].
    - apply Z.max_r. apply Z.log2_le_mono. lia.
    - apply Z.max_l. apply Z.log2_le_mono. lia. }
  assert (Z.max (Z.abs x) (Z.abs y) <= 2 ^ 31) as Hub by (unfold_ints; lia).
  pose proof (Z.log2_spec _ Hpos) as Hspec.
  assert (Z.log2 (Z.max (Z.abs x) (Z.abs y)) <= 31) as Hl31.
  { apply Z.log2_le_mono in Hub. rewrite Z.log2_pow2 in Hub by lia. exact Hub. }
  pose proof (Z.log2_nonneg (Z.max (Z.abs x) (Z.abs y))) as Hl0.
  assert (0 < m < 2 ^ 32) as Hm.
  { assert (0 <= m) by (apply Z.lor_nonneg; lia).
    assert (m <> 0).
    { intros E. apply Z.lor_eq_0_iff in E. lia. }
    split; [lia|].
    apply Z.log2_lt_cancel. rewrite Hl, Hmax, Z.log2_pow2 by lia. lia. }
  rewrite (MSB_spec m Hm), Hl, Hmax.
  split; [lia | exact Hspec].
Qed.

Lemma wrap32_unique (z r k : Z) : int32 r -> z = r + k * 2 ^ 32 -> wrap32 z = r.
Proof.
  intros Hr ->. unfold wrap32.
  replace (r + k * 2 ^ 32 + 2 ^ 31) with (r + 2 ^ 31 + k * 2 ^ 32) by lia.
  rewrite Z.mod_add by lia. unfold_ints.
  rewrite Z.mod_small by lia. lia.
Qed.

(** The left shift through the unsigned type, when nothing is lost. *)
Lemma shl32_exact (x k : Z) :
  0 <= k -> Z.abs x * 2 ^ k < 2 ^ 31 ->
  wrap32 (Z.shiftl (to_u32 x) k) = x * 2 ^ k.
Proof.
  intros Hk Hb. rewrite Z.shiftl_mul_pow2 by exact Hk.
  pose proof (Z.pow_pos_nonneg 2 k ltac:(lia) Hk) as Hp.
  apply wrap32_unique with (k := - (x / 2 ^ 32) * 2 ^ k).
  - unfold int32. change (2 ^ 31) with 2147483648 in *. nia.
  - unfold to_u32.
    pose proof (Z.div_mod x (2 ^ 32) ltac:(lia)) as Hd. nia.
Qed.

Definition magnitude (v : PVG_FT_Vector) : Z := Z.max (Z.abs (vx v)) (Z.abs (vy v)).

(** [ft_trig_prenorm] brings the larger magnitude between 2^29 and 2^30. *)
Lemma prenorm_spec (x y : Z) :
  int32 x -> int32 y -> ~ (x = 0 /\ y = 0) ->
  2 ^ 29 <= magnitude (fst (ft_trig_prenorm (mkVec x y))) <= 2 ^ 30.
Proof.
  intros Hx Hy Hnz.
  destruct (MSB_abs x y Hx Hy Hnz) as [Hs Hm].
  unfold ft_trig_prenorm. cbn [vx vy].
  set (s := PVG_FT_MSB (Z.lor (PVG_FT_ABS x) (PVG_FT_ABS y))) in *.
  set (M := Z.max (Z.abs x) (Z.abs y)) in *.
  unfold PVG_FT_TRIG_SAFE_MSB.
  destruct (Z.leb_spec s 29) as [Hle|Hgt].
  - cbn [fst]. unfold magnitude. cbn [vx vy].
    set (k := 29 - s).
    assert (2 ^ 29 <= M * 2 ^ k < 2 ^ 30) as Hb.
    { assert (2 ^ s * 2 ^ k = 2 ^ 29) as E1
        by (rewrite <- Z.pow_add_r by lia; f_equal; lia).
      assert (2 ^ (s + 1) * 2 ^ k = 2 ^ 30) as E2
        by (rewrite <- Z.pow_add_r by lia; f_equal; lia).
      pose proof (Z.pow_pos_nonneg 2 k ltac:(lia) ltac:(lia)). nia. }
    pose proof (Z.pow_pos_nonneg 2 k ltac:(lia) ltac:(lia)) as Hp.
    assert (Z.abs x * 2 ^ k <= M * 2 ^ k) as Bx by (unfold M; nia).
    assert (Z.abs y * 2 ^ k <= M * 2 ^ k) as By by (unfold M; nia).
    change (2 ^ 30) with 1073741824 in *. change (2 ^ 29) with 536870912 in *.
    rewrite !shl32_exact by (try change (2 ^ 31) with 2147483648; lia).
    rewrite !Z.abs_mul, (Z.abs_eq (2 ^ k)) by lia.
    rewrite Z.mul_max_distr_nonneg_r by lia. fold M. lia.
  - cbn [fst]. unfold magnitude. cbn [vx vy].
    rewrite !Z.shiftr_div_pow2 by lia.
    assert (s = 30 \/ s = 31) as [E|E] by lia; rewrite E in *;
      change (2 ^ (30 - 29)) with 2; change (2 ^ (31 - 29)) with 4;
      change (2 ^ 30) with 1073741824 in *; change (2 ^ 29) with 536870912 in *;
      change (2 ^ (30 + 1)) with 2147483648 in *;
      change (2 ^ 31) with 2147483648 in *;
      change (2 ^ (31 + 1)) with 4294967296 in *.
    + pose proof (Z.div_mod x 2 ltac:(lia)). pose proof (Z.mod_pos_bound x 2 ltac:(lia)).
      pose proof (Z.div_mod y 2 ltac:(lia)). pose proof (Z.mod_pos_bound y 2 ltac:(lia)).
      unfold M in Hm. lia.
    + pose proof (Z.div_mod x 4 ltac:(lia)). pose proof (Z.mod_pos_bound x 4 ltac:(lia)).
      pose proof (Z.div_mod y 4 ltac:(lia)). pose proof (Z.mod_pos_bound y 4 ltac:(lia)).
      unfold_ints. unfold M in Hm. lia.
Qed.

(** ** The octant reduction *)

(** After the reduction the vector lies within 45 degrees of the positive
    x axis; the two half-turn cases are the ones next to the negative x
    axis. *)
Lemma polarize_octant_spec (x y : Z) :
  2 ^ 29 <= Z.max (Z.abs x) (Z.abs y) <= 2 ^ 30 ->
  let '(x', y', theta) := polarize_octant x y in
  2 ^ 29 <= x' <= 2 ^ 30 /\ - x' <= y' <= x' /\
  (theta = 0 \/ theta = PVG_FT_ANGLE_PI2 \/ theta = - PVG_FT_ANGLE_PI2 \/
   (theta = PVG_FT_ANGLE_PI /\ y' < 0) \/
   (theta = - PVG_FT_ANGLE_PI /\ 0 <= y' < x')).
Proof.
  intros Hm. unfold polarize_octant.
  change (2 ^ 29) with 536870912 in *. change (2 ^ 30) with 1073741824 in *.
  assert (wrap32 (- x) = - x) as Ex by (apply wrap32_id; unfold_ints; lia).
  assert (wrap32 (- y) = - y) as Ey by (apply wrap32_id; unfold_ints; lia).
  rewrite Ex, Ey.
  destruct (Z.gtb_spec y x) as [C1|C1].
  - destruct (Z.gtb_spec y (- x)) as [C2|C2].
    + repeat split; try lia.
    + destruct (Z.gtb_spec y 0) as [C3|C3]; repeat split; try lia.
  - destruct (Z.ltb_spec y (- x)) as [C2|C2]; repeat split; try lia.
Qed.

(** ** C3: the range of the angles produced by polarization *)

Lemma polarize_round_range (theta : Z) :
  - PVG_FT_ANGLE_PI - 15 <= theta <= PVG_FT_ANGLE_PI + 15 ->
  - PVG_FT_ANGLE_PI <= polarize_round theta <= PVG_FT_ANGLE_PI.
Proof.
  angle_consts. intros Ht. unfold polarize_round, PVG_FT_PAD_ROUND.
  change (32 / 2) with 16.
  destruct (Z.geb_spec theta 0) as [Hp|Hn].
  - rewrite wrap32_id by (unfold_ints; lia).
    rewrite PAD_FLOOR_32.
    pose proof (Z.div_mod (theta + 16) 32 ltac:(lia)).
    pose proof (Z.mod_pos_bound (theta + 16) 32 ltac:(lia)). lia.
  - rewrite (wrap32_id (- theta)) by (unfold_ints; lia).
    rewrite (wrap32_id (- theta + 16)) by (unfold_ints; lia).
    rewrite PAD_FLOOR_32.
    pose proof (Z.div_mod (- theta + 16) 32 ltac:(lia)).
    pose proof (Z.mod_pos_bound (- theta + 16) 32 ltac:(lia)).
    rewrite wrap32_id by (unfold_ints; lia). lia.
Qed.

Lemma pseudo_polarize_micro (v : PVG_FT_Vector) :
  ft_trig_pseudo_polarize v =
  let '(x, y, theta) := polarize_octant (vx v) (vy v) in
  let st := micro_rotations by_ordinate 1 22 (x, y, theta) in
  mkVec (abscissa st) (polarize_round (angle_of st)).
Proof.
  unfold ft_trig_pseudo_polarize.
  destruct (polarize_octant (vx v) (vy v)) as [[x y] theta].
  pose proof (cordic_for_all by_ordinate x y theta) as Hfor.
  change (cordic_dec by_ordinate) with polarize_body in Hfor.
  revert Hfor.
  generalize (cordic_for polarize_body for_fuel
                (mkCordic 1 1 x y theta ft_trig_arctan_table)).
  intros st Hfor. cbv zeta. rewrite <- Hfor. reflexivity.
Qed.

(** The angle before rounding, on a pre-normalized vector. *)
Lemma polarize_angle_raw (x y : Z) :
  2 ^ 29 <= Z.max (Z.abs x) (Z.abs y) <= 2 ^ 30 ->
  let '(x', y', theta) := polarize_octant x y in
  - PVG_FT_ANGLE_PI - 15
  <= angle_of (micro_rotations by_ordinate 1 22 (x', y', theta))
  <= PVG_FT_ANGLE_PI + 15.
Proof.
  intros Hm. pose proof (polarize_octant_spec x y Hm) as Hoct.
  destruct (polarize_octant x y) as [[x' y'] theta].
  destruct Hoct as (Hx & Hy & Hth).
  assert (Z.abs theta <= PVG_FT_ANGLE_PI) as Habs
    by (angle_consts; lia).
  pose proof (angle_drift by_ordinate 22 1 x' y' theta ltac:(lia)
                ltac:(rewrite rest_1; angle_consts;
                      change (2 ^ 30) with 1073741824; lia)) as Hdrift.
  rewrite rest_1 in Hdrift.
  destruct Hth as [-> | [-> | [-> | [[-> Hneg] | [-> Hpos]]]]].
  - angle_consts. lia.
  - angle_consts. lia.
  - angle_consts. lia.
  - pose proof (pol_dfs_sound 22 1 1 _ _ _ _ x' y' PVG_FT_ANGLE_PI
                  ltac:(left; reflexivity) ltac:(lia) ltac:(lia)
                  pol_dfs_below ltac:(unfold x_min; lia)
                  ltac:(unfold slope_den; lia)
                  ltac:(rewrite rest_1; angle_consts;
                        change (2 ^ 30) with 1073741824; lia)) as Hup.
    angle_consts. lia.
  - pose proof (pol_dfs_sound 22 1 (-1) _ _ _ _ x' y' (- PVG_FT_ANGLE_PI)
                  ltac:(right; reflexivity) ltac:(lia) ltac:(lia)
                  pol_dfs_above ltac:(unfold x_min; lia)
                  ltac:(unfold slope_den; lia)
                  ltac:(rewrite rest_1; angle_consts;
                        change (2 ^ 30) with 1073741824; lia)) as Hdown.
    angle_consts. lia.
Qed.

Lemma prenorm_polarize_range (x y : Z) :
  int32 x -> int32 y -> ~ (x = 0 /\ y = 0) ->
  - PVG_FT_ANGLE_PI
  <= vy (ft_trig_pseudo_polarize (fst (ft_trig_prenorm (mkVec x y))))
  <= PVG_FT_ANGLE_PI.
Proof.
  intros Hx Hy Hnz.
  pose proof (prenorm_spec x y Hx Hy Hnz) as Hm. unfold magnitude in Hm.
  rewrite pseudo_polarize_micro.
  pose proof (polarize_angle_raw _ _ Hm) as Hraw.
  destruct (polarize_octant (vx (fst (ft_trig_prenorm (mkVec x y))))
                            (vy (fst (ft_trig_prenorm (mkVec x y)))))
    as [[x' y'] theta].
  cbn [vy]. apply polarize_round_range. exact Hraw.
Qed.

(** The claim as stated fails: the negative x axis yields -180 degrees,
    the excluded end of the interval. *)
Lemma Atan2_range_counterexample :
  ~ (- (180 * 2 ^ 16) < PVG_FT_Atan2 (-65536) 0 <= 180 * 2 ^ 16).
Proof. intros [H _]. vm_compute in H. discriminate H. Qed.

(** C3 (amended): for every 32-bit input vector the angle returned by
    [PVG_FT_Atan2], and for every non-zero one the angle stored by
    [PVG_FT_Vector_Polarize], lies in the closed interval from -180 to
    180 degrees: -11796480 <= angle <= 11796480. *)
Theorem polarize_angle_range (dx dy length angle : Z) :
  int32 dx -> int32 dy ->
  - PVG_FT_ANGLE_PI <= PVG_FT_Atan2 dx dy <= PVG_FT_ANGLE_PI /\
  (~ (dx = 0 /\ dy = 0) ->
   - PVG_FT_ANGLE_PI
   <= snd (PVG_FT_Vector_Polarize (mkVec dx dy) length angle)
   <= PVG_FT_ANGLE_PI).
Proof.
  intros Hx Hy. unfold PVG_FT_Atan2, PVG_FT_Vector_Polarize. cbn [vx vy].
  destruct (Z.eqb_spec dx 0) as [E1|E1]; destruct (Z.eqb_spec dy 0) as [E2|E2];
    cbn [andb].
  1: { split; [angle_consts; lia|]. intros Hnz. exfalso. apply Hnz. auto. }
  all: pose proof (prenorm_polarize_range dx dy Hx Hy ltac:(lia)) as Hr;
    destruct (ft_trig_prenorm (mkVec dx dy)) as [v shift];
    cbn [fst snd] in *; split; [exact Hr | intros _; exact Hr].
Qed.

Lemma polarize_angle_range_witness :
  - PVG_FT_ANGLE_PI <= PVG_FT_Atan2 (-65536) 0 <= PVG_FT_ANGLE_PI /\
  (~ (-65536 = 0 /\ 0 = 0) ->
   - PVG_FT_ANGLE_PI
   <= snd (PVG_FT_Vector_Polarize (mkVec (-65536) 0) 0 0)
   <= PVG_FT_ANGLE_PI).
Proof.
  apply (polarize_angle_range (-65536) 0 0 0);
    (vm_compute; split; [discriminate | reflexivity]).
Defined.

(** ** C10: the angle is the accumulated angle rounded to a multiple of 32 *)

(** The value of [theta] in [ft_trig_pseudo_polarize] when the loop of
    micro-rotations ends, before it is rounded. *)
Definition pseudo_polarize_theta (vec : PVG_FT_Vector) : Z :=
  let '(x, y, theta) := polarize_octant (vx vec) (vy vec) in
  c_theta (cordic_for polarize_body for_fuel
             (mkCordic 1 1 x y theta ft_trig_arctan_table)).

Lemma pseudo_polarize_rounds (v : PVG_FT_Vector) :
  vy (ft_trig_pseudo_polarize v) = polarize_round (pseudo_polarize_theta v).
Proof.
  unfold ft_trig_pseudo_polarize, pseudo_polarize_theta.
  destruct (polarize_octant (vx v) (vy v)) as [[x y] theta]. reflexivity.
Qed.

Lemma pseudo_polarize_theta_micro (v : PVG_FT_Vector) :
  pseudo_polarize_theta v =
  let '(x, y, theta) := polarize_octant (vx v) (vy v) in
  angle_of (micro_rotations by_ordinate 1 22 (x, y, theta)).
Proof.
  unfold pseudo_polarize_theta.
  destruct (polarize_octant (vx v) (vy v)) as [[x y] theta].
  pose proof (cordic_for_all by_ordinate x y theta) as Hfor.
  change (cordic_dec by_ordinate) with polarize_body in Hfor.
  revert Hfor.
  generalize (cordic_for polarize_body for_fuel
                (mkCordic 1 1 x y theta ft_trig_arctan_table)).
  intros st Hfor. rewrite <- Hfor. reflexivity.
Qed.

(** The accumulated angle of a pre-normalized vector is within 15 units of
    the half turn. *)
Lemma pseudo_polarize_theta_range (x y : Z) :
  int32 x -> int32 y -> ~ (x = 0 /\ y = 0) ->
  - PVG_FT_ANGLE_PI - 15
  <= pseudo_polarize_theta (fst (ft_trig_prenorm (mkVec x y)))
  <= PVG_FT_ANGLE_PI + 15.
Proof.
  intros Hx Hy Hnz.
  pose proof (prenorm_spec x y Hx Hy Hnz) as Hm. unfold magnitude in Hm.
  rewrite pseudo_polarize_theta_micro.
  pose proof (polarize_angle_raw _ _ Hm) as Hraw.
  destruct (polarize_octant (vx (fst (ft_trig_prenorm (mkVec x y))))
                            (vy (fst (ft_trig_prenorm (mkVec x y)))))
    as [[x' y'] theta].
  exact Hraw.
Qed.

(** [polarize_round] returns a nearest multiple of 32, the one away from
    zero when the angle is half way between two of them. *)
Lemma polarize_round_nearest (theta : Z) :
  Z.abs theta <= 2 ^ 30 ->
  Z.abs (polarize_round theta - theta) <= 16 /\
  (Z.abs (polarize_round theta - theta) = 16 ->
   Z.abs theta < Z.abs (polarize_round theta)).
Proof.
  intros Ht. change (2 ^ 30) with 1073741824 in Ht.
  unfold polarize_round, PVG_FT_PAD_ROUND.
  change (32 / 2) with 16.
  destruct (Z.geb_spec theta 0) as [Hp|Hn].
  - rewrite wrap32_id by (unfold_ints; lia).
    rewrite PAD_FLOOR_32.
    pose proof (Z.div_mod (theta + 16) 32 ltac:(lia)).
    pose proof (Z.mod_pos_bound (theta + 16) 32 ltac:(lia)). lia.
  - rewrite (wrap32_id (- theta)) by (unfold_ints; lia).
    rewrite (wrap32_id (- theta + 16)) by (unfold_ints; lia).
    rewrite PAD_FLOOR_32.
    pose proof (Z.div_mod (- theta + 16) 32 ltac:(lia)).
    pose proof (Z.mod_pos_bound (- theta + 16) 32 ltac:(lia)).
    rewrite wrap32_id by (unfold_ints; lia). lia.
Qed.

(** C10: for a non-zero vector the angle returned by [PVG_FT_Atan2], and
    the angle stored by [PVG_FT_Vector_Polarize], is the angle accumulated
    by the micro-rotations, [theta], passed through the final rounding, and
    it is a multiple of 32; for 32-bit components it is a multiple of 32
    nearest to [theta]: it differs from [theta] by at most 16 units, and
    when [theta] is half way between two multiples the one away from zero
    is taken. *)
Theorem Atan2_multiple_of_32 (dx dy length angle : Z) :
  ~ (dx = 0 /\ dy = 0) ->
  let theta := pseudo_polarize_theta (fst (ft_trig_prenorm (mkVec dx dy))) in
  PVG_FT_Atan2 dx dy = polarize_round theta /\
  snd (PVG_FT_Vector_Polarize (mkVec dx dy) length angle) = PVG_FT_Atan2 dx dy /\
  (32 | PVG_FT_Atan2 dx dy) /\
  (int32 dx -> int32 dy ->
   Z.abs (PVG_FT_Atan2 dx dy - theta) <= 16 /\
   (Z.abs (PVG_FT_Atan2 dx dy - theta) = 16 ->
    Z.abs theta < Z.abs (PVG_FT_Atan2 dx dy))).
Proof.
  intros Hnz theta.
  assert ((dx =? 0) && (dy =? 0) = false) as Hz.
  { destruct (Z.eqb_spec dx 0), (Z.eqb_spec dy 0); try reflexivity.
    exfalso. apply Hnz. split; assumption. }
  assert (PVG_FT_Atan2 dx dy = polarize_round theta) as Ha.
  { unfold PVG_FT_Atan2, theta. rewrite Hz.
    destruct (ft_trig_prenorm (mkVec dx dy)) as [v shift].
    cbn [fst]. apply pseudo_polarize_rounds. }
  assert (snd (PVG_FT_Vector_Polarize (mkVec dx dy) length angle)
          = PVG_FT_Atan2 dx dy) as Hp.
  { unfold PVG_FT_Atan2, PVG_FT_Vector_Polarize. cbn [vx vy]. rewrite Hz.
    destruct (ft_trig_prenorm (mkVec dx dy)) as [v shift]. reflexivity. }
  split; [exact Ha|]. split; [exact Hp|]. rewrite Ha.
  split; [apply polarize_round_divide|].
  intros Hx Hy.
  apply polarize_round_nearest.
  pose proof (pseudo_polarize_theta_range dx dy Hx Hy Hnz) as Hr.
  fold theta in Hr. clearbody theta. revert Hr. angle_consts.
  change (2 ^ 30) with 1073741824. lia.
Qed.

Lemma Atan2_multiple_of_32_witness :
  PVG_FT_Atan2 3 4
  = polarize_round (pseudo_polarize_theta (fst (ft_trig_prenorm (mkVec 3 4)))) /\
  snd (PVG_FT_Vector_Polarize (mkVec 3 4) 0 0) = PVG_FT_Atan2 3 4 /\
  (32 | PVG_FT_Atan2 3 4) /\
  Z.abs (PVG_FT_Atan2 3 4
         - pseudo_polarize_theta (fst (ft_trig_prenorm (mkVec 3 4)))) <= 16.
Proof.
  assert (~ (3 = 0 /\ 4 = 0)) as Hnz by (intros [H _]; discriminate H).
  assert (int32 3) as H3 by (unfold_ints; lia).
  assert (int32 4) as H4 by (unfold_ints; lia).
  pose proof (Atan2_multiple_of_32 3 4 0 0 Hnz) as H. cbv zeta in H.
  exact (conj (proj1 H) (conj (proj1 (proj2 H))
           (conj (proj1 (proj2 (proj2 H)))
                 (proj1 (proj2 (proj2 (proj2 H)) H3 H4))))).
Defined.

(** ** Exact rotations *)

(** The micro-rotations on values that do not wrap, driven by a list of
    directions: 1 for the branch that adds the table entry, -1 for the
    other one, 0 for no rotation at all. *)
Definition rs (v : Z) (j : nat) : Z :=
  (v + 2 ^ (Z.of_nat j - 1)) / 2 ^ Z.of_nat j.

Definition sstep (c : Z) (j : nat) (p : Z * Z) : Z * Z :=
  (fst p + c * rs (snd p) j, snd p - c * rs (fst p) j).

Fixpoint srun (j : nat) (ds : list Z) (p : Z * Z) : Z * Z :=
  match ds with
  | [] => p
  | c :: ds' => srun (S j) ds' (sstep c j p)
  end.

Definition tern (c : Z) : Prop := -1 <= c <= 1.
Definition unit_dir (c : Z) : Prop := c = 1 \/ c = -1.

(** The table entries weighted by the directions, from entry [j] on. *)
Fixpoint wsum (j : nat) (ds : list Z) : Z :=
  match ds with
  | [] => 0
  | c :: ds' => c * arctan_entry (Z.of_nat j) + wsum (S j) ds'
  end.

Lemma unit_dir_tern (c : Z) : unit_dir c -> tern c.
Proof. unfold unit_dir, tern. lia. Qed.

Lemma Forall_unit_dir_tern (ds : list Z) : Forall unit_dir ds -> Forall tern ds.
Proof. apply Forall_impl. exact unit_dir_tern. Qed.

Lemma srun_app (ds1 ds2 : list Z) :
  forall (j : nat) (p : Z * Z),
    srun j (ds1 ++ ds2) p = srun (j + length ds1) ds2 (srun j ds1 p).
Proof.
  induction ds1 as [|c ds1 IH]; intros j p; cbn [app srun length].
  - now rewrite Nat.add_0_r.
  - rewrite IH. now rewrite Nat.add_succ_comm.
Qed.

Lemma wsum_app (ds1 ds2 : list Z) :
  forall j : nat, wsum j (ds1 ++ ds2) = wsum j ds1 + wsum (j + length ds1) ds2.
Proof.
  induction ds1 as [|c ds1 IH]; intros j; cbn [app wsum length].
  - now rewrite Nat.add_0_r.
  - rewrite IH, Nat.add_succ_comm. lia.
Qed.

Section Exact.

Local Open Scope R_scope.

(** Vectors of the plane as complex numbers. *)
Definition cmul (p q : R * R) : R * R :=
  (fst p * fst q - snd p * snd q, fst p * snd q + snd p * fst q).

Definition cnorm2 (p : R * R) : R := fst p * fst p + snd p * snd p.

Definition real2 (p : Z * Z) : R * R := (IZR (fst p), IZR (snd p)).

(** The exact micro-rotation number [j] in direction [c]: a rotation by
    the angle of tangent [c / 2^j], stretched. *)
Definition factor (c : Z) (j : nat) : R * R := (1, - IZR c / 2 ^ j).

Fixpoint cprod (j : nat) (ds : list Z) : R * R :=
  match ds with
  | [] => (1, 0)
  | c :: ds' => cmul (factor c j) (cprod (S j) ds')
  end.

(** Both coordinates within [e]. *)
Definition within (e : R) (p q : R * R) : Prop :=
  - e <= fst p - fst q <= e /\ - e <= snd p - snd q <= e.

(** The rounding errors accumulated by [n] micro-rotations from number
    [j] on, starting from an error [e]. *)
Fixpoint ebound (j n : nat) (e : R) : R :=
  match n with
  | O => e
  | S n' => ebound (S j) n' (e + e / 2 ^ j + / 2)
  end.

Lemma cmul_assoc (p q r : R * R) : cmul (cmul p q) r = cmul p (cmul q r).
Proof. unfold cmul. cbn [fst snd]. f_equal; ring. Qed.

Lemma cmul_comm (p q : R * R) : cmul p q = cmul q p.
Proof. unfold cmul. f_equal; ring. Qed.

Lemma cmul_1_r (p : R * R) : cmul p (1, 0) = p.
Proof. destruct p as [a b]. unfold cmul. cbn [fst snd]. f_equal; ring. Qed.

Lemma cnorm2_cmul (p q : R * R) : cnorm2 (cmul p q) = cnorm2 p * cnorm2 q.
Proof. unfold cnorm2, cmul. cbn [fst snd]. ring. Qed.

Lemma pow2_pos (j : nat) : 0 < 2 ^ j.
Proof. apply pow_lt. lra. Qed.

Lemma pow2_IZR (j : nat) : IZR (2 ^ Z.of_nat j) = 2 ^ j.
Proof. now rewrite <- pow_IZR. Qed.

Lemma pow2_half (j : nat) : (1 <= j)%nat -> / 2 ^ j <= / 2.
Proof.
  intros Hj. destruct j as [|j]; [lia|].
  cbn [pow]. pose proof (pow_R1_Rle 2 j ltac:(lra)) as H1.
  pose proof (pow2_pos j) as H2.
  rewrite Rinv_mult. pose proof (Rinv_le_contravar 1 (2 ^ j) ltac:(lra) H1) as H3.
  rewrite Rinv_1 in H3.
  pose proof (Rinv_0_lt_compat (2 ^ j) H2). nra.
Qed.

(** The shifted operand of a micro-rotation is the exact quotient up to
    one half. *)
Lemma rs_real (v : Z) (j : nat) :
  (1 <= j)%nat -> - / 2 <= IZR (rs v j) - IZR v / 2 ^ j <= / 2.
Proof.
  intros Hj. pose proof (round_shift v (Z.of_nat j) ltac:(lia)) as Hr.
  fold (rs v j) in Hr.
  assert ((2 ^ Z.of_nat j = 2 * 2 ^ (Z.of_nat j - 1))%Z) as Hp.
  { replace (Z.of_nat j) with (Z.of_nat j - 1 + 1)%Z at 1 by lia.
    rewrite Z.pow_add_r by lia. lia. }
  assert ((- 2 ^ Z.of_nat j <= 2 * (2 ^ Z.of_nat j * rs v j - v) <= 2 ^ Z.of_nat j)%Z)
    as [Hlo Hhi] by lia.
  apply IZR_le in Hlo, Hhi.
  rewrite opp_IZR in Hlo.
  rewrite mult_IZR, minus_IZR, mult_IZR, pow2_IZR in Hlo, Hhi.
  pose proof (pow2_pos j) as Hpos.
  set (P := 2 ^ j) in *. set (r := IZR (rs v j)) in *. set (a := IZR v) in *.
  assert (r - a / P = (2 * (P * r - a)) / (2 * P)) as -> by (field; lra).
  split.
  - apply Rmult_le_reg_r with (2 * P); [lra|].
    unfold Rdiv at 1. rewrite Rmult_assoc, Rinv_l by lra. lra.
  - apply Rmult_le_reg_r with (2 * P); [lra|].
    unfold Rdiv at 1. rewrite Rmult_assoc, Rinv_l by lra. lra.
Qed.

(** One micro-rotation against the exact one. *)
Lemma sstep_within (c : Z) (j : nat) (p : Z * Z) (q : R * R) (e : R) :
  (1 <= j)%nat -> tern c -> within e (real2 p) q ->
  within (e + e / 2 ^ j + / 2) (real2 (sstep c j p)) (cmul q (factor c j)).
Proof.
  intros Hj Hc [Hx Hy]. destruct p as [x y], q as [qx qy].
  unfold within, real2, sstep, cmul, factor in *. cbn [fst snd] in *.
  pose proof (rs_real x j Hj) as Rx. pose proof (rs_real y j Hj) as Ry.
  pose proof (pow2_pos j) as Hpos.
  pose proof (Rinv_0_lt_compat _ Hpos) as Hinv.
  rewrite plus_IZR, minus_IZR, !mult_IZR.
  unfold Rdiv in *. set (a := / 2 ^ j) in *.
  set (rx := IZR (rs x j)) in *. set (ry := IZR (rs y j)) in *.
  assert (- e * a <= (IZR x - qx) * a <= e * a) as Bx by nra.
  assert (- e * a <= (IZR y - qy) * a <= e * a) as By by nra.
  assert (c = -1 \/ c = 0 \/ c = 1)%Z as [-> | [-> | ->]] by (unfold tern in Hc; lia);
    split; lra.
Qed.

Lemma srun_within (ds : list Z) :
  forall (j : nat) (p : Z * Z) (q : R * R) (e : R),
    (1 <= j)%nat -> Forall tern ds -> within e (real2 p) q ->
    within (ebound j (length ds) e) (real2 (srun j ds p)) (cmul q (cprod j ds)).
Proof.
  induction ds as [|c ds IH]; intros j p q e Hj Hds Hw.
  - cbn [srun cprod length ebound]. now rewrite cmul_1_r.
  - cbn [srun cprod length ebound]. rewrite <- cmul_assoc.
    inversion Hds as [|c' ds' Hc Hds']; subst.
    apply IH; [lia | assumption |]. now apply sstep_within.
Qed.

(** The accumulated error stays below 33 over the 22 micro-rotations. *)
Lemma ebound_le (n : nat) :
  forall (j : nat) (e : R),
    (1 <= j)%nat -> 0 <= e ->
    ebound j n e <= (e + INR n / 2) * (1 + 4 / 2 ^ j).
Proof.
  induction n as [|n IH]; intros j e Hj He.
  - cbn [ebound INR]. pose proof (pow2_pos j) as Hp.
    pose proof (Rinv_0_lt_compat _ Hp). unfold Rdiv. nra.
  - cbn [ebound]. rewrite S_INR.
    pose proof (pow2_pos j) as Hp. pose proof (pow2_half j Hj) as Hh.
    pose proof (Rinv_0_lt_compat _ Hp) as Hi.
    pose proof (pos_INR n) as Hn.
    unfold Rdiv in *. set (a := / 2 ^ j) in *.
    assert (0 <= e + e * a + / 2) as He' by nra.
    specialize (IH (S j) _ ltac:(lia) He').
    cbn [pow] in IH. rewrite Rinv_mult in IH. fold a in IH.
    eapply Rle_trans; [exact IH|].
    assert (0 <= e * a * (/ 2 - a)) as H1
      by (apply Rmult_le_pos; [apply Rmult_le_pos|]; lra).
    assert (0 <= INR n * a) as H2 by (apply Rmult_le_pos; lra).
    nra.
Qed.

Lemma ebound_22 (n : nat) : (n <= 22)%nat -> ebound 1 n 0 <= 33.
Proof.
  intros Hn. pose proof (ebound_le n 1 0 ltac:(lia) ltac:(lra)) as H.
  apply le_INR in Hn. pose proof (pos_INR n).
  rewrite (INR_IZR_INZ 22) in Hn. change (Z.of_nat 22) with 22%Z in Hn.
  cbn [pow] in H. lra.
Qed.

Lemma within_weaken (e e' : R) (p q : R * R) :
  e <= e' -> within e p q -> within e' p q.
Proof. unfold within. intros He [Hx Hy]. lra. Qed.

(** The 22 micro-rotations, or some of them, against the exact ones. *)
Lemma srun_exact (ds : list Z) (p : Z * Z) :
  (length ds <= 22)%nat -> Forall tern ds ->
  within 33 (real2 (srun 1 ds p)) (cmul (real2 p) (cprod 1 ds)).
Proof.
  intros Hn Hds. apply within_weaken with (ebound 1 (length ds) 0).
  - now apply ebound_22.
  - apply srun_within; [lia | assumption |]. unfold within. lra.
Qed.

(** *** The stretch of the exact rotations *)

Lemma cnorm2_factor (c : Z) (j : nat) :
  cnorm2 (factor c j) = 1 + IZR c * IZR c / (2 ^ j * 2 ^ j).
Proof.
  unfold cnorm2, factor. cbn [fst snd]. pose proof (pow2_pos j). field. lra.
Qed.

Lemma cnorm2_nonneg (p : R * R) : 0 <= cnorm2 p.
Proof. unfold cnorm2. nra. Qed.

Lemma square_bound (a b B : R) :
  0 <= B -> a * a + b * b <= B * B -> - B <= a <= B.
Proof.
  intros HB H. assert (0 <= b * b) by nra.
  split.
  - destruct (Rle_lt_dec (- B) a) as [|Hlt]; [assumption|].
    assert (B * B < a * a) by nra. lra.
  - destruct (Rle_lt_dec a B) as [|Hlt]; [assumption|].
    assert (B * B < a * a) by nra. lra.
Qed.

Lemma cnorm2_bound (p : R * R) (B : R) :
  0 <= B -> cnorm2 p <= B * B ->
  - B <= fst p <= B /\ - B <= snd p <= B.
Proof.
  unfold cnorm2. intros HB H. split.
  - now apply square_bound with (snd p).
  - apply square_bound with (fst p); [assumption | lra].
Qed.

Lemma cnorm2_cprod_range (ds : list Z) :
  forall j : nat,
    (1 <= j)%nat -> Forall tern ds ->
    1 <= cnorm2 (cprod j ds) <= 1 + 3 / 2 / (2 ^ j * 2 ^ j).
Proof.
  induction ds as [|c ds IH]; intros j Hj Hds.
  - cbn [cprod]. unfold cnorm2. cbn [fst snd].
    pose proof (pow2_pos j) as Hp. pose proof (Rinv_0_lt_compat _ Hp).
    unfold Rdiv. rewrite Rinv_mult. nra.
  - cbn [cprod]. rewrite cnorm2_cmul, cnorm2_factor.
    inversion Hds as [|c' ds' Hc Hds']; subst.
    specialize (IH (S j) ltac:(lia) Hds'). cbn [pow] in IH.
    pose proof (pow2_pos j) as Hp. pose proof (pow2_half j Hj) as Hh.
    pose proof (Rinv_0_lt_compat _ Hp) as Hi.
    unfold Rdiv in *. rewrite !Rinv_mult in *. set (a := / 2 ^ j) in *.
    set (N := cnorm2 (cprod (S j) ds)) in *.
    assert (0 < a * a <= / 4) as Hb by nra.
    assert (1 <= N <= 1 + 3 / 8 * (a * a)) as HN by lra.
    clear IH. set (b := a * a) in *.
    assert ((1 + b) * N <= (1 + b) * (1 + 3 / 8 * b)) as HM
      by (apply Rmult_le_compat_l; lra).
    assert (0 <= b * (/ 4 - b)) as Hq by (apply Rmult_le_pos; lra).
    assert (c = -1 \/ c = 0 \/ c = 1)%Z as [-> | [-> | ->]] by (unfold tern in Hc; lia);
      split; nra.
Qed.

(** The stretch of the full rotation engine, squared. *)
Fixpoint kprod (j n : nat) : R :=
  match n with
  | O => 1
  | S n' => (1 + / (2 ^ j * 2 ^ j)) * kprod (S j) n'
  end.

Lemma cnorm2_cprod_unit (ds : list Z) :
  forall j : nat,
    Forall unit_dir ds -> cnorm2 (cprod j ds) = kprod j (length ds).
Proof.
  induction ds as [|c ds IH]; intros j Hds.
  - unfold cnorm2. cbn. ring.
  - cbn [cprod length kprod]. rewrite cnorm2_cmul, cnorm2_factor.
    inversion Hds as [|c' ds' Hc Hds']; subst. rewrite (IH (S j) Hds').
    pose proof (pow2_pos j).
    destruct Hc as [-> | ->]; field; lra.
Qed.

(** The shrink factor of [ft_trig_downscale]. *)
Definition kappa : R := IZR PVG_FT_TRIG_SCALE / 2 ^ 32.

(** The shrink factor undoes the stretch. *)
Lemma gain_times_scale :
  - / 2 ^ 28 <= kappa * kappa * kprod 1 22 - 1 <= / 2 ^ 28.
Proof. unfold kappa, PVG_FT_TRIG_SCALE. cbn [kprod]. lra. Qed.

Lemma kprod_22_range : 1 <= kprod 1 22 <= 1.36.
Proof. cbn [kprod]. lra. Qed.

End Exact.

(** *** No wrap-around during the micro-rotations *)

Definition val_max : Z := 1800000000.

Lemma srun_bounded (ds : list Z) (p : Z * Z) :
  (length ds <= 22)%nat -> Forall tern ds ->
  fst p * fst p + snd p * snd p <= 2 ^ 61 ->
  Z.abs (fst (srun 1 ds p)) <= val_max /\ Z.abs (snd (srun 1 ds p)) <= val_max.
Proof.
  intros Hn Hds Hp.
  pose proof (srun_exact ds p Hn Hds) as [Hx Hy].
  pose proof (cnorm2_cprod_range ds 1 ltac:(lia) Hds) as HN.
  pose proof (cnorm2_cmul (real2 p) (cprod 1 ds)) as HM.
  apply IZR_le in Hp. rewrite plus_IZR, !mult_IZR in Hp.
  change (IZR (2 ^ 61)) with 2305843009213693952%R in Hp.
  destruct (srun 1 ds p) as [x y]. cbn [fst snd real2] in *.
  set (ex := cmul (real2 p) (cprod 1 ds)) in *.
  assert (cnorm2 ex <= 3170534137668829184)%R as Hex.
  { rewrite HM. cbn [pow] in HN.
    assert (0 <= cnorm2 (real2 p) <= 2305843009213693952)%R as HS
      by (split; [apply cnorm2_nonneg | exact Hp]).
    set (S := cnorm2 (real2 p)) in *. set (N := cnorm2 (cprod 1 ds)) in *.
    assert (S * N <= 2305843009213693952 * N)%R
      by (apply Rmult_le_compat_r; lra).
    lra. }
  destruct (cnorm2_bound ex 1780599400 ltac:(lra) ltac:(lra)) as [Bx By].
  unfold real2 in Hx, Hy. cbn [fst snd] in Hx, Hy.
  unfold val_max. split; apply Z.abs_le; split; apply le_IZR;
    rewrite ?opp_IZR; lra.
Qed.

(** ** The loops of the engines as exact rotations with bounded error *)

(** The direction of a branch. *)
Definition dir_of (neg : bool) : Z := if neg then 1 else -1.

(** The directions taken by [n] micro-rotations from number [j] on. *)
Fixpoint decisions (dec : Z * Z * Z -> bool) (j n : nat) (st : Z * Z * Z)
  : list Z :=
  match n with
  | O => []
  | S n' => dir_of (dec st)
            :: decisions dec (S j) n' (micro_rotation dec (Z.of_nat j) st)
  end.

Lemma decisions_length (dec : Z * Z * Z -> bool) (n : nat) :
  forall (j : nat) (st : Z * Z * Z), length (decisions dec j n st) = n.
Proof.
  induction n as [|n IH]; intros j st; cbn [decisions length]; [reflexivity|].
  now rewrite IH.
Qed.

Lemma decisions_unit (dec : Z * Z * Z -> bool) (n : nat) :
  forall (j : nat) (st : Z * Z * Z), Forall unit_dir (decisions dec j n st).
Proof.
  induction n as [|n IH]; intros j st; cbn [decisions]; constructor.
  - unfold unit_dir, dir_of. destruct (dec st); lia.
  - apply IH.
Qed.

Lemma micro_rotation_dec (dec : Z * Z * Z -> bool) (i x y theta : Z) :
  micro_rotation dec i (x, y, theta) =
  (xy_step (dec (x, y, theta)) i x y,
   wrap32 (theta + dir_of (dec (x, y, theta)) * arctan_entry i)).
Proof.
  unfold micro_rotation, xy_step, arctan_entry, dir_of.
  destruct (dec (x, y, theta)); repeat f_equal; lia.
Qed.

(** A micro-rotation that stays below [val_max] does not wrap. *)
Lemma xy_step_sstep (neg : bool) (j : nat) (x y : Z) :
  (1 <= j <= 22)%nat ->
  Z.abs x <= val_max -> Z.abs y <= val_max ->
  Z.abs (fst (sstep (dir_of neg) j (x, y))) <= val_max ->
  Z.abs (snd (sstep (dir_of neg) j (x, y))) <= val_max ->
  xy_step neg (Z.of_nat j) x y = sstep (dir_of neg) j (x, y).
Proof.
  intros Hj Hx Hy. unfold sstep, rs, xy_step, val_max in *. cbn [fst snd].
  assert (1 <= 2 ^ (Z.of_nat j - 1) <= 2 ^ 21) as Hr.
  { split.
    - pose proof (Z.pow_pos_nonneg 2 (Z.of_nat j - 1) ltac:(lia) ltac:(lia)). lia.
    - apply Z.pow_le_mono_r; lia. }
  change (2 ^ 21) with 2097152 in Hr.
  set (b := 2 ^ (Z.of_nat j - 1)) in *.
  rewrite !(wrap32_id (_ + b)) by (unfold_ints; lia).
  rewrite !Z.shiftr_div_pow2 by lia.
  set (v1 := (y + b) / 2 ^ Z.of_nat j). set (v2 := (x + b) / 2 ^ Z.of_nat j).
  unfold dir_of. destruct neg; intros H1 H2.
  - rewrite !wrap32_id by (unfold_ints; lia). f_equal; lia.
  - rewrite !wrap32_id by (unfold_ints; lia). f_equal; lia.
Qed.

(** The [n] micro-rotations from number [j] on, after the directions
    [pre] already taken from the vector [p0]. *)
Lemma micro_rotations_srun (dec : Z * Z * Z -> bool) (n : nat) :
  forall (j : nat) (x y theta : Z) (pre : list Z) (p0 : Z * Z),
    (1 <= j)%nat -> (j + n = 23)%nat -> length pre = (j - 1)%nat ->
    Forall unit_dir pre ->
    fst p0 * fst p0 + snd p0 * snd p0 <= 2 ^ 61 ->
    (x, y) = srun 1 pre p0 ->
    Z.abs theta + rest j <= 2 ^ 30 ->
    micro_rotations dec j n (x, y, theta) =
    (srun 1 (pre ++ decisions dec j n (x, y, theta)) p0,
     theta + wsum j (decisions dec j n (x, y, theta))).
Proof.
  induction n as [|n IH]; intros j x y theta pre p0 Hj Hn Hl Hpre Hp Hxy Hth.
  - cbn [decisions wsum]. unfold micro_rotations. cbn [seq fold_left].
    rewrite app_nil_r, <- Hxy. f_equal. lia.
  - rewrite micro_rotations_S. cbn [decisions wsum].
    set (c := dir_of (dec (x, y, theta))).
    assert (unit_dir c) as Hc by (unfold c, unit_dir, dir_of; destruct (dec _); lia).
    pose proof (srun_bounded pre p0 ltac:(lia)
                  (Forall_unit_dir_tern _ Hpre) Hp) as [Bx By].
    rewrite <- Hxy in Bx, By. cbn [fst snd] in Bx, By.
    assert (Forall unit_dir (pre ++ [c])) as Hpre'
      by (apply Forall_app; split; [assumption | now constructor]).
    pose proof (srun_bounded (pre ++ [c]) p0
                  ltac:(rewrite length_app; cbn [length]; lia)
                  (Forall_unit_dir_tern _ Hpre') Hp) as [Bx' By'].
    rewrite srun_app in Bx', By'. cbn [srun] in Bx', By'.
    rewrite <- Hxy in Bx', By'.
    replace (1 + length pre)%nat with j in Bx', By' by lia.
    rewrite micro_rotation_dec. fold c.
    rewrite (xy_step_sstep (dec (x, y, theta)) j x y ltac:(lia) Bx By Bx' By').
    fold c.
    pose proof (rest_step j Hj) as Hs.
    pose proof (rest_nonneg (S j)) as Hr.
    pose proof (arctan_entry_bound (Z.of_nat j)) as Ht.
    change (2 ^ 30) with 1073741824 in *.
    rewrite wrap32_id by (unfold_ints; destruct Hc as [-> | ->]; lia).
    destruct (sstep c j (x, y)) as [x' y'] eqn:Es.
    rewrite (IH (S j) x' y' _ (pre ++ [c]) p0); try assumption; try lia.
    + rewrite <- app_assoc. cbn [app]. f_equal. lia.
    + rewrite length_app. cbn [length]. lia.
    + rewrite srun_app. cbn [srun]. rewrite <- Hxy.
      replace (1 + length pre)%nat with j by lia. now rewrite Es.
    + destruct Hc as [-> | ->]; lia.
Qed.

(** The whole loop of either engine, from a vector that is not too long
    and an angle of at most a few turns. *)
Lemma micro_rotations_exact (dec : Z * Z * Z -> bool) (x y theta : Z) :
  x * x + y * y <= 2 ^ 61 -> Z.abs theta <= 2 ^ 29 ->
  let ds := decisions dec 1 22 (x, y, theta) in
  micro_rotations dec 1 22 (x, y, theta) = (srun 1 ds (x, y), theta + wsum 1 ds).
Proof.
  intros Hp Hth ds.
  apply (micro_rotations_srun dec 22 1 x y theta [] (x, y));
    try lia; try exact Hp; try reflexivity; try (now constructor).
  rewrite rest_1. change (2 ^ 30) with 1073741824.
  change (2 ^ 29) with 536870912 in Hth. lia.
Qed.

(** ** The fixed-point primitives beside the claims *)

(** *** [PVG_FT_MulFix] *)

Lemma shiftr_16 (z : Z) : Z.shiftr z 16 = z / 65536.
Proof. rewrite Z.shiftr_div_pow2 by lia. reflexivity. Qed.

Lemma MulFix_magnitude (a b : Z) :
  INT32_MIN < a < 2 ^ 31 -> INT32_MIN < b < 2 ^ 31 ->
  (Z.abs a * Z.abs b + 32768) / 65536 < 2 ^ 31 ->
  PVG_FT_MulFix a b = sgn a * sgn b * ((Z.abs a * Z.abs b + 32768) / 65536).
Proof.
  intros Ha Hb Hq.
  unfold PVG_FT_MulFix. rewrite !MOVE_SIGN_eq.
  rewrite !ABS_small by assumption.
  unfold INT32_MIN in *. pow_consts.
  assert (0 <= Z.abs a * Z.abs b < 4611686018427387904) as Hab by nia.
  rewrite (wrap64_id (Z.abs a * Z.abs b)) by (pow_consts; lia).
  rewrite wrap64_id by (pow_consts; lia).
  rewrite shiftr_16.
  set (q := (Z.abs a * Z.abs b + 32768) / 65536) in *.
  assert (0 <= q) as Hq0 by (apply Z.div_pos; lia).
  rewrite (wrap32_id q) by (unfold_ints; lia).
  unfold sgn.
  destruct (Z.ltb_spec a 0), (Z.ltb_spec b 0).
  all: match goal with
       | |- context [?s >? 0] =>
           let v := eval vm_compute in (s >? 0) in change (s >? 0) with v
       end; cbv iota.
  all: try rewrite wrap32_id by (unfold_ints; lia); lia.
Qed.

(** X1: for operands above the most negative 32-bit value,
    [PVG_FT_MulFix a b] is the product [a * b / 65536] rounded to the
    nearest integer, halves away from zero, whenever that fits 32 bits. *)
Theorem MulFix_rounds (a b : Z) :
  INT32_MIN < a < 2 ^ 31 -> INT32_MIN < b < 2 ^ 31 ->
  Z.abs (round_half_away (a * b) 65536) < 2 ^ 31 ->
  PVG_FT_MulFix a b = round_half_away (a * b) 65536.
Proof.
  intros Ha Hb Hfit.
  assert (round_half_away (a * b) 65536 =
          Z.sgn (a * b) * ((Z.abs a * Z.abs b + 32768) / 65536)) as Hr.
  { unfold round_half_away. change (Z.sgn 65536) with 1. change (Z.abs 65536) with 65536.
    rewrite Z.abs_mul.
    rewrite <- (div_half_up (Z.abs a * Z.abs b) 65536) by nia.
    change (65536 / 2) with 32768. lia. }
  set (q := (Z.abs a * Z.abs b + 32768) / 65536) in *.
  assert (0 <= q) as Hq0 by (apply Z.div_pos; nia).
  destruct (Z.eq_dec (a * b) 0) as [E0 | Hne].
  - rewrite Hr, E0. cbn [Z.sgn Z.mul].
    assert (q = 0) as Eq.
    { unfold q. rewrite <- Z.abs_mul, E0. reflexivity. }
    rewrite MulFix_magnitude; try assumption; fold q; rewrite Eq; [lia|].
    pow_consts. lia.
  - assert (Z.abs (Z.sgn (a * b)) = 1) as Hs by lia.
    rewrite Hr, Z.abs_mul, Hs in Hfit.
    rewrite MulFix_magnitude; try assumption; fold q; [|lia].
    rewrite Hr. unfold sgn.
    destruct (Z.ltb_spec a 0), (Z.ltb_spec b 0); nia.
Qed.

Lemma MulFix_rounds_witness :
  PVG_FT_MulFix (-98304) 163840 = round_half_away (-98304 * 163840) 65536.
Proof.
  apply (MulFix_rounds (-98304) 163840);
    [vm_compute; split; reflexivity ..| vm_compute; reflexivity].
Defined.

Lemma MulFix_comm (a b : Z) : PVG_FT_MulFix a b = PVG_FT_MulFix b a.
Proof.
  unfold PVG_FT_MulFix. rewrite !MOVE_SIGN_eq.
  rewrite (Z.mul_comm (PVG_FT_ABS a) (PVG_FT_ABS b)).
  replace (sgn b * (sgn a * 1)) with (sgn a * (sgn b * 1)) by lia.
  reflexivity.
Qed.

(** X2: [PVG_FT_MulFix] is commutative for all operands; for an operand
    above the most negative 32-bit value, 0x10000 (the number one) is
    neutral, zero is absorbing and, when the rounded product fits 32
    bits, negating an operand negates the product. *)
Theorem MulFix_algebra (a b : Z) :
  INT32_MIN < a < 2 ^ 31 -> INT32_MIN < b < 2 ^ 31 ->
  PVG_FT_MulFix a b = PVG_FT_MulFix b a /\
  PVG_FT_MulFix a 0x10000 = a /\
  PVG_FT_MulFix a 0 = 0 /\
  (Z.abs (round_half_away (a * b) 65536) < 2 ^ 31 ->
   PVG_FT_MulFix (- a) b = - PVG_FT_MulFix a b).
Proof.
  intros Ha Hb. unfold INT32_MIN in *. pow_consts.
  assert (forall n, (n * 65536 + 32768) / 65536 = n) as Hdiv.
  { intros n. symmetry. apply Z.div_unique with (r := 32768); lia. }
  repeat split.
  - apply MulFix_comm.
  - rewrite MulFix_magnitude;
      try (unfold INT32_MIN; pow_consts; lia);
      change (Z.abs 65536) with 65536; rewrite Hdiv; [|pow_consts; lia].
    unfold sgn. change (65536 <? 0) with false. cbv iota.
    destruct (Z.ltb_spec a 0); lia.
  - rewrite MulFix_magnitude;
      try (unfold INT32_MIN; pow_consts; lia);
      change (Z.abs 0) with 0; rewrite Z.mul_0_r; change ((0 + 32768) / 65536) with 0;
      [lia | pow_consts; lia].
  - intros Hfit.
    rewrite !MulFix_rounds;
      try (unfold INT32_MIN; pow_consts; lia).
    + unfold round_half_away.
      replace (Z.abs (- a * b)) with (Z.abs (a * b)) by lia.
      replace (Z.sgn (- a * b)) with (- Z.sgn (a * b)) by lia. lia.
    + unfold round_half_away in *.
      replace (Z.abs (- a * b)) with (Z.abs (a * b)) by lia.
      replace (Z.sgn (- a * b)) with (- Z.sgn (a * b)) by lia.
      pow_consts. lia.
Qed.

Lemma MulFix_algebra_witness :
  PVG_FT_MulFix 196608 (-32768) = PVG_FT_MulFix (-32768) 196608 /\
  PVG_FT_MulFix 196608 0x10000 = 196608 /\
  PVG_FT_MulFix 196608 0 = 0 /\
  (Z.abs (round_half_away (196608 * -32768) 65536) < 2 ^ 31 ->
   PVG_FT_MulFix (- 196608) (-32768) = - PVG_FT_MulFix 196608 (-32768)).
Proof.
  apply (MulFix_algebra 196608 (-32768)); vm_compute; split; reflexivity.
Defined.

(** *** [PVG_FT_MulDiv] on a regular divisor *)

Lemma half_bounds (c : Z) : 0 < c -> 0 <= c / 2 < c.
Proof.
  intros Hc.
  pose proof (Z.div_mod c 2 ltac:(lia)).
  pose proof (Z.mod_pos_bound c 2 ltac:(lia)). lia.
Qed.

Lemma MulDiv_magnitude (a b c : Z) :
  INT32_MIN < a < 2 ^ 31 -> INT32_MIN < b < 2 ^ 31 -> INT32_MIN < c < 2 ^ 31 ->
  c <> 0 ->
  (Z.abs a * Z.abs b + Z.abs c / 2) / Z.abs c < 2 ^ 31 ->
  PVG_FT_MulDiv a b c
  = sgn a * sgn b * sgn c * ((Z.abs a * Z.abs b + Z.abs c / 2) / Z.abs c).
Proof.
  intros Ha Hb Hc Hc0 Hq.
  pose proof (half_bounds (Z.abs c) ltac:(lia)) as Hh.
  set (q := (Z.abs a * Z.abs b + Z.abs c / 2) / Z.abs c) in *.
  assert (0 <= q) as Hq0 by (apply Z.div_pos; nia).
  unfold PVG_FT_MulDiv. rewrite !MOVE_SIGN_eq.
  rewrite !ABS_small by assumption.
  unfold INT32_MIN in *. pow_consts.
  replace (Z.abs c >? 0) with true by (symmetry; apply Z.gtb_lt; lia).
  assert (0 <= Z.abs a * Z.abs b < 4611686018427387904) as Hab by nia.
  rewrite shiftr_1.
  rewrite (wrap64_id (Z.abs a * Z.abs b)) by (pow_consts; lia).
  rewrite wrap64_id by (pow_consts; lia).
  rewrite Z.quot_div_nonneg by lia. fold q.
  rewrite (wrap32_id q) by (unfold_ints; lia).
  unfold sgn.
  destruct (Z.ltb_spec a 0), (Z.ltb_spec b 0), (Z.ltb_spec c 0).
  all: match goal with
       | |- context [?s >? 0] =>
           let v := eval vm_compute in (s >? 0) in change (s >? 0) with v
       end; cbv iota.
  all: try rewrite wrap32_id by (unfold_ints; lia); lia.
Qed.

(** X3: for operands above the most negative 32-bit value and a divisor
    other than zero, [PVG_FT_MulDiv a b c] is [a * b / c] rounded to the
    nearest integer, halves away from zero, whenever that fits 32 bits. *)
Theorem MulDiv_rounds (a b c : Z) :
  INT32_MIN < a < 2 ^ 31 -> INT32_MIN < b < 2 ^ 31 -> INT32_MIN < c < 2 ^ 31 ->
  c <> 0 ->
  Z.abs (round_half_away (a * b) c) < 2 ^ 31 ->
  PVG_FT_MulDiv a b c = round_half_away (a * b) c.
Proof.
  intros Ha Hb Hc Hc0 Hfit.
  assert (round_half_away (a * b) c =
          Z.sgn (a * b) * Z.sgn c
          * ((Z.abs a * Z.abs b + Z.abs c / 2) / Z.abs c)) as Hr.
  { unfold round_half_away. rewrite Z.abs_mul.
    rewrite <- (div_half_up (Z.abs a * Z.abs b) (Z.abs c)) by nia.
    reflexivity. }
  pose proof (half_bounds (Z.abs c) ltac:(lia)) as Hh.
  set (q := (Z.abs a * Z.abs b + Z.abs c / 2) / Z.abs c) in *.
  assert (0 <= q) as Hq0 by (apply Z.div_pos; nia).
  assert (q = 0 \/ a * b <> 0) as Hcase.
  { destruct (Z.eq_dec (a * b) 0) as [E0 | Hne]; [left | now right].
    unfold q. rewrite <- Z.abs_mul, E0. change (Z.abs 0) with 0.
    apply Z.div_small. lia. }
  assert (q < 2 ^ 31) as Hq.
  { destruct Hcase as [-> | Hne]; [pow_consts; lia|].
    assert (Z.abs (Z.sgn (a * b) * Z.sgn c) = 1) as Hs by lia.
    rewrite Hr, Z.abs_mul, Hs in Hfit. lia. }
  rewrite MulDiv_magnitude; try assumption. fold q.
  rewrite Hr. unfold sgn. clear Hr Hfit.
  unfold INT32_MIN in *. pow_consts.
  destruct (Z.ltb_spec a 0), (Z.ltb_spec b 0), (Z.ltb_spec c 0).
  all: destruct Hcase as [-> | Hne]; [lia | nia].
Qed.

Lemma MulDiv_rounds_witness :
  PVG_FT_MulDiv 7 (-5) 2 = round_half_away (7 * -5) 2.
Proof.
  apply (MulDiv_rounds 7 (-5) 2);
    [vm_compute; split; reflexivity ..| discriminate | vm_compute; reflexivity].
Defined.

(** *** The highest bit *)

(** X4: on a non-zero 32-bit value [PVG_FT_MSB] (with the portable
    [clz]) is the position of the highest set bit:
    2^MSB <= v < 2^(MSB + 1), between 0 and 31; [clz] of zero is 32. *)
Theorem MSB_highest_bit (v : Z) :
  0 < v < 2 ^ 32 ->
  0 <= PVG_FT_MSB v <= 31 /\
  2 ^ PVG_FT_MSB v <= v < 2 ^ (PVG_FT_MSB v + 1) /\
  clz 0 = 32.
Proof.
  intros Hv. destruct (clz_spec v Hv) as [Hc Hb]. unfold PVG_FT_MSB.
  replace (31 - clz v + 1) with (32 - clz v) by lia.
  repeat split; try lia; apply Hb.
Qed.

Lemma MSB_highest_bit_witness :
  0 <= PVG_FT_MSB 65536 <= 31 /\
  2 ^ PVG_FT_MSB 65536 <= 65536 < 2 ^ (PVG_FT_MSB 65536 + 1) /\
  clz 0 = 32.
Proof. apply (MSB_highest_bit 65536). vm_compute. split; reflexivity. Defined.

(** *** [ft_trig_prenorm] *)

(** The shift chosen by the pre-normalization and what it does to the
    vector. *)
Lemma prenorm_shift (x y : Z) :
  int32 x -> int32 y -> ~ (x = 0 /\ y = 0) ->
  let s := PVG_FT_MSB (Z.lor (PVG_FT_ABS x) (PVG_FT_ABS y)) in
  (s <= 29 ->
   ft_trig_prenorm (mkVec x y) = (mkVec (x * 2 ^ (29 - s)) (y * 2 ^ (29 - s)), 29 - s)) /\
  (29 < s ->
   ft_trig_prenorm (mkVec x y) = (mkVec (x / 2 ^ (s - 29)) (y / 2 ^ (s - 29)), 29 - s)).
Proof.
  intros Hx Hy Hnz. cbv zeta.
  destruct (MSB_abs x y Hx Hy Hnz) as [Hs Hm].
  unfold ft_trig_prenorm. cbn [vx vy].
  set (s := PVG_FT_MSB (Z.lor (PVG_FT_ABS x) (PVG_FT_ABS y))) in *.
  set (M := Z.max (Z.abs x) (Z.abs y)) in *.
  unfold PVG_FT_TRIG_SAFE_MSB. split; intros Hc.
  - replace (s <=? 29) with true by (symmetry; apply Z.leb_le; lia).
    set (k := 29 - s).
    assert (M * 2 ^ k < 2 ^ 30) as Hb.
    { assert (2 ^ (s + 1) * 2 ^ k = 2 ^ 30) as E2
        by (rewrite <- Z.pow_add_r by lia; f_equal; lia).
      pose proof (Z.pow_pos_nonneg 2 k ltac:(lia) ltac:(lia)). nia. }
    pose proof (Z.pow_pos_nonneg 2 k ltac:(lia) ltac:(lia)) as Hp.
    assert (Z.abs x * 2 ^ k <= M * 2 ^ k) as Bx by (unfold M; nia).
    assert (Z.abs y * 2 ^ k <= M * 2 ^ k) as By by (unfold M; nia).
    change (2 ^ 30) with 1073741824 in *.
    rewrite !shl32_exact by (try change (2 ^ 31) with 2147483648; lia).
    reflexivity.
  - replace (s <=? 29) with false by (symmetry; apply Z.leb_gt; lia).
    rewrite !Z.shiftr_div_pow2 by lia.
    f_equal. lia.
Qed.

(** X5: [ft_trig_prenorm] scales a non-zero 32-bit vector by a power of
    two so that its larger magnitude lies between 2^29 and 2^30: a shift
    from 0 to 29 to the left multiplies both components exactly, a shift
    by 1 or 2 to the right (returned negated) divides them, rounding
    down. *)
Theorem prenorm_scales (x y : Z) :
  int32 x -> int32 y -> ~ (x = 0 /\ y = 0) ->
  let v := fst (ft_trig_prenorm (mkVec x y)) in
  let shift := snd (ft_trig_prenorm (mkVec x y)) in
  - 2 <= shift <= 29 /\
  2 ^ 29 <= magnitude v <= 2 ^ 30 /\
  (0 <= shift -> vx v = x * 2 ^ shift /\ vy v = y * 2 ^ shift) /\
  (shift < 0 -> vx v = x / 2 ^ (- shift) /\ vy v = y / 2 ^ (- shift)).
Proof.
  intros Hx Hy Hnz. cbv zeta.
  pose proof (prenorm_spec x y Hx Hy Hnz) as Hmag.
  destruct (MSB_abs x y Hx Hy Hnz) as [Hs _].
  destruct (prenorm_shift x y Hx Hy Hnz) as [Hl Hr].
  set (s := PVG_FT_MSB (Z.lor (PVG_FT_ABS x) (PVG_FT_ABS y))) in *.
  destruct (Z_le_gt_dec s 29) as [Hc|Hc].
  - rewrite (Hl Hc) in *. cbn [fst snd vx vy].
    repeat split; try lia; apply Hmag.
  - rewrite (Hr ltac:(lia)) in *. cbn [fst snd vx vy].
    replace (- (29 - s)) with (s - 29) by lia.
    repeat split; try lia; apply Hmag.
Qed.

Lemma prenorm_scales_witness :
  let v := fst (ft_trig_prenorm (mkVec 3 (-4))) in
  let shift := snd (ft_trig_prenorm (mkVec 3 (-4))) in
  - 2 <= shift <= 29 /\
  2 ^ 29 <= magnitude v <= 2 ^ 30 /\
  (0 <= shift -> vx v = 3 * 2 ^ shift /\ vy v = -4 * 2 ^ shift) /\
  (shift < 0 -> vx v = 3 / 2 ^ (- shift) /\ vy v = -4 / 2 ^ (- shift)).
Proof.
  apply (prenorm_scales 3 (-4)).
  - vm_compute. split; [discriminate | reflexivity].
  - vm_compute. split; [discriminate | reflexivity].
  - intros [H _]. discriminate H.
Defined.

(** *** [ft_trig_downscale] *)

Lemma downscale_magnitude (v : Z) :
  INT32_MIN < v < 2 ^ 31 ->
  ft_trig_downscale v =
  (if v <? 0 then -1 else 1) * (Z.abs v * PVG_FT_TRIG_SCALE / 2 ^ 32 + 1).
Proof.
  intros Hv. unfold ft_trig_downscale.
  rewrite ABS_small by exact Hv.
  unfold INT32_MIN, PVG_FT_TRIG_SCALE in *. pow_consts.
  change 0x100000000 with 4294967296. change 0xDBD95B16 with 3688454934.
  rewrite wrap64_id by (pow_consts; lia).
  rewrite Z.shiftr_div_pow2 by lia. change (2 ^ 32) with 4294967296.
  replace (Z.abs v * 3688454934 + 4294967296)
    with (Z.abs v * 3688454934 + 1 * 4294967296) by lia.
  rewrite Z.div_add by lia.
  set (q := Z.abs v * 3688454934 / 4294967296).
  assert (0 <= q <= 1900000000) as Hq.
  { split.
    - apply Z.div_pos; lia.
    - apply Z.div_le_upper_bound; lia. }
  rewrite (wrap32_id (q + 1)) by (unfold_ints; lia).
  rewrite Z.geb_leb.
  destruct (Z.leb_spec 0 v) as [Hp|Hn].
  - replace (v <? 0) with false by (symmetry; apply Z.ltb_ge; lia). lia.
  - replace (v <? 0) with true by (symmetry; apply Z.ltb_lt; lia).
    rewrite wrap32_id by (unfold_ints; lia). lia.
Qed.

(** X6: [ft_trig_downscale] multiplies the magnitude by the shrink factor
    0xDBD95B16 / 2^32, rounds down and then adds one (the constant added
    before the shift is a whole unit), keeping the sign; so the result is
    never zero, zero itself is mapped to 1, and the function is odd on
    non-zero values. *)
Theorem downscale_spec (v : Z) :
  INT32_MIN < v < 2 ^ 31 ->
  Z.abs (ft_trig_downscale v) = Z.abs v * PVG_FT_TRIG_SCALE / 2 ^ 32 + 1 /\
  (0 <= v -> 0 < ft_trig_downscale v) /\
  (v < 0 -> ft_trig_downscale v < 0) /\
  (v <> 0 -> ft_trig_downscale (- v) = - ft_trig_downscale v).
Proof.
  intros Hv.
  assert (0 <= Z.abs v * PVG_FT_TRIG_SCALE / 2 ^ 32) as Hq.
  { apply Z.div_pos; [|lia]. unfold PVG_FT_TRIG_SCALE. lia. }
  assert (INT32_MIN < - v < 2 ^ 31) as Hv'
    by (unfold INT32_MIN in *; pow_consts; lia).
  rewrite (downscale_magnitude (- v) Hv'), (downscale_magnitude v Hv).
  rewrite Z.abs_opp.
  set (q := Z.abs v * PVG_FT_TRIG_SCALE / 2 ^ 32) in *.
  repeat split.
  - destruct (v <? 0); lia.
  - intros Hp. replace (v <? 0) with false by (symmetry; apply Z.ltb_ge; lia). lia.
  - intros Hn. replace (v <? 0) with true by (symmetry; apply Z.ltb_lt; lia). lia.
  - intros Hne.
    destruct (Z.ltb_spec v 0), (Z.ltb_spec (- v) 0); lia.
Qed.

Lemma downscale_spec_witness :
  Z.abs (ft_trig_downscale 0) = Z.abs 0 * PVG_FT_TRIG_SCALE / 2 ^ 32 + 1 /\
  (0 <= 0 -> 0 < ft_trig_downscale 0) /\
  (0 < 0 -> ft_trig_downscale 0 < 0) /\
  (0 <> 0 -> ft_trig_downscale (- 0) = - ft_trig_downscale 0).
Proof. apply (downscale_spec 0). vm_compute. split; reflexivity. Defined.

(** *** The padding macros *)

(** [PVG_FT_PAD_CEIL(x, n)], on the 32-bit type of its uses. *)
Definition PVG_FT_PAD_CEIL (x n : Z) : Z :=
  PVG_FT_PAD_FLOOR (wrap32 (x + (n - 1))) n.

Lemma PAD_FLOOR_pow2 (x k : Z) :
  0 <= k -> PVG_FT_PAD_FLOOR x (2 ^ k) = 2 ^ k * (x / 2 ^ k).
Proof.
  intros Hk. unfold PVG_FT_PAD_FLOOR.
  replace (2 ^ k - 1) with (Z.ones k) by (rewrite Z.ones_equiv; lia).
  rewrite <- Z.ldiff_land.
  rewrite Z.ldiff_ones_r by lia.
  rewrite Z.shiftr_div_pow2, Z.shiftl_mul_pow2 by lia. lia.
Qed.

(** X7: for a power of two [n = 2^k] and a 32-bit [x] with [x + n] not
    above 2^31, the padding macros yield multiples of [n]:
    [PVG_FT_PAD_FLOOR] the largest one not above [x], [PVG_FT_PAD_CEIL]
    the smallest one not below [x], and [PVG_FT_PAD_ROUND] one at
    distance at most [n / 2] from [x]. *)
Theorem PAD_multiples (x k : Z) :
  0 <= k <= 30 -> int32 x -> x + 2 ^ k <= 2 ^ 31 ->
  let n := 2 ^ k in
  (n | PVG_FT_PAD_FLOOR x n) /\
  PVG_FT_PAD_FLOOR x n <= x < PVG_FT_PAD_FLOOR x n + n /\
  (n | PVG_FT_PAD_CEIL x n) /\
  x <= PVG_FT_PAD_CEIL x n < x + n /\
  (n | PVG_FT_PAD_ROUND x n) /\
  2 * Z.abs (PVG_FT_PAD_ROUND x n - x) <= n.
Proof.
  intros Hk Hx Hb. cbv zeta.
  unfold PVG_FT_PAD_CEIL, PVG_FT_PAD_ROUND.
  rewrite !PAD_FLOOR_pow2 by lia.
  set (n := 2 ^ k) in *.
  assert (0 < n) as Hn by (apply Z.pow_pos_nonneg; lia).
  assert (n <= 2 ^ 30) as Hn30 by (apply Z.pow_le_mono_r; lia).
  unfold int32 in Hx. change (2 ^ 30) with 1073741824 in *.
  change (2 ^ 31) with 2147483648 in *.
  assert (0 <= n / 2 /\ 2 * (n / 2) <= n <= 2 * (n / 2) + 1) as Hh.
  { pose proof (Z.div_mod n 2 ltac:(lia)).
    pose proof (Z.mod_pos_bound n 2 ltac:(lia)). lia. }
  rewrite (wrap32_id (x + (n - 1))) by (unfold_ints; lia).
  rewrite (wrap32_id (x + n / 2)) by (unfold_ints; lia).
  pose proof (Z.div_mod x n ltac:(lia)) as D1.
  pose proof (Z.mod_pos_bound x n Hn) as M1.
  pose proof (Z.div_mod (x + (n - 1)) n ltac:(lia)) as D2.
  pose proof (Z.mod_pos_bound (x + (n - 1)) n Hn) as M2.
  pose proof (Z.div_mod (x + n / 2) n ltac:(lia)) as D3.
  pose proof (Z.mod_pos_bound (x + n / 2) n Hn) as M3.
  repeat split; try apply Z.divide_factor_l; lia.
Qed.

Lemma PAD_multiples_witness :
  let n := 2 ^ 6 in
  (n | PVG_FT_PAD_FLOOR (-100) n) /\
  PVG_FT_PAD_FLOOR (-100) n <= -100 < PVG_FT_PAD_FLOOR (-100) n + n /\
  (n | PVG_FT_PAD_CEIL (-100) n) /\
  -100 <= PVG_FT_PAD_CEIL (-100) n < -100 + n /\
  (n | PVG_FT_PAD_ROUND (-100) n) /\
  2 * Z.abs (PVG_FT_PAD_ROUND (-100) n - -100) <= n.
Proof.
  apply (PAD_multiples (-100) 6).
  - lia.
  - vm_compute. split; [discriminate | reflexivity].
  - vm_compute. discriminate.
Defined.

(** ** The angle reduction of the rotation engine, in general *)

(** [q] quarter turns counter-clockwise (clockwise for negative [q]). *)
Definition turn (q : Z) (v : Z * Z) : Z * Z :=
  match q mod 4 with
  | 0 => v
  | 1 => (wrap32 (- snd v), fst v)
  | 2 => (wrap32 (- fst v), wrap32 (- snd v))
  | _ => (snd v, wrap32 (- fst v))
  end.

(** The signed number of quarter turns taken out of an angle by the two
    [while] loops. *)
Definition quarter_turns (theta : Z) : Z :=
  if theta <? - PVG_FT_ANGLE_PI4 then - turns_up theta
  else if theta >? PVG_FT_ANGLE_PI4 then turns_down theta
  else 0.

Lemma wrap32_opp_invol (x : Z) : int32 x -> wrap32 (- wrap32 (- x)) = x.
Proof.
  intros Hx. unfold int32 in Hx. change (2 ^ 31) with 2147483648 in Hx.
  destruct (Z.eq_dec x (- 2147483648)) as [->|Hne]; [vm_compute; reflexivity|].
  rewrite (wrap32_id (- x)) by (unfold_ints; lia).
  rewrite Z.opp_involutive. apply wrap32_id. unfold_ints. lia.
Qed.

Lemma turn_succ (q : Z) (v : Z * Z) :
  int32 (fst v) -> int32 (snd v) ->
  turn (q + 1) v = quarter_ccw (turn q v).
Proof.
  intros Hx Hy. unfold turn, quarter_ccw.
  pose proof (Z.mod_pos_bound q 4 ltac:(lia)) as Hq.
  rewrite <- (Zplus_mod_idemp_l q 1 4).
  destruct v as [x y]. cbn [fst snd] in *.
  assert (q mod 4 = 0 \/ q mod 4 = 1 \/ q mod 4 = 2 \/ q mod 4 = 3)
    as [-> | [-> | [-> | ->]]] by lia;
    cbn [fst snd]; change ((0 + 1) mod 4) with 1; change ((1 + 1) mod 4) with 2;
    change ((2 + 1) mod 4) with 3; change ((3 + 1) mod 4) with 0; cbv iota;
    rewrite ?wrap32_opp_invol by assumption; reflexivity.
Qed.

Lemma turn_pred (q : Z) (v : Z * Z) :
  int32 (fst v) -> int32 (snd v) ->
  turn (q - 1) v = quarter_cw (turn q v).
Proof.
  intros Hx Hy. unfold turn, quarter_cw.
  pose proof (Z.mod_pos_bound q 4 ltac:(lia)) as Hq.
  rewrite <- (Zminus_mod_idemp_l q 1 4).
  destruct v as [x y]. cbn [fst snd] in *.
  assert (q mod 4 = 0 \/ q mod 4 = 1 \/ q mod 4 = 2 \/ q mod 4 = 3)
    as [-> | [-> | [-> | ->]]] by lia;
    cbn [fst snd]; change ((0 - 1) mod 4) with 3; change ((1 - 1) mod 4) with 0;
    change ((2 - 1) mod 4) with 1; change ((3 - 1) mod 4) with 2; cbv iota;
    rewrite ?wrap32_opp_invol by assumption; reflexivity.
Qed.

Lemma iter_quarter_ccw (k : nat) (v : Z * Z) :
  int32 (fst v) -> int32 (snd v) ->
  Nat.iter k quarter_ccw v = turn (Z.of_nat k) v.
Proof.
  intros Hx Hy. induction k as [|k IH].
  - destruct v; reflexivity.
  - change (Nat.iter (S k) quarter_ccw v) with (quarter_ccw (Nat.iter k quarter_ccw v)).
    rewrite IH, <- turn_succ by assumption. f_equal. lia.
Qed.

Lemma iter_quarter_cw (k : nat) (v : Z * Z) :
  int32 (fst v) -> int32 (snd v) ->
  Nat.iter k quarter_cw v = turn (- Z.of_nat k) v.
Proof.
  intros Hx Hy. induction k as [|k IH].
  - destruct v; reflexivity.
  - change (Nat.iter (S k) quarter_cw v) with (quarter_cw (Nat.iter k quarter_cw v)).
    rewrite IH, <- turn_pred by assumption. f_equal. lia.
Qed.

Lemma turn_full (q : Z) (v : Z * Z) : turn (q + 4) v = turn q v.
Proof.
  unfold turn. replace (q + 4) with (q + 1 * 4) by lia.
  rewrite Z.mod_add by lia. reflexivity.
Qed.

(** The quarter turns leave a remainder within 45 degrees; a remainder
    of exactly -45 degrees is only left by clockwise turns, one of
    exactly 45 degrees only by counter-clockwise ones. *)
Lemma quarter_turns_spec (theta : Z) :
  int32 theta ->
  - 365 < quarter_turns theta < 365 /\
  - PVG_FT_ANGLE_PI4 <= theta - quarter_turns theta * PVG_FT_ANGLE_PI2
    <= PVG_FT_ANGLE_PI4 /\
  (theta - quarter_turns theta * PVG_FT_ANGLE_PI2 = - PVG_FT_ANGLE_PI4 ->
   quarter_turns theta <= 0) /\
  (theta - quarter_turns theta * PVG_FT_ANGLE_PI2 = PVG_FT_ANGLE_PI4 ->
   0 <= quarter_turns theta).
Proof.
  intros Ht. unfold quarter_turns.
  destruct (Z.ltb_spec theta (- PVG_FT_ANGLE_PI4)) as [Hlt|Hge].
  - pose proof (turns_up_bound theta Ht Hlt). lia.
  - rewrite Z.gtb_ltb.
    destruct (Z.ltb_spec PVG_FT_ANGLE_PI4 theta) as [Hgt|Hle].
    + pose proof (turns_down_bound theta Ht Hgt). lia.
    + lia.
Qed.

Lemma quarter_turns_unique (theta q : Z) :
  - PVG_FT_ANGLE_PI4 <= theta - q * PVG_FT_ANGLE_PI2 <= PVG_FT_ANGLE_PI4 ->
  (theta - q * PVG_FT_ANGLE_PI2 = - PVG_FT_ANGLE_PI4 -> q <= 0) ->
  (theta - q * PVG_FT_ANGLE_PI2 = PVG_FT_ANGLE_PI4 -> 0 <= q) ->
  quarter_turns theta = q.
Proof.
  intros Hr Hlo Hhi. unfold quarter_turns.
  destruct (Z.ltb_spec theta (- PVG_FT_ANGLE_PI4)) as [Hlt|Hge].
  - rewrite (turns_up_eq theta (- q)); [lia|].
    revert Hr Hlo Hhi Hlt. angle_consts. lia.
  - rewrite Z.gtb_ltb.
    destruct (Z.ltb_spec PVG_FT_ANGLE_PI4 theta) as [Hgt|Hle].
    + apply turns_down_eq. revert Hr Hlo Hhi Hgt Hge. angle_consts. lia.
    + revert Hr Hlo Hhi Hge Hle. angle_consts. lia.
Qed.

Lemma reduce_angle_turn (x y theta : Z) :
  int32 x -> int32 y -> int32 theta ->
  reduce_angle x y theta =
  (turn (quarter_turns theta) (x, y),
   theta - quarter_turns theta * PVG_FT_ANGLE_PI2).
Proof.
  intros Hx Hy Ht. unfold reduce_angle, quarter_turns.
  destruct (Z.ltb_spec theta (- PVG_FT_ANGLE_PI4)) as [Hlt|Hge].
  - pose proof (turns_up_bound theta Ht Hlt) as [Hk _].
    rewrite iter_quarter_cw by assumption.
    rewrite Z2Nat.id by lia. f_equal. lia.
  - rewrite Z.gtb_ltb.
    destruct (Z.ltb_spec PVG_FT_ANGLE_PI4 theta) as [Hgt|Hle].
    + pose proof (turns_down_bound theta Ht Hgt) as [Hk _].
      rewrite iter_quarter_ccw by assumption.
      rewrite Z2Nat.id by lia. reflexivity.
    + f_equal. lia.
Qed.

(** *** Termination *)

(** X8: the functions built on the rotation engine return on every
    32-bit angle: the two angle-reduction loops stop (after fewer than
    365 quarter turns, with a remainder within 45 degrees); the zero
    vector is returned as it is, whatever the angle. *)
Theorem rotations_return (vec : PVG_FT_Vector) (length theta : Z) :
  int32 theta ->
  (exists c, PVG_FT_Cos theta = Some c) /\
  (exists s, PVG_FT_Sin theta = Some s) /\
  (exists t, PVG_FT_Tan theta = Some t) /\
  (exists v, PVG_FT_Vector_Unit theta = Some v) /\
  (exists v, PVG_FT_Vector_Rotate vec theta = Some v) /\
  (exists v, PVG_FT_Vector_From_Polar length theta = Some v) /\
  PVG_FT_Vector_Rotate (mkVec 0 0) theta = Some (mkVec 0 0) /\
  - 365 < quarter_turns theta < 365 /\
  - PVG_FT_ANGLE_PI4 <= theta - quarter_turns theta * PVG_FT_ANGLE_PI2
    <= PVG_FT_ANGLE_PI4.
Proof.
  intros Ht.
  assert (forall v, exists w, PVG_FT_Vector_Rotate v theta = Some w) as Hrot.
  { intros v. unfold PVG_FT_Vector_Rotate.
    destruct ((vx v =? 0) && (vy v =? 0)); [eexists; reflexivity|].
    destruct (ft_trig_prenorm v) as [v1 shift].
    rewrite pseudo_rotate_micro by exact Ht.
    destruct (shift >? 0); eexists; reflexivity. }
  pose proof (quarter_turns_spec theta Ht) as (Hq & Hr & _).
  repeat split; try lia.
  - unfold PVG_FT_Cos. rewrite pseudo_rotate_micro by exact Ht. eexists; reflexivity.
  - unfold PVG_FT_Sin, PVG_FT_Cos.
    rewrite pseudo_rotate_micro by apply wrap32_range. eexists; reflexivity.
  - unfold PVG_FT_Tan. rewrite pseudo_rotate_micro by exact Ht. eexists; reflexivity.
  - unfold PVG_FT_Vector_Unit. rewrite pseudo_rotate_micro by exact Ht.
    eexists; reflexivity.
  - apply Hrot.
  - apply Hrot.
Qed.

Lemma rotations_return_witness :
  (exists c, PVG_FT_Cos 3932160 = Some c) /\
  (exists s, PVG_FT_Sin 3932160 = Some s) /\
  (exists t, PVG_FT_Tan 3932160 = Some t) /\
  (exists v, PVG_FT_Vector_Unit 3932160 = Some v) /\
  (exists v, PVG_FT_Vector_Rotate (mkVec 3 4) 3932160 = Some v) /\
  (exists v, PVG_FT_Vector_From_Polar 5 3932160 = Some v) /\
  PVG_FT_Vector_Rotate (mkVec 0 0) 3932160 = Some (mkVec 0 0) /\
  - 365 < quarter_turns 3932160 < 365 /\
  - PVG_FT_ANGLE_PI4 <= 3932160 - quarter_turns 3932160 * PVG_FT_ANGLE_PI2
    <= PVG_FT_ANGLE_PI4.
Proof.
  apply (rotations_return (mkVec 3 4) 5 3932160).
  vm_compute. split; [discriminate | reflexivity].
Defined.

(** *** Whole turns *)

Lemma pseudo_rotate_full_turn (v : PVG_FT_Vector) (theta : Z) :
  int32 (vx v) -> int32 (vy v) ->
  int32 theta -> int32 (theta + PVG_FT_ANGLE_2PI) ->
  (theta + PVG_FT_ANGLE_PI4) mod PVG_FT_ANGLE_PI2 <> 0 ->
  ft_trig_pseudo_rotate v (theta + PVG_FT_ANGLE_2PI) = ft_trig_pseudo_rotate v theta.
Proof.
  intros Hx Hy Ht Ht' Hodd.
  rewrite !pseudo_rotate_micro by assumption.
  unfold spec_pseudo_rotate.
  rewrite !reduce_angle_turn by assumption.
  pose proof (quarter_turns_spec theta Ht) as (Hq & Hr & Hlo & Hhi).
  set (q := quarter_turns theta) in *.
  assert (theta - q * PVG_FT_ANGLE_PI2 <> - PVG_FT_ANGLE_PI4) as Hne.
  { intros E. apply Hodd.
    replace (theta + PVG_FT_ANGLE_PI4) with (q * PVG_FT_ANGLE_PI2) by lia.
    apply Z.mod_mul. angle_consts. lia. }
  assert (quarter_turns (theta + PVG_FT_ANGLE_2PI) = q + 4) as ->.
  { apply quarter_turns_unique; revert Hr Hlo Hhi Hne; angle_consts; lia. }
  rewrite turn_full.
  replace (theta + PVG_FT_ANGLE_2PI - (q + 4) * PVG_FT_ANGLE_PI2)
    with (theta - q * PVG_FT_ANGLE_PI2) by (angle_consts; lia).
  reflexivity.
Qed.

Lemma prenorm_int32 (vec : PVG_FT_Vector) :
  int32 (vx vec) -> int32 (vy vec) ->
  int32 (vx (fst (ft_trig_prenorm vec))) /\ int32 (vy (fst (ft_trig_prenorm vec))).
Proof.
  intros Hx Hy. unfold ft_trig_prenorm.
  destruct (_ <=? PVG_FT_TRIG_SAFE_MSB) eqn:E; cbn [fst vx vy].
  - split; apply wrap32_range.
  - apply Z.leb_gt in E. unfold PVG_FT_TRIG_SAFE_MSB in *.
    set (s := PVG_FT_MSB _ - 29) in *.
    assert (0 < 2 ^ s) by (apply Z.pow_pos_nonneg; lia).
    rewrite !Z.shiftr_div_pow2 by lia.
    unfold int32 in *. change (2 ^ 31) with 2147483648 in *.
    split; split;
      first [ apply Z.div_le_lower_bound; nia | apply Z.div_lt_upper_bound; nia ].
Qed.

(** X9: a whole turn added to the angle changes nothing, exactly: for a
    32-bit angle [theta] that is not an odd multiple of 45 degrees, and
    with [theta + 360 degrees] and [90 degrees - theta] still 32-bit
    values, the cosine, the sine, the tangent, the unit vector and the
    rotation of any 32-bit vector are the same at [theta + 360 degrees]
    as at [theta]. *)
Theorem full_turn_period (vec : PVG_FT_Vector) (theta : Z) :
  int32 (vx vec) -> int32 (vy vec) ->
  int32 theta -> int32 (theta + PVG_FT_ANGLE_2PI) ->
  int32 (PVG_FT_ANGLE_PI2 - theta) ->
  (theta + PVG_FT_ANGLE_PI4) mod PVG_FT_ANGLE_PI2 <> 0 ->
  PVG_FT_Cos (theta + PVG_FT_ANGLE_2PI) = PVG_FT_Cos theta /\
  PVG_FT_Sin (theta + PVG_FT_ANGLE_2PI) = PVG_FT_Sin theta /\
  PVG_FT_Tan (theta + PVG_FT_ANGLE_2PI) = PVG_FT_Tan theta /\
  PVG_FT_Vector_Unit (theta + PVG_FT_ANGLE_2PI) = PVG_FT_Vector_Unit theta /\
  PVG_FT_Vector_Rotate vec (theta + PVG_FT_ANGLE_2PI) = PVG_FT_Vector_Rotate vec theta.
Proof.
  intros Hx Hy Ht Ht' Hs Hodd.
  assert (int32 (Z.shiftr PVG_FT_TRIG_SCALE 8) /\ int32 0) as [Hu H0]
    by (split; vm_compute; split; first [discriminate | reflexivity]).
  pose proof (pseudo_rotate_full_turn (mkVec (Z.shiftr PVG_FT_TRIG_SCALE 8) 0)
                theta Hu H0 Ht Ht' Hodd) as Hunit.
  repeat split.
  - unfold PVG_FT_Cos. now rewrite Hunit.
  - unfold PVG_FT_Sin, PVG_FT_Cos.
    set (a := PVG_FT_ANGLE_PI2 - (theta + PVG_FT_ANGLE_2PI)).
    assert (PVG_FT_ANGLE_PI2 - theta = a + PVG_FT_ANGLE_2PI) as Ea
      by (unfold a; lia).
    rewrite Ea.
    assert (int32 (a + PVG_FT_ANGLE_2PI)) as Hi2 by (rewrite <- Ea; exact Hs).
    assert (int32 a) as Hi1
      by (revert Ht Ht' Hs; unfold a, int32; angle_consts; pow_consts; lia).
    rewrite (wrap32_id _ Hi1), (wrap32_id _ Hi2).
    rewrite pseudo_rotate_full_turn; try assumption; [reflexivity|].
    intros E. apply Hodd.
    unfold a in E. revert E. angle_consts. intros E.
    apply Z.mod_divide in E; [|lia]. destruct E as [m E].
    apply Z.mod_divide; [lia|]. exists (- m - 2). lia.
  - unfold PVG_FT_Tan. now rewrite Hunit.
  - unfold PVG_FT_Vector_Unit. now rewrite Hunit.
  - unfold PVG_FT_Vector_Rotate.
    destruct ((vx vec =? 0) && (vy vec =? 0)); [reflexivity|].
    destruct (prenorm_int32 vec Hx Hy) as [Hx1 Hy1].
    destruct (ft_trig_prenorm vec) as [v1 shift]. cbn [fst] in Hx1, Hy1.
    now rewrite pseudo_rotate_full_turn.
Qed.

Lemma full_turn_period_witness :
  PVG_FT_Cos (1966080 + PVG_FT_ANGLE_2PI) = PVG_FT_Cos 1966080 /\
  PVG_FT_Sin (1966080 + PVG_FT_ANGLE_2PI) = PVG_FT_Sin 1966080 /\
  PVG_FT_Tan (1966080 + PVG_FT_ANGLE_2PI) = PVG_FT_Tan 1966080 /\
  PVG_FT_Vector_Unit (1966080 + PVG_FT_ANGLE_2PI) = PVG_FT_Vector_Unit 1966080 /\
  PVG_FT_Vector_Rotate (mkVec 3 (-4)) (1966080 + PVG_FT_ANGLE_2PI)
  = PVG_FT_Vector_Rotate (mkVec 3 (-4)) 1966080.
Proof.
  apply (full_turn_period (mkVec 3 (-4)) 1966080);
    try (vm_compute; split; first [discriminate | reflexivity]).
  vm_compute. discriminate.
Defined.

(** ** The rotation engine keeps lengths *)

(** The quarter turns as multiplications by a power of the imaginary
    unit. *)
Definition ipow (q : Z) : Z * Z :=
  match q mod 4 with
  | 0 => (1, 0)
  | 1 => (0, 1)
  | 2 => (-1, 0)
  | _ => (0, -1)
  end.

Definition zmul (p q : Z * Z) : Z * Z :=
  (fst p * fst q - snd p * snd q, fst p * snd q + snd p * fst q).

Definition znorm2 (p : Z * Z) : Z := fst p * fst p + snd p * snd p.

Lemma turn_zmul (q x y : Z) :
  - 2 ^ 31 < x < 2 ^ 31 -> - 2 ^ 31 < y < 2 ^ 31 ->
  turn q (x, y) = zmul (ipow q) (x, y).
Proof.
  intros Hx Hy. unfold turn, ipow, zmul.
  pose proof (Z.mod_pos_bound q 4 ltac:(lia)) as Hq.
  change (2 ^ 31) with 2147483648 in *.
  assert (wrap32 (- x) = - x) as Ex by (apply wrap32_id; unfold_ints; lia).
  assert (wrap32 (- y) = - y) as Ey by (apply wrap32_id; unfold_ints; lia).
  assert (q mod 4 = 0 \/ q mod 4 = 1 \/ q mod 4 = 2 \/ q mod 4 = 3)
    as [-> | [-> | [-> | ->]]] by lia;
    cbn [fst snd]; rewrite ?Ex, ?Ey; f_equal; lia.
Qed.

Lemma znorm2_ipow (q : Z) (p : Z * Z) : znorm2 (zmul (ipow q) p) = znorm2 p.
Proof.
  unfold znorm2, zmul, ipow.
  pose proof (Z.mod_pos_bound q 4 ltac:(lia)) as Hq.
  assert (q mod 4 = 0 \/ q mod 4 = 1 \/ q mod 4 = 2 \/ q mod 4 = 3)
    as [-> | [-> | [-> | ->]]] by lia; cbn [fst snd]; lia.
Qed.

Lemma znorm2_bound (p : Z * Z) :
  znorm2 p <= 2 ^ 61 -> - 2 ^ 31 < fst p < 2 ^ 31 /\ - 2 ^ 31 < snd p < 2 ^ 31.
Proof.
  unfold znorm2. change (2 ^ 61) with 2305843009213693952.
  change (2 ^ 31) with 2147483648. intros H. nia.
Qed.

Lemma cnorm2_real2 (p : Z * Z) : cnorm2 (real2 p) = IZR (znorm2 p).
Proof.
  unfold cnorm2, real2, znorm2. cbn [fst snd].
  now rewrite plus_IZR, !mult_IZR.
Qed.

(** The rotation engine on a vector that is not too long, as quarter
    turns followed by 22 micro-rotations that do not wrap. *)
Lemma pseudo_rotate_srun (v : PVG_FT_Vector) (theta : Z) :
  znorm2 (vx v, vy v) <= 2 ^ 61 -> int32 theta ->
  let p := zmul (ipow (quarter_turns theta)) (vx v, vy v) in
  let r := theta - quarter_turns theta * PVG_FT_ANGLE_PI2 in
  let ds := decisions by_angle 1 22 (fst p, snd p, r) in
  ft_trig_pseudo_rotate v theta
  = Some (mkVec (fst (srun 1 ds p)) (snd (srun 1 ds p))).
Proof.
  intros Hn Ht p r ds.
  destruct (znorm2_bound _ Hn) as [Hx Hy]. cbn [fst snd] in Hx, Hy.
  rewrite pseudo_rotate_micro by exact Ht. unfold spec_pseudo_rotate.
  rewrite reduce_angle_turn
    by (try exact Ht; unfold int32; change (2 ^ 31) with 2147483648 in *; lia).
  rewrite turn_zmul by assumption. fold p r.
  pose proof (quarter_turns_spec theta Ht) as (_ & Hr & _). fold r in Hr.
  assert (znorm2 p <= 2 ^ 61) as Hp by (unfold p; now rewrite znorm2_ipow).
  rewrite (surjective_pairing p) at 1.
  rewrite micro_rotations_exact.
  - fold ds. rewrite <- surjective_pairing.
    destruct (srun 1 ds p). reflexivity.
  - exact Hp.
  - revert Hr. angle_consts. change (2 ^ 29) with 536870912. lia.
Qed.

Section Norm.

Local Open Scope R_scope.

(** The result of the rotation engine is, up to 33 units in each
    coordinate, a vector whose squared length is that of the argument
    times the squared stretch. *)
Lemma pseudo_rotate_norm (v : PVG_FT_Vector) (theta : Z) :
  (znorm2 (vx v, vy v) <= 2 ^ 61)%Z -> int32 theta ->
  exists (x' y' : Z) (e : R * R),
    ft_trig_pseudo_rotate v theta = Some (mkVec x' y') /\
    within 33 (real2 (x', y')) e /\
    cnorm2 e = kprod 1 22 * IZR (znorm2 (vx v, vy v)).
Proof.
  intros Hn Ht.
  pose proof (pseudo_rotate_srun v theta Hn Ht) as Hrun. cbv zeta in Hrun.
  set (p := zmul (ipow (quarter_turns theta)) (vx v, vy v)) in *.
  set (r := (theta - quarter_turns theta * PVG_FT_ANGLE_PI2)%Z) in *.
  set (ds := decisions by_angle 1 22 (fst p, snd p, r)) in *.
  pose proof (decisions_unit by_angle 22 1 (fst p, snd p, r)) as Hu. fold ds in Hu.
  pose proof (decisions_length by_angle 22 1 (fst p, snd p, r)) as Hl. fold ds in Hl.
  exists (fst (srun 1 ds p)), (snd (srun 1 ds p)), (cmul (real2 p) (cprod 1 ds)).
  split; [exact Hrun|]. split.
  - rewrite <- surjective_pairing.
    apply srun_exact; [lia | now apply Forall_unit_dir_tern].
  - rewrite cnorm2_cmul, cnorm2_cprod_unit by exact Hu.
    rewrite Hl, cnorm2_real2. unfold p. rewrite znorm2_ipow. ring.
Qed.

Lemma mul_abs_le (a x d : R) :
  - d <= x <= d -> 0 <= a -> - (a * d) <= a * x <= a * d.
Proof. intros Hx Ha. nra. Qed.

Lemma sq_le (u d : R) : - d <= u <= d -> 0 <= u * u <= d * d.
Proof.
  intros H. assert (0 <= (d - u) * (d + u)) by (apply Rmult_le_pos; lra).
  split; [apply Rle_0_sqr | lra].
Qed.

Lemma dot_bound (ex ey dx dy d S : R) :
  0 <= d -> - d <= dx <= d -> - d <= dy <= d ->
  - S <= ex + ey <= S -> - S <= ex - ey <= S ->
  - (d * S) <= ex * dx + ey * dy <= d * S.
Proof.
  intros Hd Hx Hy H1 H2.
  destruct (Rle_lt_dec 0 ex) as [Px|Nx], (Rle_lt_dec 0 ey) as [Py|Ny].
  - pose proof (mul_abs_le ex dx d Hx Px). pose proof (mul_abs_le ey dy d Hy Py).
    assert (d * (ex + ey) <= d * S) by (apply Rmult_le_compat_l; lra). lra.
  - pose proof (mul_abs_le ex dx d Hx Px).
    pose proof (mul_abs_le (- ey) dy d Hy ltac:(lra)).
    assert (d * (ex - ey) <= d * S) by (apply Rmult_le_compat_l; lra). lra.
  - pose proof (mul_abs_le (- ex) dx d Hx ltac:(lra)).
    pose proof (mul_abs_le ey dy d Hy Py).
    assert (d * (- (ex - ey)) <= d * S) by (apply Rmult_le_compat_l; lra). lra.
  - pose proof (mul_abs_le (- ex) dx d Hx ltac:(lra)).
    pose proof (mul_abs_le (- ey) dy d Hy ltac:(lra)).
    assert (d * (- (ex + ey)) <= d * S) by (apply Rmult_le_compat_l; lra). lra.
Qed.

(** A vector within [d] of one of squared length [N] has a squared
    length close to [N]; [S] bounds the sum of the magnitudes of the
    coordinates. *)
Lemma near_circle (X Y : R) (e : R * R) (d S : R) :
  0 <= d -> 0 <= S -> within d (X, Y) e -> 2 * cnorm2 e <= S * S ->
  - (2 * d * S) <= X * X + Y * Y - cnorm2 e <= 2 * d * S + 2 * d * d.
Proof.
  intros Hd HS [Hx Hy] HN. destruct e as [ex ey]. unfold cnorm2 in *.
  cbn [fst snd] in *.
  assert (- S <= ex + ey <= S) as H1
    by (apply square_bound with (ex - ey); [assumption | nra]).
  assert (- S <= ex - ey <= S) as H2
    by (apply square_bound with (ex + ey); [assumption | nra]).
  pose proof (dot_bound ex ey (X - ex) (Y - ey) d S Hd Hx Hy H1 H2) as Hdot.
  pose proof (sq_le (X - ex) d Hx) as Sx.
  pose proof (sq_le (Y - ey) d Hy) as Sy.
  lra.
Qed.

(** The start vector of the cosine has length 2^24 after the stretch,
    nearly. *)
Lemma unit_start_norm :
  281474973210656 <= kprod 1 22 * IZR (znorm2 (trig_unit, 0%Z)) <= 281474976710656.
Proof.
  assert (znorm2 (trig_unit, 0) = 14408027 * 14408027)%Z as -> by reflexivity.
  rewrite mult_IZR. cbn [kprod]. lra.
Qed.

End Norm.

Ltac push_IZR :=
  repeat (rewrite plus_IZR || rewrite minus_IZR || rewrite mult_IZR
          || rewrite opp_IZR).

(** The rounding of [PVG_FT_Cos] and [PVG_FT_Vector_Unit]. *)
Lemma cos_round_near (x : Z) :
  Z.abs x <= 2 ^ 30 -> Z.abs (256 * cos_round x - x) <= 128.
Proof.
  intros Hx. unfold cos_round. change (2 ^ 30) with 1073741824 in Hx.
  change 0x80 with 128.
  rewrite wrap32_id by (unfold_ints; lia).
  rewrite Z.shiftr_div_pow2 by lia. change (2 ^ 8) with 256.
  pose proof (Z.div_mod (x + 128) 256 ltac:(lia)).
  pose proof (Z.mod_pos_bound (x + 128) 256 ltac:(lia)). lia.
Qed.

(** The unit vector before rounding: within 33 units of the circle of
    radius 2^24 (nearly). *)
Lemma unit_vector_raw (theta : Z) :
  int32 theta ->
  exists (x' y' : Z) (e : R * R),
    ft_trig_pseudo_rotate (mkVec trig_unit 0) theta = Some (mkVec x' y') /\
    within 33 (real2 (x', y')) e /\
    (281474973210656 <= cnorm2 e <= 281474976710656)%R /\
    Z.abs x' <= 2 ^ 24 + 33 /\ Z.abs y' <= 2 ^ 24 + 33.
Proof.
  intros Ht.
  destruct (pseudo_rotate_norm (mkVec trig_unit 0) theta
              ltac:(vm_compute; discriminate) Ht)
    as (x' & y' & e & Hrot & Hw & HN).
  cbn [vx vy] in HN. pose proof unit_start_norm as Hu. rewrite <- HN in Hu.
  exists x', y', e.
  split; [exact Hrot|]. split; [exact Hw|]. split; [exact Hu|].
  destruct (cnorm2_bound e 16777216 ltac:(lra) ltac:(lra)) as [Bx By].
  destruct Hw as [Hx Hy]. unfold real2 in Hx, Hy. cbn [fst snd] in Hx, Hy.
  change (2 ^ 24 + 33) with 16777249.
  split; apply Z.abs_le; split; apply le_IZR; rewrite ?opp_IZR; lra.
Qed.

Lemma unit_vector_bounds (theta : Z) :
  int32 theta ->
  exists x' y' : Z,
    ft_trig_pseudo_rotate (mkVec trig_unit 0) theta = Some (mkVec x' y') /\
    Z.abs (cos_round x' * cos_round x' + cos_round y' * cos_round y' - 2 ^ 32)
    <= 2 ^ 17 /\
    Z.abs (cos_round x') <= 65536 /\ Z.abs (cos_round y') <= 65536.
Proof.
  intros Ht.
  destruct (unit_vector_raw theta Ht) as (x' & y' & e & Hrot & Hw & HN & Bx & By).
  exists x', y'. split; [exact Hrot|].
  change (2 ^ 24 + 33) with 16777249 in *.
  pose proof (cos_round_near x' ltac:(change (2 ^ 30) with 1073741824; lia)) as Cx.
  pose proof (cos_round_near y' ltac:(change (2 ^ 30) with 1073741824; lia)) as Cy.
  set (c := cos_round x') in *. set (s := cos_round y') in *.
  split; [|lia].
  assert (within 161 (IZR (256 * c), IZR (256 * s)) e) as Hw2.
  { destruct Hw as [Hx Hy]. unfold real2 in Hx, Hy. unfold within.
    cbn [fst snd] in *.
    assert (- 128 <= 256 * c - x' <= 128) as [A1 A2] by lia.
    assert (- 128 <= 256 * s - y' <= 128) as [A3 A4] by lia.
    apply IZR_le in A1, A2, A3, A4.
    rewrite minus_IZR in A1, A2, A3, A4. split; lra. }
  pose proof (near_circle _ _ e 161 23726567 ltac:(lra) ltac:(lra) Hw2
                ltac:(lra)) as Hc.
  assert (- 8589934592 <= 65536 * (c * c + s * s) - 281474976710656 <= 8589934592)
    as Hz.
  { split; apply le_IZR; push_IZR; rewrite !mult_IZR in Hc; lra. }
  change (2 ^ 32) with 4294967296. change (2 ^ 17) with 131072. lia.
Qed.

(** X10: for every 32-bit angle [PVG_FT_Vector_Unit] returns a vector on
    the unit circle of the 16.16 format up to 2^-15: the squared length
    differs from 2^32 by at most 2^17; its abscissa is the value of
    [PVG_FT_Cos], and neither coordinate exceeds 0x10000 in magnitude. *)
Theorem Vector_Unit_on_circle (theta : Z) :
  int32 theta ->
  exists v : PVG_FT_Vector,
    PVG_FT_Vector_Unit theta = Some v /\
    Z.abs (vx v * vx v + vy v * vy v - 2 ^ 32) <= 2 ^ 17 /\
    PVG_FT_Cos theta = Some (vx v) /\
    Z.abs (vx v) <= 0x10000 /\ Z.abs (vy v) <= 0x10000.
Proof.
  intros Ht.
  destruct (unit_vector_bounds theta Ht) as (x' & y' & Hrot & Hc & Bx & By).
  unfold PVG_FT_Vector_Unit, PVG_FT_Cos. fold trig_unit. rewrite Hrot.
  eexists. split; [reflexivity|]. cbn [vx vy].
  fold (cos_round x') (cos_round y'). repeat split; assumption.
Qed.

Lemma Vector_Unit_on_circle_witness :
  exists v : PVG_FT_Vector,
    PVG_FT_Vector_Unit 1966080 = Some v /\
    Z.abs (vx v * vx v + vy v * vy v - 2 ^ 32) <= 2 ^ 17 /\
    PVG_FT_Cos 1966080 = Some (vx v) /\
    Z.abs (vx v) <= 0x10000 /\ Z.abs (vy v) <= 0x10000.
Proof.
  apply (Vector_Unit_on_circle 1966080).
  vm_compute. split; [discriminate | reflexivity].
Defined.

(** X11: for every 32-bit angle the cosine and the sine lie between
    -0x10000 and 0x10000 (minus one and one), ends included. *)
Theorem Cos_Sin_range (theta : Z) :
  int32 theta ->
  exists c s : Z,
    PVG_FT_Cos theta = Some c /\ PVG_FT_Sin theta = Some s /\
    - 0x10000 <= c <= 0x10000 /\ - 0x10000 <= s <= 0x10000.
Proof.
  intros Ht.
  destruct (unit_vector_bounds theta Ht) as (x1 & y1 & Hrot1 & _ & Bx1 & _).
  destruct (unit_vector_bounds (wrap32 (PVG_FT_ANGLE_PI2 - theta))
              (wrap32_range _)) as (x2 & y2 & Hrot2 & _ & Bx2 & _).
  unfold PVG_FT_Sin, PVG_FT_Cos. fold trig_unit. rewrite Hrot1, Hrot2.
  do 2 eexists. split; [reflexivity|]. split; [reflexivity|]. cbn [vx].
  fold (cos_round x1) (cos_round x2). lia.
Qed.

Lemma Cos_Sin_range_witness :
  exists c s : Z,
    PVG_FT_Cos (-3932160) = Some c /\ PVG_FT_Sin (-3932160) = Some s /\
    - 0x10000 <= c <= 0x10000 /\ - 0x10000 <= s <= 0x10000.
Proof.
  apply (Cos_Sin_range (-3932160)).
  vm_compute. split; [discriminate | reflexivity].
Defined.

(** ** Further properties of the kernel *)

(** *** The approximate length of the header *)

(** [PVG_FT_HYPOT(x, y)]: the macro overwrites its two arguments with
    their magnitudes; the result holds the new [x], the new [y] and the
    value of the expression, on the 32-bit type. *)
Definition PVG_FT_HYPOT (x y : Z) : Z * Z * Z :=
  let x := PVG_FT_ABS x in
  let y := PVG_FT_ABS y in
  (x, y,
   if x >? y then wrap32 (x + Z.shiftr (wrap32 (3 * y)) 3)
   else wrap32 (y + Z.shiftr (wrap32 (3 * x)) 3)).

(** X12: for components below 2^29 in magnitude [PVG_FT_HYPOT] leaves
    the magnitudes in its arguments and yields the larger plus three
    eighths of the smaller (rounded down); this is the length of the
    vector within the 7 percent the header announces:
    64 h^2 <= 73 (x^2 + y^2) and 121 (x^2 + y^2) <= 2 (8 h + 7)^2. *)
Theorem HYPOT_accuracy (x y : Z) :
  Z.abs x < 2 ^ 29 -> Z.abs y < 2 ^ 29 ->
  let '(x1, y1, h) := PVG_FT_HYPOT x y in
  x1 = Z.abs x /\ y1 = Z.abs y /\
  h = Z.max (Z.abs x) (Z.abs y) + 3 * Z.min (Z.abs x) (Z.abs y) / 8 /\
  64 * (h * h) <= 73 * (x * x + y * y) /\
  121 * (x * x + y * y) <= 2 * ((8 * h + 7) * (8 * h + 7)).
Proof.
  intros Hx Hy. unfold PVG_FT_HYPOT.
  change (2 ^ 29) with 536870912 in *.
  rewrite !ABS_small by (unfold INT32_MIN; pow_consts; lia).
  assert (x * x = Z.abs x * Z.abs x) as -> by lia.
  assert (y * y = Z.abs y * Z.abs y) as -> by lia.
  set (a := Z.abs x) in *. set (b := Z.abs y) in *.
  assert (0 <= a) as Ha by (unfold a; lia).
  assert (0 <= b) as Hb by (unfold b; lia).
  rewrite !(wrap32_id (3 * _)) by (unfold_ints; lia).
  rewrite !Z.shiftr_div_pow2 by lia. change (2 ^ 3) with 8.
  pose proof (Z.div_mod (3 * a) 8 ltac:(lia)) as Da.
  pose proof (Z.mod_pos_bound (3 * a) 8 ltac:(lia)) as Ma.
  pose proof (Z.div_mod (3 * b) 8 ltac:(lia)) as Db.
  pose proof (Z.mod_pos_bound (3 * b) 8 ltac:(lia)) as Mb.
  destruct (Z.gtb_spec a b) as [Hgt|Hle].
  - rewrite wrap32_id by (unfold_ints; lia).
    rewrite Z.max_l, Z.min_r by lia.
    set (q := 3 * b / 8) in *.
    repeat split; try reflexivity.
    + assert ((8 * (a + q)) * (8 * (a + q)) <= (8 * a + 3 * b) * (8 * a + 3 * b))
        by (apply Z.mul_le_mono_nonneg; lia).
      assert (0 <= (3 * a - 8 * b) * (3 * a - 8 * b)) by apply Z.square_nonneg.
      lia.
    + assert ((8 * a + 3 * b) * (8 * a + 3 * b)
              <= (8 * (a + q) + 7) * (8 * (a + q) + 7))
        by (apply Z.mul_le_mono_nonneg; lia).
      assert (0 <= b * (a - b)) by (apply Z.mul_nonneg_nonneg; lia).
      assert (0 <= (a - b) * (a + b)) by (apply Z.mul_nonneg_nonneg; lia).
      lia.
  - rewrite wrap32_id by (unfold_ints; lia).
    rewrite Z.max_r, Z.min_l by lia.
    set (q := 3 * a / 8) in *.
    repeat split; try reflexivity.
    + assert ((8 * (b + q)) * (8 * (b + q)) <= (8 * b + 3 * a) * (8 * b + 3 * a))
        by (apply Z.mul_le_mono_nonneg; lia).
      assert (0 <= (3 * b - 8 * a) * (3 * b - 8 * a)) by apply Z.square_nonneg.
      lia.
    + assert ((8 * b + 3 * a) * (8 * b + 3 * a)
              <= (8 * (b + q) + 7) * (8 * (b + q) + 7))
        by (apply Z.mul_le_mono_nonneg; lia).
      assert (0 <= a * (b - a)) by (apply Z.mul_nonneg_nonneg; lia).
      assert (0 <= (b - a) * (b + a)) by (apply Z.mul_nonneg_nonneg; lia).
      lia.
Qed.

Lemma HYPOT_accuracy_witness :
  let '(x1, y1, h) := PVG_FT_HYPOT (-3000) 4000 in
  x1 = Z.abs (-3000) /\ y1 = Z.abs 4000 /\
  h = Z.max (Z.abs (-3000)) (Z.abs 4000) + 3 * Z.min (Z.abs (-3000)) (Z.abs 4000) / 8 /\
  64 * (h * h) <= 73 * (-3000 * -3000 + 4000 * 4000) /\
  121 * (-3000 * -3000 + 4000 * 4000) <= 2 * ((8 * h + 7) * (8 * h + 7)).
Proof. apply (HYPOT_accuracy (-3000) 4000); vm_compute; reflexivity. Defined.

(** *** Scaling the argument of the polar conversion *)

Lemma MSB_scaled (x y k : Z) :
  int32 x -> int32 y -> ~ (x = 0 /\ y = 0) -> 0 <= k ->
  Z.max (Z.abs x) (Z.abs y) * 2 ^ k < 2 ^ 30 ->
  PVG_FT_MSB (Z.lor (PVG_FT_ABS (x * 2 ^ k)) (PVG_FT_ABS (y * 2 ^ k)))
  = PVG_FT_MSB (Z.lor (PVG_FT_ABS x) (PVG_FT_ABS y)) + k /\
  PVG_FT_MSB (Z.lor (PVG_FT_ABS x) (PVG_FT_ABS y)) + k <= 29 /\
  int32 (x * 2 ^ k) /\ int32 (y * 2 ^ k) /\ ~ (x * 2 ^ k = 0 /\ y * 2 ^ k = 0).
Proof.
  intros Hx Hy Hnz Hk Hb.
  pose proof (Z.pow_pos_nonneg 2 k ltac:(lia) Hk) as Hp.
  set (M := Z.max (Z.abs x) (Z.abs y)) in *.
  assert (Z.abs x * 2 ^ k <= M * 2 ^ k) as Bx
    by (apply Z.mul_le_mono_nonneg_r; [lia | apply Z.le_max_l]).
  assert (Z.abs y * 2 ^ k <= M * 2 ^ k) as By
    by (apply Z.mul_le_mono_nonneg_r; [lia | apply Z.le_max_r]).
  assert (Z.abs (x * 2 ^ k) = Z.abs x * 2 ^ k) as Ax
    by (rewrite Z.abs_mul, (Z.abs_eq (2 ^ k)); lia).
  assert (Z.abs (y * 2 ^ k) = Z.abs y * 2 ^ k) as Ay
    by (rewrite Z.abs_mul, (Z.abs_eq (2 ^ k)); lia).
  assert (int32 (x * 2 ^ k)) as Hx'
    by (unfold int32; change (2 ^ 31) with 2147483648;
        change (2 ^ 30) with 1073741824 in Hb; lia).
  assert (int32 (y * 2 ^ k)) as Hy'
    by (unfold int32; change (2 ^ 31) with 2147483648;
        change (2 ^ 30) with 1073741824 in Hb; lia).
  assert (~ (x * 2 ^ k = 0 /\ y * 2 ^ k = 0)) as Hnz'.
  { intros [E1 E2]. apply Hnz.
    apply Z.mul_eq_0 in E1, E2. lia. }
  destruct (MSB_abs x y Hx Hy Hnz) as [Hs Hm].
  destruct (MSB_abs _ _ Hx' Hy' Hnz') as [Hs' Hm'].
  set (s := PVG_FT_MSB (Z.lor (PVG_FT_ABS x) (PVG_FT_ABS y))) in *.
  set (s' := PVG_FT_MSB (Z.lor (PVG_FT_ABS (x * 2 ^ k)) (PVG_FT_ABS (y * 2 ^ k)))) in *.
  fold M in Hm.
  assert (Z.max (Z.abs (x * 2 ^ k)) (Z.abs (y * 2 ^ k)) = M * 2 ^ k) as EM.
  { rewrite Ax, Ay.
    rewrite Z.mul_max_distr_nonneg_r by lia. reflexivity. }
  rewrite EM in Hm'.
  assert (2 ^ (s + k) <= M * 2 ^ k < 2 ^ (s + k + 1)) as Hsk.
  { replace (s + k + 1) with (s + 1 + k) by lia.
    rewrite (Z.pow_add_r 2 s k), (Z.pow_add_r 2 (s + 1) k) by lia.
    split; [apply Z.mul_le_mono_nonneg_r | apply Z.mul_lt_mono_pos_r]; lia. }
  assert (s' = s + k) as Es.
  { destruct (Z.lt_trichotomy s' (s + k)) as [Hlt | [He | Hgt]]; [|exact He|].
    - exfalso. assert (2 ^ (s' + 1) <= 2 ^ (s + k)) by (apply Z.pow_le_mono_r; lia). lia.
    - exfalso. assert (2 ^ (s + k + 1) <= 2 ^ s') by (apply Z.pow_le_mono_r; lia). lia. }
  repeat split; try assumption; try apply Hx'; try apply Hy'.
  destruct (Z_le_gt_dec (s + k) 29) as [|Hgt]; [assumption|exfalso].
  assert (2 ^ 30 <= 2 ^ (s + k)) by (apply Z.pow_le_mono_r; lia). lia.
Qed.

Lemma prenorm_scaled (x y k : Z) :
  int32 x -> int32 y -> ~ (x = 0 /\ y = 0) -> 0 <= k ->
  Z.max (Z.abs x) (Z.abs y) * 2 ^ k < 2 ^ 30 ->
  fst (ft_trig_prenorm (mkVec (x * 2 ^ k) (y * 2 ^ k)))
  = fst (ft_trig_prenorm (mkVec x y)) /\
  snd (ft_trig_prenorm (mkVec x y))
  = snd (ft_trig_prenorm (mkVec (x * 2 ^ k) (y * 2 ^ k))) + k /\
  0 <= snd (ft_trig_prenorm (mkVec (x * 2 ^ k) (y * 2 ^ k))).
Proof.
  intros Hx Hy Hnz Hk Hb.
  destruct (MSB_scaled x y k Hx Hy Hnz Hk Hb) as (Es & Hs29 & Hx' & Hy' & Hnz').
  destruct (MSB_abs x y Hx Hy Hnz) as [Hs _].
  destruct (prenorm_shift x y Hx Hy Hnz) as [H1 _].
  destruct (prenorm_shift _ _ Hx' Hy' Hnz') as [H2 _].
  cbv zeta in H1, H2. rewrite Es in H2.
  set (s := PVG_FT_MSB (Z.lor (PVG_FT_ABS x) (PVG_FT_ABS y))) in *.
  rewrite (H1 ltac:(lia)), (H2 ltac:(lia)). cbn [fst snd].
  repeat split; try lia.
  assert (2 ^ k * 2 ^ (29 - (s + k)) = 2 ^ (29 - s)) as E
    by (rewrite <- Z.pow_add_r by lia; f_equal; lia).
  f_equal; rewrite <- E; lia.
Qed.

(** X13: scaling a non-zero vector by a power of two, as long as the
    larger magnitude stays below 2^30, does not change the angle computed
    by [PVG_FT_Atan2] and [PVG_FT_Vector_Polarize]; the length stored by
    [PVG_FT_Vector_Polarize] for the vector is the one stored for the
    scaled vector shifted back (rounding down). *)
Theorem polar_scaling (x y k length angle : Z) :
  int32 x -> int32 y -> ~ (x = 0 /\ y = 0) -> 0 <= k ->
  Z.max (Z.abs x) (Z.abs y) * 2 ^ k < 2 ^ 30 ->
  PVG_FT_Atan2 (x * 2 ^ k) (y * 2 ^ k) = PVG_FT_Atan2 x y /\
  snd (PVG_FT_Vector_Polarize (mkVec (x * 2 ^ k) (y * 2 ^ k)) length angle)
  = snd (PVG_FT_Vector_Polarize (mkVec x y) length angle) /\
  fst (PVG_FT_Vector_Polarize (mkVec x y) length angle)
  = fst (PVG_FT_Vector_Polarize (mkVec (x * 2 ^ k) (y * 2 ^ k)) length angle) / 2 ^ k.
Proof.
  intros Hx Hy Hnz Hk Hb.
  destruct (prenorm_scaled x y k Hx Hy Hnz Hk Hb) as (Ev & Es & Hs0).
  pose proof (Z.pow_pos_nonneg 2 k ltac:(lia) Hk) as Hp.
  assert ((x * 2 ^ k =? 0) && (y * 2 ^ k =? 0) = false) as Ez'.
  { apply andb_false_iff.
    destruct (Z.eq_dec x 0) as [->|Hx0].
    - right. apply Z.eqb_neq. intros E. apply Z.mul_eq_0 in E. lia.
    - left. apply Z.eqb_neq. intros E. apply Z.mul_eq_0 in E. lia. }
  assert ((x =? 0) && (y =? 0) = false) as Ez.
  { apply andb_false_iff.
    destruct (Z.eq_dec x 0) as [->|Hx0].
    - right. apply Z.eqb_neq. lia.
    - left. apply Z.eqb_neq. lia. }
  unfold PVG_FT_Atan2, PVG_FT_Vector_Polarize. cbn [vx vy].
  rewrite Ez, Ez'.
  destruct (ft_trig_prenorm (mkVec (x * 2 ^ k) (y * 2 ^ k))) as [v' s'].
  destruct (ft_trig_prenorm (mkVec x y)) as [v s].
  cbn [fst snd] in *. subst v' s.
  repeat split.
  replace (s' + k >=? 0) with true by (symmetry; apply Z.geb_le; lia).
  replace (s' >=? 0) with true by (symmetry; apply Z.geb_le; lia).
  rewrite !Z.shiftr_div_pow2 by lia.
  rewrite Z.pow_add_r by lia.
  rewrite Z.div_div by lia. reflexivity.
Qed.

Lemma polar_scaling_witness :
  PVG_FT_Atan2 (3 * 2 ^ 10) (-4 * 2 ^ 10) = PVG_FT_Atan2 3 (-4) /\
  snd (PVG_FT_Vector_Polarize (mkVec (3 * 2 ^ 10) (-4 * 2 ^ 10)) 0 0)
  = snd (PVG_FT_Vector_Polarize (mkVec 3 (-4)) 0 0) /\
  fst (PVG_FT_Vector_Polarize (mkVec 3 (-4)) 0 0)
  = fst (PVG_FT_Vector_Polarize (mkVec (3 * 2 ^ 10) (-4 * 2 ^ 10)) 0 0) / 2 ^ 10.
Proof.
  apply (polar_scaling 3 (-4) 10 0 0).
  - vm_compute. split; [discriminate | reflexivity].
  - vm_compute. split; [discriminate | reflexivity].
  - intros [H _]. discriminate H.
  - lia.
  - vm_compute. reflexivity.
Defined.

(** *** The difference of angles the other way round *)

(** X14: when both differences fit 32 bits, [PVG_FT_Angle_Diff] of the
    swapped arguments is the opposite value, except for a difference of
    exactly half a turn, which is PI both ways; the difference of an
    angle with itself is 0. *)
Theorem Angle_Diff_antisym (angle1 angle2 : Z) :
  int32 (angle2 - angle1) -> int32 (angle1 - angle2) ->
  exists r1 r2,
    PVG_FT_Angle_Diff angle1 angle2 = Some r1 /\
    PVG_FT_Angle_Diff angle2 angle1 = Some r2 /\
    (r1 = PVG_FT_ANGLE_PI -> r2 = PVG_FT_ANGLE_PI) /\
    (r1 <> PVG_FT_ANGLE_PI -> r2 = - r1) /\
    (angle1 = angle2 -> r1 = 0).
Proof.
  intros H12 H21.
  destruct (Angle_Diff_delta angle1 angle2) as (r1 & k1 & Hr1 & He1 & Hb1).
  destruct (Angle_Diff_delta angle2 angle1) as (r2 & k2 & Hr2 & He2 & Hb2).
  rewrite wrap32_id in He1 by exact H12.
  rewrite wrap32_id in He2 by exact H21.
  exists r1, r2. split; [exact Hr1|]. split; [exact Hr2|].
  revert He1 He2 Hb1 Hb2. angle_consts. intros He1 He2 Hb1 Hb2.
  repeat split; lia.
Qed.

Lemma Angle_Diff_antisym_witness :
  exists r1 r2,
    PVG_FT_Angle_Diff 65536 (-20000000) = Some r1 /\
    PVG_FT_Angle_Diff (-20000000) 65536 = Some r2 /\
    (r1 = PVG_FT_ANGLE_PI -> r2 = PVG_FT_ANGLE_PI) /\
    (r1 <> PVG_FT_ANGLE_PI -> r2 = - r1) /\
    (65536 = -20000000 -> r1 = 0).
Proof.
  apply (Angle_Diff_antisym 65536 (-20000000));
    (vm_compute; split; [discriminate | reflexivity]).
Defined.

(** ** [PVG_FT_Vector_Rotate] keeps lengths *)

(** The shrinking step against the exact product. *)
Lemma downscale_near (w : Z) :
  Z.abs w <= val_max ->
  Z.abs (2 ^ 32 * ft_trig_downscale w - PVG_FT_TRIG_SCALE * w) <= 2 ^ 32 /\
  Z.abs (ft_trig_downscale w) <= 1600000000.
Proof.
  intros Hw. unfold val_max in Hw.
  rewrite downscale_magnitude by (unfold INT32_MIN; pow_consts; lia).
  unfold PVG_FT_TRIG_SCALE. change 0xDBD95B16 with 3688454934.
  change (2 ^ 32) with 4294967296.
  pose proof (Z.div_mod (Z.abs w * 3688454934) 4294967296 ltac:(lia)) as Hd.
  pose proof (Z.mod_pos_bound (Z.abs w * 3688454934) 4294967296 ltac:(lia)) as Hm.
  set (q := Z.abs w * 3688454934 / 4294967296) in *.
  assert (0 <= q <= 1599999999) as Hq.
  { split; [apply Z.div_pos; lia|].
    apply Z.div_le_upper_bound; lia. }
  destruct (Z.ltb_spec w 0); lia.
Qed.

(** The rounding shift that ends [PVG_FT_Vector_Rotate]. *)
Definition round_back (x shift : Z) : Z :=
  let half := wrap32 (Z.shiftl 1 (shift - 1)) in
  Z.shiftr (wrap32 (wrap32 (x + half) - (if x <? 0 then 1 else 0))) shift.

Lemma round_back_near (x s : Z) :
  1 <= s <= 29 -> Z.abs x <= 1600000000 ->
  Z.abs (2 ^ s * round_back x s - x) <= 2 ^ (s - 1).
Proof.
  intros Hs Hx. unfold round_back.
  rewrite Z.shiftl_mul_pow2 by lia. rewrite Z.mul_1_l.
  assert (1 <= 2 ^ (s - 1) <= 2 ^ 28) as Hh.
  { split.
    - pose proof (Z.pow_pos_nonneg 2 (s - 1) ltac:(lia) ltac:(lia)). lia.
    - apply Z.pow_le_mono_r; lia. }
  assert (2 ^ s = 2 * 2 ^ (s - 1)) as Hp.
  { replace s with (s - 1 + 1) at 1 by lia. rewrite Z.pow_add_r by lia. lia. }
  change (2 ^ 28) with 268435456 in Hh.
  set (h := 2 ^ (s - 1)) in *.
  rewrite (wrap32_id h) by (unfold_ints; lia).
  rewrite (wrap32_id (x + h)) by (unfold_ints; lia).
  rewrite wrap32_id by (unfold_ints; destruct (x <? 0); lia).
  rewrite Z.shiftr_div_pow2 by lia.
  set (b := if x <? 0 then 1 else 0).
  assert (0 <= b <= 1 /\ (b = 1 -> x < 0)) as Hb
    by (unfold b; destruct (Z.ltb_spec x 0); lia).
  pose proof (Z.div_mod (x + h - b) (2 ^ s) ltac:(lia)) as Hd.
  pose proof (Z.mod_pos_bound (x + h - b) (2 ^ s) ltac:(lia)) as Hm.
  lia.
Qed.

Lemma Vector_Rotate_steps (vec : PVG_FT_Vector) (theta : Z) (v w : PVG_FT_Vector) (s : Z) :
  ~ (vx vec = 0 /\ vy vec = 0) ->
  ft_trig_prenorm vec = (v, s) -> 0 < s ->
  ft_trig_pseudo_rotate v theta = Some w ->
  PVG_FT_Vector_Rotate vec theta
  = Some (mkVec (round_back (ft_trig_downscale (vx w)) s)
                (round_back (ft_trig_downscale (vy w)) s)).
Proof.
  intros Hnz Hpre Hs Hrot. unfold PVG_FT_Vector_Rotate.
  replace ((vx vec =? 0) && (vy vec =? 0)) with false.
  - rewrite Hpre, Hrot.
    replace (s >? 0) with true by (symmetry; apply Z.gtb_lt; lia).
    reflexivity.
  - symmetry. apply andb_false_iff.
    destruct (Z.eq_dec (vx vec) 0) as [E|E].
    + right. apply Z.eqb_neq. lia.
    + left. now apply Z.eqb_neq.
Qed.

(** The rotation engine with its result bounded. *)
Lemma pseudo_rotate_norm_bounded (v : PVG_FT_Vector) (theta : Z) :
  znorm2 (vx v, vy v) <= 2 ^ 61 -> int32 theta ->
  exists (x' y' : Z) (e : R * R),
    ft_trig_pseudo_rotate v theta = Some (mkVec x' y') /\
    within 33 (real2 (x', y')) e /\
    cnorm2 e = (kprod 1 22 * IZR (znorm2 (vx v, vy v)))%R /\
    Z.abs x' <= val_max /\ Z.abs y' <= val_max.
Proof.
  intros Hn Ht.
  pose proof (pseudo_rotate_srun v theta Hn Ht) as Hrun. cbv zeta in Hrun.
  set (p := zmul (ipow (quarter_turns theta)) (vx v, vy v)) in *.
  set (r := (theta - quarter_turns theta * PVG_FT_ANGLE_PI2)%Z) in *.
  pose proof (decisions_unit by_angle 22 1 (fst p, snd p, r)) as Hu.
  pose proof (decisions_length by_angle 22 1 (fst p, snd p, r)) as Hl.
  revert Hrun Hu Hl. generalize (decisions by_angle 1 22 (fst p, snd p, r)).
  intros ds Hrun Hu Hl.
  assert (znorm2 p <= 2 ^ 61) as Hp by (unfold p; now rewrite znorm2_ipow).
  pose proof (srun_bounded ds p ltac:(lia) (Forall_unit_dir_tern _ Hu) Hp)
    as [Bx By].
  exists (fst (srun 1 ds p)), (snd (srun 1 ds p)), (cmul (real2 p) (cprod 1 ds)).
  split; [exact Hrun|]. split; [|split; [|split; assumption]].
  - rewrite <- surjective_pairing.
    apply srun_exact; [lia | now apply Forall_unit_dir_tern].
  - rewrite cnorm2_cmul, cnorm2_cprod_unit by exact Hu.
    rewrite Hl, cnorm2_real2. unfold p. rewrite znorm2_ipow. ring.
Qed.

Section RotateLength.

Local Open Scope R_scope.

(** The exact statement on the reals: a result within [1/2 + 30/2^s] of
    the exactly rotated vector. *)
Lemma rotate_back_real (x' X r : Z) (ex : R) (s : nat) :
  - 33 <= IZR x' - ex <= 33 ->
  (Z.abs (2 ^ 32 * X - PVG_FT_TRIG_SCALE * x') <= 2 ^ 32)%Z ->
  (Z.abs (2 ^ Z.of_nat s * r - X) <= 2 ^ (Z.of_nat s - 1))%Z ->
  (1 <= s)%nat ->
  - (/ 2 + 30 / 2 ^ s) <= IZR r - kappa * ex / 2 ^ s <= / 2 + 30 / 2 ^ s.
Proof.
  intros Hx HX Hr Hs.
  assert ((2 ^ Z.of_nat s = 2 * 2 ^ (Z.of_nat s - 1))%Z) as Hp.
  { replace (Z.of_nat s) with (Z.of_nat s - 1 + 1)%Z at 1 by lia.
    rewrite Z.pow_add_r by lia. lia. }
  assert ((- 2 ^ Z.of_nat s <= 2 * (2 ^ Z.of_nat s * r - X) <= 2 ^ Z.of_nat s)%Z)
    as [R1 R2] by lia.
  apply IZR_le in R1, R2. rewrite opp_IZR in R1.
  rewrite mult_IZR, minus_IZR, mult_IZR, pow2_IZR in R1, R2.
  assert ((- 2 ^ 32 <= 2 ^ 32 * X - PVG_FT_TRIG_SCALE * x' <= 2 ^ 32)%Z)
    as [X1 X2] by lia.
  apply IZR_le in X1, X2. rewrite opp_IZR in X1.
  rewrite minus_IZR, !mult_IZR in X1, X2.
  change (IZR (2 ^ 32)) with 4294967296 in X1, X2.
  pose proof (pow2_pos s) as Hpos.
  set (P := 2 ^ s) in *.
  assert (- (/ 2 + 30 / P) <= IZR r - kappa * ex / P <= / 2 + 30 / P
          <-> - (P / 2 + 30) <= P * IZR r - kappa * ex <= P / 2 + 30) as Hiff.
  { assert (IZR r - kappa * ex / P = (P * IZR r - kappa * ex) / P) as ->
      by (field; lra).
    assert (/ 2 + 30 / P = (P / 2 + 30) / P) as -> by (field; lra).
    unfold Rdiv at 1 3 5. pose proof (Rinv_0_lt_compat _ Hpos) as Hi.
    split; intros [A B]; split.
    - apply Rmult_le_reg_r with (/ P); [assumption|]. lra.
    - apply Rmult_le_reg_r with (/ P); [assumption|]. lra.
    - apply Rmult_le_compat_r with (r := / P) in A; [|lra]. lra.
    - apply Rmult_le_compat_r with (r := / P) in B; [|lra]. lra. }
  apply Hiff. unfold kappa, PVG_FT_TRIG_SCALE in *.
  change 0xDBD95B16%Z with 3688454934%Z in *. lra.
Qed.

Lemma kappa_pos : 0 < kappa.
Proof. unfold kappa, PVG_FT_TRIG_SCALE. lra. Qed.

(** A rotated, shrunk and rounded vector has the squared length of the
    argument up to three times the sum of the magnitudes of its
    components, plus two. *)
Lemma rotate_length_real (r1 r2 : R) (e : R * R) (a b P : R) :
  0 <= a -> 0 <= b -> a + b <= 33554432 -> 64 <= P ->
  cnorm2 e = kprod 1 22 * (P * P * (a * a + b * b)) ->
  - (/ 2 + 30 / P) <= r1 - kappa * fst e / P <= / 2 + 30 / P ->
  - (/ 2 + 30 / P) <= r2 - kappa * snd e / P <= / 2 + 30 / P ->
  - (3 * (a + b) + 2) <= r1 * r1 + r2 * r2 - (a * a + b * b) <= 3 * (a + b) + 2.
Proof.
  intros Ha Hb Hab HP HN H1 H2.
  pose proof gain_times_scale as Hg. cbn [pow] in Hg.
  set (g := kappa * kappa * kprod 1 22) in *.
  set (N := a * a + b * b) in *.
  assert (0 <= N) as HN0 by (unfold N; nra).
  assert (N <= (a + b) * (a + b)) as HNA by (unfold N; nra).
  assert ((a + b) * (a + b) <= 33554432 * (a + b)) as HA2
    by (apply Rmult_le_compat_r; lra).
  set (u := (kappa * fst e / P, kappa * snd e / P)).
  assert (cnorm2 u = g * N) as Hu.
  { unfold cnorm2, u. cbn [fst snd]. unfold cnorm2 in HN.
    replace (kappa * fst e / P * (kappa * fst e / P)
             + kappa * snd e / P * (kappa * snd e / P))
      with (kappa * kappa * (fst e * fst e + snd e * snd e) / (P * P))
      by (field; lra).
    rewrite HN. unfold g. field. lra. }
  assert (30 / P <= 30 / 64) as HdP.
  { unfold Rdiv. apply Rmult_le_compat_l; [lra|].
    apply Rinv_le_contravar; lra. }
  assert (within (31 / 32) (r1, r2) u) as Hw
    by (unfold within, u; cbn [fst snd]; lra).
  assert (g * N <= (1 + / 268435456) * N) as HgN
    by (apply Rmult_le_compat_r; lra).
  assert ((1 - / 268435456) * N <= g * N) as HgN'
    by (apply Rmult_le_compat_r; lra).
  set (S := 14143 / 10000 * (a + b)).
  assert (0 <= S) as HS by (unfold S; lra).
  assert (2 * cnorm2 u <= S * S) as HS2.
  { rewrite Hu. unfold S.
    replace (14143 / 10000 * (a + b) * (14143 / 10000 * (a + b)))
      with (200024449 / 100000000 * ((a + b) * (a + b))) by field.
    lra. }
  pose proof (near_circle r1 r2 u (31 / 32) S ltac:(lra) HS Hw HS2) as Hc.
  rewrite Hu in Hc. unfold S in Hc. lra.
Qed.

End RotateLength.

(** The pre-normalization of a vector whose larger magnitude is below
    2^30: an exact scaling by [2^k]. *)
Lemma prenorm_left (x y : Z) :
  ~ (x = 0 /\ y = 0) -> Z.max (Z.abs x) (Z.abs y) < 2 ^ 30 ->
  exists k : Z,
    0 <= k <= 29 /\
    ft_trig_prenorm (mkVec x y) = (mkVec (x * 2 ^ k) (y * 2 ^ k), k) /\
    2 ^ 29 <= Z.max (Z.abs x) (Z.abs y) * 2 ^ k < 2 ^ 30.
Proof.
  intros Hnz HM.
  assert (int32 x /\ int32 y) as [Hx Hy] by (unfold int32; pow_consts; lia).
  destruct (MSB_abs x y Hx Hy Hnz) as [Hs Hm].
  destruct (prenorm_shift x y Hx Hy Hnz) as [Hpre _]. cbv zeta in Hpre.
  set (s0 := PVG_FT_MSB (Z.lor (PVG_FT_ABS x) (PVG_FT_ABS y))) in *.
  set (M := Z.max (Z.abs x) (Z.abs y)) in *.
  assert (s0 <= 29) as Hs29.
  { destruct (Z_le_gt_dec s0 29) as [|Hgt]; [assumption|exfalso].
    assert (2 ^ 30 <= 2 ^ s0) by (apply Z.pow_le_mono_r; lia). lia. }
  exists (29 - s0). split; [lia|]. split; [apply Hpre; lia|].
  assert (2 ^ s0 * 2 ^ (29 - s0) = 2 ^ 29) as E1
    by (rewrite <- Z.pow_add_r by lia; f_equal; lia).
  assert (2 ^ (s0 + 1) * 2 ^ (29 - s0) = 2 ^ 30) as E2
    by (rewrite <- Z.pow_add_r by lia; f_equal; lia).
  pose proof (Z.pow_pos_nonneg 2 (29 - s0) ltac:(lia) ltac:(lia)) as Hp.
  rewrite <- E1, <- E2.
  split; [apply Z.mul_le_mono_nonneg_r | apply Z.mul_lt_mono_pos_r]; lia.
Qed.

Lemma square_lt (a b : Z) : Z.abs a < b -> a * a < b * b.
Proof.
  intros H. replace (a * a) with (Z.abs a * Z.abs a) by lia.
  apply Z.mul_lt_mono_nonneg; lia.
Qed.

Lemma prenorm_left_norm (x y k : Z) :
  0 <= k -> Z.max (Z.abs x) (Z.abs y) * 2 ^ k < 2 ^ 30 ->
  znorm2 (x * 2 ^ k, y * 2 ^ k) <= 2 ^ 61.
Proof.
  intros Hk Hb.
  pose proof (Z.pow_pos_nonneg 2 k ltac:(lia) Hk) as Hp.
  assert (Z.abs (x * 2 ^ k) < 2 ^ 30) as Bx.
  { rewrite Z.abs_mul, (Z.abs_eq (2 ^ k)) by lia.
    eapply Z.le_lt_trans; [|exact Hb].
    apply Z.mul_le_mono_nonneg_r; [lia | apply Z.le_max_l]. }
  assert (Z.abs (y * 2 ^ k) < 2 ^ 30) as By.
  { rewrite Z.abs_mul, (Z.abs_eq (2 ^ k)) by lia.
    eapply Z.le_lt_trans; [|exact Hb].
    apply Z.mul_le_mono_nonneg_r; [lia | apply Z.le_max_r]. }
  apply square_lt in Bx, By. unfold znorm2. cbn [fst snd].
  change (2 ^ 30 * 2 ^ 30) with 1152921504606846976 in *.
  change (2 ^ 61) with 2305843009213693952. lia.
Qed.

Lemma pow2_lower (k j M : Z) :
  0 <= k -> 0 <= j -> 0 <= M < 2 ^ (29 - j) -> 2 ^ 29 <= M * 2 ^ k -> j < k.
Proof.
  intros Hk Hj HM Hb.
  destruct (Z_lt_le_dec j k) as [|Hle]; [assumption|exfalso].
  assert (2 ^ k <= 2 ^ j) by (apply Z.pow_le_mono_r; lia).
  assert (j <= 29).
  { destruct (Z_le_gt_dec j 29) as [|Hgt]; [assumption|exfalso].
    rewrite Z.pow_neg_r in HM by lia. lia. }
  assert (2 ^ (29 - j) * 2 ^ j = 2 ^ 29) as E
    by (rewrite <- Z.pow_add_r by lia; f_equal; lia).
  pose proof (Z.pow_pos_nonneg 2 k ltac:(lia) Hk) as Hp.
  assert (M * 2 ^ k <= M * 2 ^ j) by (apply Z.mul_le_mono_nonneg_l; lia).
  assert (M * 2 ^ j < 2 ^ (29 - j) * 2 ^ j)
    by (apply Z.mul_lt_mono_pos_r; lia).
  lia.
Qed.

Lemma Vector_Rotate_length_nonzero (x y theta : Z) :
  ~ (x = 0 /\ y = 0) ->
  Z.max (Z.abs x) (Z.abs y) < 2 ^ 24 -> int32 theta ->
  exists v : PVG_FT_Vector,
    PVG_FT_Vector_Rotate (mkVec x y) theta = Some v /\
    Z.abs (vx v * vx v + vy v * vy v - (x * x + y * y))
    <= 3 * (Z.abs x + Z.abs y) + 2.
Proof.
  intros Hnz HM Ht.
  destruct (prenorm_left x y Hnz
              ltac:(change (2 ^ 24) with 16777216 in HM;
                    change (2 ^ 30) with 1073741824; lia))
    as (k & Hk & Hpre & Hb).
  pose proof (pow2_lower k 5 (Z.max (Z.abs x) (Z.abs y)) ltac:(lia) ltac:(lia)
                ltac:(change (2 ^ (29 - 5)) with (2 ^ 24); lia) (proj1 Hb)) as Hk5.
  pose proof (prenorm_left_norm x y k ltac:(lia) (proj2 Hb)) as Hn.
  assert (2 ^ 6 <= 2 ^ k) as Hp6 by (apply Z.pow_le_mono_r; lia).
  change (2 ^ 6) with 64 in Hp6. change (2 ^ 24) with 16777216 in HM.
  destruct (pseudo_rotate_norm_bounded (mkVec (x * 2 ^ k) (y * 2 ^ k)) theta Hn Ht)
    as (x' & y' & e & Hrot & [Hwx Hwy] & HN & Bx' & By').
  rewrite (Vector_Rotate_steps (mkVec x y) theta _ _ k Hnz Hpre ltac:(lia) Hrot).
  eexists. split; [reflexivity|]. cbn [vx vy].
  destruct (downscale_near x' Bx') as [Dx DBx].
  destruct (downscale_near y' By') as [Dy DBy].
  pose proof (round_back_near _ k ltac:(lia) DBx) as Rx.
  pose proof (round_back_near _ k ltac:(lia) DBy) as Ry.
  set (r1 := round_back (ft_trig_downscale x') k) in *.
  set (r2 := round_back (ft_trig_downscale y') k) in *.
  unfold real2 in Hwx, Hwy. cbn [fst snd] in Hwx, Hwy.
  assert (Z.of_nat (Z.to_nat k) = k) as Ek by (clear - Hk; lia).
  assert (1 <= Z.to_nat k)%nat as Hk1 by (clear - Hk5; lia).
  rewrite <- Ek in Rx, Ry.
  pose proof (rotate_back_real x' _ r1 (fst e) (Z.to_nat k) Hwx Dx Rx Hk1) as Q1.
  pose proof (rotate_back_real y' _ r2 (snd e) (Z.to_nat k) Hwy Dy Ry Hk1) as Q2.
  assert (IZR (znorm2 (x * 2 ^ k, y * 2 ^ k))
          = (2 ^ Z.to_nat k * 2 ^ Z.to_nat k
             * (IZR (Z.abs x) * IZR (Z.abs x) + IZR (Z.abs y) * IZR (Z.abs y)))%R)
    as EN.
  { unfold znorm2. cbn [fst snd]. rewrite <- pow2_IZR, Ek.
    rewrite <- !mult_IZR, <- plus_IZR, <- mult_IZR. f_equal.
    rewrite !Z.abs_square. ring. }
  cbn [vx vy] in HN. rewrite EN in HN.
  assert (64 <= 2 ^ Z.to_nat k)%R as HP64
    by (rewrite <- pow2_IZR, Ek; apply IZR_le; exact Hp6).
  assert (0 <= IZR (Z.abs x))%R as Ha0 by (apply IZR_le, Z.abs_nonneg).
  assert (0 <= IZR (Z.abs y))%R as Hb0 by (apply IZR_le, Z.abs_nonneg).
  assert (IZR (Z.abs x) + IZR (Z.abs y) <= 33554432)%R as Hab
    by (rewrite <- plus_IZR; apply IZR_le; clear - HM; lia).
  pose proof (rotate_length_real (IZR r1) (IZR r2) e (IZR (Z.abs x)) (IZR (Z.abs y))
                (2 ^ Z.to_nat k) Ha0 Hb0 Hab HP64 HN Q1 Q2) as [L1 L2].
  assert (- (3 * (Z.abs x + Z.abs y) + 2)
          <= r1 * r1 + r2 * r2 - (Z.abs x * Z.abs x + Z.abs y * Z.abs y)
          <= 3 * (Z.abs x + Z.abs y) + 2) as Hz
    by (clear - L1 L2; split; apply le_IZR; push_IZR; lra).
  rewrite !Z.abs_square in Hz. clear - Hz. lia.
Qed.

(** X15: [PVG_FT_Vector_Rotate] keeps the length: for a vector with
    components below 2^24 in magnitude and any 32-bit angle, the squared
    length of the result differs from that of the argument by at most
    three times the sum of the magnitudes of the components, plus two
    (so the length itself changes by about two units at most). *)
Theorem Vector_Rotate_length (vec : PVG_FT_Vector) (theta : Z) :
  Z.max (Z.abs (vx vec)) (Z.abs (vy vec)) < 2 ^ 24 -> int32 theta ->
  exists v : PVG_FT_Vector,
    PVG_FT_Vector_Rotate vec theta = Some v /\
    Z.abs (vx v * vx v + vy v * vy v - (vx vec * vx vec + vy vec * vy vec))
    <= 3 * (Z.abs (vx vec) + Z.abs (vy vec)) + 2.
Proof.
  intros HM Ht. destruct vec as [x y]. cbn [vx vy] in *.
  destruct (Z.eq_dec x 0) as [Ex|Ex]; [destruct (Z.eq_dec y 0) as [Ey|Ey]|].
  - subst. exists (mkVec 0 0). split; [reflexivity|]. cbn. lia.
  - apply Vector_Rotate_length_nonzero; [lia | assumption ..].
  - apply Vector_Rotate_length_nonzero; [lia | assumption ..].
Qed.

Lemma Vector_Rotate_length_witness :
  exists v : PVG_FT_Vector,
    PVG_FT_Vector_Rotate (mkVec 30000 (-40000)) 1966080 = Some v /\
    Z.abs (vx v * vx v + vy v * vy v
           - (vx (mkVec 30000 (-40000)) * vx (mkVec 30000 (-40000))
              + vy (mkVec 30000 (-40000)) * vy (mkVec 30000 (-40000))))
    <= 3 * (Z.abs (vx (mkVec 30000 (-40000))) + Z.abs (vy (mkVec 30000 (-40000)))) + 2.
Proof.
  apply (Vector_Rotate_length (mkVec 30000 (-40000)) 1966080).
  - vm_compute. reflexivity.
  - vm_compute. split; [discriminate | reflexivity].
Defined.

(** ** The polarization loop converges *)

(** An invariant of the micro-rotations: [I j x y] is a property of the
    vector before micro-rotation number [j]; it is carried to the end of
    the loop if every micro-rotation that does not wrap carries it one
    step further. *)
Lemma micro_rotations_invariant (dec : Z * Z * Z -> bool)
  (I : nat -> Z -> Z -> Prop) :
  (forall (j : nat) (x y theta : Z),
     (1 <= j <= 22)%nat -> Z.abs x <= val_max -> Z.abs y <= val_max ->
     I j x y ->
     I (S j) (fst (sstep (dir_of (dec (x, y, theta))) j (x, y)))
             (snd (sstep (dir_of (dec (x, y, theta))) j (x, y)))) ->
  forall (n j : nat) (x y theta : Z) (pre : list Z) (p0 : Z * Z),
    (1 <= j)%nat -> (j + n = 23)%nat -> length pre = (j - 1)%nat ->
    Forall unit_dir pre ->
    fst p0 * fst p0 + snd p0 * snd p0 <= 2 ^ 61 ->
    (x, y) = srun 1 pre p0 ->
    Z.abs theta + rest j <= 2 ^ 30 ->
    I j x y ->
    I 23%nat (fst (srun 1 (pre ++ decisions dec j n (x, y, theta)) p0))
             (snd (srun 1 (pre ++ decisions dec j n (x, y, theta)) p0)).
Proof.
  intros Hstep.
  induction n as [|n IH]; intros j x y theta pre p0 Hj Hn Hl Hpre Hp Hxy Hth HI.
  - cbn [decisions]. rewrite app_nil_r, <- Hxy. cbn [fst snd].
    replace 23%nat with j by lia. exact HI.
  - cbn [decisions].
    set (c := dir_of (dec (x, y, theta))).
    assert (unit_dir c) as Hc by (unfold c, unit_dir, dir_of; destruct (dec _); lia).
    pose proof (srun_bounded pre p0 ltac:(lia)
                  (Forall_unit_dir_tern _ Hpre) Hp) as [Bx By].
    rewrite <- Hxy in Bx, By. cbn [fst snd] in Bx, By.
    assert (Forall unit_dir (pre ++ [c])) as Hpre'
      by (apply Forall_app; split; [assumption | now constructor]).
    pose proof (srun_bounded (pre ++ [c]) p0
                  ltac:(rewrite length_app; cbn [length]; lia)
                  (Forall_unit_dir_tern _ Hpre') Hp) as [Bx' By'].
    rewrite srun_app in Bx', By'. cbn [srun] in Bx', By'.
    rewrite <- Hxy in Bx', By'.
    replace (1 + length pre)%nat with j in Bx', By' by lia.
    rewrite micro_rotation_dec. fold c.
    rewrite (xy_step_sstep (dec (x, y, theta)) j x y ltac:(lia) Bx By Bx' By').
    fold c.
    pose proof (rest_step j Hj) as Hs.
    pose proof (rest_nonneg (S j)) as Hr.
    pose proof (arctan_entry_bound (Z.of_nat j)) as Ht.
    change (2 ^ 30) with 1073741824 in *.
    rewrite wrap32_id by (unfold_ints; destruct Hc as [-> | ->]; lia).
    pose proof (Hstep j x y theta ltac:(lia) Bx By HI) as HI'. fold c in HI'.
    destruct (sstep c j (x, y)) as [x' y'] eqn:Es. cbn [fst snd] in HI'.
    replace (pre ++ c :: decisions dec (S j) n (x', y', theta + c * arctan_entry (Z.of_nat j)))
      with ((pre ++ [c]) ++ decisions dec (S j) n (x', y', theta + c * arctan_entry (Z.of_nat j)))
      by (rewrite <- app_assoc; reflexivity).
    apply IH; try assumption; try lia.
    + rewrite length_app. cbn [length]. lia.
    + rewrite srun_app. cbn [srun]. rewrite <- Hxy.
      replace (1 + length pre)%nat with j by lia. now rewrite Es.
    + destruct Hc as [-> | ->]; lia.
Qed.

(** What the polarization loop keeps: the abscissa does not fall below
    2^29, and before micro-rotation number [j] the ordinate is at most
    the abscissa shifted by [j - 1] places, plus [(j - 1) / 2]. *)
Definition polar_inv (j : nat) (x y : Z) : Prop :=
  2 ^ 29 <= x /\
  2 * (2 ^ (Z.of_nat j - 1) * Z.abs y) <= 2 * x + (Z.of_nat j - 1) * 2 ^ (Z.of_nat j - 1).

Lemma polar_inv_step (j : nat) (x y theta : Z) :
  (1 <= j <= 22)%nat -> Z.abs x <= val_max -> Z.abs y <= val_max ->
  polar_inv j x y ->
  polar_inv (S j)
    (fst (sstep (dir_of (by_ordinate (x, y, theta))) j (x, y)))
    (snd (sstep (dir_of (by_ordinate (x, y, theta))) j (x, y))).
Proof.
  intros Hj Bx By [Hx HI]. unfold polar_inv, sstep, by_ordinate, dir_of, rs.
  cbn [fst snd].
  replace (Z.of_nat (S j) - 1) with (Z.of_nat j) by lia.
  pose proof (round_shift x (Z.of_nat j) ltac:(lia)) as Rx.
  pose proof (round_shift y (Z.of_nat j) ltac:(lia)) as Ry.
  assert (2 ^ Z.of_nat j = 2 * 2 ^ (Z.of_nat j - 1)) as Hp.
  { replace (Z.of_nat j) with (Z.of_nat j - 1 + 1) at 1 by lia.
    rewrite Z.pow_add_r by lia. lia. }
  pose proof (Z.pow_pos_nonneg 2 (Z.of_nat j - 1) ltac:(lia) ltac:(lia)) as HQ.
  set (Q := 2 ^ (Z.of_nat j - 1)) in *. set (P := 2 ^ Z.of_nat j) in *.
  set (v1 := (y + Q) / P) in *. set (v2 := (x + Q) / P) in *.
  change (2 ^ 29) with 536870912 in *.
  assert (Z.of_nat j >= 1) as Hj1 by lia.
  set (k := Z.of_nat j) in *.
  assert (k * P = 2 * (k * Q)) as EkP by (rewrite Hp; ring).
  assert (0 <= Q * Z.abs y) as HQy by (apply Z.mul_nonneg_nonneg; lia).
  assert (0 <= (k - 1) * Q) as HkQ by (apply Z.mul_nonneg_nonneg; lia).
  destruct (Z.gtb_spec y 0) as [Hpos|Hneg].
  - assert (0 <= v1) as Hv1 by (apply Z.div_pos; lia).
    replace (x + 1 * v1) with (x + v1) by lia.
    replace (y - 1 * v2) with (y - v2) by lia.
    split; [lia|].
    assert (P * Z.abs (y - v2) = Z.abs (P * y - P * v2)) as ->
      by (rewrite <- Z.mul_sub_distr_l, Z.abs_mul, (Z.abs_eq P); lia).
    assert (P * y = 2 * (Q * Z.abs y)) as E
      by (rewrite (Z.abs_eq y) by lia; rewrite Hp; ring).
    assert (Q <= Q * Z.abs y) as Hy1 by (rewrite (Z.abs_eq y) by lia; nia).
    lia.
  - assert (v1 <= 0) as Hv1.
    { assert (v1 <= Q / P) by (apply Z.div_le_mono; lia).
      rewrite (Z.div_small Q P) in * by lia. lia. }
    replace (x + -1 * v1) with (x - v1) by lia.
    replace (y - -1 * v2) with (y + v2) by lia.
    split; [lia|].
    assert (P * Z.abs (y + v2) = Z.abs (P * y + P * v2)) as ->
      by (rewrite <- Z.mul_add_distr_l, Z.abs_mul, (Z.abs_eq P); lia).
    assert (P * y = - (2 * (Q * Z.abs y))) as E
      by (rewrite (Z.abs_neq y) by lia; rewrite Hp; ring).
    lia.
Qed.

Ltac quarter_case :=
  unfold zmul, ipow;
  match goal with
  | |- context [?q mod 4] =>
      let v := eval vm_compute in (q mod 4) in change (q mod 4) with v
  end;
  cbv iota; cbn [fst snd]; f_equal; lia.

Lemma polarize_octant_norm (x y : Z) :
  2 ^ 29 <= Z.max (Z.abs x) (Z.abs y) <= 2 ^ 30 ->
  let '(x', y', theta) := polarize_octant x y in
  x' * x' + y' * y' = x * x + y * y /\
  exists q : Z, - 2 <= q <= 2 /\ theta = q * PVG_FT_ANGLE_PI2 /\
                (x, y) = zmul (ipow q) (x', y').
Proof.
  intros Hm. unfold polarize_octant.
  change (2 ^ 29) with 536870912 in *. change (2 ^ 30) with 1073741824 in *.
  assert (wrap32 (- x) = - x) as Ex by (apply wrap32_id; unfold_ints; lia).
  assert (wrap32 (- y) = - y) as Ey by (apply wrap32_id; unfold_ints; lia).
  rewrite Ex, Ey. angle_consts.
  destruct (Z.gtb_spec y x) as [C1|C1].
  - destruct (Z.gtb_spec y (- x)) as [C2|C2].
    + split; [ring|]. exists 1. repeat split; try lia.
      quarter_case.
    + destruct (Z.gtb_spec y 0) as [C3|C3].
      * split; [ring|]. exists 2. repeat split; try lia.
        quarter_case.
      * split; [ring|]. exists (-2). repeat split; try lia.
        quarter_case.
  - destruct (Z.ltb_spec y (- x)) as [C2|C2].
    + split; [ring|]. exists (-1). repeat split; try lia.
      quarter_case.
    + split; [ring|]. exists 0. repeat split; try lia.
      quarter_case.
Qed.

(** The polarization engine on a pre-normalized vector: a quarter turn
    [q], then 22 micro-rotations that do not wrap, in directions [ds];
    the abscissa ends above 2^29 and the ordinate ends small. *)
Lemma pseudo_polarize_run (x y : Z) :
  2 ^ 29 <= Z.max (Z.abs x) (Z.abs y) < 2 ^ 30 ->
  exists (x' y' q : Z) (ds : list Z),
    - 2 <= q <= 2 /\ (x, y) = zmul (ipow q) (x', y') /\
    2 ^ 29 <= x' /\ - x' <= y' <= x' /\
    Forall unit_dir ds /\ length ds = 22%nat /\
    ft_trig_pseudo_polarize (mkVec x y)
    = mkVec (fst (srun 1 ds (x', y')))
            (polarize_round (q * PVG_FT_ANGLE_PI2 + wsum 1 ds)) /\
    2 ^ 29 <= fst (srun 1 ds (x', y')) <= val_max /\
    Z.abs (snd (srun 1 ds (x', y'))) <= 440.
Proof.
  intros Hm.
  pose proof (polarize_octant_spec x y ltac:(lia)) as Hspec.
  pose proof (polarize_octant_norm x y ltac:(lia)) as Hnorm.
  rewrite pseudo_polarize_micro. cbn [vx vy].
  destruct (polarize_octant x y) as [[x' y'] theta].
  destruct Hspec as (Hx' & Hy' & _).
  destruct Hnorm as (Hn & q & Hq & -> & Hturn).
  assert (x' * x' + y' * y' <= 2 ^ 61) as Hp.
  { rewrite Hn. change (2 ^ 30) with 1073741824 in Hm.
    assert (Z.abs x < 1073741824 /\ Z.abs y < 1073741824) as [Bx By] by lia.
    apply square_lt in Bx, By.
    change (2 ^ 61) with 2305843009213693952. lia. }
  assert (Z.abs (q * PVG_FT_ANGLE_PI2) <= 2 ^ 29) as Hth
    by (angle_consts; change (2 ^ 29) with 536870912; lia).
  pose proof (micro_rotations_exact by_ordinate x' y' _ Hp Hth) as Hrun.
  cbv zeta in Hrun.
  pose proof (micro_rotations_invariant by_ordinate polar_inv polar_inv_step
                22 1 x' y' (q * PVG_FT_ANGLE_PI2) [] (x', y')
                ltac:(lia) ltac:(lia) ltac:(reflexivity) ltac:(constructor)
                Hp ltac:(reflexivity)
                ltac:(rewrite rest_1; change (2 ^ 30) with 1073741824;
                      change (2 ^ 29) with 536870912 in Hth; lia)) as Hinv.
  cbn [app] in Hinv.
  pose proof (decisions_unit by_ordinate 22 1 (x', y', q * PVG_FT_ANGLE_PI2)) as Hu.
  pose proof (decisions_length by_ordinate 22 1 (x', y', q * PVG_FT_ANGLE_PI2)) as Hl.
  revert Hrun Hinv Hu Hl.
  generalize (decisions by_ordinate 1 22 (x', y', q * PVG_FT_ANGLE_PI2)).
  intros ds Hrun Hinv Hu Hl.
  pose proof (srun_bounded ds (x', y') ltac:(lia) (Forall_unit_dir_tern _ Hu) Hp)
    as [Bx By].
  specialize (Hinv ltac:(unfold polar_inv; change (Z.of_nat 1 - 1) with 0;
                         change (2 ^ 0) with 1; lia)).
  destruct Hinv as [Hx29 Hconv].
  change (Z.of_nat 23 - 1) with 22 in Hconv. change (2 ^ 22) with 4194304 in Hconv.
  exists x', y', q, ds.
  split; [exact Hq|]. split; [exact Hturn|]. split; [lia|]. split; [lia|].
  split; [exact Hu|]. split; [exact Hl|]. split.
  - rewrite Hrun. unfold abscissa, angle_of. cbn [fst snd]. reflexivity.
  - unfold val_max in *. split; [lia|]. lia.
Qed.

(** ** The accuracy of [PVG_FT_Vector_Length] *)

(** The rounding shift that ends [PVG_FT_Vector_Length]. *)
Definition round_len (x shift : Z) : Z :=
  Z.shiftr (wrap32 (x + wrap32 (Z.shiftl 1 (shift - 1)))) shift.

Lemma round_len_div (x s : Z) :
  1 <= s <= 29 -> Z.abs x <= 1600000000 ->
  round_len x s = (x + 2 ^ (s - 1)) / 2 ^ s.
Proof.
  intros Hs Hx. unfold round_len.
  rewrite Z.shiftl_mul_pow2 by lia. rewrite Z.mul_1_l.
  assert (1 <= 2 ^ (s - 1) <= 2 ^ 28) as Hh.
  { split.
    - pose proof (Z.pow_pos_nonneg 2 (s - 1) ltac:(lia) ltac:(lia)). lia.
    - apply Z.pow_le_mono_r; lia. }
  change (2 ^ 28) with 268435456 in Hh.
  rewrite (wrap32_id (2 ^ (s - 1))) by (unfold_ints; lia).
  rewrite wrap32_id by (unfold_ints; lia).
  now rewrite Z.shiftr_div_pow2 by lia.
Qed.

Lemma round_len_near (x s : Z) :
  1 <= s <= 29 -> Z.abs x <= 1600000000 ->
  Z.abs (2 ^ s * round_len x s - x) <= 2 ^ (s - 1).
Proof.
  intros Hs Hx. rewrite round_len_div by assumption.
  apply round_shift. lia.
Qed.

(** The general case of [PVG_FT_Vector_Length], step by step. *)
Lemma Vector_Length_steps (x y k : Z) :
  x <> 0 -> y <> 0 -> 0 < k ->
  ft_trig_prenorm (mkVec x y) = (mkVec (x * 2 ^ k) (y * 2 ^ k), k) ->
  PVG_FT_Vector_Length (mkVec x y)
  = round_len (ft_trig_downscale
                 (vx (ft_trig_pseudo_polarize (mkVec (x * 2 ^ k) (y * 2 ^ k))))) k.
Proof.
  intros Hx Hy Hk Hpre. unfold PVG_FT_Vector_Length. cbn [vx vy].
  replace (x =? 0) with false by (symmetry; now apply Z.eqb_neq).
  replace (y =? 0) with false by (symmetry; now apply Z.eqb_neq).
  rewrite Hpre.
  replace (k >? 0) with true by (symmetry; apply Z.gtb_lt; lia).
  reflexivity.
Qed.

Lemma max_scaled (x y k : Z) :
  0 <= k ->
  Z.max (Z.abs (x * 2 ^ k)) (Z.abs (y * 2 ^ k)) = Z.max (Z.abs x) (Z.abs y) * 2 ^ k.
Proof.
  intros Hk. pose proof (Z.pow_pos_nonneg 2 k ltac:(lia) Hk) as Hp.
  rewrite !Z.abs_mul, (Z.abs_eq (2 ^ k)) by lia.
  now rewrite Z.mul_max_distr_nonneg_r by lia.
Qed.

Section LengthReal.

Local Open Scope R_scope.

Lemma sq_mono (a b : R) : 0 <= a <= b -> a * a <= b * b.
Proof. intros [H0 H1]. apply Rmult_le_compat; lra. Qed.

(** On the reals, at the scale [P] of the pre-normalization: [W] is the
    length found, [Nn] the squared length of the argument, [e] the exact
    result of the micro-rotations. *)
Lemma length_real (Nn P W xf yf : R) (e : R * R) :
  0 <= Nn <= 2305843009213693952 -> 128 <= P <= 536870912 ->
  cnorm2 e = kprod 1 22 * Nn ->
  - 33 <= xf - fst e <= 33 -> - 33 <= yf - snd e <= 33 ->
  536870912 <= xf -> - 440 <= yf <= 440 ->
  - (P / 2 + 1) <= W - kappa * xf <= P / 2 + 1 ->
  0 <= W /\ (P <= W -> (W - P) * (W - P) <= Nn) /\ Nn <= (W + P) * (W + P).
Proof.
  intros HN HP He Hx Hy Hxf Hyf HW.
  pose proof gain_times_scale as Hg. cbn [pow] in Hg.
  pose proof kappa_pos as Hk.
  assert (0.858 <= kappa <= 0.859) as Hkv
    by (unfold kappa, PVG_FT_TRIG_SCALE; lra).
  destruct e as [ex ey]. unfold cnorm2 in He. cbn [fst snd] in *.
  set (g := kappa * kappa * kprod 1 22) in *.
  set (U := kappa * ex).
  assert (U * U = g * Nn - kappa * kappa * (ey * ey)) as HU.
  { unfold U, g.
    replace (kappa * kappa * kprod 1 22 * Nn)
      with (kappa * kappa * (kprod 1 22 * Nn)) by ring.
    rewrite <- He. ring. }
  assert (0 <= ey * ey <= 223729) as Hey.
  { pose proof (sq_le ey 473 ltac:(lra)). lra. }
  assert (0 <= kappa * kappa <= 0.74) as Hk2 by nra.
  assert (0 <= kappa * kappa * (ey * ey) <= 165560) as Hke.
  { split; [apply Rmult_le_pos; lra|].
    apply Rle_trans with (0.74 * 223729); [|lra].
    apply Rmult_le_compat; lra. }
  assert (g * Nn <= Nn + 8589934592) as HgN.
  { assert (g * Nn <= (1 + / 268435456) * Nn)
      by (apply Rmult_le_compat_r; lra). lra. }
  assert (Nn - 8589934592 <= g * Nn) as HgN'.
  { assert ((1 - / 268435456) * Nn <= g * Nn)
      by (apply Rmult_le_compat_r; lra). lra. }
  assert (460000000 <= U) as HU0.
  { unfold U. apply Rle_trans with (0.858 * 536870879); [lra|].
    apply Rmult_le_compat; lra. }
  assert (- (P / 2 + 30) <= W - U <= P / 2 + 30) as HWU.
  { unfold U.
    assert (- (33 * kappa) <= kappa * xf - kappa * ex <= 33 * kappa) by nra.
    lra. }
  assert (P <= 1.17 * U) as HPU by lra.
  assert (8589934592 + 165560 <= 0.4 * (U * P)) as Hmain.
  { assert (460000000 * 128 <= U * P) by (apply Rmult_le_compat; lra). lra. }
  assert (0 <= U * P) as HUP by (apply Rmult_le_pos; lra).
  assert (P * P <= 1.17 * (U * P)) as HPP.
  { replace (1.17 * (U * P)) with ((1.17 * U) * P) by ring.
    apply Rmult_le_compat_r; lra. }
  split; [lra|]. split.
  - intros HPW.
    assert ((W - P) * (W - P) <= (U - 17 / 64 * P) * (U - 17 / 64 * P)) as Hs
      by (apply sq_mono; lra).
    replace ((U - 17 / 64 * P) * (U - 17 / 64 * P))
      with (U * U - 17 / 32 * (U * P) + 289 / 4096 * (P * P)) in Hs by field.
    lra.
  - assert ((U + 17 / 64 * P) * (U + 17 / 64 * P) <= (W + P) * (W + P)) as Hs
      by (apply sq_mono; lra).
    replace ((U + 17 / 64 * P) * (U + 17 / 64 * P))
      with (U * U + 17 / 32 * (U * P) + 289 / 4096 * (P * P)) in Hs by field.
    assert (0 <= P * P) by nra.
    lra.
Qed.

End LengthReal.

(** The abscissa found by the polarization engine, shrunk: what is known
    about it for a vector scaled by [2^k] into the working range. *)
Lemma polarize_abscissa (x y k : Z) :
  0 <= k <= 29 ->
  2 ^ 29 <= Z.max (Z.abs x) (Z.abs y) * 2 ^ k < 2 ^ 30 ->
  exists (xf yf : Z) (e : R * R) (theta : Z),
    ft_trig_pseudo_polarize (mkVec (x * 2 ^ k) (y * 2 ^ k)) = mkVec xf theta /\
    within 33 (real2 (xf, yf)) e /\
    cnorm2 e = (kprod 1 22 * IZR (2 ^ k * 2 ^ k * (x * x + y * y)))%R /\
    2 ^ 29 <= xf <= val_max /\ Z.abs yf <= 440.
Proof.
  intros Hk Hb.
  rewrite <- max_scaled in Hb by lia.
  destruct (pseudo_polarize_run _ _ Hb)
    as (x' & y' & q & ds & Hq & Hturn & Hx' & Hy' & Hu & Hl & Hpol & Hxf & Hyf).
  exists (fst (srun 1 ds (x', y'))), (snd (srun 1 ds (x', y'))),
         (cmul (real2 (x', y')) (cprod 1 ds)),
         (polarize_round (q * PVG_FT_ANGLE_PI2 + wsum 1 ds)).
  split; [exact Hpol|]. split; [|split; [|split; assumption]].
  - rewrite <- surjective_pairing.
    apply srun_exact; [lia | now apply Forall_unit_dir_tern].
  - rewrite cnorm2_cmul, cnorm2_cprod_unit by exact Hu.
    rewrite Hl, cnorm2_real2.
    rewrite <- (znorm2_ipow q (x', y')), <- Hturn.
    rewrite Rmult_comm. f_equal. f_equal. unfold znorm2. cbn [fst snd]. ring.
Qed.

Lemma Vector_Length_general (x y : Z) :
  x <> 0 -> y <> 0 -> Z.max (Z.abs x) (Z.abs y) < 2 ^ 23 ->
  0 <= PVG_FT_Vector_Length (mkVec x y) /\
  (PVG_FT_Vector_Length (mkVec x y) - 1) * (PVG_FT_Vector_Length (mkVec x y) - 1)
  <= x * x + y * y
  <= (PVG_FT_Vector_Length (mkVec x y) + 1) * (PVG_FT_Vector_Length (mkVec x y) + 1).
Proof.
  intros Hx0 Hy0 HM.
  destruct (prenorm_left x y ltac:(lia)
              ltac:(change (2 ^ 23) with 8388608 in HM;
                    change (2 ^ 30) with 1073741824; lia))
    as (k & Hk & Hpre & Hb).
  pose proof (pow2_lower k 6 (Z.max (Z.abs x) (Z.abs y)) ltac:(lia) ltac:(lia)
                ltac:(change (2 ^ (29 - 6)) with (2 ^ 23); lia) (proj1 Hb)) as Hk6.
  destruct (polarize_abscissa x y k Hk Hb)
    as (xf & yf & e & theta & Hpol & [Hwx Hwy] & HN & Hxf & Hyf).
  rewrite (Vector_Length_steps x y k Hx0 Hy0 ltac:(lia) Hpre), Hpol. cbn [vx].
  destruct (downscale_near xf ltac:(lia)) as [Dx DBx].
  pose proof (round_len_near _ k ltac:(lia) DBx) as RL.
  set (L := round_len (ft_trig_downscale xf) k) in *.
  assert (2 ^ 7 <= 2 ^ k <= 2 ^ 29) as HP
    by (split; apply Z.pow_le_mono_r; lia).
  change (2 ^ 7) with 128 in HP. change (2 ^ 29) with 536870912 in *.
  assert (2 ^ k = 2 * 2 ^ (k - 1)) as Hp2.
  { replace k with (k - 1 + 1) at 1 by lia. rewrite Z.pow_add_r by lia. lia. }
  set (P := 2 ^ k) in *. set (N := x * x + y * y) in *.
  assert (0 < N) as HN0 by (unfold N; nia).
  assert (0 <= P * P * N <= 2305843009213693952) as HNn.
  { split; [nia|].
    pose proof (prenorm_left_norm x y k ltac:(lia) (proj2 Hb)) as Hn.
    unfold znorm2 in Hn. cbn [fst snd] in Hn. fold P in Hn.
    change (2 ^ 61) with 2305843009213693952 in Hn.
    replace (P * P * N) with (x * P * (x * P) + y * P * (y * P))
      by (unfold N; ring). exact Hn. }
  assert (- (IZR P / 2 + 1) <= IZR (P * L) - kappa * IZR xf <= IZR P / 2 + 1)%R
    as HW.
  { assert (- P <= 2 * (P * L - ft_trig_downscale xf) <= P) as [R1 R2]
      by (clear - RL Hp2; lia).
    assert (- 2 ^ 32 <= 2 ^ 32 * ft_trig_downscale xf - PVG_FT_TRIG_SCALE * xf
            <= 2 ^ 32) as [X1 X2] by (clear - Dx; lia).
    apply IZR_le in R1, R2, X1, X2. rewrite opp_IZR in R1, X1.
    rewrite mult_IZR, minus_IZR in R1, R2.
    rewrite minus_IZR, !mult_IZR in X1, X2.
    change (IZR (2 ^ 32)) with 4294967296%R in X1, X2.
    unfold kappa, PVG_FT_TRIG_SCALE in *.
    change 0xDBD95B16 with 3688454934 in *.
    clear - R1 R2 X1 X2. lra. }
  unfold real2 in Hwx, Hwy. cbn [fst snd] in Hwx, Hwy.
  pose proof (length_real (IZR (P * P * N)) (IZR P) (IZR (P * L)) (IZR xf) (IZR yf) e
                ltac:(split; apply IZR_le; apply HNn)
                ltac:(split; apply IZR_le; apply HP)
                HN Hwx Hwy
                ltac:(apply IZR_le; apply Hxf)
                ltac:(clear - Hyf; split; apply IZR_le; lia)
                HW) as (W0 & Wlo & Whi).
  apply le_IZR in W0.
  assert (0 <= L) as HL0 by (clear - W0 HP; nia).
  split; [exact HL0|]. split.
  - destruct (Z.eq_dec L 0) as [->|HLne]; [clear - HN0; lia|].
    assert (IZR P <= IZR (P * L))%R as HPW by (apply IZR_le; clear - HL0 HLne HP; nia).
    specialize (Wlo HPW).
    assert ((P * L - P) * (P * L - P) <= P * P * N) as Hz
      by (apply le_IZR; push_IZR; rewrite !mult_IZR in Wlo; exact Wlo).
    replace ((P * L - P) * (P * L - P)) with (P * P * ((L - 1) * (L - 1))) in Hz by ring.
    apply Z.mul_le_mono_pos_l in Hz; [exact Hz | clear - HP; nia].
  - assert (P * P * N <= (P * L + P) * (P * L + P)) as Hz
      by (apply le_IZR; push_IZR; rewrite !mult_IZR in Whi; exact Whi).
    replace ((P * L + P) * (P * L + P)) with (P * P * ((L + 1) * (L + 1))) in Hz by ring.
    apply Z.mul_le_mono_pos_l in Hz; [exact Hz | clear - HP; nia].
Qed.

Lemma axis_length (a : Z) :
  a <> 0 ->
  (Z.abs a - 1) * (Z.abs a - 1) <= a * a <= (Z.abs a + 1) * (Z.abs a + 1).
Proof.
  intros Ha. rewrite <- (Z.abs_square a).
  assert (1 <= Z.abs a) as Hb by lia.
  set (b := Z.abs a) in *. nia.
Qed.

(** X16: [PVG_FT_Vector_Length] is the Euclidean length within one unit:
    for a non-zero vector with components below 2^23 in magnitude the
    result [l] is not negative and (l - 1)^2 <= x^2 + y^2 <= (l + 1)^2;
    on the axes it is the magnitude of the other component. *)
Theorem Vector_Length_accuracy (vec : PVG_FT_Vector) :
  ~ (vx vec = 0 /\ vy vec = 0) ->
  Z.max (Z.abs (vx vec)) (Z.abs (vy vec)) < 2 ^ 23 ->
  0 <= PVG_FT_Vector_Length vec /\
  (PVG_FT_Vector_Length vec - 1) * (PVG_FT_Vector_Length vec - 1)
  <= vx vec * vx vec + vy vec * vy vec
  <= (PVG_FT_Vector_Length vec + 1) * (PVG_FT_Vector_Length vec + 1) /\
  (vx vec = 0 -> PVG_FT_Vector_Length vec = Z.abs (vy vec)) /\
  (vy vec = 0 -> PVG_FT_Vector_Length vec = Z.abs (vx vec)).
Proof.
  intros Hnz HM. destruct vec as [x y]. cbn [vx vy] in *.
  change (2 ^ 23) with 8388608 in HM.
  assert (PVG_FT_ABS x = Z.abs x /\ PVG_FT_ABS y = Z.abs y) as [Ax Ay]
    by (split; apply ABS_small; unfold INT32_MIN; pow_consts; lia).
  assert (x = 0 -> PVG_FT_Vector_Length (mkVec x y) = Z.abs y) as H1.
  { intros ->. unfold PVG_FT_Vector_Length. cbn [vx vy]. exact Ay. }
  assert (y = 0 -> PVG_FT_Vector_Length (mkVec x y) = Z.abs x) as H2.
  { intros ->. unfold PVG_FT_Vector_Length. cbn [vx vy].
    destruct (x =? 0) eqn:E; [|exact Ax].
    apply Z.eqb_eq in E. subst. reflexivity. }
  destruct (Z.eq_dec x 0) as [Ex|Ex]; [|destruct (Z.eq_dec y 0) as [Ey|Ey]].
  - rewrite (H1 Ex). subst x. pose proof (axis_length y ltac:(lia)).
    repeat split; try lia; intros; lia.
  - rewrite (H2 Ey). subst y. pose proof (axis_length x ltac:(lia)).
    repeat split; try lia; intros; lia.
  - destruct (Vector_Length_general x y Ex Ey ltac:(change (2 ^ 23) with 8388608; lia))
      as (A & B & C).
    repeat split; try assumption; intros; lia.
Qed.

Lemma Vector_Length_accuracy_witness :
  0 <= PVG_FT_Vector_Length (mkVec 30000 (-40000)) /\
  (PVG_FT_Vector_Length (mkVec 30000 (-40000)) - 1)
  * (PVG_FT_Vector_Length (mkVec 30000 (-40000)) - 1)
  <= vx (mkVec 30000 (-40000)) * vx (mkVec 30000 (-40000))
     + vy (mkVec 30000 (-40000)) * vy (mkVec 30000 (-40000))
  <= (PVG_FT_Vector_Length (mkVec 30000 (-40000)) + 1)
     * (PVG_FT_Vector_Length (mkVec 30000 (-40000)) + 1) /\
  (vx (mkVec 30000 (-40000)) = 0 ->
   PVG_FT_Vector_Length (mkVec 30000 (-40000)) = Z.abs (vy (mkVec 30000 (-40000)))) /\
  (vy (mkVec 30000 (-40000)) = 0 ->
   PVG_FT_Vector_Length (mkVec 30000 (-40000)) = Z.abs (vx (mkVec 30000 (-40000)))).
Proof.
  apply (Vector_Length_accuracy (mkVec 30000 (-40000))).
  - intros [H _]. discriminate H.
  - vm_compute. reflexivity.
Defined.

(** *** The length stored by [PVG_FT_Vector_Polarize] *)

Lemma Vector_Polarize_steps (x y k length angle : Z) :
  ~ (x = 0 /\ y = 0) -> 0 <= k ->
  ft_trig_prenorm (mkVec x y) = (mkVec (x * 2 ^ k) (y * 2 ^ k), k) ->
  PVG_FT_Vector_Polarize (mkVec x y) length angle
  = (Z.shiftr (ft_trig_downscale
                 (vx (ft_trig_pseudo_polarize (mkVec (x * 2 ^ k) (y * 2 ^ k))))) k,
     vy (ft_trig_pseudo_polarize (mkVec (x * 2 ^ k) (y * 2 ^ k)))).
Proof.
  intros Hnz Hk Hpre. unfold PVG_FT_Vector_Polarize. cbn [vx vy].
  replace ((x =? 0) && (y =? 0)) with false.
  - rewrite Hpre.
    replace (k >=? 0) with true by (symmetry; apply Z.geb_le; lia).
    reflexivity.
  - symmetry. apply andb_false_iff.
    destruct (Z.eq_dec x 0) as [E|E].
    + right. apply Z.eqb_neq. lia.
    + left. now apply Z.eqb_neq.
Qed.

(** X17: off the axes and for components below 2^30 in magnitude, the
    length returned by [PVG_FT_Vector_Length] (rounded to nearest) is the
    length stored by [PVG_FT_Vector_Polarize] (rounded down) or that
    length plus one; both are positive or zero. *)
Theorem Length_versus_Polarize (x y length angle : Z) :
  x <> 0 -> y <> 0 -> Z.max (Z.abs x) (Z.abs y) < 2 ^ 30 ->
  0 <= fst (PVG_FT_Vector_Polarize (mkVec x y) length angle) /\
  fst (PVG_FT_Vector_Polarize (mkVec x y) length angle)
  <= PVG_FT_Vector_Length (mkVec x y)
  <= fst (PVG_FT_Vector_Polarize (mkVec x y) length angle) + 1.
Proof.
  intros Hx0 Hy0 HM.
  destruct (prenorm_left x y ltac:(lia) HM) as (k & Hk & Hpre & Hb).
  destruct (polarize_abscissa x y k Hk Hb)
    as (xf & yf & e & theta & Hpol & _ & _ & Hxf & _).
  rewrite (Vector_Polarize_steps x y k length angle ltac:(lia) ltac:(lia) Hpre).
  rewrite Hpol. cbn [fst vx].
  destruct (downscale_near xf ltac:(lia)) as [_ DBx].
  destruct (downscale_spec xf ltac:(unfold INT32_MIN, val_max in *; pow_consts; lia))
    as (_ & Hpos & _).
  specialize (Hpos ltac:(lia)).
  set (X := ft_trig_downscale xf) in *.
  rewrite Z.shiftr_div_pow2 by lia.
  pose proof (Z.pow_pos_nonneg 2 k ltac:(lia) ltac:(lia)) as Hp.
  destruct (Z.eq_dec k 0) as [->|Hk0].
  - unfold PVG_FT_Vector_Length. cbn [vx vy].
    replace (x =? 0) with false by (symmetry; now apply Z.eqb_neq).
    replace (y =? 0) with false by (symmetry; now apply Z.eqb_neq).
    rewrite Hpre, Hpol. cbn [vx]. fold X.
    change (0 >? 0) with false. cbv iota. change (- 0) with 0.
    rewrite Z.shiftl_0_r.
    rewrite !(to_u32_small X) by (pow_consts; lia).
    rewrite wrap32_id by (unfold_ints; lia).
    change (2 ^ 0) with 1. rewrite Z.div_1_r. lia.
  - rewrite (Vector_Length_steps x y k Hx0 Hy0 ltac:(lia) Hpre), Hpol. cbn [vx].
    fold X. rewrite round_len_div by lia.
    assert (2 ^ k = 2 * 2 ^ (k - 1)) as Hp2.
    { replace k with (k - 1 + 1) at 1 by lia. rewrite Z.pow_add_r by lia. lia. }
    pose proof (Z.pow_pos_nonneg 2 (k - 1) ltac:(lia) ltac:(lia)) as Hh.
    set (P := 2 ^ k) in *. set (h := 2 ^ (k - 1)) in *.
    pose proof (Z.div_mod X P ltac:(lia)) as D1.
    pose proof (Z.mod_pos_bound X P ltac:(lia)) as M1.
    pose proof (Z.div_mod (X + h) P ltac:(lia)) as D2.
    pose proof (Z.mod_pos_bound (X + h) P ltac:(lia)) as M2.
    assert (0 <= X / P) by (apply Z.div_pos; lia).
    split; [assumption|]. split.
    + apply Z.div_le_mono; lia.
    + assert ((X + h) / P < X / P + 2); [|lia].
      apply Z.div_lt_upper_bound; [lia|]. nia.
Qed.

Lemma Length_versus_Polarize_witness :
  0 <= fst (PVG_FT_Vector_Polarize (mkVec 7 7) 0 0) /\
  fst (PVG_FT_Vector_Polarize (mkVec 7 7) 0 0)
  <= PVG_FT_Vector_Length (mkVec 7 7)
  <= fst (PVG_FT_Vector_Polarize (mkVec 7 7) 0 0) + 1.
Proof.
  apply (Length_versus_Polarize 7 7 0 0); [discriminate | discriminate |].
  vm_compute. reflexivity.
Defined.

(** ** How the fixed-point primitives compose *)

Lemma round_half_away_abs (n d : Z) :
  d <> 0 ->
  exists Q, round_half_away n d = Z.sgn n * Z.sgn d * Q /\
            2 * Z.abs d * Q - Z.abs d <= 2 * Z.abs n < 2 * Z.abs d * Q + Z.abs d.
Proof.
  intros Hd. exists ((2 * Z.abs n + Z.abs d) / (2 * Z.abs d)).
  split; [reflexivity|].
  pose proof (Z.div_mod (2 * Z.abs n + Z.abs d) (2 * Z.abs d) ltac:(lia)) as Hq.
  pose proof (Z.mod_pos_bound (2 * Z.abs n + Z.abs d) (2 * Z.abs d) ltac:(lia)).
  lia.
Qed.

Lemma round_half_away_near (n d : Z) :
  d <> 0 -> 2 * Z.abs (round_half_away n d * d - n) <= Z.abs d.
Proof.
  intros Hd. destruct (round_half_away_abs n d Hd) as (Q & -> & HQ).
  destruct (Z.abs_spec n) as [[Hn En] | [Hn En]],
           (Z.abs_spec d) as [[Hd' Ed] | [Hd' Ed]];
    rewrite En, Ed in HQ.
  all: destruct (Z.eq_dec n 0) as [-> | Hn0];
    [ assert (Q = 0) as -> by nia; change (0 <= Z.abs d); lia |].
  all: try replace (Z.sgn n) with 1 by lia;
       try replace (Z.sgn n) with (-1) by lia;
       try replace (Z.sgn d) with 1 by lia;
       try replace (Z.sgn d) with (-1) by lia.
  all: lia.
Qed.

Lemma round_half_away_unique (n d m : Z) :
  d <> 0 -> 2 * Z.abs (m * d - n) < Z.abs d -> round_half_away n d = m.
Proof.
  intros Hd Hm. destruct (round_half_away_abs n d Hd) as (Q & -> & HQ).
  destruct (Z.eq_dec n 0) as [-> | Hn0].
  - change (0 = m). nia.
  - destruct (Z.abs_spec n) as [[Hn En] | [Hn En]],
             (Z.abs_spec d) as [[Hd' Ed] | [Hd' Ed]];
      rewrite En, Ed in HQ.
    all: try replace (Z.sgn n) with 1 by lia;
         try replace (Z.sgn n) with (-1) by lia;
         try replace (Z.sgn d) with 1 by lia;
         try replace (Z.sgn d) with (-1) by lia.
    all: nia.
Qed.

Lemma sgn_sq (z : Z) : sgn z * sgn z = 1.
Proof. unfold sgn. destruct (z <? 0); reflexivity. Qed.

Lemma sgn_abs (z : Z) : sgn z * Z.abs z = z.
Proof. unfold sgn. destruct (Z.ltb_spec z 0); lia. Qed.

Lemma MulDiv_by_one (a b : Z) :
  INT32_MIN < a < 2 ^ 31 -> INT32_MIN < b < 2 ^ 31 ->
  PVG_FT_MulDiv a b 0x10000 = PVG_FT_MulFix a b.
Proof.
  intros Ha Hb.
  unfold PVG_FT_MulDiv, PVG_FT_MulFix. rewrite !MOVE_SIGN_eq.
  change (PVG_FT_ABS 65536) with 65536.
  rewrite (ABS_small a), (ABS_small b) by assumption. change (sgn 65536) with 1.
  change (65536 >? 0) with true. cbv iota.
  change (Z.shiftr 65536 1) with 32768.
  unfold INT32_MIN in *. pow_consts.
  assert (0 <= Z.abs a * Z.abs b < 4611686018427387904) as Hab by nia.
  rewrite (wrap64_id (Z.abs a * Z.abs b)) by (pow_consts; lia).
  rewrite wrap64_id by (pow_consts; lia).
  rewrite Z.quot_div_nonneg by lia. rewrite shiftr_16.
  rewrite Z.mul_1_l. reflexivity.
Qed.

Lemma MulDiv_of_one (a b : Z) :
  INT32_MIN < a < 2 ^ 31 -> INT32_MIN < b < 2 ^ 31 ->
  PVG_FT_MulDiv a 0x10000 b = PVG_FT_DivFix a b.
Proof.
  intros Ha Hb.
  unfold PVG_FT_MulDiv, PVG_FT_DivFix. rewrite !MOVE_SIGN_eq.
  change (PVG_FT_ABS 65536) with 65536.
  rewrite (ABS_small a), (ABS_small b) by assumption. change (sgn 65536) with 1.
  rewrite Z.mul_1_l.
  unfold INT32_MIN in *. pow_consts.
  pose proof (Z.abs_nonneg a) as Ha0. pose proof (Z.abs_nonneg b) as Hb0.
  rewrite (to_u64_id (Z.abs a)) by (pow_consts; lia).
  rewrite shiftl_16, shiftr_1.
  assert (0 <= Z.abs b / 2 <= Z.abs b) as Hh.
  { pose proof (Z.div_mod (Z.abs b) 2 ltac:(lia)).
    pose proof (Z.mod_pos_bound (Z.abs b) 2 ltac:(lia)). lia. }
  rewrite (to_u64_id (Z.abs a * 65536)) by (pow_consts; lia).
  rewrite to_u64_id by (pow_consts; lia).
  rewrite (wrap64_id (Z.abs a * 65536)) by (pow_consts; lia).
  rewrite wrap64_id by (pow_consts; lia).
  set (s := sgn b * (sgn a * 1)).
  assert (s = 1 \/ s = -1) as Hs.
  { unfold s, sgn. destruct (a <? 0), (b <? 0); lia. }
  destruct (Z.gtb_spec (Z.abs b) 0) as [Hpos | Hzero].
  - rewrite Z.quot_div_nonneg by lia.
    destruct Hs as [-> | ->]; reflexivity.
  - destruct Hs as [-> | ->]; reflexivity.
Qed.

Lemma MulDiv_cancel (a b : Z) :
  INT32_MIN < a < 2 ^ 31 -> INT32_MIN < b < 2 ^ 31 -> b <> 0 ->
  PVG_FT_MulDiv a b b = a.
Proof.
  intros Ha Hb Hb0.
  pose proof (half_bounds (Z.abs b) ltac:(lia)) as Hh.
  assert ((Z.abs a * Z.abs b + Z.abs b / 2) / Z.abs b = Z.abs a) as Eq.
  { symmetry. apply Z.div_unique with (r := Z.abs b / 2); lia. }
  rewrite MulDiv_magnitude; try assumption; rewrite Eq.
  - replace (sgn a * sgn b * sgn b * Z.abs a)
      with (sgn b * sgn b * (sgn a * Z.abs a)) by ring.
    rewrite sgn_sq, sgn_abs. lia.
  - unfold INT32_MIN in *. lia.
Qed.

(** X18: [PVG_FT_MulDiv] contains the two other primitives: for operands
    above the most negative 32-bit value, dividing by 0x10000 is
    [PVG_FT_MulFix] and multiplying by 0x10000 is [PVG_FT_DivFix], whatever
    the size of the result and also for the divisor zero; and multiplying
    and dividing by the same non-zero number returns the first operand. *)
Theorem MulDiv_contains (a b : Z) :
  INT32_MIN < a < 2 ^ 31 -> INT32_MIN < b < 2 ^ 31 ->
  PVG_FT_MulDiv a b 0x10000 = PVG_FT_MulFix a b /\
  PVG_FT_MulDiv a 0x10000 b = PVG_FT_DivFix a b /\
  (b <> 0 -> PVG_FT_MulDiv a b b = a).
Proof.
  intros Ha Hb. split; [|split].
  - apply MulDiv_by_one; assumption.
  - apply MulDiv_of_one; assumption.
  - intros Hb0. apply MulDiv_cancel; assumption.
Qed.

Lemma MulDiv_contains_witness :
  PVG_FT_MulDiv (-98304) 163840 0x10000 = PVG_FT_MulFix (-98304) 163840 /\
  PVG_FT_MulDiv (-98304) 0x10000 163840 = PVG_FT_DivFix (-98304) 163840 /\
  (163840 <> 0 -> PVG_FT_MulDiv (-98304) 163840 163840 = -98304).
Proof.
  apply (MulDiv_contains (-98304) 163840); vm_compute; split; reflexivity.
Defined.

Lemma round_half_away_magnitude (n d : Z) :
  d <> 0 ->
  Z.abs (round_half_away n d) = (Z.abs n + Z.abs d / 2) / Z.abs d.
Proof.
  intros Hd.
  rewrite (div_half_up (Z.abs n) (Z.abs d)) by lia.
  unfold round_half_away.
  set (Q := (2 * Z.abs n + Z.abs d) / (2 * Z.abs d)).
  assert (0 <= Q) as HQ by (apply Z.div_pos; lia).
  destruct (Z.eq_dec n 0) as [-> | Hn].
  - assert (Q = 0) as ->; [|reflexivity].
    unfold Q. change (Z.abs 0) with 0. apply Z.div_small. lia.
  - assert (Z.abs (Z.sgn n * Z.sgn d) = 1) as Hs by lia.
    rewrite Z.abs_mul, Hs. lia.
Qed.

Lemma MulFix_after_DivFix (a b : Z) :
  INT32_MIN < a < 2 ^ 31 -> INT32_MIN < b < 2 ^ 31 -> b <> 0 ->
  Z.abs b <= 65536 ->
  Z.abs (round_half_away (a * 65536) b) < 2 ^ 31 ->
  PVG_FT_MulFix (PVG_FT_DivFix a b) b = a.
Proof.
  intros Ha Hb Hb0 Hsmall Hfit.
  rewrite DivFix_rounds by assumption.
  pose proof (round_half_away_near (a * 65536) b Hb0) as Hnear.
  assert (Z.abs b = 65536 -> round_half_away (a * 65536) b * b = a * 65536)
    as Hone.
  { intros E.
    rewrite (round_half_away_unique (a * 65536) b (a * Z.sgn b)); lia. }
  set (q := round_half_away (a * 65536) b) in *.
  assert (2 * Z.abs (q * b - a * 65536) < 65536) as Hclose.
  { destruct (Z.eq_dec (Z.abs b) 65536) as [E | NE].
    - rewrite (Hone E). lia.
    - lia. }
  clear Hone Hnear.
  assert ((Z.abs q * Z.abs b + 32768) / 65536 = Z.abs a) as EQ.
  { symmetry. rewrite <- Z.abs_mul.
    apply Z.div_unique with (r := Z.abs (q * b) + 32768 - 65536 * Z.abs a); lia. }
  unfold INT32_MIN in *.
  rewrite MulFix_magnitude; unfold INT32_MIN; rewrite ?EQ; try lia.
  destruct (Z.eq_dec a 0) as [-> | Ha0]; [lia|].
  assert (q * b <> 0) as Hqb by lia.
  assert (sgn q * sgn b = sgn a) as ->; [|apply sgn_abs].
  unfold sgn.
  destruct (Z.ltb_spec q 0), (Z.ltb_spec b 0), (Z.ltb_spec a 0); nia.
Qed.

Lemma DivFix_after_MulFix (a b : Z) :
  INT32_MIN < a < 2 ^ 31 -> INT32_MIN < b < 2 ^ 31 ->
  65536 <= Z.abs b ->
  Z.abs (round_half_away (a * b) 65536) < 2 ^ 31 ->
  PVG_FT_DivFix (PVG_FT_MulFix a b) b = a.
Proof.
  intros Ha Hb Hbig Hfit.
  rewrite round_half_away_magnitude in Hfit by lia.
  change (Z.abs 65536) with 65536 in Hfit. change (65536 / 2) with 32768 in Hfit.
  rewrite Z.abs_mul in Hfit.
  rewrite MulFix_magnitude by assumption.
  set (Q := (Z.abs a * Z.abs b + 32768) / 65536) in *.
  pose proof (Z.div_mod (Z.abs a * Z.abs b + 32768) 65536 ltac:(lia)) as Hdm.
  pose proof (Z.mod_pos_bound (Z.abs a * Z.abs b + 32768) 65536 ltac:(lia)) as Hr.
  fold Q in Hdm.
  assert (0 <= Q) as HQ0 by (apply Z.div_pos; lia).
  assert (Z.abs b = 65536 -> Q = Z.abs a) as Hone.
  { intros E. unfold Q. rewrite E. symmetry.
    apply Z.div_unique with (r := 32768); lia. }
  assert (a * b = sgn a * sgn b * (Z.abs a * Z.abs b)) as Eab.
  { rewrite <- (sgn_abs a) at 1. rewrite <- (sgn_abs b) at 1. ring. }
  set (p := sgn a * sgn b * Q).
  assert (Z.abs p = Q) as Ep.
  { unfold p, sgn. destruct (a <? 0), (b <? 0); lia. }
  assert (2 * Z.abs (a * b - p * 65536) < Z.abs b) as Hclose.
  { replace (a * b - p * 65536)
      with (sgn a * sgn b * (Z.abs a * Z.abs b - 65536 * Q))
      by (rewrite Eab; unfold p; ring).
    assert (Z.abs (sgn a * sgn b) = 1) as Hs
      by (unfold sgn; destruct (a <? 0), (b <? 0); reflexivity).
    rewrite Z.abs_mul, Hs, Z.mul_1_l.
    destruct (Z.eq_dec (Z.abs b) 65536) as [E | NE].
    - rewrite (Hone E), E. lia.
    - lia. }
  assert (round_half_away (p * 65536) b = a) as Er
    by (apply round_half_away_unique; lia).
  unfold INT32_MIN in *.
  rewrite DivFix_rounds; unfold INT32_MIN; rewrite ?Er; lia.
Qed.

(** X19: multiplying and dividing by the same 16.16 factor undo each other
    on the side where no precision is lost.  For operands above the most
    negative 32-bit value, when the intermediate result fits 32 bits:
    dividing by a non-zero [b] of magnitude at most 1.0 and then
    multiplying by it gives back [a], and multiplying by a [b] of magnitude
    at least 1.0 and then dividing by it gives back [a]. *)
Theorem Fix_round_trip (a b : Z) :
  INT32_MIN < a < 2 ^ 31 -> INT32_MIN < b < 2 ^ 31 -> b <> 0 ->
  (Z.abs b <= 0x10000 ->
   Z.abs (round_half_away (a * 65536) b) < 2 ^ 31 ->
   PVG_FT_MulFix (PVG_FT_DivFix a b) b = a) /\
  (0x10000 <= Z.abs b ->
   Z.abs (round_half_away (a * b) 65536) < 2 ^ 31 ->
   PVG_FT_DivFix (PVG_FT_MulFix a b) b = a).
Proof.
  intros Ha Hb Hb0. split.
  - intros Hsmall Hfit. apply MulFix_after_DivFix; assumption.
  - intros Hbig Hfit. apply DivFix_after_MulFix; assumption.
Qed.

Lemma Fix_round_trip_witness :
  PVG_FT_MulFix (PVG_FT_DivFix 1000 (-3)) (-3) = 1000 /\
  PVG_FT_DivFix (PVG_FT_MulFix 7 (-196611)) (-196611) = 7.
Proof.
  split.
  - apply (Fix_round_trip 1000 (-3));
      first [ discriminate | vm_compute; split; reflexivity
            | vm_compute; reflexivity ].
  - apply (Fix_round_trip 7 (-196611));
      first [ discriminate | vm_compute; split; reflexivity
            | vm_compute; reflexivity ].
Defined.

(** ** Table angles that nearly cancel

    [PVG_FT_Vector_From_Polar] turns a length by the angle that
    [PVG_FT_Vector_Polarize] accumulated from the table.  Both engines read
    the same table, so the directions of the one and of the other add up,
    step by step, to -2, 0 or 2: half their sum is a list over -1, 0, 1
    whose weighted table sum nearly vanishes.  This section shows, by an
    exhaustive search over such lists, that the product of the matching
    exact rotations then is a number close to the positive real axis. *)

Lemma wsum_rest (ds : list Z) :
  forall j : nat,
    (1 <= j)%nat -> Forall tern ds -> Z.abs (wsum j ds) <= rest j.
Proof.
  induction ds as [|c ds IH]; intros j Hj Hds; cbn [wsum].
  - pose proof (rest_nonneg j). lia.
  - inversion Hds as [|c' ds' Hc Hds']; subst.
    pose proof (IH (S j) ltac:(lia) Hds') as Hrec.
    pose proof (arctan_entry_bound (Z.of_nat j)) as Ht.
    rewrite (rest_step j Hj).
    unfold tern in Hc.
    assert (c = -1 \/ c = 0 \/ c = 1) as [-> | [-> | ->]] by lia; lia.
Qed.

(** A vector of the search lies within [2 ^ - k] of the positive real axis,
    the rounding of the run (at most 33 units a coordinate) included. *)
Definition slope_ok (k : Z) (p : Z * Z) : Prop :=
  (Z.abs (snd p) + 34) * 2 ^ k <= fst p - 34.

Module Tern.

Import Sint63.

Definition abs63 (z : int) : int := if ltsb z 0 then sub 0 z else z.

Definition in_range63 (z : int) : bool :=
  lesb (-576460752303423488)%sint63 z && lesb z 576460752303423488%sint63.

(** An entry of the table: the number of the step, its rounding bit, its
    angle and the sum of the angles from this step on. *)
Record entry : Type := mkEntry { e_i : int; e_r : int; e_t : int; e_rest : int }.

Fixpoint search63 (k W : int) (tab : list entry) (P x y : int) : bool :=
  match tab with
  | [] =>
      if lesb (abs63 P) W
      then in_range63 x && in_range63 y
           && lesb (add (abs63 y) 34) (asr (sub x 34) k)
      else true
  | e :: tab' =>
      if ltsb (add W (e_rest e)) (abs63 P) then true
      else
        in_range63 x && in_range63 y &&
        (let v1 := asr (add y (e_r e)) (e_i e) in
         let v2 := asr (add x (e_r e)) (e_i e) in
         search63 k W tab' (add P (e_t e)) (add x v1) (sub y v2)
         && search63 k W tab' P x y
         && search63 k W tab' (sub P (e_t e)) (sub x v1) (add y v2))
  end.

Fixpoint tab_ok (j : nat) (tab : list entry) : Prop :=
  match tab with
  | [] => True
  | e :: tab' =>
      (1 <= j <= 30)%nat /\
      Fast.toZ (e_i e) = Z.of_nat j /\
      Fast.toZ (e_r e) = 2 ^ (Z.of_nat j - 1) /\
      Fast.toZ (e_t e) = arctan_entry (Z.of_nat j) /\
      Fast.toZ (e_rest e) = rest j /\
      tab_ok (S j) tab'
  end.

Fixpoint mk_tab (j : nat) (ts : list Z) : list entry :=
  match ts with
  | [] => []
  | t :: ts' =>
      mkEntry (of_Z (Z.of_nat j)) (of_Z (2 ^ (Z.of_nat j - 1))) (of_Z t)
              (of_Z (fold_right Z.add 0 ts))
      :: mk_tab (S j) ts'
  end.

Definition table63 : list entry :=
  Eval vm_compute in mk_tab 1 ft_trig_arctan_table.

Lemma table63_ok : tab_ok 1 table63.
Proof.
  unfold table63. cbn [tab_ok length e_i e_r e_t e_rest].
  repeat match goal with
         | |- _ /\ _ => split
         | |- True => exact I
         | |- (_ <= _)%nat => lia
         | |- _ = _ => vm_compute; reflexivity
         end.
Qed.

Lemma table63_length : length table63 = 22%nat.
Proof. reflexivity. Qed.

Definition in_range (z : Z) : Prop := - 2 ^ 59 <= z <= 2 ^ 59.

Lemma in_range63_ok (z : int) : in_range63 z = true -> in_range (Fast.toZ z).
Proof.
  unfold in_range63, in_range. rewrite !Fast.lesb_Z.
  intros H. apply andb_prop in H as [H1 H2].
  apply Z.leb_le in H1, H2.
  change (Fast.toZ (-576460752303423488)%sint63) with (- 2 ^ 59) in H1.
  change (Fast.toZ 576460752303423488%sint63) with (2 ^ 59) in H2.
  lia.
Qed.

Ltac range_consts :=
  unfold in_range, Fast.small in *;
  change (2 ^ 59) with 576460752303423488 in *;
  change (2 ^ 60) with 1152921504606846976 in *;
  change (2 ^ 30) with 1073741824 in *;
  change (2 ^ 23) with 8388608 in *;
  change (2 ^ 20) with 1048576 in *.

Lemma toZ_abs63 (z : int) :
  in_range (Fast.toZ z) -> Fast.toZ (abs63 z) = Z.abs (Fast.toZ z).
Proof.
  intros Hz. unfold abs63. rewrite Fast.ltsb_Z.
  change (Fast.toZ 0%sint63) with 0.
  destruct (Z.ltb_spec (Fast.toZ z) 0).
  - rewrite Fast.toZ_sub.
    + change (Fast.toZ 0%sint63) with 0. lia.
    + change (Fast.toZ 0%sint63) with 0. range_consts. lia.
    + range_consts. lia.
  - lia.
Qed.

(** A rounded shift of the search is the rounded shift of the run. *)
Lemma toZ_rs (i r v : int) (j : nat) :
  (1 <= j <= 30)%nat ->
  Fast.toZ i = Z.of_nat j -> Fast.toZ r = 2 ^ (Z.of_nat j - 1) ->
  in_range (Fast.toZ v) ->
  Fast.toZ (asr (add v r) i) = rs (Fast.toZ v) j /\
  Fast.small (Fast.toZ (asr (add v r) i)).
Proof.
  intros Hj Hi Hr Hv.
  assert (1 <= 2 ^ (Z.of_nat j - 1) <= 2 ^ 29) as Hp.
  { split.
    - pose proof (Z.pow_pos_nonneg 2 (Z.of_nat j - 1) ltac:(lia) ltac:(lia)). lia.
    - apply Z.pow_le_mono_r; lia. }
  change (2 ^ 29) with 536870912 in Hp.
  assert (Fast.toZ (asr (add v r) i) = rs (Fast.toZ v) j) as E.
  { rewrite Fast.toZ_asr by lia.
    rewrite Fast.toZ_add by (rewrite ?Hr; range_consts; lia).
    rewrite Hi, Hr. unfold rs. apply Z.shiftr_div_pow2. lia. }
  split; [exact E|].
  rewrite E. unfold rs, Fast.small.
  apply div_abs_bound.
  - pose proof (Z.pow_pos_nonneg 2 (Z.of_nat j) ltac:(lia) ltac:(lia)). lia.
  - range_consts. lia.
Qed.

Lemma search63_sound (k W : int) (kz Wz : Z) :
  Fast.toZ k = kz -> 0 <= kz ->
  Fast.toZ W = Wz -> 0 <= Wz <= 2 ^ 20 ->
  forall (tab : list entry) (j : nat) (P x y : int),
    tab_ok j tab -> Z.abs (Fast.toZ P) <= 2 ^ 30 ->
    search63 k W tab P x y = true ->
    forall ds : list Z,
      length ds = length tab -> Forall tern ds ->
      Z.abs (Fast.toZ P + wsum j ds) <= Wz ->
      slope_ok kz (srun j ds (Fast.toZ x, Fast.toZ y)).
Proof.
  intros Hk Hk0 HW HW0.
  induction tab as [|e tab IH]; intros j P x y Hok HP Hs ds Hlen Hds Hsum.
  - destruct ds; [|discriminate Hlen].
    cbn [wsum srun] in *. rewrite Z.add_0_r in Hsum.
    cbn [search63] in Hs.
    assert (in_range (Fast.toZ P)) as RP by (range_consts; lia).
    rewrite Fast.lesb_Z, (toZ_abs63 P RP), HW in Hs.
    destruct (Z.leb_spec (Z.abs (Fast.toZ P)) Wz) as [_|Hgt]; [|lia].
    apply andb_prop in Hs as [Hs Hslope].
    apply andb_prop in Hs as [Rx Ry].
    apply in_range63_ok in Rx, Ry.
    rewrite Fast.lesb_Z in Hslope. apply Z.leb_le in Hslope.
    rewrite Fast.toZ_asr in Hslope by lia.
    rewrite Fast.toZ_add in Hslope
      by (rewrite ?toZ_abs63 by assumption;
          change (Fast.toZ 34%sint63) with 34; range_consts; lia).
    rewrite Fast.toZ_sub in Hslope
      by (change (Fast.toZ 34%sint63) with 34; range_consts; lia).
    rewrite (toZ_abs63 y Ry), Hk in Hslope.
    change (Fast.toZ 34%sint63) with 34 in Hslope.
    rewrite Z.shiftr_div_pow2 in Hslope by lia.
    unfold slope_ok. cbn [fst snd].
    assert (0 < 2 ^ kz) as Hpk by (apply Z.pow_pos_nonneg; lia).
    pose proof (Z.mul_div_le (Fast.toZ x - 34) (2 ^ kz) Hpk) as Hfloor.
    nia.
  - destruct ds as [|c ds]; [discriminate Hlen|].
    cbn [tab_ok] in Hok.
    destruct Hok as (Hj & Ei & Er & Et & Erest & Hok').
    inversion Hds as [|c' ds' Hc Hds']; subst c' ds'.
    cbn [length] in Hlen. injection Hlen as Hlen.
    pose proof (rest_nonneg j) as Hrest0.
    pose proof (rest_le_1 j ltac:(lia)) as Hrest1. rewrite rest_1 in Hrest1.
    pose proof (arctan_entry_bound (Z.of_nat j)) as Ht0.
    assert (arctan_entry (Z.of_nat j) <= rest j) as Htr.
    { rewrite (rest_step j ltac:(lia)). pose proof (rest_nonneg (S j)). lia. }
    assert (in_range (Fast.toZ P)) as RP by (range_consts; lia).
    cbn [search63] in Hs.
    rewrite Fast.ltsb_Z, (toZ_abs63 P RP) in Hs.
    rewrite Fast.toZ_add in Hs by (rewrite ?HW, ?Erest; range_consts; lia).
    rewrite HW, Erest in Hs.
    destruct (Z.ltb_spec (Wz + rest j) (Z.abs (Fast.toZ P)))
      as [Hprune | Hkeep].
    + exfalso.
      pose proof (wsum_rest (c :: ds) j ltac:(lia) Hds) as Hw. lia.
    + apply andb_prop in Hs as [Hs Hsub].
      apply andb_prop in Hs as [Rx Ry].
      apply in_range63_ok in Rx, Ry.
      destruct (toZ_rs (e_i e) (e_r e) y j Hj Ei Er Ry) as [E1 S1].
      destruct (toZ_rs (e_i e) (e_r e) x j Hj Ei Er Rx) as [E2 S2].
      cbv zeta in Hsub.
      apply andb_prop in Hsub as [Hsub Hminus].
      apply andb_prop in Hsub as [Hplus Hzero].
      cbn [srun wsum] in *.
      unfold tern in Hc.
      assert (c = -1 \/ c = 0 \/ c = 1) as [-> | [-> | ->]] by lia.
      * unfold sstep. cbn [fst snd].
        replace (Fast.toZ x + -1 * rs (Fast.toZ y) j)
          with (Fast.toZ (sub x (asr (add y (e_r e)) (e_i e))))
          by (rewrite Fast.toZ_sub by (try assumption; range_consts; lia);
              rewrite E1; lia).
        replace (Fast.toZ y - -1 * rs (Fast.toZ x) j)
          with (Fast.toZ (add y (asr (add x (e_r e)) (e_i e))))
          by (rewrite Fast.toZ_add by (try assumption; range_consts; lia);
              rewrite E2; lia).
        apply (IH (S j) (sub P (e_t e))); try assumption.
        -- rewrite Fast.toZ_sub by (rewrite ?Et; range_consts; lia).
           rewrite Et. range_consts. lia.
        -- rewrite Fast.toZ_sub by (rewrite ?Et; range_consts; lia).
           rewrite Et.
           replace (Fast.toZ P - arctan_entry (Z.of_nat j) + wsum (S j) ds)
             with (Fast.toZ P + (-1 * arctan_entry (Z.of_nat j) + wsum (S j) ds))
             by lia.
           exact Hsum.
      * unfold sstep. cbn [fst snd].
        replace (Fast.toZ x + 0 * rs (Fast.toZ y) j) with (Fast.toZ x) by lia.
        replace (Fast.toZ y - 0 * rs (Fast.toZ x) j) with (Fast.toZ y) by lia.
        apply (IH (S j) P); assumption.
      * unfold sstep. cbn [fst snd].
        replace (Fast.toZ x + 1 * rs (Fast.toZ y) j)
          with (Fast.toZ (add x (asr (add y (e_r e)) (e_i e))))
          by (rewrite Fast.toZ_add by (try assumption; range_consts; lia);
              rewrite E1; lia).
        replace (Fast.toZ y - 1 * rs (Fast.toZ x) j)
          with (Fast.toZ (sub y (asr (add x (e_r e)) (e_i e))))
          by (rewrite Fast.toZ_sub by (try assumption; range_consts; lia);
              rewrite E2; lia).
        apply (IH (S j) (add P (e_t e))); try assumption.
        -- rewrite Fast.toZ_add by (rewrite ?Et; range_consts; lia).
           rewrite Et. range_consts. lia.
        -- rewrite Fast.toZ_add by (rewrite ?Et; range_consts; lia).
           rewrite Et.
           replace (Fast.toZ P + arctan_entry (Z.of_nat j) + wsum (S j) ds)
             with (Fast.toZ P + (1 * arctan_entry (Z.of_nat j) + wsum (S j) ds))
             by lia.
           exact Hsum.
Qed.

Definition scale63 : int := 1099511627776%sint63.
Definition slope63 : int := 18%sint63.
Definition window63 : int := 9%sint63.
Definition neg_scale63 : int := (-1099511627776)%sint63.
Definition pi4_63 : int := 2949120%sint63.
Definition neg_pi4_63 : int := (-2949120)%sint63.

Lemma search_plus :
  search63 slope63 window63 table63 pi4_63 scale63 neg_scale63 = true.
Proof. vm_compute. reflexivity. Qed.

Lemma search_zero :
  search63 slope63 window63 table63 Fast.zero63 scale63 Fast.zero63 = true.
Proof. vm_compute. reflexivity. Qed.

Lemma search_minus :
  search63 slope63 window63 table63 neg_pi4_63 scale63 scale63 = true.
Proof. vm_compute. reflexivity. Qed.

End Tern.

(** Lists over -1, 0, 1 whose weighted table sum, together with [c0]
    eighths of a turn, lies within 9 units of zero: the run from the vector
    [(1, - c0)], scaled by 2^40, ends within [2 ^ -18] of the positive real
    axis. *)
Lemma tern_slopes (c0 : Z) (ds : list Z) :
  tern c0 -> length ds = 22%nat -> Forall tern ds ->
  Z.abs (c0 * PVG_FT_ANGLE_PI4 + wsum 1 ds) <= 9 ->
  slope_ok 18 (srun 1 ds (2 ^ 40, - c0 * 2 ^ 40)).
Proof.
  intros Hc Hlen Hds Hsum. unfold tern in Hc.
  assert (c0 = -1 \/ c0 = 0 \/ c0 = 1) as [-> | [-> | ->]] by lia.
  - apply (Tern.search63_sound Tern.slope63 Tern.window63 18 9 eq_refl ltac:(lia) eq_refl
             ltac:(split; [lia | vm_compute; discriminate])
             Tern.table63 1 Tern.neg_pi4_63 Tern.scale63 Tern.scale63
             Tern.table63_ok).
    + vm_compute. discriminate.
    + exact Tern.search_minus.
    + rewrite Tern.table63_length. exact Hlen.
    + exact Hds.
    + exact Hsum.
  - apply (Tern.search63_sound Tern.slope63 Tern.window63 18 9 eq_refl ltac:(lia) eq_refl
             ltac:(split; [lia | vm_compute; discriminate])
             Tern.table63 1 Fast.zero63 Tern.scale63 Fast.zero63
             Tern.table63_ok).
    + vm_compute. discriminate.
    + exact Tern.search_zero.
    + rewrite Tern.table63_length. exact Hlen.
    + exact Hds.
    + exact Hsum.
  - apply (Tern.search63_sound Tern.slope63 Tern.window63 18 9 eq_refl ltac:(lia) eq_refl
             ltac:(split; [lia | vm_compute; discriminate])
             Tern.table63 1 Tern.pi4_63 Tern.scale63 Tern.neg_scale63
             Tern.table63_ok).
    + vm_compute. discriminate.
    + exact Tern.search_plus.
    + rewrite Tern.table63_length. exact Hlen.
    + exact Hds.
    + exact Hsum.
Qed.

(** ** The two engines on the same table *)

(** Half the sum of two lists of directions, step by step. *)
Fixpoint halves (ds ds' : list Z) : list Z :=
  match ds, ds' with
  | a :: r, b :: r' => (a + b) / 2 :: halves r r'
  | _, _ => []
  end.

Lemma halves_length (ds : list Z) :
  forall ds' : list Z,
    length ds' = length ds -> length (halves ds ds') = length ds.
Proof.
  induction ds as [|a ds IH]; intros [|b ds'] Hlen; cbn [halves length] in *;
    try discriminate; [reflexivity|].
  now rewrite IH by lia.
Qed.

Lemma halves_tern (ds : list Z) :
  forall ds' : list Z,
    Forall unit_dir ds -> Forall unit_dir ds' -> Forall tern (halves ds ds').
Proof.
  induction ds as [|a ds IH]; intros [|b ds'] Hds Hds'; cbn [halves];
    try constructor.
  - inversion Hds as [|? ? Ha ?]; inversion Hds' as [|? ? Hb ?]; subst.
    unfold tern. destruct Ha as [-> | ->], Hb as [-> | ->];
      vm_compute; split; discriminate.
  - inversion Hds; inversion Hds'; subst. now apply IH.
Qed.

Lemma wsum_halves (ds : list Z) :
  forall (ds' : list Z) (j : nat),
    Forall unit_dir ds -> Forall unit_dir ds' -> length ds' = length ds ->
    2 * wsum j (halves ds ds') = wsum j ds + wsum j ds'.
Proof.
  induction ds as [|a ds IH]; intros [|b ds'] j Hds Hds' Hlen;
    cbn [halves wsum length] in *; try discriminate; [reflexivity|].
  inversion Hds as [|? ? Ha Hr]; inversion Hds' as [|? ? Hb Hr']; subst.
  pose proof (IH ds' (S j) Hr Hr' ltac:(lia)) as Hrec.
  destruct Ha as [-> | ->], Hb as [-> | ->].
  - change ((1 + 1) / 2) with 1. lia.
  - change ((1 + -1) / 2) with 0. lia.
  - change ((-1 + 1) / 2) with 0. lia.
  - change ((-1 + -1) / 2) with (-1). lia.
Qed.

Lemma ipow_add (q c : Z) : ipow (q + c) = zmul (ipow q) (ipow c).
Proof.
  unfold ipow, zmul. rewrite Z.add_mod by lia.
  pose proof (Z.mod_pos_bound q 4 ltac:(lia)) as Hq.
  pose proof (Z.mod_pos_bound c 4 ltac:(lia)) as Hc.
  assert (q mod 4 = 0 \/ q mod 4 = 1 \/ q mod 4 = 2 \/ q mod 4 = 3)
    as [-> | [-> | [-> | ->]]] by lia;
  assert (c mod 4 = 0 \/ c mod 4 = 1 \/ c mod 4 = 2 \/ c mod 4 = 3)
    as [-> | [-> | [-> | ->]]] by lia;
  vm_compute; reflexivity.
Qed.

Section Phase.

Local Open Scope R_scope.

Definition cscale (k : R) (p : R * R) : R * R := (k * fst p, k * snd p).

Definition conj (p : R * R) : R * R := (fst p, - snd p).

Lemma real2_zmul (p q : Z * Z) : real2 (zmul p q) = cmul (real2 p) (real2 q).
Proof.
  unfold real2, zmul, cmul. cbn [fst snd].
  now rewrite minus_IZR, plus_IZR, !mult_IZR.
Qed.

Lemma cscale_cancel (k : R) (p q : R * R) :
  k <> 0 -> cscale k p = cscale k q -> p = q.
Proof.
  intros Hk H. destruct p as [p1 p2], q as [q1 q2].
  unfold cscale in H. cbn [fst snd] in H.
  injection H as H1 H2.
  apply Rmult_eq_reg_l in H1, H2; try assumption. now subst.
Qed.

Lemma cmul_conj (g : R * R) : cmul (conj g) g = (cnorm2 g, 0).
Proof. unfold cmul, conj, cnorm2. cbn [fst snd]. f_equal; ring. Qed.

Lemma cnorm2_conj (g : R * R) : cnorm2 (conj g) = cnorm2 g.
Proof. unfold conj, cnorm2. cbn [fst snd]. ring. Qed.

(** Two unit directions and half their sum, at one step. *)
Lemma factor_halves (a b : Z) (j : nat) :
  unit_dir a -> unit_dir b ->
  cscale (cnorm2 (factor ((a + b) / 2) j)) (cmul (factor a j) (factor b j))
  = cscale (1 + / (2 ^ j * 2 ^ j))
           (cmul (factor ((a + b) / 2) j) (factor ((a + b) / 2) j)).
Proof.
  intros Ha Hb. pose proof (pow2_pos j) as Hp.
  destruct Ha as [-> | ->], Hb as [-> | ->].
  - change ((1 + 1) / 2)%Z with 1%Z.
    unfold cscale, cmul, cnorm2, factor. cbn [fst snd]. f_equal; field; lra.
  - change ((1 + -1) / 2)%Z with 0%Z.
    unfold cscale, cmul, cnorm2, factor. cbn [fst snd]. f_equal; field; lra.
  - change ((-1 + 1) / 2)%Z with 0%Z.
    unfold cscale, cmul, cnorm2, factor. cbn [fst snd]. f_equal; field; lra.
  - change ((-1 + -1) / 2)%Z with (-1)%Z.
    unfold cscale, cmul, cnorm2, factor. cbn [fst snd]. f_equal; field; lra.
Qed.

Lemma halves_step (n k N K : R) (a b c G G' C : R * R) :
  cscale n (cmul a b) = cscale k (cmul c c) ->
  cscale N (cmul G G') = cscale K (cmul C C) ->
  cscale (n * N) (cmul (cmul a G) (cmul b G'))
  = cscale (k * K) (cmul (cmul c C) (cmul c C)).
Proof.
  intros H1 H2.
  replace (cscale (n * N) (cmul (cmul a G) (cmul b G')))
    with (cmul (cscale n (cmul a b)) (cscale N (cmul G G')))
    by (unfold cscale, cmul; cbn [fst snd]; f_equal; ring).
  rewrite H1, H2.
  unfold cscale, cmul; cbn [fst snd]; f_equal; ring.
Qed.

(** The product of the exact rotations of two runs is, up to the stretch,
    the square of the product for half their sum. *)
Lemma cprod_halves (ds : list Z) :
  forall (ds' : list Z) (j : nat),
    Forall unit_dir ds -> Forall unit_dir ds' -> length ds' = length ds ->
    cscale (cnorm2 (cprod j (halves ds ds'))) (cmul (cprod j ds) (cprod j ds'))
    = cscale (kprod j (length ds))
             (cmul (cprod j (halves ds ds')) (cprod j (halves ds ds'))).
Proof.
  induction ds as [|a ds IH]; intros [|b ds'] j Hds Hds' Hlen;
    cbn [halves cprod length kprod] in *; try discriminate.
  - unfold cscale, cmul, cnorm2. cbn [fst snd]. f_equal; ring.
  - inversion Hds as [|? ? Ha Hr]; inversion Hds' as [|? ? Hb Hr']; subst.
    rewrite cnorm2_cmul.
    apply halves_step.
    + now apply factor_halves.
    + apply IH; [assumption | assumption | lia].
Qed.

(** The number [(1, - c0)] times the product of the exact rotations of a
    list of the search is close to the positive real axis. *)
Lemma tern_phase (c0 : Z) (ds : list Z) :
  tern c0 -> length ds = 22%nat -> Forall tern ds ->
  (Z.abs (c0 * PVG_FT_ANGLE_PI4 + wsum 1 ds) <= 9)%Z ->
  let H := cmul (1, - IZR c0) (cprod 1 ds) in
  0 < fst H /\ - fst H <= 262144 * snd H <= fst H.
Proof.
  intros Hc Hlen Hds Hsum H.
  pose proof (tern_slopes c0 ds Hc Hlen Hds Hsum) as Hs.
  pose proof (srun_exact ds (2 ^ 40, - c0 * 2 ^ 40)%Z ltac:(lia) Hds) as [Wx Wy].
  unfold slope_ok in Hs.
  set (r := srun 1 ds (2 ^ 40, - c0 * 2 ^ 40)%Z) in *.
  assert (cmul (real2 (2 ^ 40, - c0 * 2 ^ 40)%Z) (cprod 1 ds)
          = cscale 1099511627776 H) as E.
  { unfold H, real2, cscale, cmul. cbn [fst snd].
    rewrite mult_IZR, opp_IZR.
    change (IZR (2 ^ 40)) with 1099511627776. f_equal; ring. }
  rewrite E in Wx, Wy. unfold cscale, real2 in Wx, Wy. cbn [fst snd] in Wx, Wy.
  change (2 ^ 18)%Z with 262144%Z in Hs.
  assert (IZR ((Z.abs (snd r) + 34) * 262144) <= IZR (fst r - 34)) as Hr
    by (apply IZR_le; exact Hs).
  rewrite mult_IZR, plus_IZR, minus_IZR, abs_IZR in Hr.
  clearbody H r. clear - Wx Wy Hr.
  unfold Rabs in Hr. destruct (Rcase_abs (IZR (snd r))); split; lra.
Qed.

(** A quarter turn and the number [(1, - c)]. *)
Lemma ipow_unit (c : Z) :
  tern c ->
  cmul (real2 (ipow c)) (cmul (1, - IZR c) (1, - IZR c))
  = (cnorm2 (1, - IZR c), 0).
Proof.
  intros Hc. unfold tern in Hc.
  assert (c = -1 \/ c = 0 \/ c = 1)%Z as [-> | [-> | ->]] by lia.
  - change (ipow (-1)) with (0, -1)%Z.
    unfold real2, cmul, cnorm2. cbn [fst snd]. f_equal; ring.
  - change (ipow 0) with (1, 0)%Z.
    unfold real2, cmul, cnorm2. cbn [fst snd]. f_equal; ring.
  - change (ipow 1) with (0, 1)%Z.
    unfold real2, cmul, cnorm2. cbn [fst snd]. f_equal; ring.
Qed.

Lemma phase_algebra (Iq Ic G G' u C : R * R) (K : R) :
  K <> 0 -> cnorm2 G = K ->
  cmul Ic (cmul u u) = (cnorm2 u, 0) ->
  cscale (cnorm2 C) (cmul G G') = cscale K (cmul C C) ->
  cscale (cnorm2 (cmul u C)) (cmul Iq G')
  = cmul (cmul (cmul Iq Ic) (conj G)) (cmul (cmul u C) (cmul u C)).
Proof.
  intros HK HG Hu HC.
  apply (cscale_cancel K); [exact HK|].
  replace (cscale K (cmul (cmul (cmul Iq Ic) (conj G))
                          (cmul (cmul u C) (cmul u C))))
    with (cmul (cmul (cmul Iq (conj G)) (cmul Ic (cmul u u)))
               (cscale K (cmul C C)))
    by (unfold cscale, cmul, conj; cbn [fst snd]; f_equal; ring).
  rewrite Hu, <- HC, cnorm2_cmul, <- HG.
  unfold cscale, cmul, conj, cnorm2; cbn [fst snd]; f_equal; ring.
Qed.

(** The phase between the two engines.  The polarization engine took
    [q0] quarter turns and the directions [ds]; the rotation engine, on the
    angle found, [q] quarter turns and the directions [ds'], its angle
    ending within [r] of zero.  The number [H] measures what the second
    undoes of the first. *)
Lemma engines_phase (q0 q : Z) (ds ds' : list Z) :
  Forall unit_dir ds -> Forall unit_dir ds' ->
  length ds = 22%nat -> length ds' = 22%nat ->
  (Z.abs ((q0 - q) * PVG_FT_ANGLE_PI2 + wsum 1 ds + wsum 1 ds') <= 18)%Z ->
  exists H : R * R,
    0 < fst H /\ - fst H <= 262144 * snd H <= fst H /\
    cscale (cnorm2 H) (cmul (real2 (ipow q)) (cprod 1 ds'))
    = cmul (cmul (real2 (ipow q0)) (conj (cprod 1 ds))) (cmul H H).
Proof.
  intros Hds Hds' Hlen Hlen' Hsum.
  set (c0 := (q0 - q)%Z) in *.
  pose proof (wsum_rest ds 1 ltac:(lia) (Forall_unit_dir_tern ds Hds)) as B1.
  pose proof (wsum_rest ds' 1 ltac:(lia) (Forall_unit_dir_tern ds' Hds')) as B2.
  rewrite rest_1 in B1, B2.
  assert (tern c0) as Hc0.
  { unfold tern. unfold PVG_FT_ANGLE_PI2, PVG_FT_ANGLE_PI in Hsum.
    change (Z.shiftl 180 16 / 2)%Z with 5898240%Z in Hsum. lia. }
  pose proof (wsum_halves ds ds' 1 Hds Hds' ltac:(lia)) as Hw.
  pose proof (halves_tern ds ds' Hds Hds') as Ht.
  pose proof (halves_length ds ds' ltac:(lia)) as Hl.
  set (c := halves ds ds') in *.
  assert (Z.abs (c0 * PVG_FT_ANGLE_PI4 + wsum 1 c) <= 9)%Z as Hsum'.
  { unfold PVG_FT_ANGLE_PI2, PVG_FT_ANGLE_PI4, PVG_FT_ANGLE_PI in *.
    change (Z.shiftl 180 16 / 2)%Z with 5898240%Z in Hsum.
    change (Z.shiftl 180 16 / 4)%Z with 2949120%Z. lia. }
  pose proof (tern_phase c0 c Hc0 ltac:(lia) Ht Hsum') as [Hpos Hslope].
  exists (cmul (1, - IZR c0) (cprod 1 c)).
  split; [exact Hpos | split; [exact Hslope|]].
  replace q0 with (q + c0)%Z by (unfold c0; lia).
  rewrite ipow_add, real2_zmul.
  apply phase_algebra with (K := kprod 1 22).
  - pose proof kprod_22_range. lra.
  - rewrite (cnorm2_cprod_unit ds 1 Hds), Hlen. reflexivity.
  - apply ipow_unit. exact Hc0.
  - pose proof (cprod_halves ds ds' 1 Hds Hds' ltac:(lia)) as Hh.
    fold c in Hh. rewrite Hlen in Hh. exact Hh.
Qed.

End Phase.

(** ** The rotation engine follows its angle *)

(** The bound on the angle left after [n] micro-rotations from number
    [j] on, when it is at most [B] before them. *)
Fixpoint residual (j n : nat) (B : Z) : Z :=
  match n with
  | O => B
  | S n' =>
      residual (S j) n'
        (Z.max (B - arctan_entry (Z.of_nat j)) (arctan_entry (Z.of_nat j)))
  end.

Lemma greedy_residual (n : nat) :
  forall (j : nat) (x y theta B : Z),
    Z.abs theta <= B -> B <= 2 ^ 29 ->
    Z.abs (theta + wsum j (decisions by_angle j n (x, y, theta)))
    <= residual j n B.
Proof.
  induction n as [|n IH]; intros j x y theta B Ht HB;
    cbn [decisions wsum residual].
  - lia.
  - rewrite micro_rotation_by_angle. unfold by_angle at 1. cbn [snd].
    pose proof (arctan_entry_bound (Z.of_nat j)) as Ha.
    change (2 ^ 29) with 536870912 in HB.
    set (t := arctan_entry (Z.of_nat j)) in *.
    destruct (xy_step (theta <? 0) (Z.of_nat j) x y) as [x' y'].
    destruct (Z.ltb_spec theta 0) as [Hneg | Hpos]; cbn [dir_of].
    + rewrite wrap32_id by (unfold_ints; lia).
      specialize (IH (S j) x' y' (theta + t) (Z.max (B - t) t)
                     ltac:(lia) ltac:(change (2 ^ 29) with 536870912; lia)).
      replace (theta + (1 * t + wsum (S j) (decisions by_angle (S j) n (x', y', theta + t))))
        with (theta + t + wsum (S j) (decisions by_angle (S j) n (x', y', theta + t)))
        by lia.
      exact IH.
    + rewrite wrap32_id by (unfold_ints; lia).
      specialize (IH (S j) x' y' (theta - t) (Z.max (B - t) t)
                     ltac:(lia) ltac:(change (2 ^ 29) with 536870912; lia)).
      replace (theta + (-1 * t + wsum (S j) (decisions by_angle (S j) n (x', y', theta - t))))
        with (theta - t + wsum (S j) (decisions by_angle (S j) n (x', y', theta - t)))
        by lia.
      exact IH.
Qed.

Lemma residual_22 : residual 1 22 PVG_FT_ANGLE_PI4 = 1.
Proof. vm_compute. reflexivity. Qed.

(** From an angle within an eighth of a turn the rotation engine ends
    within one unit of zero. *)
Lemma rotate_residual (x y theta : Z) :
  Z.abs theta <= PVG_FT_ANGLE_PI4 ->
  Z.abs (theta + wsum 1 (decisions by_angle 1 22 (x, y, theta))) <= 1.
Proof.
  intros Ht. rewrite <- residual_22.
  apply greedy_residual; [exact Ht | vm_compute; discriminate].
Qed.

(** The rounding of the angle moves it by at most 16 units. *)
Lemma polarize_round_near (theta : Z) :
  Z.abs theta <= 2 ^ 30 -> Z.abs (polarize_round theta - theta) <= 16.
Proof.
  intros Ht. change (2 ^ 30) with 1073741824 in Ht.
  unfold polarize_round, PVG_FT_PAD_ROUND.
  change (32 / 2) with 16.
  destruct (Z.geb_spec theta 0) as [Hp|Hn].
  - rewrite wrap32_id by (unfold_ints; lia).
    rewrite PAD_FLOOR_32.
    pose proof (Z.div_mod (theta + 16) 32 ltac:(lia)).
    pose proof (Z.mod_pos_bound (theta + 16) 32 ltac:(lia)). lia.
  - rewrite (wrap32_id (- theta)) by (unfold_ints; lia).
    rewrite (wrap32_id (- theta + 16)) by (unfold_ints; lia).
    rewrite PAD_FLOOR_32.
    pose proof (Z.div_mod (- theta + 16) 32 ltac:(lia)).
    pose proof (Z.mod_pos_bound (- theta + 16) 32 ltac:(lia)).
    rewrite wrap32_id by (unfold_ints; lia). lia.
Qed.

(** The length stored by [PVG_FT_Vector_Polarize], from the abscissa the
    polarization engine ends on. *)
Lemma stored_length (xf k : Z) :
  0 < xf <= val_max -> 0 <= k ->
  let L := Z.shiftr (ft_trig_downscale xf) k in
  0 <= L /\
  2 ^ 32 * (2 ^ k * L) <= PVG_FT_TRIG_SCALE * xf + 2 ^ 32 /\
  PVG_FT_TRIG_SCALE * xf < 2 ^ 32 * (2 ^ k * (L + 1)).
Proof.
  intros Hx Hk L. unfold val_max in Hx.
  assert (ft_trig_downscale xf = xf * PVG_FT_TRIG_SCALE / 2 ^ 32 + 1) as E.
  { rewrite downscale_magnitude by (unfold INT32_MIN; pow_consts; lia).
    replace (xf <? 0) with false by (symmetry; apply Z.ltb_ge; lia).
    rewrite Z.abs_eq by lia. lia. }
  unfold L. rewrite E, Z.shiftr_div_pow2 by exact Hk.
  unfold PVG_FT_TRIG_SCALE in *.
  set (n := xf * 3688454934) in *.
  replace (3688454934 * xf) with n by (unfold n; lia).
  assert (0 <= n) as Hn by (unfold n; lia).
  pose proof (Z.div_mod n (2 ^ 32) ltac:(pow_consts; lia)) as Hd.
  pose proof (Z.mod_pos_bound n (2 ^ 32) ltac:(pow_consts; lia)) as Hr.
  set (D := n / 2 ^ 32) in *.
  assert (0 <= D) as HD by (apply Z.div_pos; [exact Hn | pow_consts; lia]).
  assert (0 < 2 ^ k) as Hpk by (apply Z.pow_pos_nonneg; lia).
  pose proof (Z.div_mod (D + 1) (2 ^ k) ltac:(lia)) as Hd2.
  pose proof (Z.mod_pos_bound (D + 1) (2 ^ k) Hpk) as Hr2.
  set (Q := (D + 1) / 2 ^ k) in *.
  assert (0 <= Q) as HQ by (apply Z.div_pos; lia).
  split; [exact HQ|]. pow_consts. split; nia.
Qed.

(** The directions of the rotation engine depend on the angle only. *)
Fixpoint angle_dirs (j n : nat) (theta : Z) : list Z :=
  match n with
  | O => []
  | S n' =>
      dir_of (theta <? 0)
      :: angle_dirs (S j) n'
           (wrap32 (if theta <? 0 then theta + arctan_entry (Z.of_nat j)
                    else theta - arctan_entry (Z.of_nat j)))
  end.

Lemma decisions_by_angle (n : nat) :
  forall (j : nat) (x y theta : Z),
    decisions by_angle j n (x, y, theta) = angle_dirs j n theta.
Proof.
  induction n as [|n IH]; intros j x y theta; cbn [decisions angle_dirs];
    [reflexivity|].
  rewrite micro_rotation_by_angle. unfold by_angle at 1. cbn [snd].
  destruct (xy_step (theta <? 0) (Z.of_nat j) x y) as [x' y'].
  f_equal. apply IH.
Qed.

(** ** The polar round trip on the reals *)

Section RoundTripReal.

Local Open Scope R_scope.

Lemma prod_bound (a b A B : R) :
  - A <= a <= A -> - B <= b <= B -> - (A * B) <= a * b <= A * B.
Proof.
  intros Ha Hb.
  assert (0 <= (A - a) * (B - b)) by (apply Rmult_le_pos; lra).
  assert (0 <= (A + a) * (B + b)) by (apply Rmult_le_pos; lra).
  assert (0 <= (A - a) * (B + b)) by (apply Rmult_le_pos; lra).
  assert (0 <= (A + a) * (B - b)) by (apply Rmult_le_pos; lra).
  split; lra.
Qed.

Lemma div_le_of_mul (a c N : R) : 0 < N -> a <= c * N -> a / N <= c.
Proof.
  intros HN H. pose proof (Rinv_0_lt_compat N HN) as Hi.
  assert (N * / N = 1) as E by (apply Rinv_r; lra).
  assert (0 <= (c * N - a) * / N) as H0 by (apply Rmult_le_pos; lra).
  replace ((c * N - a) * / N) with (c * (N * / N) - a * / N) in H0 by ring.
  rewrite E in H0. unfold Rdiv. lra.
Qed.

Lemma div_ge_of_mul (a c N : R) : 0 < N -> c * N <= a -> c <= a / N.
Proof.
  intros HN H. pose proof (Rinv_0_lt_compat N HN) as Hi.
  assert (N * / N = 1) as E by (apply Rinv_r; lra).
  assert (0 <= (a - c * N) * / N) as H0 by (apply Rmult_le_pos; lra).
  replace ((a - c * N) * / N) with (a * / N - c * (N * / N)) in H0 by ring.
  rewrite E in H0. unfold Rdiv. lra.
Qed.

(** The square of a number close to the positive real axis, divided by
    its squared length: a number of length one, close to one. *)
Lemma phase_bounds (hr hi : R) :
  0 < hr -> - hr <= 262144 * hi <= hr ->
  let N := hr * hr + hi * hi in
  let f1 := (hr * hr - hi * hi) / N in
  let f2 := 2 * hr * hi / N in
  f1 * f1 + f2 * f2 = 1 /\
  1 - / 34359738368 <= f1 <= 1 /\
  - / 131072 <= f2 <= / 131072.
Proof.
  intros Hr Hi N f1 f2.
  assert (0 < hr * hr) as Hrr by (apply Rmult_lt_0_compat; lra).
  assert (0 <= hi * hi) as Hii by apply Rle_0_sqr.
  assert (0 < N) as HN by (unfold N; lra).
  assert (hi * hi * 68719476736 <= hr * hr) as Hs.
  { assert (0 <= (hr - 262144 * hi) * (hr + 262144 * hi))
      by (apply Rmult_le_pos; lra). lra. }
  assert (- (hr * hr) <= 262144 * (hr * hi) <= hr * hr) as Hc.
  { assert (0 <= hr * (hr - 262144 * hi)) by (apply Rmult_le_pos; lra).
    assert (0 <= hr * (hr + 262144 * hi)) by (apply Rmult_le_pos; lra).
    lra. }
  split; [|split; split].
  - unfold f1, f2. unfold N in *. field. lra.
  - apply div_ge_of_mul; [exact HN|]. unfold N. lra.
  - apply div_le_of_mul; [exact HN|]. unfold N. lra.
  - apply div_ge_of_mul; [exact HN|]. unfold N. lra.
  - apply div_le_of_mul; [exact HN|]. unfold N. lra.
Qed.

Lemma kappa_range : 0.8587 <= kappa <= 0.8588.
Proof. unfold kappa, PVG_FT_TRIG_SCALE. lra. Qed.

(** One coordinate of the round trip.  [x], [y]: the vector; [P]: the
    scale of its pre-normalization; [a1], [a2]: the quarter turns and the
    conjugate exact rotations of the polarization engine; [xf], [d1], [d2]:
    where that engine ends; [f1], [f2]: the phase between the engines; [L]:
    the length stored; [r]: the coordinate that comes back. *)
Lemma round_trip_scalar (x y M P xf d1 d2 a1 a2 K f1 f2 L lam r : R) :
  1 <= K <= 1.36 ->
  - / 268435456 <= kappa * kappa * K - 1 <= / 268435456 ->
  a1 * a1 + a2 * a2 = K ->
  K * P * x = a1 * (xf + d1) - a2 * d2 ->
  K * P * y = a1 * d2 + a2 * (xf + d1) ->
  - M <= x <= M -> - M <= y <= M ->
  0 < P -> 536870912 <= M * P ->
  0 <= xf <= 1800000000 ->
  - 33 <= d1 <= 33 -> - 473 <= d2 <= 473 ->
  f1 * f1 + f2 * f2 = 1 ->
  1 - / 34359738368 <= f1 <= 1 -> - / 131072 <= f2 <= / 131072 ->
  L = kappa * xf / P + lam -> - 1 <= lam <= 1 -> 0 <= L ->
  - (/ 2 + 30 * L / 536870912) <= r - kappa * L * (a1 * f1 - a2 * f2)
    <= / 2 + 30 * L / 536870912 ->
  - (1.75 + M / 65536) <= r - x <= 1.75 + M / 65536.
Proof.
  intros HK Hg Ha Hx Hy Mx My HP HMP Hxf Hd1 Hd2 Hf Hf1 Hf2 HL Hlam HL0 Hr.
  pose proof kappa_range as Hk.
  set (g := kappa * kappa * K) in *.
  set (u := / P).
  assert (0 < u) as Hu by (apply Rinv_0_lt_compat; exact HP).
  assert (P * u = 1) as EP by (apply Rinv_r; lra).
  assert (0 <= M) as HM by lra.
  assert (536870912 * u <= M) as HuM.
  { assert (0 <= (M * P - 536870912) * u) by (apply Rmult_le_pos; lra).
    assert (M * P * u = M) by (rewrite Rmult_assoc, EP; ring). lra. }
  set (iK := / K).
  assert (K * iK = 1) as EK by (apply Rinv_r; lra).
  assert (0 < iK <= 1) as HiK.
  { assert (0 < iK) by (apply Rinv_0_lt_compat; lra).
    assert (0 <= (K - 1) * iK) by (apply Rmult_le_pos; lra). lra. }
  (* the conjugate rotations *)
  pose proof (square_bound a1 a2 1.17 ltac:(lra) ltac:(lra)) as Ba1.
  pose proof (square_bound a2 a1 1.17 ltac:(lra) ltac:(lra)) as Ba2.
  (* the vector, from where the polarization engine ends *)
  set (D1 := iK * u * (a1 * d1 - a2 * d2)).
  set (D2 := iK * u * (a1 * d2 + a2 * d1)).
  set (X1 := iK * u * (a1 * xf)).
  set (Y1 := iK * u * (a2 * xf)).
  assert (x = X1 + D1) as Ex.
  { assert (x = (K * iK) * (P * u) * x) as E0 by (rewrite EK, EP; ring).
    rewrite E0.
    replace (K * iK * (P * u) * x) with (iK * u * (K * P * x)) by ring.
    rewrite Hx. unfold X1, D1. ring. }
  assert (y = Y1 + D2) as Ey.
  { assert (y = (K * iK) * (P * u) * y) as E0 by (rewrite EK, EP; ring).
    rewrite E0.
    replace (K * iK * (P * u) * y) with (iK * u * (K * P * y)) by ring.
    rewrite Hy. unfold Y1, D2. ring. }
  assert (- (592.02 * u) <= D1 <= 592.02 * u) as BD1.
  { pose proof (prod_bound a1 d1 1.17 33 Ba1 ltac:(lra)).
    pose proof (prod_bound a2 d2 1.17 473 Ba2 ltac:(lra)).
    assert (- 592.02 <= a1 * d1 - a2 * d2 <= 592.02) as B by lra.
    assert (- (1 * u) <= iK * u <= 1 * u) as B2.
    { assert (0 <= iK * u) by (apply Rmult_le_pos; lra).
      assert (0 <= (1 - iK) * u) by (apply Rmult_le_pos; lra). lra. }
    pose proof (prod_bound (iK * u) (a1 * d1 - a2 * d2) (1 * u) 592.02 B2 ltac:(lra)).
    unfold D1. lra. }
  assert (- (592.02 * u) <= D2 <= 592.02 * u) as BD2.
  { pose proof (prod_bound a1 d2 1.17 473 Ba1 ltac:(lra)).
    pose proof (prod_bound a2 d1 1.17 33 Ba2 ltac:(lra)).
    assert (- 592.02 <= a1 * d2 + a2 * d1 <= 592.02) as B by lra.
    assert (- (1 * u) <= iK * u <= 1 * u) as B2.
    { assert (0 <= iK * u) by (apply Rmult_le_pos; lra).
      assert (0 <= (1 - iK) * u) by (apply Rmult_le_pos; lra). lra. }
    pose proof (prod_bound (iK * u) (a1 * d2 + a2 * d1) (1 * u) 592.02 B2 ltac:(lra)).
    unfold D2. lra. }
  (* the length that comes back *)
  set (psi := a1 * f1 - a2 * f2) in *.
  assert (kappa * kappa * u * xf * a1 = g * X1) as F1.
  { unfold g, X1.
    replace (kappa * kappa * K * (iK * u * (a1 * xf)))
      with (kappa * kappa * u * xf * a1 * (K * iK)) by ring.
    rewrite EK. ring. }
  assert (kappa * kappa * u * xf * a2 = g * Y1) as F2.
  { unfold g, Y1.
    replace (kappa * kappa * K * (iK * u * (a2 * xf)))
      with (kappa * kappa * u * xf * a2 * (K * iK)) by ring.
    rewrite EK. ring. }
  assert (kappa * L * psi
          = g * f1 * X1 - g * f2 * Y1 + lam * (kappa * psi)) as EL.
  { rewrite HL. unfold Rdiv. fold u. unfold psi.
    replace (kappa * (kappa * xf * u + lam) * (a1 * f1 - a2 * f2))
      with (kappa * kappa * u * xf * a1 * f1 - kappa * kappa * u * xf * a2 * f2
            + lam * (kappa * (a1 * f1 - a2 * f2))) by ring.
    rewrite F1, F2. ring. }
  (* the bounds of the parts *)
  assert (- (1 + / 268435456) <= kappa * psi <= 1 + / 268435456) as Bpsi.
  { apply square_bound with (kappa * (a1 * f2 + a2 * f1)); [lra|].
    replace (kappa * psi * (kappa * psi)
             + kappa * (a1 * f2 + a2 * f1) * (kappa * (a1 * f2 + a2 * f1)))
      with (kappa * kappa * (a1 * a1 + a2 * a2) * (f1 * f1 + f2 * f2))
      by (unfold psi; ring).
    rewrite Ha, Hf. fold g. lra. }
  assert (- (1 + / 268435456) <= lam * (kappa * psi) <= 1 + / 268435456) as Te.
  { pose proof (prod_bound lam (kappa * psi) 1 (1 + / 268435456) ltac:(lra) Bpsi). lra. }
  assert (- / 100000000 <= g * f1 - 1 <= / 100000000) as Bgf1.
  { assert (- (1 + / 268435456) <= g <= 1 + / 268435456) as Bg by lra.
    assert (- / 34359738368 <= f1 - 1 <= / 34359738368) as Bf by lra.
    pose proof (prod_bound g (f1 - 1) _ _ Bg Bf). lra. }
  assert (- (/ 131072 + / 1000000000000) <= g * f2
          <= / 131072 + / 1000000000000) as Bgf2.
  { assert (- (1 + / 268435456) <= g <= 1 + / 268435456) as Bg by lra.
    pose proof (prod_bound g f2 _ _ Bg Hf2). lra. }
  assert (- (M / 100000000) <= (g * f1 - 1) * x <= M / 100000000) as Ta.
  { pose proof (prod_bound (g * f1 - 1) x _ _ Bgf1 Mx). lra. }
  assert (- ((/ 131072 + / 1000000000000) * M) <= g * f2 * y
          <= (/ 131072 + / 1000000000000) * M) as Tb.
  { pose proof (prod_bound (g * f2) y _ _ Bgf2 My). lra. }
  assert (- (592.1 * u) <= g * f1 * D1 <= 592.1 * u) as Tc.
  { assert (- 1.0000001 <= g * f1 <= 1.0000001) as B by lra.
    pose proof (prod_bound (g * f1) D1 1.0000001 (592.02 * u) ltac:(lra) BD1). lra. }
  assert (- (0.01 * u) <= g * f2 * D2 <= 0.01 * u) as Td.
  { assert (- 0.00001 <= g * f2 <= 0.00001) as B by lra.
    pose proof (prod_bound (g * f2) D2 0.00001 (592.02 * u) ltac:(lra) BD2). lra. }
  assert (L <= 1545840000 * u + 1) as BL.
  { rewrite HL. unfold Rdiv. fold u.
    assert (0 <= kappa * xf <= 1545840000) as B.
    { assert (0 <= kappa * xf) by (apply Rmult_le_pos; lra).
      assert (kappa * xf <= 0.8588 * 1800000000)
        by (apply Rmult_le_compat; lra). lra. }
    assert (0 <= (1545840000 - kappa * xf) * u) by (apply Rmult_le_pos; lra).
    lra. }
  clear - Ex Ey EL Hr Ta Tb Tc Td Te BL HuM HM Hu HL0.
  assert (r - x = (r - kappa * L * psi)
                  + (g * f1 - 1) * x - g * f2 * y
                  - g * f1 * D1 + g * f2 * D2 + lam * (kappa * psi)) as E.
  { rewrite EL. rewrite Ex, Ey. ring. }
  rewrite E. clear E EL Ex Ey.
  set (t0 := r - kappa * L * psi) in *.
  set (ta := (g * f1 - 1) * x) in *. set (tb := g * f2 * y) in *.
  set (tc := g * f1 * D1) in *. set (td := g * f2 * D2) in *.
  set (te := lam * (kappa * psi)) in *.
  clearbody t0 ta tb tc td te. lra.
Qed.

End RoundTripReal.

(** ** From the engines to the round trip *)

Lemma znorm2_ipow_unit (q : Z) : znorm2 (ipow q) = 1.
Proof.
  unfold znorm2, ipow.
  pose proof (Z.mod_pos_bound q 4 ltac:(lia)) as Hq.
  assert (q mod 4 = 0 \/ q mod 4 = 1 \/ q mod 4 = 2 \/ q mod 4 = 3)
    as [-> | [-> | [-> | ->]]] by lia; reflexivity.
Qed.

Section Bridge.

Local Open Scope R_scope.

Lemma conj_back (I0 zp G : R * R) :
  cmul (cmul I0 (conj G)) (cmul zp G) = cscale (cnorm2 G) (cmul I0 zp).
Proof. unfold cmul, conj, cscale, cnorm2. cbn [fst snd]. f_equal; ring. Qed.

Lemma phase_split (N : R) (A Psi H : R * R) :
  0 < N -> cscale N Psi = cmul A (cmul H H) ->
  fst Psi = fst A * ((fst H * fst H - snd H * snd H) / N)
            - snd A * (2 * fst H * snd H / N) /\
  snd Psi = fst A * (2 * fst H * snd H / N)
            + snd A * ((fst H * fst H - snd H * snd H) / N).
Proof.
  intros HN E. destruct Psi as [p1 p2], A as [a1 a2], H as [h1 h2].
  unfold cscale, cmul in E. cbn [fst snd] in *.
  injection E as E1 E2.
  assert (N * / N = 1) as EN by (apply Rinv_r; lra).
  split.
  - replace p1 with (N * p1 * / N) by (rewrite (Rmult_comm N p1), Rmult_assoc, EN; ring).
    rewrite E1. unfold Rdiv. ring.
  - replace p2 with (N * p2 * / N) by (rewrite (Rmult_comm N p2), Rmult_assoc, EN; ring).
    rewrite E2. unfold Rdiv. ring.
Qed.

Lemma round_trip_bridge (x y k x' y' q0 L r1 r2 : Z) (ds : list Z)
      (Psi H : R * R) :
  (0 <= k)%Z ->
  (2 ^ 29 <= Z.max (Z.abs x) (Z.abs y) * 2 ^ k)%Z ->
  (x * 2 ^ k, y * 2 ^ k)%Z = zmul (ipow q0) (x', y') ->
  Forall unit_dir ds -> length ds = 22%nat ->
  (0 < fst (srun 1 ds (x', y')) <= val_max)%Z ->
  (Z.abs (snd (srun 1 ds (x', y'))) <= 440)%Z ->
  (0 <= L)%Z ->
  (2 ^ 32 * (2 ^ k * L)
   <= PVG_FT_TRIG_SCALE * fst (srun 1 ds (x', y')) + 2 ^ 32)%Z ->
  (PVG_FT_TRIG_SCALE * fst (srun 1 ds (x', y'))
   < 2 ^ 32 * (2 ^ k * (L + 1)))%Z ->
  0 < fst H -> - fst H <= 262144 * snd H <= fst H ->
  cscale (cnorm2 H) Psi
  = cmul (cmul (real2 (ipow q0)) (conj (cprod 1 ds))) (cmul H H) ->
  - (/ 2 + 30 * IZR L / 536870912) <= IZR r1 - kappa * IZR L * fst Psi
    <= / 2 + 30 * IZR L / 536870912 ->
  - (/ 2 + 30 * IZR L / 536870912) <= IZR r2 - kappa * IZR L * snd Psi
    <= / 2 + 30 * IZR L / 536870912 ->
  (65536 * Z.abs (r1 - x) <= 114688 + Z.max (Z.abs x) (Z.abs y))%Z /\
  (65536 * Z.abs (r2 - y) <= 114688 + Z.max (Z.abs x) (Z.abs y))%Z.
Proof.
  intros Hk Hscale Hturn Hu Hlen Hxf Hyf HL0 HLhi HLlo Hpos Hslope Hphase Hr1 Hr2.
  set (M := Z.max (Z.abs x) (Z.abs y)) in *.
  pose proof (srun_exact ds (x', y') ltac:(lia) (Forall_unit_dir_tern _ Hu))
    as [Wx Wy].
  set (xf := fst (srun 1 ds (x', y'))) in *.
  set (yf := snd (srun 1 ds (x', y'))) in *.
  set (G := cprod 1 ds) in *.
  set (zp := real2 (x', y')) in *.
  set (I0 := real2 (ipow q0)) in *.
  set (A := cmul I0 (conj G)) in *.
  set (e := cmul zp G) in *.
  change (- 33 <= IZR xf - fst e <= 33) in Wx.
  change (- 33 <= IZR yf - snd e <= 33) in Wy.
  assert (cnorm2 G = kprod 1 22) as EG
    by (unfold G; rewrite (cnorm2_cprod_unit ds 1 Hu), Hlen; reflexivity).
  pose proof kprod_22_range as HK.
  pose proof gain_times_scale as Hg.
  set (K := kprod 1 22) in *.
  assert (cnorm2 A = K) as EA.
  { unfold A. rewrite cnorm2_cmul, cnorm2_conj, EG.
    unfold I0. rewrite cnorm2_real2, znorm2_ipow_unit. ring. }
  (* the vector at the scale of the pre-normalization *)
  assert (0 < 2 ^ k)%Z as Hpk by (apply Z.pow_pos_nonneg; lia).
  set (P := IZR (2 ^ k)) in *.
  assert (0 < P) as HP by (apply (IZR_lt 0); exact Hpk).
  assert (cscale P (IZR x, IZR y) = cmul I0 zp) as Ev.
  { unfold I0, zp. rewrite <- real2_zmul, <- Hturn.
    unfold real2, cscale, P. cbn [fst snd]. rewrite !mult_IZR. f_equal; ring. }
  assert (cmul A e = cscale (K * P) (IZR x, IZR y)) as EAe.
  { unfold A, e. rewrite conj_back, EG, <- Ev.
    unfold cscale. cbn [fst snd]. f_equal; ring. }
  (* the phase *)
  set (N := fst H * fst H + snd H * snd H).
  assert (0 < N) as HN.
  { unfold N. assert (0 < fst H * fst H) by (apply Rmult_lt_0_compat; lra).
    pose proof (Rle_0_sqr (snd H)) as Hq. unfold Rsqr in Hq. lra. }
  destruct (phase_split N A Psi H HN Hphase) as [Ep1 Ep2].
  destruct (phase_bounds (fst H) (snd H) Hpos Hslope) as (Hf & Hf1 & Hf2).
  fold N in Hf, Hf1, Hf2.
  set (f1 := (fst H * fst H - snd H * snd H) / N) in *.
  set (f2 := 2 * fst H * snd H / N) in *.
  (* the length stored *)
  set (lam := IZR L - kappa * IZR xf / P).
  assert (IZR L = kappa * IZR xf / P + lam) as EL by (unfold lam; ring).
  assert (- 1 <= lam <= 1) as Hlam.
  { apply IZR_le in HLhi. apply IZR_lt in HLlo.
    rewrite plus_IZR, !mult_IZR in HLhi. rewrite !mult_IZR, plus_IZR in HLlo.
    fold P in HLhi, HLlo.
    change (IZR (2 ^ 32)) with 4294967296 in HLhi, HLlo.
    assert (/ P * P = 1) as EP by (apply Rinv_l; lra).
    assert (0 < / P) as HiP by (apply Rinv_0_lt_compat; exact HP).
    assert (1 <= P) as HP1 by (apply (IZR_le 1); lia).
    assert (/ P <= 1).
    { assert (0 <= (P - 1) * / P) by (apply Rmult_le_pos; lra).
      replace ((P - 1) * / P) with (/ P * P - / P) in * by ring. lra. }
    unfold lam, kappa, Rdiv.
    replace (2 ^ 32) with 4294967296 by (cbn [pow]; lra).
    set (S := IZR PVG_FT_TRIG_SCALE) in *.
    assert (S * IZR xf * / P < 4294967296 * (IZR L + 1)) as H1.
    { assert (0 < (4294967296 * (P * (IZR L + 1)) - S * IZR xf) * / P)
        by (apply Rmult_lt_0_compat; lra).
      replace ((4294967296 * (P * (IZR L + 1)) - S * IZR xf) * / P)
        with (4294967296 * (IZR L + 1) * (/ P * P) - S * IZR xf * / P) in *
        by ring.
      rewrite EP in *. lra. }
    assert (4294967296 * IZR L <= S * IZR xf * / P + 4294967296 * / P) as H2.
    { assert (0 <= (S * IZR xf + 4294967296 - 4294967296 * (P * IZR L)) * / P)
        by (apply Rmult_le_pos; lra).
      replace ((S * IZR xf + 4294967296 - 4294967296 * (P * IZR L)) * / P)
        with (S * IZR xf * / P + 4294967296 * / P
              - 4294967296 * IZR L * (/ P * P)) in * by ring.
      rewrite EP in *. lra. }
    split; lra. }
  (* the bounds of the vector *)
  assert (IZR (Z.abs x) <= IZR M /\ IZR (Z.abs y) <= IZR M) as [Mx My]
    by (split; apply IZR_le; unfold M; lia).
  rewrite abs_IZR in Mx, My.
  assert (- IZR M <= IZR x <= IZR M) as Bx
    by (unfold Rabs in Mx; destruct (Rcase_abs (IZR x)); lra).
  assert (- IZR M <= IZR y <= IZR M) as By
    by (unfold Rabs in My; destruct (Rcase_abs (IZR y)); lra).
  assert (536870912 <= IZR M * P) as HMP.
  { unfold P. rewrite <- mult_IZR. apply (IZR_le 536870912). exact Hscale. }
  (* where the polarization engine ends *)
  assert (0 <= IZR xf <= 1800000000) as Bxf.
  { split; [apply (IZR_le 0); lia | apply (IZR_le _ 1800000000); apply Hxf]. }
  assert (- 440 <= IZR yf <= 440) as Byf.
  { split; [apply (IZR_le (-440)) | apply (IZR_le _ 440)]; lia. }
  set (d1 := fst e - IZR xf).
  set (d2 := snd e).
  assert (- 33 <= d1 <= 33) as Bd1 by (unfold d1; lra).
  assert (- 473 <= d2 <= 473) as Bd2 by (unfold d2; lra).
  assert (e = (IZR xf + d1, d2)) as Ee.
  { unfold d1, d2. rewrite (surjective_pairing e) at 1. f_equal. ring. }
  clearbody A e. rewrite Ee in EAe.
  unfold cmul, cscale in EAe. cbn [fst snd] in EAe.
  injection EAe as E1 E2.
  unfold cnorm2 in EA.
  set (a1 := fst A) in *. set (a2 := snd A) in *.
  rewrite Ep1 in Hr1. rewrite Ep2 in Hr2.
  cbn [pow] in Hg.
  assert (- (1.75 + IZR M / 65536) <= IZR r1 - IZR x <= 1.75 + IZR M / 65536)
    as R1.
  { apply (round_trip_scalar (IZR x) (IZR y) (IZR M) P (IZR xf) d1 d2 a1 a2 K
                             f1 f2 (IZR L) lam (IZR r1)); try assumption;
      try lra.
    apply (IZR_le 0). exact HL0. }
  assert (- (1.75 + IZR M / 65536) <= IZR r2 - IZR y <= 1.75 + IZR M / 65536)
    as R2.
  { apply (round_trip_scalar (IZR y) (- IZR x) (IZR M) P (IZR xf) d1 d2 a2
                             (- a1) K f1 f2 (IZR L) lam (IZR r2));
      try assumption; try lra.
    apply (IZR_le 0). exact HL0. }
  clear - R1 R2.
  split; apply le_IZR; rewrite plus_IZR, mult_IZR, abs_IZR, minus_IZR.
  - unfold Rabs. destruct (Rcase_abs (IZR r1 - IZR x)); lra.
  - unfold Rabs. destruct (Rcase_abs (IZR r2 - IZR y)); lra.
Qed.

End Bridge.

(** ** The polar round trip *)

(** The rotation of a stored length [L] by an angle [thr], read against
    the exact rotation: the quarter turns of the angle followed by the
    exact rotations of the directions taken. *)
Lemma from_polar_back (L thr : Z) :
  0 < L < 2 ^ 29 -> int32 thr ->
  exists (ds' : list Z) (r1 r2 : Z),
    Forall unit_dir ds' /\ length ds' = 22%nat /\
    Z.abs (thr - quarter_turns thr * PVG_FT_ANGLE_PI2 + wsum 1 ds') <= 1 /\
    PVG_FT_Vector_From_Polar L thr = Some (mkVec r1 r2) /\
    (- (/ 2 + 30 * IZR L / 536870912)
     <= IZR r1 - kappa * IZR L
                 * fst (cmul (real2 (ipow (quarter_turns thr))) (cprod 1 ds'))
     <= / 2 + 30 * IZR L / 536870912)%R /\
    (- (/ 2 + 30 * IZR L / 536870912)
     <= IZR r2 - kappa * IZR L
                 * snd (cmul (real2 (ipow (quarter_turns thr))) (cprod 1 ds'))
     <= / 2 + 30 * IZR L / 536870912)%R.
Proof.
  intros HL Ht. change (2 ^ 29) with 536870912 in HL.
  assert (Z.max (Z.abs L) (Z.abs 0) = L) as EM by lia.
  destruct (prenorm_left L 0 ltac:(lia)
              ltac:(rewrite EM; change (2 ^ 30) with 1073741824; lia))
    as (k & Hk & Hpre & Hb).
  rewrite EM in Hb. change (2 ^ 29) with 536870912 in Hb.
  change (2 ^ 30) with 1073741824 in Hb.
  assert (1 <= k) as Hk1.
  { destruct (Z.eq_dec k 0) as [-> | Hne]; [|lia].
    change (2 ^ 0) with 1 in Hb. lia. }
  assert (0 < 2 ^ k) as Hpk by (apply Z.pow_pos_nonneg; lia).
  set (v := mkVec (L * 2 ^ k) (0 * 2 ^ k)) in *.
  assert (znorm2 (vx v, vy v) <= 2 ^ 61) as Hn.
  { unfold znorm2, v. cbn [vx vy fst snd].
    change (2 ^ 61) with 2305843009213693952.
    assert (L * 2 ^ k * (L * 2 ^ k) <= 1073741824 * 1073741824)
      by (apply Z.mul_le_mono_nonneg; lia).
    lia. }
  pose proof (pseudo_rotate_srun v thr Hn Ht) as Hrun. cbv zeta in Hrun.
  pose proof (quarter_turns_spec thr Ht) as (_ & Hr & _).
  set (q := quarter_turns thr) in *.
  set (p := zmul (ipow q) (vx v, vy v)) in *.
  set (r := thr - q * PVG_FT_ANGLE_PI2) in *.
  pose proof (decisions_unit by_angle 22 1 (fst p, snd p, r)) as Hu.
  pose proof (decisions_length by_angle 22 1 (fst p, snd p, r)) as Hl.
  pose proof (rotate_residual (fst p) (snd p) r ltac:(lia)) as Hres.
  revert Hrun Hu Hl Hres.
  generalize (decisions by_angle 1 22 (fst p, snd p, r)).
  intros ds Hrun Hu Hl Hres.
  assert (znorm2 p <= 2 ^ 61) as Hp by (unfold p; now rewrite znorm2_ipow).
  pose proof (srun_bounded ds p ltac:(lia) (Forall_unit_dir_tern _ Hu) Hp)
    as [Bx By].
  pose proof (srun_exact ds p ltac:(lia) (Forall_unit_dir_tern _ Hu))
    as [Wx Wy].
  set (w := srun 1 ds p) in *.
  unfold PVG_FT_Vector_From_Polar.
  rewrite (Vector_Rotate_steps (mkVec L 0) thr v _ k
             ltac:(cbn [vx vy]; lia) Hpre ltac:(lia) Hrun).
  cbn [vx vy].
  destruct (downscale_near (fst w) Bx) as [Dx DBx].
  destruct (downscale_near (snd w) By) as [Dy DBy].
  pose proof (round_back_near _ k ltac:(lia) DBx) as Rx.
  pose proof (round_back_near _ k ltac:(lia) DBy) as Ry.
  set (r1 := round_back (ft_trig_downscale (fst w)) k) in *.
  set (r2 := round_back (ft_trig_downscale (snd w)) k) in *.
  exists ds, r1, r2.
  split; [exact Hu|]. split; [exact Hl|]. split; [exact Hres|].
  split; [reflexivity|].
  assert (Z.of_nat (Z.to_nat k) = k) as Ek by lia.
  assert (1 <= Z.to_nat k)%nat as Hkn by lia.
  rewrite <- Ek in Rx, Ry.
  set (e := cmul (real2 p) (cprod 1 ds)) in *.
  change (- 33 <= IZR (fst w) - fst e <= 33)%R in Wx.
  change (- 33 <= IZR (snd w) - snd e <= 33)%R in Wy.
  pose proof (rotate_back_real (fst w) _ r1 (fst e) (Z.to_nat k) Wx Dx Rx Hkn)
    as Q1.
  pose proof (rotate_back_real (snd w) _ r2 (snd e) (Z.to_nat k) Wy Dy Ry Hkn)
    as Q2.
  set (Psi := cmul (real2 (ipow q)) (cprod 1 ds)).
  set (P2 := (2 ^ Z.to_nat k)%R) in *.
  assert (IZR (2 ^ k) = P2) as EP2 by (unfold P2; rewrite <- pow2_IZR, Ek; reflexivity).
  assert (0 < P2)%R as HP2 by (rewrite <- EP2; apply (IZR_lt 0); exact Hpk).
  assert (e = cscale (IZR L * P2) Psi) as Ee.
  { unfold e, Psi, p. rewrite real2_zmul.
    unfold v, real2, cscale, cmul. cbn [vx vy fst snd].
    rewrite !mult_IZR, EP2. f_equal; ring. }
  assert (536870912 <= IZR L * P2)%R as HLP.
  { rewrite <- EP2, <- mult_IZR. apply (IZR_le 536870912). lia. }
  assert (0 < IZR L)%R as HL0 by (apply (IZR_lt 0); lia).
  rewrite Ee in Q1, Q2. unfold cscale in Q1, Q2. cbn [fst snd] in Q1, Q2.
  assert (/ P2 * P2 = 1)%R as EI by (apply Rinv_l; lra).
  assert (0 < / P2)%R as HI by (apply Rinv_0_lt_compat; exact HP2).
  assert (30 / P2 <= 30 * IZR L / 536870912)%R as Hs.
  { assert (0 <= (IZR L * P2 - 536870912) * / P2)%R
      by (apply Rmult_le_pos; lra).
    replace ((IZR L * P2 - 536870912) * / P2)%R
      with (IZR L * (/ P2 * P2) - 536870912 * / P2)%R in * by ring.
    rewrite EI in *. unfold Rdiv. lra. }
  assert (forall t : R, (kappa * (IZR L * P2 * t) / P2 = kappa * IZR L * t)%R)
    as Ec.
  { intros t. unfold Rdiv.
    replace (kappa * (IZR L * P2 * t) * / P2)%R
      with (kappa * IZR L * t * (/ P2 * P2))%R by ring.
    rewrite EI. ring. }
  rewrite Ec in Q1, Q2.
  clear - Q1 Q2 Hs. split; lra.
Qed.

(** X20: polarizing a vector and turning the length found by the angle
    found gives the vector back.  For a non-zero vector with components
    below 2^28 in magnitude, the angle stored by [PVG_FT_Vector_Polarize]
    is the value of [PVG_FT_Atan2]; [PVG_FT_Vector_From_Polar] of the
    length and the angle stored returns, and each coordinate of its result
    lies within [1.75 + M / 65536] of the coordinate of the argument, [M]
    being the larger magnitude of the two. *)
Theorem polar_round_trip (x y length angle : Z) :
  ~ (x = 0 /\ y = 0) -> Z.max (Z.abs x) (Z.abs y) < 2 ^ 28 ->
  snd (PVG_FT_Vector_Polarize (mkVec x y) length angle) = PVG_FT_Atan2 x y /\
  exists x2 y2 : Z,
    PVG_FT_Vector_From_Polar
      (fst (PVG_FT_Vector_Polarize (mkVec x y) length angle))
      (snd (PVG_FT_Vector_Polarize (mkVec x y) length angle))
    = Some (mkVec x2 y2) /\
    65536 * Z.abs (x2 - x) <= 114688 + Z.max (Z.abs x) (Z.abs y) /\
    65536 * Z.abs (y2 - y) <= 114688 + Z.max (Z.abs x) (Z.abs y).
Proof.
  intros Hnz HM. change (2 ^ 28) with 268435456 in HM.
  destruct (prenorm_left x y Hnz
              ltac:(change (2 ^ 30) with 1073741824; lia))
    as (k & Hk & Hpre & Hb).
  split.
  { rewrite (Vector_Polarize_steps x y k length angle Hnz ltac:(lia) Hpre).
    cbn [snd]. unfold PVG_FT_Atan2.
    replace ((x =? 0) && (y =? 0)) with false; [now rewrite Hpre|].
    symmetry. apply andb_false_iff.
    destruct (Z.eq_dec x 0) as [E|E].
    - right. apply Z.eqb_neq. lia.
    - left. now apply Z.eqb_neq. }
  set (M := Z.max (Z.abs x) (Z.abs y)) in *.
  change (2 ^ 29) with 536870912 in Hb. change (2 ^ 30) with 1073741824 in Hb.
  assert (0 < 2 ^ k) as Hpk by (apply Z.pow_pos_nonneg; lia).
  assert (4 <= 2 ^ k) as Hp4.
  { destruct (Z_lt_le_dec k 2) as [Hlt | Hge].
    - assert (2 ^ k <= 2 ^ 1) as H1 by (apply Z.pow_le_mono_r; lia).
      change (2 ^ 1) with 2 in H1. nia.
    - change 4 with (2 ^ 2). apply Z.pow_le_mono_r; lia. }
  rewrite (Vector_Polarize_steps x y k length angle Hnz ltac:(lia) Hpre).
  cbn [fst snd].
  destruct (pseudo_polarize_run (x * 2 ^ k) (y * 2 ^ k)
              ltac:(rewrite max_scaled by lia;
                    change (2 ^ 29) with 536870912;
                    change (2 ^ 30) with 1073741824; exact Hb))
    as (x' & y' & q0 & ds & Hq0 & Hturn & Hx' & Hy' & Hu & Hlen & Hpol & Hxf & Hyf).
  rewrite Hpol. cbn [vx vy].
  change (2 ^ 29) with 536870912 in Hxf, Hx'.
  set (xf := fst (srun 1 ds (x', y'))) in *.
  set (traw := q0 * PVG_FT_ANGLE_PI2 + wsum 1 ds) in *.
  destruct (stored_length xf k ltac:(lia) ltac:(lia)) as (HL0 & HLhi & HLlo).
  set (L := Z.shiftr (ft_trig_downscale xf) k) in *.
  pose proof (wsum_rest ds 1 ltac:(lia) (Forall_unit_dir_tern _ Hu)) as Bw.
  rewrite rest_1 in Bw.
  assert (Z.abs traw <= 2 ^ 30) as Btraw
    by (unfold traw; angle_consts; change (2 ^ 30) with 1073741824; lia).
  pose proof (polarize_round_near traw Btraw) as Hnear.
  set (thr := polarize_round traw) in *.
  assert (int32 thr) as Hthr
    by (unfold traw in *; angle_consts; unfold_ints; lia).
  destruct (Z.eq_dec L 0) as [EL0 | HLn].
  - rewrite EL0. exists 0, 0. split; [reflexivity|].
    apply (round_trip_bridge x y k x' y' q0 0 0 0 ds
             (cmul (real2 (ipow q0)) (conj (cprod 1 ds))) (1, 0)%R);
      try assumption; try lia; fold xf;
      try (rewrite <- EL0; assumption).
    + cbn [fst]. lra.
    + cbn [fst snd]. lra.
    + unfold cscale, cmul, cnorm2. cbn [fst snd]. f_equal; ring.
    + match goal with
      | |- (_ <= _ - ?t <= _)%R => replace t with 0%R by ring
      end. lra.
    + match goal with
      | |- (_ <= _ - ?t <= _)%R => replace t with 0%R by ring
      end. lra.
  - assert (0 < L < 2 ^ 29) as HLr.
    { split; [lia|]. change (2 ^ 29) with 536870912.
      assert (4 * L <= 2 ^ k * L) as H4
        by (apply Z.mul_le_mono_nonneg_r; lia).
      clear - H4 HLhi Hxf HL0.
      unfold val_max, PVG_FT_TRIG_SCALE in *. pow_consts. lia. }
    destruct (from_polar_back L thr HLr Hthr)
      as (ds' & r1 & r2 & Hu' & Hlen' & Hres & Hfrom & Q1 & Q2).
    exists r1, r2. split; [exact Hfrom|].
    destruct (engines_phase q0 (quarter_turns thr) ds ds' Hu Hu' Hlen Hlen')
      as (H & Hpos & Hslope & Hphase).
    { unfold traw in *. lia. }
    apply (round_trip_bridge x y k x' y' q0 L r1 r2 ds
             (cmul (real2 (ipow (quarter_turns thr))) (cprod 1 ds')) H);
      try assumption; try lia.
Qed.

Lemma polar_round_trip_witness :
  snd (PVG_FT_Vector_Polarize (mkVec 30000 (-40000)) 0 0)
  = PVG_FT_Atan2 30000 (-40000) /\
  exists x2 y2 : Z,
    PVG_FT_Vector_From_Polar
      (fst (PVG_FT_Vector_Polarize (mkVec 30000 (-40000)) 0 0))
      (snd (PVG_FT_Vector_Polarize (mkVec 30000 (-40000)) 0 0))
    = Some (mkVec x2 y2) /\
    65536 * Z.abs (x2 - 30000) <= 114688 + Z.max (Z.abs 30000) (Z.abs (-40000)) /\
    65536 * Z.abs (y2 - -40000) <= 114688 + Z.max (Z.abs 30000) (Z.abs (-40000)).
Proof.
  apply (polar_round_trip 30000 (-40000) 0 0).
  - intros [H _]. discriminate H.
  - vm_compute. reflexivity.
Defined.

(** ** The sine against the unit vector *)

(** A quarter turn more and the turns the other way round: the mirror
    image in the first diagonal. *)
Lemma ipow_mirror (q : Z) : ipow (1 - q) = (snd (ipow q), fst (ipow q)).
Proof.
  unfold ipow. rewrite Zminus_mod.
  pose proof (Z.mod_pos_bound q 4 ltac:(lia)) as Hq.
  assert (q mod 4 = 0 \/ q mod 4 = 1 \/ q mod 4 = 2 \/ q mod 4 = 3)
    as [-> | [-> | [-> | ->]]] by lia; reflexivity.
Qed.

(** The rotation engine on the start vector of the cosine: the directions
    taken, the angle left and the exact rotation. *)
Lemma unit_run (theta : Z) :
  int32 theta ->
  exists (ds : list Z) (x' y' : Z),
    ds = angle_dirs 1 22 (theta - quarter_turns theta * PVG_FT_ANGLE_PI2) /\
    Forall unit_dir ds /\ length ds = 22%nat /\
    Z.abs (theta - quarter_turns theta * PVG_FT_ANGLE_PI2 + wsum 1 ds) <= 1 /\
    ft_trig_pseudo_rotate (mkVec trig_unit 0) theta = Some (mkVec x' y') /\
    within 33 (real2 (x', y'))
           (cscale 14408027
                   (cmul (real2 (ipow (quarter_turns theta))) (cprod 1 ds))).
Proof.
  intros Ht.
  assert (znorm2 (vx (mkVec trig_unit 0), vy (mkVec trig_unit 0)) <= 2 ^ 61)
    as Hn by (vm_compute; discriminate).
  pose proof (pseudo_rotate_srun (mkVec trig_unit 0) theta Hn Ht) as Hrun.
  cbv zeta in Hrun. cbn [vx vy] in Hrun, Hn.
  pose proof (quarter_turns_spec theta Ht) as (_ & Hr & _).
  set (q := quarter_turns theta) in *.
  set (p := zmul (ipow q) (trig_unit, 0)) in *.
  set (r := theta - q * PVG_FT_ANGLE_PI2) in *.
  pose proof (decisions_unit by_angle 22 1 (fst p, snd p, r)) as Hu.
  pose proof (decisions_length by_angle 22 1 (fst p, snd p, r)) as Hl.
  pose proof (rotate_residual (fst p) (snd p) r ltac:(lia)) as Hres.
  pose proof (decisions_by_angle 22 1 (fst p) (snd p) r) as Hdirs.
  revert Hrun Hu Hl Hres Hdirs.
  generalize (decisions by_angle 1 22 (fst p, snd p, r)).
  intros ds Hrun Hu Hl Hres Hdirs.
  pose proof (srun_exact ds p ltac:(lia) (Forall_unit_dir_tern _ Hu)) as Hw.
  exists ds, (fst (srun 1 ds p)), (snd (srun 1 ds p)).
  split; [exact Hdirs|]. split; [exact Hu|]. split; [exact Hl|]. split; [exact Hres|].
  split; [exact Hrun|].
  rewrite <- surjective_pairing.
  replace (cscale 14408027 (cmul (real2 (ipow q)) (cprod 1 ds)))
    with (cmul (real2 p) (cprod 1 ds)); [exact Hw|].
  unfold p. rewrite real2_zmul.
  change (real2 (trig_unit, 0)) with (14408027%R, 0%R).
  unfold cscale, cmul. cbn [fst snd]. f_equal; ring.
Qed.

Section Mirror.

Local Open Scope R_scope.

(** On the reals: the abscissa of the run on the complement of the angle
    against the ordinate of the run on the angle. *)
Lemma mirror_real (c s f1 f2 K : R) :
  c * c + s * s = K -> 1 <= K <= 1.36 ->
  1 - / 34359738368 <= f1 <= 1 -> - / 131072 <= f2 <= / 131072 ->
  - 129 <= 14408027 * (s * f1 - c * f2) - 14408027 * s <= 129.
Proof.
  intros HK HKr Hf1 Hf2.
  pose proof (square_bound c s 1.17 ltac:(lra) ltac:(lra)) as Bc.
  pose proof (square_bound s c 1.17 ltac:(lra) ltac:(lra)) as Bs.
  assert (- / 34359738368 <= f1 - 1 <= / 34359738368) as Bf by lra.
  pose proof (prod_bound s (f1 - 1) 1.17 (/ 34359738368) Bs Bf).
  pose proof (prod_bound c f2 1.17 (/ 131072) Bc Hf2).
  lra.
Qed.

End Mirror.

(** The two roundings of values at most 195 apart differ by at most one. *)
Lemma cos_round_close (a b : Z) :
  Z.abs a <= 2 ^ 30 -> Z.abs b <= 2 ^ 30 -> Z.abs (a - b) <= 195 ->
  Z.abs (cos_round a - cos_round b) <= 1.
Proof.
  intros Ha Hb Hab.
  pose proof (cos_round_near a Ha). pose proof (cos_round_near b Hb). lia.
Qed.

Lemma sin_unit_raw (theta : Z) :
  int32 theta -> int32 (PVG_FT_ANGLE_PI2 - theta) ->
  exists x1 y1 x2 y2 : Z,
    ft_trig_pseudo_rotate (mkVec trig_unit 0) theta = Some (mkVec x1 y1) /\
    ft_trig_pseudo_rotate (mkVec trig_unit 0) (PVG_FT_ANGLE_PI2 - theta)
    = Some (mkVec x2 y2) /\
    Z.abs (x2 - y1) <= 195.
Proof.
  intros Ht Ht2.
  destruct (unit_run theta Ht)
    as (ds1 & x1 & y1 & _ & Hu1 & Hl1 & Hres1 & Hrot1 & [W1x W1y]).
  destruct (unit_run (PVG_FT_ANGLE_PI2 - theta) Ht2)
    as (ds2 & x2 & y2 & _ & Hu2 & Hl2 & Hres2 & Hrot2 & [W2x W2y]).
  exists x1, y1, x2, y2. split; [exact Hrot1|]. split; [exact Hrot2|].
  set (q1 := quarter_turns theta) in *.
  set (q2 := quarter_turns (PVG_FT_ANGLE_PI2 - theta)) in *.
  destruct (engines_phase (1 - q1) q2 ds1 ds2 Hu1 Hu2 Hl1 Hl2)
    as (H & Hpos & Hslope & Hphase).
  { clear - Hres1 Hres2. angle_consts. lia. }
  set (N := (fst H * fst H + snd H * snd H)%R).
  assert (0 < N)%R as HN.
  { unfold N. assert (0 < fst H * fst H)%R by (apply Rmult_lt_0_compat; lra).
    pose proof (Rle_0_sqr (snd H)) as Hq. unfold Rsqr in Hq. lra. }
  destruct (phase_split N _ _ H HN Hphase) as [Ep1 _].
  destruct (phase_bounds (fst H) (snd H) Hpos Hslope) as (_ & Hf1 & Hf2).
  fold N in Hf1, Hf2.
  set (f1 := ((fst H * fst H - snd H * snd H) / N)%R) in *.
  set (f2 := (2 * fst H * snd H / N)%R) in *.
  set (U := cmul (real2 (ipow q1)) (cprod 1 ds1)) in *.
  assert (cnorm2 U = kprod 1 22) as EU.
  { unfold U. rewrite cnorm2_cmul, cnorm2_real2, znorm2_ipow_unit.
    rewrite (cnorm2_cprod_unit ds1 1 Hu1), Hl1. ring. }
  assert (cmul (real2 (ipow (1 - q1))) (conj (cprod 1 ds1))
          = (snd U, fst U)) as EA.
  { rewrite ipow_mirror. unfold U, real2, cmul, conj. cbn [fst snd].
    f_equal; ring. }
  rewrite EA in Ep1. cbn [fst snd] in Ep1.
  pose proof kprod_22_range as HK.
  unfold cnorm2 in EU.
  pose proof (mirror_real (fst U) (snd U) f1 f2 (kprod 1 22) EU HK Hf1 Hf2)
    as Hm.
  change (- 33 <= IZR y1 - 14408027 * snd U <= 33)%R in W1y.
  change (- 33 <= IZR x2
                  - 14408027 * fst (cmul (real2 (ipow q2)) (cprod 1 ds2))
          <= 33)%R in W2x.
  rewrite Ep1 in W2x.
  assert (- 195 <= x2 - y1 <= 195) as Hz.
  { clear - W1y W2x Hm. split; apply le_IZR; rewrite minus_IZR; lra. }
  lia.
Qed.

(** X21: the sine is the ordinate of the unit vector, up to one unit.
    For a 32-bit angle whose complement to a quarter turn is a 32-bit
    value too, [PVG_FT_Vector_Unit] returns the value of [PVG_FT_Cos] as
    abscissa and the value of [PVG_FT_Sin], up to one unit, as ordinate;
    and the squares of the cosine and of the sine add up to 2^32 within
    2^18. *)
Theorem Sin_matches_Unit (theta : Z) :
  int32 theta -> int32 (PVG_FT_ANGLE_PI2 - theta) ->
  exists (v : PVG_FT_Vector) (c s : Z),
    PVG_FT_Vector_Unit theta = Some v /\
    PVG_FT_Cos theta = Some c /\ PVG_FT_Sin theta = Some s /\
    vx v = c /\ Z.abs (vy v - s) <= 1 /\
    Z.abs (c * c + s * s - 2 ^ 32) <= 2 ^ 18.
Proof.
  intros Ht Ht2.
  destruct (sin_unit_raw theta Ht Ht2)
    as (x1 & y1 & x2 & y2 & Hrot1 & Hrot2 & Hclose).
  destruct (unit_vector_bounds theta Ht) as (x1' & y1' & Hrot1' & Hc & Bx & By).
  rewrite Hrot1 in Hrot1'. injection Hrot1' as <- <-.
  destruct (unit_vector_bounds _ Ht2) as (x2' & y2' & Hrot2' & _ & Bx2 & _).
  rewrite Hrot2 in Hrot2'. injection Hrot2' as <- <-.
  destruct (unit_vector_raw theta Ht) as (x1' & y1' & e1 & Hr1 & _ & _ & _ & By1).
  rewrite Hrot1 in Hr1. injection Hr1 as <- <-.
  destruct (unit_vector_raw _ Ht2) as (x2' & y2' & e2 & Hr2 & _ & _ & Bx2r & _).
  rewrite Hrot2 in Hr2. injection Hr2 as <- <-.
  change (2 ^ 24 + 33) with 16777249 in *.
  pose proof (cos_round_close x2 y1
                ltac:(change (2 ^ 30) with 1073741824; lia)
                ltac:(change (2 ^ 30) with 1073741824; lia) Hclose) as Hd.
  unfold PVG_FT_Vector_Unit, PVG_FT_Sin, PVG_FT_Cos. fold trig_unit.
  rewrite (wrap32_id _ Ht2), Hrot1, Hrot2.
  do 3 eexists.
  split; [reflexivity|]. split; [reflexivity|]. split; [reflexivity|].
  cbn [vx vy]. fold (cos_round x1) (cos_round y1) (cos_round x2).
  set (c := cos_round x1) in *. set (u := cos_round y1) in *.
  set (s := cos_round x2) in *.
  split; [reflexivity|]. split; [lia|].
  change (2 ^ 32) with 4294967296 in *. change (2 ^ 17) with 131072 in *.
  change (2 ^ 18) with 262144.
  assert (Z.abs (s * s - u * u) <= 131072) as Hsq.
  { replace (s * s - u * u) with ((s - u) * (s + u)) by ring.
    rewrite Z.abs_mul.
    assert (Z.abs (s - u) * Z.abs (s + u) <= 1 * 131072)
      by (apply Z.mul_le_mono_nonneg; lia).
    lia. }
  lia.
Qed.

Lemma Sin_matches_Unit_witness :
  exists (v : PVG_FT_Vector) (c s : Z),
    PVG_FT_Vector_Unit 1234567 = Some v /\
    PVG_FT_Cos 1234567 = Some c /\ PVG_FT_Sin 1234567 = Some s /\
    vx v = c /\ Z.abs (vy v - s) <= 1 /\
    Z.abs (c * c + s * s - 2 ^ 32) <= 2 ^ 18.
Proof.
  apply (Sin_matches_Unit 1234567);
    vm_compute; (split; [discriminate | reflexivity]).
Defined.

(** ** A rotation and the opposite rotation *)

(** [PVG_FT_Vector_Rotate] against the exact rotation: the quarter turns
    of the angle followed by the exact rotations of the directions
    taken, then the shrink factor. *)
Lemma rotate_exact (x y theta : Z) :
  ~ (x = 0 /\ y = 0) -> Z.max (Z.abs x) (Z.abs y) < 2 ^ 29 -> int32 theta ->
  exists (ds : list Z) (r1 r2 : Z),
    ds = angle_dirs 1 22 (theta - quarter_turns theta * PVG_FT_ANGLE_PI2) /\
    Forall unit_dir ds /\ length ds = 22%nat /\
    Z.abs (theta - quarter_turns theta * PVG_FT_ANGLE_PI2 + wsum 1 ds) <= 1 /\
    PVG_FT_Vector_Rotate (mkVec x y) theta = Some (mkVec r1 r2) /\
    (let Psi := cmul (real2 (ipow (quarter_turns theta))) (cprod 1 ds) in
     let M := IZR (Z.max (Z.abs x) (Z.abs y)) in
     - (/ 2 + 30 * M / 536870912)
     <= IZR r1 - kappa * fst (cmul (IZR x, IZR y) Psi)
     <= / 2 + 30 * M / 536870912 /\
     - (/ 2 + 30 * M / 536870912)
     <= IZR r2 - kappa * snd (cmul (IZR x, IZR y) Psi)
     <= / 2 + 30 * M / 536870912)%R.
Proof.
  intros Hnz HM Ht. change (2 ^ 29) with 536870912 in HM.
  destruct (prenorm_left x y Hnz
              ltac:(change (2 ^ 30) with 1073741824; lia))
    as (k & Hk & Hpre & Hb).
  set (Mz := Z.max (Z.abs x) (Z.abs y)) in *.
  change (2 ^ 29) with 536870912 in Hb.
  change (2 ^ 30) with 1073741824 in Hb.
  assert (1 <= k) as Hk1.
  { destruct (Z.eq_dec k 0) as [-> | Hne]; [|lia].
    change (2 ^ 0) with 1 in Hb. lia. }
  assert (0 < 2 ^ k) as Hpk by (apply Z.pow_pos_nonneg; lia).
  set (v := mkVec (x * 2 ^ k) (y * 2 ^ k)) in *.
  pose proof (prenorm_left_norm x y k ltac:(lia) (proj2 Hb)) as Hn.
  change (znorm2 (x * 2 ^ k, y * 2 ^ k)) with (znorm2 (vx v, vy v)) in Hn.
  pose proof (pseudo_rotate_srun v theta Hn Ht) as Hrun. cbv zeta in Hrun.
  pose proof (quarter_turns_spec theta Ht) as (_ & Hr & _).
  set (q := quarter_turns theta) in *.
  set (p := zmul (ipow q) (vx v, vy v)) in *.
  set (r := theta - q * PVG_FT_ANGLE_PI2) in *.
  pose proof (decisions_unit by_angle 22 1 (fst p, snd p, r)) as Hu.
  pose proof (decisions_length by_angle 22 1 (fst p, snd p, r)) as Hl.
  pose proof (rotate_residual (fst p) (snd p) r ltac:(lia)) as Hres.
  pose proof (decisions_by_angle 22 1 (fst p) (snd p) r) as Hdirs.
  revert Hrun Hu Hl Hres Hdirs.
  generalize (decisions by_angle 1 22 (fst p, snd p, r)).
  intros ds Hrun Hu Hl Hres Hdirs.
  assert (znorm2 p <= 2 ^ 61) as Hp by (unfold p; now rewrite znorm2_ipow).
  pose proof (srun_bounded ds p ltac:(lia) (Forall_unit_dir_tern _ Hu) Hp)
    as [Bx By].
  pose proof (srun_exact ds p ltac:(lia) (Forall_unit_dir_tern _ Hu))
    as [Wx Wy].
  set (w := srun 1 ds p) in *.
  rewrite (Vector_Rotate_steps (mkVec x y) theta v _ k Hnz Hpre ltac:(lia) Hrun).
  cbn [vx vy].
  destruct (downscale_near (fst w) Bx) as [Dx DBx].
  destruct (downscale_near (snd w) By) as [Dy DBy].
  pose proof (round_back_near _ k ltac:(lia) DBx) as Rx.
  pose proof (round_back_near _ k ltac:(lia) DBy) as Ry.
  set (r1 := round_back (ft_trig_downscale (fst w)) k) in *.
  set (r2 := round_back (ft_trig_downscale (snd w)) k) in *.
  exists ds, r1, r2.
  split; [exact Hdirs|].
  split; [exact Hu|]. split; [exact Hl|]. split; [exact Hres|].
  split; [reflexivity|]. cbv zeta.
  assert (Z.of_nat (Z.to_nat k) = k) as Ek by lia.
  assert (1 <= Z.to_nat k)%nat as Hkn by lia.
  rewrite <- Ek in Rx, Ry.
  set (e := cmul (real2 p) (cprod 1 ds)) in *.
  change (- 33 <= IZR (fst w) - fst e <= 33)%R in Wx.
  change (- 33 <= IZR (snd w) - snd e <= 33)%R in Wy.
  pose proof (rotate_back_real (fst w) _ r1 (fst e) (Z.to_nat k) Wx Dx Rx Hkn)
    as Q1.
  pose proof (rotate_back_real (snd w) _ r2 (snd e) (Z.to_nat k) Wy Dy Ry Hkn)
    as Q2.
  set (Psi := cmul (real2 (ipow q)) (cprod 1 ds)).
  set (P2 := (2 ^ Z.to_nat k)%R) in *.
  assert (IZR (2 ^ k) = P2) as EP2
    by (unfold P2; rewrite <- pow2_IZR, Ek; reflexivity).
  assert (0 < P2)%R as HP2 by (rewrite <- EP2; apply (IZR_lt 0); exact Hpk).
  set (Z0 := cmul (IZR x, IZR y) Psi).
  assert (e = cscale P2 Z0) as Ee.
  { unfold e, Z0, Psi, p. rewrite real2_zmul.
    unfold v, real2, cscale, cmul. cbn [vx vy fst snd].
    rewrite !mult_IZR, EP2. f_equal; ring. }
  assert (536870912 <= IZR Mz * P2)%R as HLP.
  { rewrite <- EP2, <- mult_IZR. apply (IZR_le 536870912). lia. }
  rewrite Ee in Q1, Q2. unfold cscale in Q1, Q2. cbn [fst snd] in Q1, Q2.
  assert (/ P2 * P2 = 1)%R as EI by (apply Rinv_l; lra).
  assert (0 < / P2)%R as HI by (apply Rinv_0_lt_compat; exact HP2).
  assert (30 / P2 <= 30 * IZR Mz / 536870912)%R as Hs.
  { assert (0 <= (IZR Mz * P2 - 536870912) * / P2)%R
      by (apply Rmult_le_pos; lra).
    replace ((IZR Mz * P2 - 536870912) * / P2)%R
      with (IZR Mz * (/ P2 * P2) - 536870912 * / P2)%R in * by ring.
    rewrite EI in *. unfold Rdiv. lra. }
  assert (forall t : R, (kappa * (P2 * t) / P2 = kappa * t)%R) as Ec.
  { intros t. unfold Rdiv.
    replace (kappa * (P2 * t) * / P2)%R
      with (kappa * t * (/ P2 * P2))%R by ring.
    rewrite EI. ring. }
  rewrite Ec in Q1, Q2.
  clear - Q1 Q2 Hs. split; lra.
Qed.

Lemma ipow_opp (q : Z) : ipow (- q) = (fst (ipow q), - snd (ipow q)).
Proof.
  unfold ipow.
  replace (- q) with (0 - q) by lia. rewrite Zminus_mod.
  pose proof (Z.mod_pos_bound q 4 ltac:(lia)) as Hq.
  assert (q mod 4 = 0 \/ q mod 4 = 1 \/ q mod 4 = 2 \/ q mod 4 = 3)
    as [-> | [-> | [-> | ->]]] by lia; reflexivity.
Qed.

Section Inverse.

Local Open Scope R_scope.

Lemma cauchy_bound (a b p q E S : R) :
  0 <= E -> 0 <= S ->
  - E <= a <= E -> - E <= b <= E -> p * p + q * q <= S * S ->
  - (2 * E * S) <= a * p - b * q <= 2 * E * S.
Proof.
  intros HE HS Ha Hb Hpq.
  destruct (cnorm2_bound (p, q) S HS Hpq) as [Bp Bq]. cbn [fst snd] in Bp, Bq.
  pose proof (prod_bound a p E S Ha Bp).
  pose proof (prod_bound b q E S Hb Bq).
  lra.
Qed.

(** The sharper bound: a vector of coordinates at most [E] times a number
    of squared length at most [S2] has coordinates at most [E * W], when
    [2 * S2 <= W * W]. *)
Lemma turn_bound (a b p q E S2 W : R) :
  0 <= E -> 0 <= W ->
  - E <= a <= E -> - E <= b <= E -> p * p + q * q <= S2 ->
  2 * S2 <= W * W ->
  - (E * W) <= a * p - b * q <= E * W.
Proof.
  intros HE HW Ha Hb Hpq HS.
  apply square_bound with (a * q + b * p).
  - apply Rmult_le_pos; assumption.
  - replace ((a * p - b * q) * (a * p - b * q)
             + (a * q + b * p) * (a * q + b * p))
      with ((a * a + b * b) * (p * p + q * q)) by ring.
    pose proof (sq_le a E Ha) as [A0 A1].
    pose proof (sq_le b E Hb) as [B0 B1].
    assert (0 <= p * p + q * q)
      by (pose proof (Rle_0_sqr p); pose proof (Rle_0_sqr q);
          unfold Rsqr in *; lra).
    assert ((a * a + b * b) * (p * p + q * q) <= (2 * (E * E)) * S2)
      by (apply Rmult_le_compat; lra).
    assert (0 <= E * E) by (apply Rmult_le_pos; assumption).
    assert (E * E * (2 * S2) <= E * E * (W * W))
      by (apply Rmult_le_compat_l; assumption).
    lra.
Qed.

(** One coordinate of a rotation followed by the opposite rotation.
    [x], [y]: the vector; [a], [b]: the vector between the two;
    [psi1], [psi2]: the exact rotation of the first; [f1], [f2]: the phase
    between the two; [c]: the coordinate that comes back. *)
Lemma inverse_scalar (x y M a b M1 c psi1 psi2 f1 f2 K : R) :
  1 <= K <= 1.36 ->
  - / 268435456 <= kappa * kappa * K - 1 <= / 268435456 ->
  psi1 * psi1 + psi2 * psi2 = K ->
  f1 * f1 + f2 * f2 = 1 ->
  1 - / 34359738368 <= f1 <= 1 -> - / 131072 <= f2 <= / 131072 ->
  - M <= x <= M -> - M <= y <= M ->
  - (/ 2 + 30 * M / 536870912) <= a - kappa * (x * psi1 - y * psi2)
    <= / 2 + 30 * M / 536870912 ->
  - (/ 2 + 30 * M / 536870912) <= b - kappa * (x * psi2 + y * psi1)
    <= / 2 + 30 * M / 536870912 ->
  M1 = a \/ M1 = - a \/ M1 = b \/ M1 = - b ->
  - (/ 2 + 30 * M1 / 536870912)
  <= c - kappa * (a * (psi1 * f1 + psi2 * f2) - b * (psi1 * f2 - psi2 * f1))
  <= / 2 + 30 * M1 / 536870912 ->
  0 <= / 2 + 30 * M1 / 536870912 ->
  - (1.25 + M / 65536) <= c - x <= 1.25 + M / 65536.
Proof.
  intros HK Hg Hpsi Hf Hf1 Hf2 Mx My Ha Hb HM1 Hc HE2.
  pose proof kappa_range as Hk.
  set (g := kappa * kappa * K) in *.
  assert (0 <= M) as HM by lra.
  set (E1 := / 2 + 30 * M / 536870912) in *.
  assert (0 <= E1) as HE1 by (unfold E1; lra).
  set (p1 := psi1 * f1 + psi2 * f2) in *.
  set (p2 := psi1 * f2 - psi2 * f1) in *.
  assert (p1 * p1 + p2 * p2 = K) as Hp.
  { replace (p1 * p1 + p2 * p2)
      with ((psi1 * psi1 + psi2 * psi2) * (f1 * f1 + f2 * f2))
      by (unfold p1, p2; ring).
    rewrite Hpsi, Hf. ring. }
  set (k1 := kappa * psi1). set (k2 := kappa * psi2).
  set (kp1 := kappa * p1). set (kp2 := kappa * p2).
  assert (k1 * k1 + k2 * k2 <= 1 + / 268435456) as Hk12.
  { replace (k1 * k1 + k2 * k2)
      with (kappa * kappa * (psi1 * psi1 + psi2 * psi2))
      by (unfold k1, k2; ring).
    rewrite Hpsi. fold g. lra. }
  assert (kp1 * kp1 + kp2 * kp2 <= 1 + / 268435456) as Hkp.
  { replace (kp1 * kp1 + kp2 * kp2) with (kappa * kappa * (p1 * p1 + p2 * p2))
      by (unfold kp1, kp2; ring).
    rewrite Hp. fold g. lra. }
  (* the first rotation *)
  set (ea := a - kappa * (x * psi1 - y * psi2)) in *.
  set (eb := b - kappa * (x * psi2 + y * psi1)) in *.
  assert (a = (x * k1 - y * k2) + ea) as Ea by (unfold ea, k1, k2; ring).
  assert (b = (x * k2 + y * k1) + eb) as Eb by (unfold eb, k1, k2; ring).
  pose proof (turn_bound x y k1 k2 M (1 + / 268435456) 1.41422 HM
                ltac:(lra) Mx My Hk12 ltac:(lra)) as Ba.
  assert (- (M * 1.41422) <= x * k2 + y * k1 <= M * 1.41422) as Bb.
  { pose proof (turn_bound y (- x) k1 k2 M (1 + / 268435456) 1.41422 HM
                  ltac:(lra) My ltac:(lra) Hk12 ltac:(lra)) as B.
    replace (y * k1 - - x * k2) with (x * k2 + y * k1) in B by ring.
    exact B. }
  assert (M1 <= M * 1.41422 + E1) as BM1
    by (destruct HM1 as [-> | [-> | [-> | ->]]]; lra).
  (* what comes back *)
  set (ec := c - kappa * (a * p1 - b * p2)) in *.
  assert (c - x = x * (g * f1 - 1) - y * (g * f2)
                  + (ea * kp1 - eb * kp2) + ec) as Ec.
  { unfold ec.
    replace (kappa * (a * p1 - b * p2)) with (a * kp1 - b * kp2)
      by (unfold kp1, kp2; ring).
    rewrite Ea, Eb.
    replace (g * f1) with (k1 * kp1 - k2 * kp2).
    2:{ unfold k1, k2, kp1, kp2, p1, p2, g. rewrite <- Hpsi. ring. }
    replace (g * f2) with (k1 * kp2 + k2 * kp1).
    2:{ unfold k1, k2, kp1, kp2, p1, p2, g. rewrite <- Hpsi. ring. }
    ring. }
  pose proof (turn_bound ea eb kp1 kp2 E1 (1 + / 268435456) 1.41422 HE1
                ltac:(lra) Ha Hb Hkp ltac:(lra)) as Te.
  assert (- / 100000000 <= g * f1 - 1 <= / 100000000) as Bgf1.
  { assert (- (1 + / 268435456) <= g <= 1 + / 268435456) as Bg by lra.
    assert (- / 34359738368 <= f1 - 1 <= / 34359738368) as Bf by lra.
    pose proof (prod_bound g (f1 - 1) _ _ Bg Bf). lra. }
  assert (- (/ 131072 + / 1000000000000) <= g * f2
          <= / 131072 + / 1000000000000) as Bgf2.
  { assert (- (1 + / 268435456) <= g <= 1 + / 268435456) as Bg by lra.
    pose proof (prod_bound g f2 _ _ Bg Hf2). lra. }
  pose proof (prod_bound x (g * f1 - 1) _ _ Mx Bgf1) as Ta.
  pose proof (prod_bound y (g * f2) _ _ My Bgf2) as Tb.
  rewrite Ec. clear Ec Ea Eb.
  set (ta := x * (g * f1 - 1)) in *. set (tb := y * (g * f2)) in *.
  set (te := ea * kp1 - eb * kp2) in *.
  clearbody ta tb te ec.
  clear - Ta Tb Te Hc BM1 HE1 HM HE2.
  unfold E1 in *. lra.
Qed.

End Inverse.

Section InverseBridge.

Local Open Scope R_scope.

Lemma conj_cmul (p q : R * R) : conj (cmul p q) = cmul (conj p) (conj q).
Proof. unfold conj, cmul. cbn [fst snd]. f_equal; ring. Qed.

Lemma real2_ipow_opp (q : Z) : real2 (ipow (- q)) = conj (real2 (ipow q)).
Proof.
  rewrite ipow_opp. unfold real2, conj. cbn [fst snd]. now rewrite opp_IZR.
Qed.

Lemma cnorm2_turned (q : Z) (ds : list Z) :
  Forall unit_dir ds -> length ds = 22%nat ->
  cnorm2 (cmul (real2 (ipow q)) (cprod 1 ds)) = kprod 1 22.
Proof.
  intros Hu Hl.
  rewrite cnorm2_cmul, cnorm2_real2, znorm2_ipow_unit.
  rewrite (cnorm2_cprod_unit ds 1 Hu), Hl. ring.
Qed.

Lemma max_abs_cases (a b : Z) :
  let m := IZR (Z.max (Z.abs a) (Z.abs b)) in
  (m = IZR a \/ m = - IZR a \/ m = IZR b \/ m = - IZR b) /\ 0 <= m.
Proof.
  cbv zeta. split.
  - destruct (Z.max_spec (Z.abs a) (Z.abs b)) as [[_ ->] | [_ ->]].
    + destruct (Z.abs_spec b) as [[_ ->] | [_ ->]];
        [right; right; left; reflexivity
        | right; right; right; apply opp_IZR].
    + destruct (Z.abs_spec a) as [[_ ->] | [_ ->]];
        [left; reflexivity | right; left; apply opp_IZR].
  - apply (IZR_le 0). lia.
Qed.

(** The size of a rotated vector. *)
Lemma rotated_size (x y a b : Z) (Psi : R * R) :
  cnorm2 Psi = kprod 1 22 ->
  (1 <= Z.max (Z.abs x) (Z.abs y) < 2 ^ 28)%Z ->
  (let M := IZR (Z.max (Z.abs x) (Z.abs y)) in
   - (/ 2 + 30 * M / 536870912)
   <= IZR a - kappa * fst (cmul (IZR x, IZR y) Psi)
   <= / 2 + 30 * M / 536870912 /\
   - (/ 2 + 30 * M / 536870912)
   <= IZR b - kappa * snd (cmul (IZR x, IZR y) Psi)
   <= / 2 + 30 * M / 536870912) ->
  (Z.max (Z.abs a) (Z.abs b) < 2 ^ 29)%Z.
Proof.
  intros HN HM [Qa Qb].
  set (Mz := Z.max (Z.abs x) (Z.abs y)) in *.
  assert (1 <= IZR Mz <= 268435455) as BM
    by (split; [apply (IZR_le 1) | apply (IZR_le _ 268435455)];
        change (2 ^ 28)%Z with 268435456%Z in HM; lia).
  assert (- IZR Mz <= IZR x <= IZR Mz) as Bx.
  { split; [rewrite <- opp_IZR|]; apply IZR_le; unfold Mz; lia. }
  assert (- IZR Mz <= IZR y <= IZR Mz) as By.
  { split; [rewrite <- opp_IZR|]; apply IZR_le; unfold Mz; lia. }
  destruct Psi as [p1 p2]. unfold cnorm2, cmul in *. cbn [fst snd] in *.
  pose proof kprod_22_range as HK. pose proof gain_times_scale as Hg.
  cbn [pow] in Hg. pose proof kappa_range as Hk.
  set (K := kprod 1 22) in *.
  set (k1 := kappa * p1). set (k2 := kappa * p2).
  assert (k1 * k1 + k2 * k2 <= 1 + / 268435456) as Hk12.
  { replace (k1 * k1 + k2 * k2) with (kappa * kappa * (p1 * p1 + p2 * p2))
      by (unfold k1, k2; ring).
    rewrite HN. lra. }
  pose proof (turn_bound (IZR x) (IZR y) k1 k2 (IZR Mz) (1 + / 268435456)
                1.41422 ltac:(lra) ltac:(lra) Bx By Hk12 ltac:(lra)) as Ba.
  assert (- (IZR Mz * 1.41422) <= IZR x * k2 + IZR y * k1 <= IZR Mz * 1.41422)
    as Bb.
  { pose proof (turn_bound (IZR y) (- IZR x) k1 k2 (IZR Mz) (1 + / 268435456)
                  1.41422 ltac:(lra) ltac:(lra) By ltac:(lra) Hk12 ltac:(lra))
      as B.
    replace (IZR y * k1 - - IZR x * k2) with (IZR x * k2 + IZR y * k1) in B
      by ring.
    exact B. }
  replace (kappa * (IZR x * p1 - IZR y * p2)) with (IZR x * k1 - IZR y * k2)
    in Qa by (unfold k1, k2; ring).
  replace (kappa * (IZR x * p2 + IZR y * p1)) with (IZR x * k2 + IZR y * k1)
    in Qb by (unfold k1, k2; ring).
  assert (- 536870911 <= IZR a <= 536870911) as [A1 A2] by lra.
  assert (- 536870911 <= IZR b <= 536870911) as [B1 B2] by lra.
  apply le_IZR in A1, A2, B1, B2.
  change (2 ^ 29)%Z with 536870912%Z. lia.
Qed.

Lemma inverse_bridge (x y a b c d : Z) (Psi1 Psi2 H : R * R) :
  cnorm2 Psi1 = kprod 1 22 ->
  0 < fst H -> - fst H <= 262144 * snd H <= fst H ->
  cscale (cnorm2 H) Psi2 = cmul (conj Psi1) (cmul H H) ->
  (let M := IZR (Z.max (Z.abs x) (Z.abs y)) in
   - (/ 2 + 30 * M / 536870912)
   <= IZR a - kappa * fst (cmul (IZR x, IZR y) Psi1)
   <= / 2 + 30 * M / 536870912 /\
   - (/ 2 + 30 * M / 536870912)
   <= IZR b - kappa * snd (cmul (IZR x, IZR y) Psi1)
   <= / 2 + 30 * M / 536870912) ->
  (let M := IZR (Z.max (Z.abs a) (Z.abs b)) in
   - (/ 2 + 30 * M / 536870912)
   <= IZR c - kappa * fst (cmul (IZR a, IZR b) Psi2)
   <= / 2 + 30 * M / 536870912 /\
   - (/ 2 + 30 * M / 536870912)
   <= IZR d - kappa * snd (cmul (IZR a, IZR b) Psi2)
   <= / 2 + 30 * M / 536870912) ->
  (65536 * Z.abs (c - x) <= 81920 + Z.max (Z.abs x) (Z.abs y))%Z /\
  (65536 * Z.abs (d - y) <= 81920 + Z.max (Z.abs x) (Z.abs y))%Z.
Proof.
  intros HN Hpos Hslope Hphase [Qa Qb] [Qc Qd].
  set (Mz := Z.max (Z.abs x) (Z.abs y)) in *.
  destruct (max_abs_cases a b) as [Hcases HM1].
  set (M1 := IZR (Z.max (Z.abs a) (Z.abs b))) in *.
  assert (- IZR Mz <= IZR x <= IZR Mz) as Bx.
  { split; [rewrite <- opp_IZR|]; apply IZR_le; unfold Mz; lia. }
  assert (- IZR Mz <= IZR y <= IZR Mz) as By.
  { split; [rewrite <- opp_IZR|]; apply IZR_le; unfold Mz; lia. }
  set (N := fst H * fst H + snd H * snd H).
  assert (0 < N) as HNp.
  { unfold N. assert (0 < fst H * fst H) by (apply Rmult_lt_0_compat; lra).
    pose proof (Rle_0_sqr (snd H)) as Hq. unfold Rsqr in Hq. lra. }
  destruct (phase_split N _ _ H HNp Hphase) as [Ep1 Ep2].
  destruct (phase_bounds (fst H) (snd H) Hpos Hslope) as (Hf & Hf1 & Hf2).
  fold N in Hf, Hf1, Hf2.
  set (f1 := (fst H * fst H - snd H * snd H) / N) in *.
  set (f2 := 2 * fst H * snd H / N) in *.
  destruct Psi1 as [p1 p2], Psi2 as [s1 s2].
  unfold conj, cnorm2, cmul in *. cbn [fst snd] in *.
  pose proof kprod_22_range as HK. pose proof gain_times_scale as Hg.
  cbn [pow] in Hg.
  set (K := kprod 1 22) in *.
  assert (0 <= / 2 + 30 * M1 / 536870912) as HE2 by lra.
  rewrite Ep1, Ep2 in Qc, Qd.
  assert (- (1.25 + IZR Mz / 65536) <= IZR c - IZR x <= 1.25 + IZR Mz / 65536)
    as R1.
  { apply (inverse_scalar (IZR x) (IZR y) (IZR Mz) (IZR a) (IZR b) M1 (IZR c)
                          p1 p2 f1 f2 K); try assumption; lra. }
  assert (- (1.25 + IZR Mz / 65536) <= IZR d - IZR y <= 1.25 + IZR Mz / 65536)
    as R2.
  { apply (inverse_scalar (IZR y) (- IZR x) (IZR Mz) (IZR b) (- IZR a) M1
                          (IZR d) p1 p2 f1 f2 K); try assumption; lra. }
  clear - R1 R2. fold Mz.
  split; apply le_IZR; rewrite plus_IZR, mult_IZR, abs_IZR, minus_IZR.
  - unfold Rabs. destruct (Rcase_abs (IZR c - IZR x)); lra.
  - unfold Rabs. destruct (Rcase_abs (IZR d - IZR y)); lra.
Qed.

End InverseBridge.

(** X22: a rotation followed by the opposite rotation gives the vector
    back.  For a non-zero vector with components below 2^28 in magnitude
    and a 32-bit angle other than the most negative one,
    [PVG_FT_Vector_Rotate] by the angle and then by its opposite returns a
    vector whose coordinates each lie within [1.25 + M / 65536] of those of
    the argument, [M] being the larger magnitude of the two. *)
Theorem rotate_inverse (x y theta : Z) :
  ~ (x = 0 /\ y = 0) -> Z.max (Z.abs x) (Z.abs y) < 2 ^ 28 ->
  int32 theta -> int32 (- theta) ->
  exists v1 v2 : PVG_FT_Vector,
    PVG_FT_Vector_Rotate (mkVec x y) theta = Some v1 /\
    PVG_FT_Vector_Rotate v1 (- theta) = Some v2 /\
    65536 * Z.abs (vx v2 - x) <= 81920 + Z.max (Z.abs x) (Z.abs y) /\
    65536 * Z.abs (vy v2 - y) <= 81920 + Z.max (Z.abs x) (Z.abs y).
Proof.
  intros Hnz HM Ht Ht'.
  destruct (rotate_exact x y theta Hnz
              ltac:(change (2 ^ 28) with 268435456 in HM;
                    change (2 ^ 29) with 536870912; lia) Ht)
    as (ds1 & a & b & _ & Hu1 & Hl1 & Hres1 & Hrot1 & Q1).
  cbv zeta in Q1.
  set (Psi1 := cmul (real2 (ipow (quarter_turns theta))) (cprod 1 ds1)) in *.
  pose proof (cnorm2_turned (quarter_turns theta) ds1 Hu1 Hl1) as HN1.
  fold Psi1 in HN1.
  exists (mkVec a b). rewrite Hrot1.
  destruct (Z.eq_dec (Z.max (Z.abs a) (Z.abs b)) 0) as [E0 | Hne].
  - assert (a = 0) as -> by lia. assert (b = 0) as -> by lia.
    exists (mkVec 0 0).
    split; [reflexivity|]. split; [reflexivity|]. cbn [vx vy].
    apply (inverse_bridge x y 0 0 0 0 Psi1 (conj Psi1) (1, 0)%R HN1);
      try exact Q1.
    + cbn [fst]. lra.
    + cbn [fst snd]. lra.
    + unfold cscale, cmul, cnorm2, conj. cbn [fst snd]. f_equal; ring.
    + cbv zeta. change (Z.max (Z.abs 0) (Z.abs 0)) with 0.
      unfold cmul. cbn [fst snd]. split; lra.
  - assert (Z.max (Z.abs a) (Z.abs b) < 2 ^ 29) as HM1.
    { apply (rotated_size x y a b Psi1 HN1); [|exact Q1]. lia. }
    destruct (rotate_exact a b (- theta) ltac:(lia) HM1 Ht')
      as (ds2 & c & d & _ & Hu2 & Hl2 & Hres2 & Hrot2 & Q2).
    exists (mkVec c d). split; [reflexivity|]. split; [exact Hrot2|].
    cbn [vx vy].
    destruct (engines_phase (- quarter_turns theta) (quarter_turns (- theta))
                ds1 ds2 Hu1 Hu2 Hl1 Hl2) as (H & Hpos & Hslope & Hphase).
    { clear - Hres1 Hres2. angle_consts. lia. }
    apply (inverse_bridge x y a b c d Psi1
             (cmul (real2 (ipow (quarter_turns (- theta)))) (cprod 1 ds2))
             H HN1 Hpos Hslope);
      [|exact Q1 | exact Q2].
    rewrite Hphase. unfold Psi1.
    rewrite conj_cmul, real2_ipow_opp. reflexivity.
Qed.

Lemma rotate_inverse_witness :
  exists v1 v2 : PVG_FT_Vector,
    PVG_FT_Vector_Rotate (mkVec 30000 (-40000)) 2000000 = Some v1 /\
    PVG_FT_Vector_Rotate v1 (- 2000000) = Some v2 /\
    65536 * Z.abs (vx v2 - 30000)
    <= 81920 + Z.max (Z.abs 30000) (Z.abs (-40000)) /\
    65536 * Z.abs (vy v2 - -40000)
    <= 81920 + Z.max (Z.abs 30000) (Z.abs (-40000)).
Proof.
  apply (rotate_inverse 30000 (-40000) 2000000).
  - intros [H _]. discriminate H.
  - vm_compute. reflexivity.
  - vm_compute. split; [discriminate | reflexivity].
  - vm_compute. split; [discriminate | reflexivity].
Defined.

(** ** Rotations by whole quarter turns *)

Lemma quarter_turns_multiple (k : Z) :
  int32 (k * PVG_FT_ANGLE_PI2) -> quarter_turns (k * PVG_FT_ANGLE_PI2) = k.
Proof.
  intros Hk. pose proof (quarter_turns_spec _ Hk) as (_ & Hr & _).
  revert Hr. angle_consts. lia.
Qed.

(** The directions the rotation engine takes on the angle zero. *)
Definition zero_dirs : list Z :=
  [-1; 1; 1; 1; 1; 1; -1; -1; -1; -1; -1; 1; -1; 1; -1; 1; 1; -1; -1; -1; -1; -1].

Lemma zero_dirs_ok : angle_dirs 1 22 0 = zero_dirs.
Proof. vm_compute. reflexivity. Qed.

Lemma max_abs_ipow (k x y : Z) :
  Z.max (Z.abs (fst (zmul (ipow k) (x, y)))) (Z.abs (snd (zmul (ipow k) (x, y))))
  = Z.max (Z.abs x) (Z.abs y).
Proof.
  unfold ipow, zmul.
  pose proof (Z.mod_pos_bound k 4 ltac:(lia)) as Hq.
  assert (k mod 4 = 0 \/ k mod 4 = 1 \/ k mod 4 = 2 \/ k mod 4 = 3)
    as [-> | [-> | [-> | ->]]] by lia; cbn [fst snd]; lia.
Qed.

Section Quarter.

Local Open Scope R_scope.

(** The exact rotation of the angle zero, shrunk: the number one, up to
    the angle the table cannot express. *)
Lemma zero_product :
  - / 1000000000 <= kappa * fst (cprod 1 zero_dirs) - 1 <= / 1000000000 /\
  - (32 / 1000000000) <= kappa * snd (cprod 1 zero_dirs) <= 32 / 1000000000.
Proof.
  assert (Forall tern zero_dirs) as Ht
    by (unfold zero_dirs; repeat constructor; unfold tern; lia).
  pose proof (srun_exact zero_dirs (2 ^ 60, 0)%Z ltac:(cbn; lia) Ht) as [Wx Wy].
  assert (srun 1 zero_dirs (2 ^ 60, 0)%Z
          = (1342502550558059726, 42014724248)%Z) as E
    by (vm_compute; reflexivity).
  rewrite E in Wx, Wy.
  set (G := cprod 1 zero_dirs) in *.
  unfold real2, cmul in Wx, Wy. cbn [fst snd] in Wx, Wy.
  change (IZR (2 ^ 60)) with 1152921504606846976 in Wx, Wy.
  clearbody G. unfold kappa, PVG_FT_TRIG_SCALE.
  replace (2 ^ 32) with 4294967296 by (cbn [pow]; lra).
  split; lra.
Qed.

Lemma quarter_real (X Y M r g1 g2 : R) :
  - M <= X <= M -> - M <= Y <= M -> M <= 4194303 ->
  - / 1000000000 <= g1 - 1 <= / 1000000000 ->
  - (32 / 1000000000) <= g2 <= 32 / 1000000000 ->
  - (/ 2 + 30 * M / 536870912) <= r - (X * g1 - Y * g2)
    <= / 2 + 30 * M / 536870912 ->
  - 1 < r - X < 1.
Proof.
  intros HX HY HM Hg1 Hg2 Hr.
  pose proof (prod_bound X (g1 - 1) M (/ 1000000000) HX Hg1).
  pose proof (prod_bound Y g2 M (32 / 1000000000) HY Hg2).
  split; lra.
Qed.

End Quarter.

(** X23: a rotation by a whole number of quarter turns is exact.  For a
    non-zero vector with components below 2^22 in magnitude and an integer
    [k] with [k] quarter turns a 32-bit angle, [PVG_FT_Vector_Rotate] by
    that angle returns the vector turned: itself, [(- y, x)], [(- x, - y)]
    or [(y, - x)] as [k] is 0, 1, 2 or 3 modulo 4. *)
Theorem rotate_quarter_turns (x y k : Z) :
  ~ (x = 0 /\ y = 0) -> Z.max (Z.abs x) (Z.abs y) < 2 ^ 22 ->
  int32 (k * PVG_FT_ANGLE_PI2) ->
  PVG_FT_Vector_Rotate (mkVec x y) (k * PVG_FT_ANGLE_PI2)
  = Some (match k mod 4 with
          | 0 => mkVec x y
          | 1 => mkVec (- y) x
          | 2 => mkVec (- x) (- y)
          | _ => mkVec y (- x)
          end).
Proof.
  intros Hnz HM Hk. change (2 ^ 22) with 4194304 in HM.
  destruct (rotate_exact x y (k * PVG_FT_ANGLE_PI2) Hnz
              ltac:(change (2 ^ 29) with 536870912; lia) Hk)
    as (ds & r1 & r2 & Hdirs & _ & _ & _ & Hrot & Q).
  rewrite (quarter_turns_multiple k Hk) in Hdirs, Q.
  rewrite Z.sub_diag, zero_dirs_ok in Hdirs. subst ds.
  rewrite Hrot. cbv zeta in Q.
  set (M := Z.max (Z.abs x) (Z.abs y)) in *.
  set (p := zmul (ipow k) (x, y)).
  pose proof (max_abs_ipow k x y) as HMp. fold p M in HMp.
  destruct zero_product as [Hg1 Hg2].
  set (g1 := (kappa * fst (cprod 1 zero_dirs))%R) in *.
  set (g2 := (kappa * snd (cprod 1 zero_dirs))%R) in *.
  assert (cmul (IZR x, IZR y) (cmul (real2 (ipow k)) (cprod 1 zero_dirs))
          = cmul (real2 p) (cprod 1 zero_dirs)) as Ep.
  { unfold p. rewrite real2_zmul.
    rewrite <- cmul_assoc. f_equal. apply cmul_comm. }
  rewrite Ep in Q. unfold cmul, real2 in Q. cbn [fst snd] in Q.
  destruct Q as [Q1 Q2].
  assert (- IZR M <= IZR (fst p) <= IZR M)%R as Bx
    by (split; [rewrite <- opp_IZR|]; apply IZR_le; lia).
  assert (- IZR M <= IZR (snd p) <= IZR M)%R as By
    by (split; [rewrite <- opp_IZR|]; apply IZR_le; lia).
  assert (IZR M <= 4194303)%R as BM by (apply (IZR_le _ 4194303); lia).
  assert (r1 = fst p) as E1.
  { assert (- 1 < IZR r1 - IZR (fst p) < 1)%R as [L1 L2].
    { apply (quarter_real (IZR (fst p)) (IZR (snd p)) (IZR M) (IZR r1) g1 g2);
        try assumption.
      replace (IZR (fst p) * g1 - IZR (snd p) * g2)%R
        with (kappa * (IZR (fst p) * fst (cprod 1 zero_dirs)
                       - IZR (snd p) * snd (cprod 1 zero_dirs)))%R
        by (unfold g1, g2; ring).
      exact Q1. }
    rewrite <- minus_IZR in L1, L2.
    apply (lt_IZR (-1)) in L1. apply (lt_IZR _ 1) in L2. lia. }
  assert (r2 = snd p) as E2.
  { assert (- 1 < IZR r2 - IZR (snd p) < 1)%R as [L1 L2].
    { apply (quarter_real (IZR (snd p)) (- IZR (fst p)) (IZR M) (IZR r2) g1 g2);
        try assumption; try lra.
      replace (IZR (snd p) * g1 - - IZR (fst p) * g2)%R
        with (kappa * (IZR (fst p) * snd (cprod 1 zero_dirs)
                       + IZR (snd p) * fst (cprod 1 zero_dirs)))%R
        by (unfold g1, g2; ring).
      exact Q2. }
    rewrite <- minus_IZR in L1, L2.
    apply (lt_IZR (-1)) in L1. apply (lt_IZR _ 1) in L2. lia. }
  rewrite E1, E2. unfold p, zmul, ipow. f_equal.
  pose proof (Z.mod_pos_bound k 4 ltac:(lia)) as Hq.
  assert (k mod 4 = 0 \/ k mod 4 = 1 \/ k mod 4 = 2 \/ k mod 4 = 3)
    as [-> | [-> | [-> | ->]]] by lia; cbn [fst snd]; f_equal; lia.
Qed.

Lemma rotate_quarter_turns_witness :
  PVG_FT_Vector_Rotate (mkVec 30000 (-40000)) (-3 * PVG_FT_ANGLE_PI2)
  = Some (match -3 mod 4 with
          | 0 => mkVec 30000 (-40000)
          | 1 => mkVec (- -40000) 30000
          | 2 => mkVec (- 30000) (- -40000)
          | _ => mkVec (-40000) (- 30000)
          end).
Proof.
  apply (rotate_quarter_turns 30000 (-40000) (-3)).
  - intros [H _]. discriminate H.
  - vm_compute. reflexivity.
  - vm_compute. split; [discriminate | reflexivity].
Defined.

(** ** The unit vector against the polar form of the number one *)

Section UnitPolar.

Local Open Scope R_scope.

(** On the reals: [c] is a coordinate of the unit vector, [r] of the
    vector of length one in polar form, [t] the exact coordinate both
    come from. *)
Lemma unit_polar_real (c x' r t : R) :
  - 1.17 <= t <= 1.17 ->
  - 33 <= x' - 14408027 * t <= 33 ->
  - 128 <= 256 * c - x' <= 128 ->
  - (/ 2 + 30 * 65536 / 536870912) <= r - kappa * (65536 * t)
    <= / 2 + 30 * 65536 / 536870912 ->
  - 2 < c - r < 2.
Proof.
  intros Ht Hx Hc Hr. unfold kappa, PVG_FT_TRIG_SCALE in Hr.
  replace (2 ^ 32) with 4294967296 in Hr by (cbn [pow]; lra).
  split; lra.
Qed.

End UnitPolar.

(** X24: the unit vector is the polar form of the number one.  For every
    32-bit angle [PVG_FT_Vector_Unit] and [PVG_FT_Vector_From_Polar] of
    the length 0x10000 return vectors that differ by at most one unit in
    each coordinate. *)
Theorem Unit_matches_From_Polar (theta : Z) :
  int32 theta ->
  exists u v : PVG_FT_Vector,
    PVG_FT_Vector_Unit theta = Some u /\
    PVG_FT_Vector_From_Polar 0x10000 theta = Some v /\
    Z.abs (vx u - vx v) <= 1 /\ Z.abs (vy u - vy v) <= 1.
Proof.
  intros Ht.
  destruct (unit_run theta Ht)
    as (ds1 & x' & y' & Hd1 & Hu1 & Hl1 & _ & Hrot1 & [Wx Wy]).
  destruct (rotate_exact 65536 0 theta
              ltac:(intros [H _]; discriminate H)
              ltac:(vm_compute; reflexivity) Ht)
    as (ds2 & r1 & r2 & Hd2 & _ & _ & _ & Hrot2 & Q).
  rewrite <- Hd1 in Hd2. subst ds2.
  destruct (unit_vector_raw theta Ht)
    as (x1 & y1 & e & Hr & _ & _ & Bx & By).
  rewrite Hrot1 in Hr. injection Hr as <- <-.
  change (2 ^ 24 + 33) with 16777249 in Bx, By.
  pose proof (cos_round_near x' ltac:(change (2 ^ 30) with 1073741824; lia))
    as Cx.
  pose proof (cos_round_near y' ltac:(change (2 ^ 30) with 1073741824; lia))
    as Cy.
  unfold PVG_FT_Vector_Unit, PVG_FT_Vector_From_Polar. fold trig_unit.
  rewrite Hrot1, Hrot2.
  do 2 eexists. split; [reflexivity|]. split; [reflexivity|]. cbn [vx vy].
  fold (cos_round x') (cos_round y').
  set (c1 := cos_round x') in *. set (c2 := cos_round y') in *.
  cbv zeta in Q.
  set (Psi := cmul (real2 (ipow (quarter_turns theta))) (cprod 1 ds1)) in *.
  pose proof (cnorm2_turned (quarter_turns theta) ds1 Hu1 Hl1) as HN.
  fold Psi in HN. pose proof kprod_22_range as HK.
  destruct (cnorm2_bound Psi 1.17 ltac:(lra) ltac:(lra)) as [B1 B2].
  unfold real2, cscale in Wx, Wy. cbn [fst snd] in Wx, Wy.
  change (Z.max (Z.abs 65536) (Z.abs 0)) with 65536 in Q.
  unfold cmul in Q. cbn [fst snd] in Q. destruct Q as [Q1 Q2].
  assert (- 128 <= 256 * c1 - x' <= 128) as [A1 A2] by lia.
  assert (- 128 <= 256 * c2 - y' <= 128) as [A3 A4] by lia.
  apply IZR_le in A1, A2, A3, A4.
  rewrite minus_IZR, mult_IZR in A1, A2, A3, A4.
  assert (- 2 < IZR c1 - IZR r1 < 2)%R as [L1 L2].
  { apply (unit_polar_real (IZR c1) (IZR x') (IZR r1) (fst Psi)); lra. }
  assert (- 2 < IZR c2 - IZR r2 < 2)%R as [L3 L4].
  { apply (unit_polar_real (IZR c2) (IZR y') (IZR r2) (snd Psi)); lra. }
  rewrite <- minus_IZR in L1, L2, L3, L4.
  apply (lt_IZR (-2)) in L1, L3. apply (lt_IZR _ 2) in L2, L4. lia.
Qed.

Lemma Unit_matches_From_Polar_witness :
  exists u v : PVG_FT_Vector,
    PVG_FT_Vector_Unit 32888242 = Some u /\
    PVG_FT_Vector_From_Polar 0x10000 32888242 = Some v /\
    Z.abs (vx u - vx v) <= 1 /\ Z.abs (vy u - vy v) <= 1.
Proof.
  apply (Unit_matches_From_Polar 32888242).
  vm_compute. split; [discriminate | reflexivity].
Defined.

(** ** The polar form against the cosine and the sine *)

Section PolarCos.

Local Open Scope R_scope.

(** On the reals: [r] is a coordinate of the polar form of the length
    [L], [c] the value of the cosine or of the sine, [x'] the coordinate
    it is rounded from and [t] the exact coordinate both come from, [x']
    lying within [d] of it. *)
Lemma polar_cos_real (L aL r c x' t d : R) :
  - 1.17 <= t <= 1.17 -> - aL <= L <= aL ->
  - d <= x' - 14408027 * t <= d -> 0 <= d <= 228 ->
  - 128 <= 256 * c - x' <= 128 ->
  - (/ 2 + 30 * aL / 536870912) <= r - kappa * (L * t)
    <= / 2 + 30 * aL / 536870912 ->
  - (32768 + (d + 129) / 200 * aL) <= 65536 * r - L * c
    <= 32768 + (d + 129) / 200 * aL.
Proof.
  intros Ht HL Hx Hd Hc Hr. unfold kappa, PVG_FT_TRIG_SCALE in Hr.
  replace (2 ^ 32) with 4294967296 in Hr by (cbn [pow]; lra).
  set (w := 256 * c - 14408027 * t).
  assert (- (d + 128) <= w <= d + 128) as Hw by (unfold w; lra).
  pose proof (prod_bound L w aL (d + 128) HL Hw) as P1.
  pose proof (prod_bound L t aL 1.17 HL ltac:(lra)) as P2.
  assert (L * c = (L * w + 14408027 * (L * t)) / 256) as Ec
    by (unfold w; field).
  rewrite Ec. clearbody w. clear Ec Hw Hx Hc.
  assert (0 <= aL) by lra.
  assert (0 <= d * aL) by (apply Rmult_le_pos; lra).
  split; lra.
Qed.

End PolarCos.

(** X25: the polar form is the length times the cosine and the sine.
    For a length below 2^29 in magnitude and a 32-bit angle whose
    complement to a quarter turn is a 32-bit value too,
    [PVG_FT_Vector_From_Polar] returns a vector [v] with
    [|65536 * vx v - L * cos| <= 32768 + |L|] and
    [|65536 * vy v - L * sin| <= 32768 + 2 * |L|], for the values of
    [PVG_FT_Cos] and [PVG_FT_Sin] at the angle. *)
Theorem From_Polar_cos_sin (L theta : Z) :
  Z.abs L < 2 ^ 29 -> int32 theta -> int32 (PVG_FT_ANGLE_PI2 - theta) ->
  exists (v : PVG_FT_Vector) (c s : Z),
    PVG_FT_Vector_From_Polar L theta = Some v /\
    PVG_FT_Cos theta = Some c /\ PVG_FT_Sin theta = Some s /\
    Z.abs (65536 * vx v - L * c) <= 32768 + Z.abs L /\
    Z.abs (65536 * vy v - L * s) <= 32768 + 2 * Z.abs L.
Proof.
  intros HL Ht Ht2.
  destruct (unit_run theta Ht)
    as (ds1 & x1 & y1 & Hd1 & Hu1 & Hl1 & _ & Hrot1 & [Wx Wy]).
  destruct (sin_unit_raw theta Ht Ht2)
    as (x1' & y1' & x2 & y2 & Hr1 & Hrot2 & Hclose).
  rewrite Hrot1 in Hr1. injection Hr1 as <- <-.
  destruct (unit_vector_raw theta Ht) as (x1' & y1' & e1 & Hr1 & _ & _ & Bx1 & _).
  rewrite Hrot1 in Hr1. injection Hr1 as <- <-.
  destruct (unit_vector_raw _ Ht2) as (x2' & y2' & e2 & Hr2 & _ & _ & Bx2 & _).
  rewrite Hrot2 in Hr2. injection Hr2 as <- <-.
  change (2 ^ 24 + 33) with 16777249 in Bx1, Bx2.
  pose proof (cos_round_near x1 ltac:(change (2 ^ 30) with 1073741824; lia))
    as C1.
  pose proof (cos_round_near x2 ltac:(change (2 ^ 30) with 1073741824; lia))
    as C2.
  unfold PVG_FT_Sin, PVG_FT_Cos. fold trig_unit.
  rewrite (wrap32_id _ Ht2), Hrot1, Hrot2. cbn [vx].
  fold (cos_round x1) (cos_round x2).
  set (c := cos_round x1) in *. set (s := cos_round x2) in *.
  destruct (Z.eq_dec L 0) as [-> | HLn].
  - exists (mkVec 0 0), c, s.
    split; [reflexivity|]. split; [reflexivity|]. split; [reflexivity|].
    cbn [vx vy]. lia.
  - destruct (rotate_exact L 0 theta ltac:(lia)
                ltac:(change (Z.abs 0) with 0; lia) Ht)
      as (ds2 & r1 & r2 & Hd2 & _ & _ & _ & HrotL & Q).
    rewrite <- Hd1 in Hd2. subst ds2.
    unfold PVG_FT_Vector_From_Polar. rewrite HrotL.
    exists (mkVec r1 r2), c, s.
    split; [reflexivity|]. split; [reflexivity|]. split; [reflexivity|].
    cbn [vx vy]. cbv zeta in Q.
    set (Psi := cmul (real2 (ipow (quarter_turns theta))) (cprod 1 ds1)) in *.
    pose proof (cnorm2_turned (quarter_turns theta) ds1 Hu1 Hl1) as HN.
    fold Psi in HN. pose proof kprod_22_range as HK.
    destruct (cnorm2_bound Psi 1.17 ltac:(lra) ltac:(lra)) as [B1 B2].
    unfold real2, cscale in Wx, Wy. cbn [fst snd] in Wx, Wy.
    replace (Z.max (Z.abs L) (Z.abs 0)) with (Z.abs L) in Q by lia.
    unfold cmul in Q. cbn [fst snd] in Q. destruct Q as [Q1 Q2].
    assert (- IZR (Z.abs L) <= IZR L <= IZR (Z.abs L))%R as BL
      by (split; [rewrite <- opp_IZR|]; apply IZR_le; lia).
    assert (- 128 <= 256 * c - x1 <= 128) as [A1 A2] by lia.
    assert (- 128 <= 256 * s - x2 <= 128) as [A3 A4] by lia.
    assert (- 195 <= x2 - y1 <= 195) as [A5 A6] by lia.
    apply IZR_le in A1, A2, A3, A4, A5, A6.
    rewrite minus_IZR in A1, A2, A3, A4, A5, A6.
    rewrite mult_IZR in A1, A2, A3, A4.
    pose proof (polar_cos_real (IZR L) (IZR (Z.abs L)) (IZR r1) (IZR c)
                  (IZR x1) (fst Psi) 33 ltac:(lra) BL ltac:(lra) ltac:(lra)
                  ltac:(lra) ltac:(lra)) as [R1 R2].
    pose proof (polar_cos_real (IZR L) (IZR (Z.abs L)) (IZR r2) (IZR s)
                  (IZR x2) (snd Psi) 228 ltac:(lra) BL ltac:(lra) ltac:(lra)
                  ltac:(lra) ltac:(lra)) as [R3 R4].
    assert (0 <= IZR (Z.abs L))%R as HaL by (apply (IZR_le 0); lia).
    assert (- (32768 + Z.abs L) <= 65536 * r1 - L * c <= 32768 + Z.abs L)
      as Z1.
    { clear - R1 R2 HaL. split; apply le_IZR; push_IZR; lra. }
    assert (- (32768 + 2 * Z.abs L) <= 65536 * r2 - L * s
            <= 32768 + 2 * Z.abs L) as Z2.
    { clear - R3 R4 HaL. split; apply le_IZR; push_IZR; lra. }
    clear - Z1 Z2. lia.
Qed.

Lemma From_Polar_cos_sin_witness :
  exists (v : PVG_FT_Vector) (c s : Z),
    PVG_FT_Vector_From_Polar 1000000 1234567 = Some v /\
    PVG_FT_Cos 1234567 = Some c /\ PVG_FT_Sin 1234567 = Some s /\
    Z.abs (65536 * vx v - 1000000 * c) <= 32768 + Z.abs 1000000 /\
    Z.abs (65536 * vy v - 1000000 * s) <= 32768 + 2 * Z.abs 1000000.
Proof.
  apply (From_Polar_cos_sin 1000000 1234567).
  - vm_compute. reflexivity.
  - vm_compute. split; [discriminate | reflexivity].
  - vm_compute. split; [discriminate | reflexivity].
Defined.

